(* ===== verification/_CoqProject ===== *)
-Q . S2P
Prelude.v
RaftTypes.v
RaftLog.v
RaftElection.v
RaftMembership.v
RaftHealth.v
RaftStorage.v
RaftNode.v
RaftDriver.v
RaftBallot.v
RaftCluster.v
RaftReplication.v
RaftInvariant.v
IrcTypes.v
Protocol.v
ProtocolParser.v
ClusterState.v
MessageQueues.v
UserRegistry.v
