(* ===== verification/Prelude.v ===== *)
(** * pirc: consensus, replicated state, wire protocol and registries

    pirc is an IRC system: servers that form a Raft cluster and replicate the
    users and channels, a text wire protocol between clients and servers, and
    libraries for encryption, peer-to-peer sessions, scripting and plugins.  This
    library models the parts that decide what the system does with its state and
    proves what makes them correct.  Definitions keep the names of the source;
    paths below are under [src/].

    ** How the parts interact

    A client's line goes through the parser ([pirc-protocol]) to a handler of
    the server ([pirc-server]).  A handler that changes shared state proposes a
    [ClusterCommand] to the Raft driver ([pirc-server/src/raft/driver.rs]), which
    owns a node ([node.rs], [replication.rs]) with its log ([log.rs]), vote
    counter ([election.rs]), membership ([membership.rs]), health monitor
    ([health.rs]) and storage ([storage.rs]).  Committed commands are applied to
    the replicated IRC state ([state_machine.rs]), which is also what snapshots
    hold.  The server keeps its connected users in a registry ([registry.rs]) and
    messages for absent users in two queues ([failover_queue.rs],
    [offline_store.rs]).

    ** Files

    - [Prelude]: results, the state-and-error monad of methods that mutate and
      can fail, 64-bit arithmetic ([u64], and [usize] on a 64-bit target), the
      hint databases and tactics, lemmas on lists and maps.
    - [RaftTypes]: [types.rs], [state.rs], [rpc.rs], [snapshot.rs].
    - [RaftLog]: [log.rs]; module [RaftLog] has the operations on the compacted
      vector, the abstract log they refine and Raft's merge on it.
    - [RaftElection]: [election.rs]; the vote tracker and the election timeout,
      computed in binary64 as in the source; majorities intersect.
    - [RaftMembership]: [membership.rs].  [RaftHealth]: [health.rs].
    - [RaftStorage]: the trait of [storage.rs] as the class [RaftStorage], its
      documented durability (after [Ok]) as [RaftStorageLaws], and the further
      assumption that no write fails as [RaftStorageReliable]; the in-memory back
      end of [test_utils.rs] is an instance of all three.  The theorems on nodes
      are proved against the classes and say which of them they need.
    - [RaftNode]: [node.rs] and [replication.rs], every handler as a function on
      the record [RaftNode] of the struct's fields; the class [StateMachine] is
      the trait of [snapshot.rs].
    - [RaftDriver]: [driver.rs]; [driver_step] is one iteration of
      [RaftDriver::run] with the branch of [select!] that fires as an event.
    - [RaftBallot]: the specification [react] of voting and the proof that
      [driver_step] refines it.  [RaftCluster]: several drivers and a network
      ([act]).  [RaftReplication]: commit rule, delivery, snapshot transfer.
      [RaftInvariant]: the internal consistency of a node.
    - [IrcTypes]: [nickname.rs] and [channel.rs] of [pirc-common/src/types].
    - [Protocol]: [command.rs], [prefix.rs], [message.rs], [error.rs],
      [version.rs] of [pirc-protocol/src].  [ProtocolParser]: [parser.rs].
    - [ClusterState]: [cluster_command.rs] and [state_machine.rs]; an instance
      of [StateMachine], with the JSON encoder and decoder as parameters.
    - [MessageQueues]: [failover_queue.rs] and [offline_store.rs].
    - [UserRegistry]: [registry.rs] and [user.rs].

    ** What the theorems show

    - Elections.  [react] specifies voting, a rule per kind of event.  Every
      iteration of the driver refines it, for any storage and also when writes
      fail ([driver_refines_react]); a server never votes twice in a term,
      restarts included ([one_vote_per_term]), and a cluster has at most one
      leader in a term under any loss, duplication and reordering of messages
      and crashes between loop iterations ([election_safety]).  These two need
      that a restart finds the node's term and vote in its storage, which holds
      when no write fails, that the term counter is not at its last value when an
      election starts, and the second also that no vote reply of an earlier term
      is delivered.  Two conditions are shown to be needed by runs of the code
      with two leaders of one term: [stale_vote_two_leaders] (a late vote reply)
      and [failed_write_two_leaders] (one failed write and a restart).
    - Log.  [append_entries] computes Raft's merge ([append_entries_refines]),
      acceptance makes the follower's log start with the leader's
      ([replication_agreement]), repeated messages do no harm
      ([append_entries_duplicate]), compaction loses nothing above its point
      ([compaction_preserves_log]).
    - Replication.  The commit scan is Raft's commit rule
      ([advance_commit_index_greatest]); committed entries that the log still
      has reach the state machine once and in order ([apply_committed_exact]);
      snapshots arrive as sent when the receiver's writes succeed
      ([snapshot_transfer], and [snapshot_chunks_zero] for the chunk size that
      never ends).  [phantom_commit] and [restart_loses_committed] are runs
      in which the leader's match index and the missing log persistence of the
      code lose a committed entry.
    - Node.  [driver_step_wf] is an invariant of every iteration for every
      storage; [evaluate_status], [succession_order],
      [single_server_change_overlap] and [rollback_undoes_begin] are the
      contracts of health monitor, timeouts and membership.
    - Replicated state.  Every command keeps it well formed
      ([apply_preserves_wf]) and does what it says ([nick_change_moves],
      [quit_leaves_no_trace], [join_part_inverse]) and nothing else.
    - Protocol.  Printing and parsing are inverse where the wire format allows
      it ([parse_print_roundtrip], [reparse_stable]) and not where it does not
      ([fifteenth_param_keeps_colon]); the parser is total, and its length,
      empty-line, missing-command and prefix errors are characterised exactly; of
      the documented errors the one for too many parameters never occurs
      ([parse_sound]); keyword tables, versions and names
      follow their documentation ([keywords_inverse], [version_roundtrip],
      [negotiate_min], [nickname_accepts_exactly], [name_eq_iff_same_hash]).
    - Server.  The registry's two maps stay in agreement over calls that do not
      overlap ([registry_consistent]), a nick change moves exactly one user
      ([change_nick_moves]) but is not atomic ([change_nick_race]); the queues
      deliver the newest messages in order, expire invisibly, merge on a nick
      change and, over calls that do not overlap, account for every byte
      ([failover_delivers_newest], [expiry_invisible], [rename_moves_queue],
      [offline_store_accounting]; [overlapping_calls_exceed_cap] for calls that
      do).

    ** Modelling choices

    - Integers are [N] with the wrap-around of the release build written out
      ([+!] is [u64] addition); subtraction saturates only where the source's
      does or where its guard keeps it from going below zero.
    - Time is an argument; channels are lists of what was sent; maps keyed by
      names use the key the source hashes.
    - Loops that are not structural take fuel.  [commit_scan] gets
      [last - commit_index], [committed_entries] [commit_index - last_applied]
      and [committed_term_scan] [commit_index]: one unit for each index the loop
      can visit, since it moves by one.  [params_loop] gets the length of its
      input, of which each round consumes a char (more fuel changes nothing,
      [params_loop_fuel]).  [snapshot_chunks] gets the length of the data, and
      returns how its loop ended: its condition is false at the end for every
      positive chunk size.
      [dec_aux] gets 20, the digits of the largest [u64].
    - Code outside the repository (the JSON encoder and decoder of snapshots) is
      a parameter of the definitions that use it.
    - Crashes happen between iterations of the driver's loop.  A crash between
      two writes of one iteration, which leaves a new term with an old vote in
      the storage, is not modelled.

    ** Not modelled

    Socket and terminal I/O, TLS, process start-up and configuration files, the
    plugin loader's C interface, cryptographic primitives, the wire encodings
    derived by serde.  [file_storage.rs] is replaced by the storage classes.

    Still open, in the order they would be added: the channel and group
    registries and the handlers of [pirc-server] on top of [UserRegistry]; the
    commit consumer, migration and degraded mode, which tie [ClusterState] to the
    registries; [file_storage.rs] over an abstract file system, as an instance of
    [RaftStorage]; the line codec of [pirc-network]; the ratchet of
    [pirc-crypto] over abstract primitives; the STUN and TURN codecs of
    [pirc-p2p]; lexer, parser and interpreter of [pirc-scripting]. *)

From stdpp Require Export prelude gmap strings numbers option list.

(** ** Scope and notations *)

Declare Scope pirc_scope.
Delimit Scope pirc_scope with pirc.

(** ** Results

    Rust's [Result<A, E>].  Errors are values; a function that mutates its
    receiver before failing returns the mutated receiver next to the error. *)

Inductive result (E A : Type) : Type :=
| Ok (a : A)
| Err (e : E).
Arguments Ok {E A} a.
Arguments Err {E A} e.

Definition is_ok {E A} (r : result E A) : bool :=
  match r with Ok _ => true | Err _ => false end.

Definition result_bind {E A B} (r : result E A) (k : A → result E B) : result E B :=
  match r with Ok a => k a | Err e => Err e end.

Definition map_err {E E' A} (f : E → E') (r : result E A) : result E' A :=
  match r with Ok a => Ok a | Err e => Err (f e) end.

Definition ok_or {E A} (o : option A) (e : E) : result E A :=
  match o with Some a => Ok a | None => Err e end.

Notation "x <-? r ; k" := (result_bind r (λ x, k))
  (at level 20, r at level 100, k at level 200, right associativity) : pirc_scope.

#[export] Instance result_eq_dec {E A} `{EqDecision E, EqDecision A} : EqDecision (result E A).
Proof. solve_decision. Defined.

(** ** Stateful fallible code

    A method taking [&mut self] and returning [Result]: the receiver is
    returned on both branches, because [?] leaves the mutations made so far in
    place. *)

Definition SE (St E A : Type) : Type := St → result E A * St.

Definition se_ret {St E A} (a : A) : SE St E A := λ s, (Ok a, s).

Definition se_fail {St E A} (e : E) : SE St E A := λ s, (Err e, s).

Definition se_bind {St E A B} (m : SE St E A) (k : A → SE St E B) : SE St E B :=
  λ s, match m s with (Ok a, s') => k a s' | (Err e, s') => (Err e, s') end.

Definition se_get {St E A} (f : St → A) : SE St E A := λ s, (Ok (f s), s).

Definition se_modify {St E} (f : St → St) : SE St E unit := λ s, (Ok tt, f s).

Definition se_map_err {St E E' A} (f : E → E') (m : SE St E A) : SE St E' A :=
  λ s, let '(r, s') := m s in (map_err f r, s').

Notation "x <-- m ; k" := (se_bind m (λ x, k))
  (at level 100, m at level 99, k at level 200, right associativity) : pirc_scope.
Notation "m ;;; k" := (se_bind m (λ _ : unit, k))
  (at level 100, k at level 200, right associativity) : pirc_scope.

(** ** Strings

    A Rust [str] is the list of its [char]s (Unicode scalar values). *)

Abbreviation char := N (only parsing).
Abbreviation str := (list N) (only parsing).

(** ** 64-bit unsigned arithmetic

    [u64] and (on the 64-bit targets the code is written for) [usize] are
    natural numbers below [2^64].  The workspace sets no [overflow-checks], so
    the release build wraps: [+] is [u64_add].  Every subtraction of the
    modelled code is guarded by a comparison that rules out underflow, so it is
    the truncated subtraction of [N]. *)

Definition u64_modulus : N := 18446744073709551616.
Definition u64_max : N := 18446744073709551615.

(** No [Vec] is longer than [isize::MAX]. *)
Definition isize_max : N := 9223372036854775807.

Definition u64_add (a b : N) : N := (a + b) mod u64_modulus.
Arguments u64_add : simpl never.

Notation "a +! b" := (u64_add a b) (at level 50, left associativity) : pirc_scope.

Definition saturating_sub (a b : N) : N := a - b.

Open Scope pirc_scope.

(** [Vec::truncate], [Vec::drain(..n)] and slicing are stdpp's [take]/[drop];
    [Vec::retain] is [filter]. *)

Create HintDb pirc discriminated.
Create HintDb u64 discriminated.
Create Rewrite HintDb u64.

(** ** Tactics *)

(** Case analysis on every [decide], [match] and [if] of the goal and of the
    hypotheses, closing the contradictory branches. *)
Ltac split_cases :=
  repeat (case_decide || case_match); simplify_eq/=.

Ltac u64_lia := unfold u64_max, u64_modulus in *; lia.

(** ** Lemmas on machine arithmetic *)

Lemma u64_add_small (a b : N) : (a + b ≤ u64_max)%N → a +! b = (a + b)%N.
Proof. intros H. unfold u64_add. apply N.mod_small. u64_lia. Qed.

Lemma u64_add_bound (a b : N) : (a +! b ≤ u64_max)%N.
Proof.
  unfold u64_add. pose proof (N.mod_upper_bound (a + b) u64_modulus). u64_lia.
Qed.

Lemma u64_add_0_r (a : N) : (a ≤ u64_max)%N → a +! 0 = a.
Proof. intros H. rewrite u64_add_small; lia. Qed.

(** The wrap-around the release build performs. *)
Lemma u64_add_overflow : u64_max +! 1 = 0%N.
Proof. reflexivity. Qed.

#[export] Hint Rewrite u64_add_small using u64_lia : u64.
#[export] Hint Resolve u64_add_bound : u64.

(** ** Lists *)

Lemma take_eq_lookup {A} (l1 l2 : list A) (n : nat) :
  take n l1 = take n l2 ↔ ∀ i, i < n → l1 !! i = l2 !! i.
Proof.
  split.
  - intros E i Hi. rewrite <- (lookup_take_lt l1 n), <- (lookup_take_lt l2 n) by done.
    by rewrite E.
  - intros H. apply list_eq. intros i. destruct (decide (i < n)).
    + rewrite !lookup_take_lt by done. auto.
    + rewrite !lookup_take_ge by lia. done.
Qed.

Lemma take_eq_le {A} (l1 l2 : list A) (n m : nat) :
  m ≤ n → take n l1 = take n l2 → take m l1 = take m l2.
Proof. rewrite !take_eq_lookup. intros ? H i ?. apply H. lia. Qed.

(** A segment of [l] starting at [k] extends the first [k] elements of [l]. *)
Lemma take_app_segment {A} (l s : list A) (k m : nat) :
  s = take m (drop k l) → take k l ++ s = take (k + length s) l.
Proof.
  intros ->. rewrite take_take_drop, length_take, length_drop.
  destruct (decide (m ≤ length l - k)).
  - f_equal. lia.
  - rewrite !take_ge by lia. done.
Qed.

Lemma segment_cons {A} (x : A) (l s : list A) (k m : nat) :
  x :: s = take m (drop k l) → l !! k = Some x ∧ s = take (pred m) (drop (S k) l).
Proof.
  intros Hs. destruct m as [|m]; [done|]. destruct (l !! k) as [y|] eqn:Hy.
  - rewrite (drop_S _ y) in Hs by done. simpl in Hs. by simplify_eq.
  - by rewrite drop_ge in Hs by by apply lookup_ge_None.
Qed.
