(* ===== verification/RaftTypes.v ===== *)
(** Data of the Raft layer: [src/pirc-server/src/raft/types.rs], [state.rs],
    [rpc.rs] and [snapshot.rs].  [NodeId], [Term] and [LogIndex] are newtypes
    over [u64] with derived comparison; they are [N] here, with the arithmetic
    the source gives them. *)

From S2P Require Import Prelude.

Abbreviation NodeId := N (only parsing).
Abbreviation Term := N (only parsing).
Abbreviation LogIndex := N (only parsing).
(** A [std::time::Duration], in nanoseconds. *)
Abbreviation Duration := N (only parsing).
(** A Rust [u8]. *)
Abbreviation u8 := N (only parsing).

(** [std::net::SocketAddr]. *)
Inductive SocketAddr : Type :=
| V4 (ip : N) (port : N)
| V6 (ip : N) (port flowinfo scope_id : N).

#[export] Instance SocketAddr_eq_dec : EqDecision SocketAddr.
Proof. solve_decision. Defined.

(** ** types.rs *)

Inductive RaftState : Type := Follower | Candidate | Leader.

#[export] Instance RaftState_eq_dec : EqDecision RaftState.
Proof. solve_decision. Defined.

Definition Term_increment (t : Term) : Term := t +! 1.

Definition LogIndex_increment (i : LogIndex) : LogIndex := i +! 1.

Record LogEntry (T : Type) : Type := mkEntry {
  e_term : Term;
  e_index : LogIndex;
  e_command : T;
}.
Arguments mkEntry {T} _ _ _.
Arguments e_term {T} _.
Arguments e_index {T} _.
Arguments e_command {T} _.

#[export] Instance LogEntry_eq_dec `{EqDecision T} : EqDecision (LogEntry T).
Proof. solve_decision. Defined.

Record RaftConfig : Type := mkConfig {
  election_timeout_min : Duration;
  election_timeout_max : Duration;
  heartbeat_interval : Duration;
  node_id : NodeId;
  config_peers : list NodeId;
  snapshot_threshold : N;
  snapshot_chunk_size : N;
}.

Definition default_snapshot_threshold : N := 1000.
Definition default_snapshot_chunk_size : N := 65536.

(** [Duration::from_millis]. *)
Definition from_millis (ms : N) : Duration := (ms * 1000000)%N.

Definition RaftConfig_default : RaftConfig :=
  {| election_timeout_min := from_millis 150;
     election_timeout_max := from_millis 300;
     heartbeat_interval := from_millis 50;
     node_id := 0;
     config_peers := [];
     snapshot_threshold := default_snapshot_threshold;
     snapshot_chunk_size := default_snapshot_chunk_size |}.

(** ** state.rs *)

Record VolatileState : Type := mkVolatile {
  commit_index : LogIndex;
  last_applied : LogIndex;
}.

Definition VolatileState_default : VolatileState := mkVolatile 0 0.

Record LeaderState : Type := mkLeaderState {
  next_index : gmap NodeId LogIndex;
  match_index : gmap NodeId LogIndex;
}.

(** [LeaderState::new]: one loop inserts into both maps. *)
Definition LeaderState_new (peers : list NodeId) (last_log_index : LogIndex) : LeaderState :=
  let next := last_log_index +! 1 in
  foldl (λ ls peer, mkLeaderState (<[peer := next]> (next_index ls))
                                  (<[peer := 0%N]> (match_index ls)))
        (mkLeaderState ∅ ∅) peers.

(** ** snapshot.rs *)

Record Snapshot : Type := mkSnapshot {
  last_included_index : LogIndex;
  last_included_term : Term;
  snap_data : list u8;
}.

Record InstallSnapshot : Type := mkInstallSnapshot {
  is_term : Term;
  is_leader_id : NodeId;
  is_last_included_index : LogIndex;
  is_last_included_term : Term;
  is_offset : N;
  is_data : list u8;
  is_done : bool;
}.

Record InstallSnapshotResponse : Type := mkInstallSnapshotResponse { isr_term : Term }.

(** ** rpc.rs *)

Record RequestVote : Type := mkRequestVote {
  rv_term : Term;
  rv_candidate_id : NodeId;
  rv_last_log_index : LogIndex;
  rv_last_log_term : Term;
}.

Record RequestVoteResponse : Type := mkRequestVoteResponse {
  rvr_term : Term;
  rvr_vote_granted : bool;
}.

Record AppendEntries (T : Type) : Type := mkAppendEntries {
  ae_term : Term;
  ae_leader_id : NodeId;
  ae_prev_log_index : LogIndex;
  ae_prev_log_term : Term;
  ae_entries : list (LogEntry T);
  ae_leader_commit : LogIndex;
}.
Arguments mkAppendEntries {T} _ _ _ _ _ _.
Arguments ae_term {T} _.
Arguments ae_leader_id {T} _.
Arguments ae_prev_log_index {T} _.
Arguments ae_prev_log_term {T} _.
Arguments ae_entries {T} _.
Arguments ae_leader_commit {T} _.

Record AppendEntriesResponse : Type := mkAppendEntriesResponse {
  aer_term : Term;
  aer_success : bool;
  aer_match_index : LogIndex;
}.

Inductive RaftMessage (T : Type) : Type :=
| MRequestVote (m : RequestVote)
| MRequestVoteResponse (m : RequestVoteResponse)
| MAppendEntries (m : AppendEntries T)
| MAppendEntriesResponse (m : AppendEntriesResponse)
| MInstallSnapshot (m : InstallSnapshot)
| MInstallSnapshotResponse (m : InstallSnapshotResponse).
Arguments MRequestVote {T} m.
Arguments MRequestVoteResponse {T} m.
Arguments MAppendEntries {T} m.
Arguments MAppendEntriesResponse {T} m.
Arguments MInstallSnapshot {T} m.
Arguments MInstallSnapshotResponse {T} m.

(** ** Facts shared by the clients of these types *)

Lemma LeaderState_new_lookup (peers : list NodeId) (last : LogIndex) (p : NodeId) :
  next_index (LeaderState_new peers last) !! p
    = (if decide (p ∈ peers) then Some (last +! 1) else None) ∧
  match_index (LeaderState_new peers last) !! p
    = (if decide (p ∈ peers) then Some 0%N else None).
Proof.
  unfold LeaderState_new.
  enough (∀ acc, 
    let r := foldl (λ ls peer, mkLeaderState (<[peer := last +! 1]> (next_index ls))
                                  (<[peer := 0%N]> (match_index ls))) acc peers in
    next_index r !! p = (if decide (p ∈ peers) then Some (last +! 1) else next_index acc !! p) ∧
    match_index r !! p = (if decide (p ∈ peers) then Some 0%N else match_index acc !! p)) as H.
  { destruct (H (mkLeaderState ∅ ∅)) as [H1 H2]. cbn zeta in *.
    simpl in H1, H2. by rewrite H1, H2, !lookup_empty. }
  induction peers as [|q peers IH]; intros acc; cbn [foldl].
  { done. }
  destruct (IH (mkLeaderState (<[q := last +! 1]> (next_index acc))
                              (<[q := 0%N]> (match_index acc)))) as [-> ->];
    cbn [next_index match_index].
  destruct (decide (p = q)) as [->|Hne].
  - rewrite !lookup_insert_eq. split; repeat case_decide; set_solver.
  - rewrite !lookup_insert_ne by done. split; repeat case_decide; set_solver.
Qed.
