(* ===== verification/RaftLog.v ===== *)
(** The replicated log: [src/pirc-server/src/raft/log.rs].

    [RaftLog] keeps the entries after the last compacted index in a vector.
    The file gives the code's operations, an abstract log (the whole history as
    one list) and the refinement of the abstract log by the operations. *)

From S2P Require Import Prelude.
From S2P Require Import RaftTypes.

Module RaftLog.

(** ** State and operations *)

Record t (T : Type) : Type := mk {
  entries : list (LogEntry T);
  offset : N;
  snapshot_term : Term;
}.
Arguments mk {T} _ _ _.
Arguments entries {T} _.
Arguments offset {T} _.
Arguments snapshot_term {T} _.

Section Operations.
Context {T : Type}.
Implicit Types (l : t T) (i : LogIndex) (e : LogEntry T).

Definition new : t T := mk [] 0 0.

Definition len l : nat := length (entries l).

Definition is_empty l : bool := match entries l with [] => true | _ => false end.

(** Logical 1-based index to position in the vector. *)
Definition to_internal l i : option nat :=
  if decide (i ≤ offset l)%N then None else
  let internal := N.to_nat (i - offset l) - 1 in
  if decide (length (entries l) ≤ internal) then None else Some internal.

Definition append l e : t T := mk (entries l ++ [e]) (offset l) (snapshot_term l).

Definition get l i : option (LogEntry T) := to_internal l i ≫= λ k, entries l !! k.

Definition last_index l : LogIndex := offset l +! N.of_nat (length (entries l)).

Definition last_term l : Term :=
  match last (entries l) with Some e => e_term e | None => snapshot_term l end.

(** Entries in [[from, to)]. *)
Definition slice l (from to : LogIndex) : list (LogEntry T) :=
  if decide (from ≤ offset l ∨ to ≤ from)%N then [] else
  let start_internal := N.to_nat (from - offset l) - 1 in
  if decide (length (entries l) ≤ start_internal) then [] else
  let end_internal := Nat.min (N.to_nat (to - offset l) - 1) (length (entries l)) in
  if decide (end_internal ≤ start_internal) then [] else
  drop start_internal (take end_internal (entries l)).

Definition truncate_from l i : t T :=
  if decide (i ≤ offset l)%N then l else
  let keep := N.to_nat (i - offset l) - 1 in
  mk (take keep (entries l)) (offset l) (snapshot_term l).

Definition entries_from l i : list (LogEntry T) :=
  if decide (i ≤ offset l ∨ offset l +! N.of_nat (length (entries l)) < i)%N then [] else
  let start := N.to_nat (i - offset l) - 1 in
  drop start (entries l).

Definition term_at l i : option Term :=
  if decide (i = offset l ∧ (0 < offset l)%N) then Some (snapshot_term l)
  else e_term <$> get l i.

(** One iteration of the loop of [append_entries].  The vector access of the
    source is in range in the branch that performs it. *)
Definition append_entries_step l e : t T :=
  let log_idx := e_index e in
  if decide (log_idx ≤ offset l)%N then l else
  let internal_pos := N.to_nat (log_idx - offset l) in
  if decide (internal_pos ≤ length (entries l)) then
    match entries l !! (internal_pos - 1) with
    | Some existing =>
        if decide (e_term existing = e_term e) then l
        else mk (take (internal_pos - 1) (entries l) ++ [e]) (offset l) (snapshot_term l)
    | None => l
    end
  else mk (entries l ++ [e]) (offset l) (snapshot_term l).

Definition prev_matches l (prev_log_index : LogIndex) (prev_log_term : Term) : bool :=
  if decide (0 < prev_log_index)%N then
    match term_at l prev_log_index with
    | Some term => bool_decide (term = prev_log_term)
    | None => false
    end
  else true.

Definition append_entries l (prev_log_index : LogIndex) (prev_log_term : Term)
    (new_entries : list (LogEntry T)) : bool * t T :=
  if prev_matches l prev_log_index prev_log_term
  then (true, foldl append_entries_step l new_entries)
  else (false, l).

Definition from_entries (es : list (LogEntry T)) : t T := mk es 0 0.

Definition all_entries l : list (LogEntry T) := entries l.

Definition compact_to l (up_to_index : LogIndex) : t T :=
  if decide (up_to_index ≤ offset l)%N then l else
  if decide (last_index l < up_to_index)%N then l else
  let compacted_term :=
    match get l up_to_index with Some e => e_term e | None => snapshot_term l end in
  let remove_count := N.to_nat (up_to_index - offset l) in
  mk (drop remove_count (entries l)) up_to_index compacted_term.

Definition reset_to_snapshot l (last_included_index : LogIndex) (last_included_term : Term) : t T :=
  mk [] last_included_index last_included_term.

Definition is_compacted l i : bool := bool_decide (i ≤ offset l)%N.

(** The term a leader sends in front of the entries that follow [prev]
    ([replicate_to_peer]). *)
Definition prev_term_of l (prev : LogIndex) : Term :=
  if decide (0 < prev)%N then default 0%N (term_at l prev) else 0%N.

End Operations.

(** ** The abstract log

    The whole history as one list: the entry with index [i] is at position
    [i - 1].  [floor] is the compaction point: at and below it a log answers no
    [get], and strictly below it no [term_at] either. *)

Section Spec.
Context {T : Type}.
Implicit Types (full : list (LogEntry T)) (l : t T).

Definition spec_get full (floor i : N) : option (LogEntry T) :=
  if decide (i ≤ floor)%N then None else full !! N.to_nat (i - 1).

Definition spec_term_at full (floor i : N) : option Term :=
  if decide (i = 0 ∨ i < floor)%N then None else e_term <$> full !! N.to_nat (i - 1).

Definition spec_last_index full : N := N.of_nat (length full).

Definition spec_last_term full : Term :=
  match last full with Some e => e_term e | None => 0%N end.

(** Raft's rule for received entries, [k] being the position of the first one:
    walk along the entries the log already has, and at the first one that
    differs in term (or is missing) replace the rest of the log. *)
Fixpoint spec_merge (floor : N) full (k : nat) (es : list (LogEntry T)) : list (LogEntry T) :=
  match es with
  | [] => full
  | e :: rest =>
      if decide (k < N.to_nat floor) then spec_merge floor full (S k) rest else
      match full !! k with
      | None => full ++ es
      | Some x =>
          if decide (e_term x = e_term e) then spec_merge floor full (S k) rest
          else take k full ++ es
      end
  end.

Definition spec_append_entries (floor : N) full (prev : LogIndex) (prev_term : Term)
    (es : list (LogEntry T)) : bool * list (LogEntry T) :=
  if decide (prev = 0%N ∨ spec_term_at full floor prev = Some prev_term)
  then (true, spec_merge floor full (N.to_nat prev) es) else (false, full).

(** The entries carry the indices [from], [from + 1], ... *)
Definition contiguous (from : N) (es : list (LogEntry T)) : Prop :=
  ∀ k e, es !! k = Some e → e_index e = (from + N.of_nat k)%N.

(** [l] represents the abstract log [full]. *)
Record repr l full : Prop := mk_repr {
  repr_indices : contiguous 1 full;
  repr_bound : (N.of_nat (length full) ≤ u64_max)%N;
  repr_offset : N.to_nat (offset l) ≤ length full;
  repr_entries : entries l = drop (N.to_nat (offset l)) full;
  repr_snapshot_term :
    snapshot_term l = spec_last_term (take (N.to_nat (offset l)) full);
}.

(** Raft's log matching: two logs that have the same term at a position are the
    same up to it. *)
Definition log_matching (f1 f2 : list (LogEntry T)) : Prop :=
  ∀ k e1 e2, f1 !! k = Some e1 → f2 !! k = Some e2 → e_term e1 = e_term e2 →
    take (S k) f1 = take (S k) f2.

End Spec.

(** ** Refinement of the abstract log *)

Section Refinement.
Context {T : Type}.
Implicit Types (full es : list (LogEntry T)) (l : t T) (e : LogEntry T).

Lemma repr_length l full :
  repr l full → length (entries l) = length full - N.to_nat (offset l).
Proof. intros []. by rewrite repr_entries0, length_drop. Qed.

Lemma spec_last_term_take full k e :
  full !! k = Some e → spec_last_term (take (S k) full) = e_term e.
Proof. intros H. unfold spec_last_term. by rewrite (take_S_r _ _ e), last_snoc. Qed.

Lemma new_repr : repr (@new T) [].
Proof. by split. Qed.

Lemma last_index_repr l full : repr l full → last_index l = spec_last_index full.
Proof.
  intros H. unfold last_index, spec_last_index. rewrite (repr_length _ _ H).
  destruct H. rewrite u64_add_small; lia.
Qed.

Lemma get_repr l full i : repr l full → get l i = spec_get full (offset l) i.
Proof.
  intros H. unfold get, to_internal, spec_get.
  pose proof (repr_length _ _ H) as Hlen. destruct H.
  case_decide as H1; [done|]. case_decide as H2; simpl.
  - symmetry. apply lookup_ge_None. lia.
  - rewrite repr_entries0, lookup_drop. f_equal. lia.
Qed.

Lemma term_at_repr l full i : repr l full → term_at l i = spec_term_at full (offset l) i.
Proof.
  intros H. unfold term_at. rewrite (get_repr _ _ _ H).
  unfold spec_get, spec_term_at. destruct H.
  destruct (decide (i = offset l ∧ (0 < offset l)%N)) as [[-> Hpos]|Hno].
  - rewrite decide_False by lia.
    destruct (full !! N.to_nat (offset l - 1)) as [x|] eqn:Hx.
    2:{ apply lookup_ge_None in Hx. lia. }
    rewrite repr_snapshot_term0. simpl. f_equal.
    replace (N.to_nat (offset l)) with (S (N.to_nat (offset l - 1))) by lia.
    by apply spec_last_term_take.
  - repeat case_decide; try done; exfalso; lia.
Qed.

Lemma last_term_repr l full : repr l full → last_term l = spec_last_term full.
Proof.
  intros []. unfold last_term. rewrite repr_entries0.
  destruct (decide (N.to_nat (offset l) = length full)) as [Heq|].
  - rewrite drop_ge by lia. simpl. rewrite repr_snapshot_term0, Heq.
    by rewrite take_ge by lia.
  - unfold spec_last_term. rewrite !last_lookup, lookup_drop, length_drop.
    replace (N.to_nat (offset l) + pred (length full - N.to_nat (offset l)))
      with (pred (length full)) by lia.
    destruct (full !! pred (length full)) eqn:E; [done|].
    apply lookup_ge_None in E. lia.
Qed.

Lemma entries_from_repr l full i :
  repr l full → (offset l < i)%N → entries_from l i = drop (N.to_nat (i - 1)) full.
Proof.
  intros H Hi. pose proof (last_index_repr _ _ H) as Hlast.
  unfold entries_from. fold (last_index l). rewrite Hlast.
  unfold spec_last_index. destruct H.
  case_decide as Hd.
  - symmetry. apply drop_ge. lia.
  - rewrite repr_entries0, drop_drop. f_equal. lia.
Qed.

Lemma contiguous_app n es es' :
  contiguous n (es ++ es') ↔ contiguous n es ∧ contiguous (n + N.of_nat (length es)) es'.
Proof.
  unfold contiguous. split.
  - intros H. split.
    + intros k e He. apply H. by apply lookup_app_l_Some.
    + intros k e He. rewrite (H (length es + k) e); [lia|].
      rewrite lookup_app_r by lia. by replace (length es + k - length es) with k by lia.
  - intros [H1 H2] k e He. apply lookup_app_Some in He as [He|[Hk He]].
    + by apply H1.
    + rewrite (H2 _ _ He). lia.
Qed.

Lemma contiguous_cons n e es :
  contiguous n (e :: es) ↔ e_index e = n ∧ contiguous (n + 1) es.
Proof.
  change (e :: es) with ([e] ++ es). rewrite contiguous_app. simpl. split.
  - intros [H1 H2]. split; [|done]. rewrite (H1 0 e eq_refl). lia.
  - intros [H1 H2]. split; [|done]. intros [|k] x Hx; [|done].
    simplify_eq/=. lia.
Qed.

Lemma contiguous_take n k es : contiguous n es → contiguous n (take k es).
Proof. intros H j e Hj. apply H. by apply lookup_take_Some in Hj as [? ?]. Qed.

Lemma append_repr l full e :
  repr l full → e_index e = (last_index l + 1)%N → (last_index l < u64_max)%N →
  repr (append l e) (full ++ [e]).
Proof.
  intros H Hidx Hb. rewrite (last_index_repr _ _ H) in *.
  unfold spec_last_index in *. destruct H. split; simpl.
  - rewrite contiguous_app. split; [done|]. apply contiguous_cons. split; [lia|].
    intros k x Hx. by rewrite lookup_nil in Hx.
  - rewrite length_app. simpl. lia.
  - rewrite length_app. lia.
  - rewrite drop_app_le by lia. by rewrite repr_entries0.
  - by rewrite take_app_le by lia.
Qed.

Lemma truncate_from_repr l full i :
  repr l full → (offset l < i)%N →
  repr (truncate_from l i) (take (N.to_nat (i - 1)) full).
Proof.
  intros H Hi. unfold truncate_from. rewrite decide_False by lia. destruct H.
  split; simpl.
  - by apply contiguous_take.
  - rewrite length_take. lia.
  - rewrite length_take. lia.
  - rewrite repr_entries0, skipn_firstn_comm. f_equal. lia.
  - by rewrite take_take, Nat.min_l by lia.
Qed.

Lemma compact_to_repr l full i : repr l full → repr (compact_to l i) full.
Proof.
  intros H. pose proof (last_index_repr _ _ H) as Hlast.
  unfold compact_to. case_decide as H1; [done|]. case_decide as H2; [done|].
  rewrite (get_repr _ _ _ H). unfold spec_get. rewrite decide_False by done.
  rewrite Hlast in H2. unfold spec_last_index in H2. destruct H. split; simpl; try done.
  - lia.
  - rewrite repr_entries0, drop_drop. f_equal. lia.
  - destruct (full !! N.to_nat (i - 1)) as [x|] eqn:Hx.
    2:{ apply lookup_ge_None in Hx. lia. }
    replace (N.to_nat i) with (S (N.to_nat (i - 1))) by lia.
    by rewrite (spec_last_term_take _ _ x).
Qed.

Lemma compact_to_offset l full i :
  repr l full → (i ≤ last_index l)%N → offset (compact_to l i) = N.max (offset l) i.
Proof.
  intros H Hi. unfold compact_to. case_decide; [lia|]. rewrite decide_False by lia.
  simpl. lia.
Qed.

(** One loop iteration on the entry of position [k], with [k] at most one past
    the end of the log. *)
Lemma step_skip_repr l full e (k : nat) :
  repr l full → e_index e = N.of_nat (S k) → k < N.to_nat (offset l) →
  append_entries_step l e = l.
Proof. intros H Hi Hk. unfold append_entries_step. by rewrite decide_True by lia. Qed.

Lemma step_keep_repr l full e (k : nat) x :
  repr l full → e_index e = N.of_nat (S k) → N.to_nat (offset l) ≤ k →
  full !! k = Some x → e_term x = e_term e → append_entries_step l e = l.
Proof.
  intros H Hi Hk Hx Ht. pose proof (repr_length _ _ H) as Hlen.
  pose proof (lookup_lt_Some _ _ _ Hx). unfold append_entries_step.
  rewrite decide_False by lia. rewrite decide_True by lia.
  destruct H. rewrite repr_entries0, lookup_drop.
  replace (N.to_nat (offset l) + (N.to_nat (e_index e - offset l) - 1)) with k by lia.
  by rewrite Hx, decide_True.
Qed.

Lemma step_replace_repr l full e (k : nat) :
  repr l full → e_index e = N.of_nat (S k) → (N.of_nat k < u64_max)%N →
  N.to_nat (offset l) ≤ k ≤ length full →
  (∀ x, full !! k = Some x → e_term x ≠ e_term e) →
  repr (append_entries_step l e) (take k full ++ [e]).
Proof.
  intros H Hi Hb Hk Hx. pose proof (repr_length _ _ H) as Hlen.
  assert (append_entries_step l e
          = mk (take (k - N.to_nat (offset l)) (entries l) ++ [e]) (offset l) (snapshot_term l))
    as ->.
  { unfold append_entries_step. rewrite decide_False by lia. case_decide as Hin.
    - destruct H. rewrite repr_entries0, lookup_drop.
      replace (N.to_nat (offset l) + (N.to_nat (e_index e - offset l) - 1)) with k by lia.
      destruct (full !! k) as [x|] eqn:E.
      + rewrite decide_False by auto. do 2 f_equal. f_equal. lia.
      + apply lookup_ge_None in E. lia.
    - rewrite take_ge by lia. done. }
  destruct H. split; simpl.
  - rewrite contiguous_app. split; [by apply contiguous_take|].
    apply contiguous_cons. rewrite length_take. split; [lia|]. by intros ??.
  - rewrite length_app, length_take. simpl. lia.
  - rewrite length_app, length_take. simpl. lia.
  - rewrite drop_app_le by (rewrite length_take; lia). f_equal.
    by rewrite repr_entries0, skipn_firstn_comm.
  - rewrite take_app_le by (rewrite length_take; lia).
    by rewrite take_take, Nat.min_l by lia.
Qed.

Lemma step_offset l e : offset (append_entries_step l e) = offset l.
Proof. unfold append_entries_step. by repeat (case_decide || case_match). Qed.

Lemma fold_offset l es : offset (foldl append_entries_step l es) = offset l.
Proof. revert l. induction es as [|e es IH]; intros l; [done|]. simpl. by rewrite IH, step_offset. Qed.

Lemma fold_extend_repr es l full :
  repr l full → contiguous (N.of_nat (length full) + 1) es →
  (N.of_nat (length full) + N.of_nat (length es) ≤ u64_max)%N →
  repr (foldl append_entries_step l es) (full ++ es).
Proof.
  revert l full. induction es as [|e es IH]; intros l full H Hc Hb; simpl.
  { by rewrite app_nil_r. }
  apply contiguous_cons in Hc as [Hi Hc]. simpl in Hb.
  assert (repr (append_entries_step l e) (take (length full) full ++ [e])) as H'.
  { apply step_replace_repr; [done|lia|lia| |].
    - destruct H. lia.
    - intros x Hx. apply lookup_lt_Some in Hx. lia. }
  rewrite take_ge in H' by lia.
  apply IH in H'; [by rewrite <- app_assoc in H'| |].
  - rewrite length_app. simpl. by replace (N.of_nat (length full + 1) + 1)%N
      with (N.of_nat (length full) + 1 + 1)%N by lia.
  - rewrite length_app. simpl. lia.
Qed.

Lemma fold_merge_repr es l full (k : nat) :
  repr l full → contiguous (N.of_nat k + 1) es → k ≤ length full →
  (N.of_nat k + N.of_nat (length es) ≤ u64_max)%N →
  repr (foldl append_entries_step l es) (spec_merge (offset l) full k es).
Proof.
  revert l full k. induction es as [|e es IH]; intros l full k H Hc Hk Hb; [done|].
  cbn [foldl spec_merge]. pose proof Hc as [Hi Hc']%contiguous_cons. simpl in Hb.
  assert (contiguous (N.of_nat (S k) + 1) es) as Hc''
    by (by replace (N.of_nat (S k) + 1)%N with (N.of_nat k + 1 + 1)%N by lia).
  case_decide as Hfl.
  { rewrite (step_skip_repr _ full _ k) by (done || lia).
    apply IH; try done; [|lia]. destruct H. lia. }
  destruct (full !! k) as [x|] eqn:Hx.
  - case_decide as Ht.
    + rewrite (step_keep_repr _ full _ k x) by (done || lia).
      apply IH; try done; [|lia]. apply lookup_lt_Some in Hx. lia.
    + assert (repr (append_entries_step l e) (take k full ++ [e])) as H'.
      { apply step_replace_repr; [done|lia|lia|lia|]. intros ? ?. by simplify_eq. }
      apply lookup_lt_Some in Hx.
      assert (length (take k full ++ [e]) = S k) as HS
        by (rewrite length_app, length_take; simpl; lia).
      apply (fold_extend_repr es) in H'; [by rewrite <- app_assoc in H'| |].
      * by rewrite HS.
      * rewrite HS. lia.
  - apply lookup_ge_None in Hx. assert (k = length full) as -> by lia.
    change (repr (foldl append_entries_step l (e :: es)) (full ++ e :: es)).
    apply fold_extend_repr; [done|done|]. simpl. lia.
Qed.

Lemma prev_matches_repr l full prev pt :
  repr l full →
  prev_matches l prev pt = bool_decide (prev = 0%N ∨ spec_term_at full (offset l) prev = Some pt).
Proof.
  intros H. unfold prev_matches. rewrite (term_at_repr _ _ _ H).
  case_decide as Hp.
  - destruct (spec_term_at full (offset l) prev) as [t'|];
      apply eq_true_iff_eq; rewrite !bool_decide_eq_true; naive_solver lia.
  - rewrite bool_decide_eq_true_2; [done|]. left. lia.
Qed.

Lemma spec_term_at_Some full floor i x :
  spec_term_at full floor i = Some x →
  (0 < i)%N ∧ (floor ≤ i)%N ∧ N.to_nat i ≤ length full ∧
  ∃ e, full !! N.to_nat (i - 1) = Some e ∧ e_term e = x.
Proof.
  unfold spec_term_at. case_decide as Hd; [done|].
  destruct (full !! N.to_nat (i - 1)) as [e|] eqn:E; simpl; [|done].
  intros [= <-]. apply lookup_lt_Some in E as ?. repeat split; try lia. eauto.
Qed.

Lemma append_entries_repr l full (prev : LogIndex) (prev_term : Term) es :
  repr l full →
  contiguous (prev + 1) es →
  (prev + N.of_nat (length es) ≤ u64_max)%N →
  let (ok, l') := append_entries l prev prev_term es in
  let (ok', full') := spec_append_entries (offset l) full prev prev_term es in
  ok = ok' ∧ repr l' full' ∧ offset l' = offset l.
Proof.
  intros H Hc Hb. unfold append_entries, spec_append_entries.
  rewrite (prev_matches_repr _ _ _ _ H).
  case_decide as Hp.
  - rewrite bool_decide_eq_true_2 by done. split; [done|]. split; [|apply fold_offset].
    apply fold_merge_repr; try done.
    + by rewrite N2Nat.id.
    + destruct Hp as [->|Hp]; [simpl; lia|].
      by apply spec_term_at_Some in Hp as (? & ? & ? & ?).
    + by rewrite N2Nat.id.
  - by rewrite bool_decide_eq_false_2 by done.
Qed.

(** C2. [append_entries] implements Raft's rule on the abstract log: it accepts
    exactly when the log has [prev_log_term] at [prev_log_index] (and has not
    compacted that index away), and on acceptance the entry-by-entry loop with
    its truncations yields the log in which the first differing entry and
    everything after it is replaced by the received entries, never touching
    the compacted prefix. *)
Theorem append_entries_refines l full (prev : LogIndex) (prev_term : Term) es :
  repr l full →
  contiguous (prev + 1) es →
  (prev + N.of_nat (length es) ≤ u64_max)%N →
  let (ok, l') := append_entries l prev prev_term es in
  let (ok', full') := spec_append_entries (offset l) full prev prev_term es in
  ok = ok' ∧ repr l' full' ∧ offset l' = offset l.
Proof. apply append_entries_repr. Qed.

(** ** Agreement with the leader *)

Lemma spec_merge_agrees floor full (L es : list (LogEntry T)) (k m : nat) :
  log_matching full L →
  take (N.to_nat floor) full = take (N.to_nat floor) L →
  take k full = take k L → es = take m (drop k L) →
  take (k + length es) (spec_merge floor full k es) = take (k + length es) L ∧
  log_matching (spec_merge floor full k es) L.
Proof.
  intros Hlm Hfl. revert k m. induction es as [|e es IH]; intros k m Hk Hes.
  { simpl. by rewrite Nat.add_0_r. }
  pose proof Hes as [He Hes']%segment_cons.
  pose proof (take_app_segment _ _ _ _ Hes) as Hpre. simpl in Hpre.
  cbn [spec_merge length].
  assert (take (S k) full = take (S k) L →
    take (k + S (length es)) (spec_merge floor full (S k) es) = take (k + S (length es)) L ∧
    log_matching (spec_merge floor full (S k) es) L) as Hnext.
  { intros HS. replace (k + S (length es)) with (S k + length es) by lia. eauto. }
  assert (take (k + S (length es)) (take k full ++ e :: es) = take (k + S (length es)) L ∧
    log_matching (take k full ++ e :: es) L) as Hreplace.
  { rewrite Hk, Hpre. split; [by rewrite take_take, Nat.min_id|].
    intros j e1 e2 H1 H2 _. apply lookup_take_Some in H1 as [H1 ?].
    by rewrite take_take, Nat.min_l by lia. }
  case_decide as Hd.
  { apply Hnext. eapply take_eq_le; [|exact Hfl]. lia. }
  destruct (full !! k) as [x|] eqn:Hx.
  - case_decide as Ht; [|done]. apply Hnext. by eapply Hlm.
  - apply lookup_ge_None in Hx. apply lookup_lt_Some in He as ?.
    by rewrite (take_ge full k) in Hreplace by done.
Qed.

(** C5. When a follower accepts the entries a leader sends from [next] on (with
    the leader's own term at [next - 1]), the follower's log afterwards starts
    with the leader's whole log, and the two logs still match.  The follower
    must have matched the leader before, and its compacted prefix must be the
    leader's, as it is for committed entries. *)
Theorem replication_agreement (leader follower follower' : t T) L F (next : LogIndex) :
  repr leader L → repr follower F → log_matching F L →
  take (N.to_nat (offset follower)) F = take (N.to_nat (offset follower)) L →
  (offset leader < next ≤ last_index leader + 1)%N →
  append_entries follower (next - 1) (prev_term_of leader (next - 1)) (entries_from leader next)
    = (true, follower') →
  ∃ F', repr follower' F' ∧ take (length L) F' = L ∧ log_matching F' L.
Proof.
  intros HL HF Hlm Hfl Hn Happ. pose proof HL as [Hci Hcb Hco _ _].
  rewrite (last_index_repr _ _ HL) in Hn. unfold spec_last_index in Hn.
  rewrite (entries_from_repr _ L) in Happ by (done || lia).
  set (k := N.to_nat (next - 1)) in *.
  assert (contiguous (next - 1 + 1) (drop k L)) as Hc.
  { intros j e Hj. rewrite lookup_drop in Hj. rewrite (Hci _ _ Hj). lia. }
  pose proof (append_entries_repr _ _ (next - 1) (prev_term_of leader (next - 1)) _ HF Hc)
    as Href.
  rewrite Happ in Href. destruct (spec_append_entries _ _ _ _ _) as [ok' F'] eqn:Hspec.
  destruct Href as (<- & HF' & _); [rewrite length_drop; u64_lia|].
  exists F'. split; [done|]. unfold spec_append_entries in Hspec.
  case_decide as Hp; [|done]. injection Hspec as <-. fold k.
  assert (take k F = take k L) as Hk.
  { destruct Hp as [Hp|Hp]; [by replace k with 0 by lia|].
    apply spec_term_at_Some in Hp as (Hp0 & _ & _ & e & He & Ht).
    replace k with (S (N.to_nat (next - 1 - 1))) by lia.
    unfold prev_term_of in Ht. rewrite decide_True in Ht by done.
    rewrite (term_at_repr _ L) in Ht by done. unfold spec_term_at in Ht.
    rewrite decide_False in Ht by lia.
    destruct (L !! N.to_nat (next - 1 - 1)) as [e'|] eqn:He'; [by eapply Hlm|].
    apply lookup_ge_None in He'. lia. }
  assert (drop k L = take (length L) (drop k L)) as Hes.
  { symmetry. apply take_ge. rewrite length_drop. lia. }
  destruct (spec_merge_agrees _ _ _ _ _ _ Hlm Hfl Hk Hes) as [Ha Hm].
  split; [|done]. rewrite length_drop in Ha.
  replace (k + (length L - k)) with (length L) in Ha by lia.
  by rewrite Ha, take_ge by lia.
Qed.

(** C17. Compaction drops stored entries but not the log: the same history is
    represented, [last_index] and [last_term] are unchanged, every entry above
    the new offset is still found, and [term_at] still answers at the
    compaction point itself. *)
Theorem compaction_preserves_log l full (i : LogIndex) :
  repr l full →
  let l' := compact_to l i in
  repr l' full ∧ last_index l' = last_index l ∧ last_term l' = last_term l ∧
  (∀ j, (offset l' < j)%N → get l' j = get l j) ∧
  (∀ j, (offset l' ≤ j)%N → term_at l' j = term_at l j).
Proof.
  intros H l'. assert (repr l' full) as H' by by apply compact_to_repr.
  assert (offset l ≤ offset l')%N as Hle.
  { unfold l', compact_to. repeat case_decide; simpl; lia. }
  split; [done|]. split; [by rewrite (last_index_repr l full), (last_index_repr l' full)|].
  split; [by rewrite (last_term_repr l full), (last_term_repr l' full)|]. split.
  - intros j Hj. rewrite (get_repr l full), (get_repr l' full) by done.
    unfold spec_get. by rewrite !decide_False by lia.
  - intros j Hj. rewrite (term_at_repr l full), (term_at_repr l' full) by done.
    unfold spec_term_at. destruct (decide (j = 0)%N) as [->|].
    + by rewrite !decide_True by auto.
    + by rewrite !decide_False by lia.
Qed.

(** C18. A delayed or repeated AppendEntries is harmless: entries the log already
    holds are accepted without truncating what follows them. *)
Theorem append_entries_duplicate l full (prev : LogIndex) (prev_term : Term) (m : nat) :
  repr l full →
  prev_matches l prev prev_term = true →
  append_entries l prev prev_term (take m (drop (N.to_nat prev) full)) = (true, l).
Proof.
  intros H Hp. unfold append_entries. rewrite Hp. f_equal.
  set (es := take m _). assert (∃ m', es = take m' (drop (N.to_nat prev) full)) as [m' Hes] by by exists m.
  clearbody es. rewrite (prev_matches_repr _ _ _ _ H), bool_decide_eq_true in Hp.
  assert (N.to_nat prev ≤ length full) as Hlen.
  { destruct Hp as [->|Hp]; [simpl; lia|]. by apply spec_term_at_Some in Hp as (? & ? & ? & ?). }
  clear Hp. revert m' Hes Hlen. generalize (N.to_nat prev) as k.
  induction es as [|e es IH]; intros k m' Hes Hlen; [done|]. cbn [foldl].
  apply segment_cons in Hes as [He Hes'].
  pose proof (repr_indices _ _ H _ _ He) as Hi. apply lookup_lt_Some in He as ?.
  assert (append_entries_step l e = l) as ->; [|apply (IH (S k) (pred m')); [done|lia]].
  destruct (decide (k < N.to_nat (offset l))).
  - apply (step_skip_repr _ full _ k); [done|lia|done].
  - apply (step_keep_repr _ full _ k e); [done|lia|lia|done|done].
Qed.

(** Loading a log: entries numbered from 1 represent themselves. *)
Fixpoint contiguousb (from : N) (es : list (LogEntry T)) : bool :=
  match es with
  | [] => true
  | e :: rest => (e_index e =? from)%N && contiguousb (from + 1) rest
  end.

Lemma contiguousb_true from es : contiguousb from es = true → contiguous from es.
Proof.
  revert from. induction es as [|e es IH]; intros from H; [by intros k x|]. simpl in H.
  apply andb_true_iff in H as [H1%N.eqb_eq H2]. apply contiguous_cons. by split; [|apply IH].
Qed.

Lemma from_entries_repr es :
  contiguousb 1 es = true → (N.of_nat (length es) ≤ u64_max)%N → repr (from_entries es) es.
Proof.
  intros H Hb. split; simpl; try done; [by apply contiguousb_true|lia].
Qed.

End Refinement.

(** ** Instances *)

(** A leader with three entries, and a follower whose third one is stale. *)
Definition sample_leader : list (LogEntry N) := [mkEntry 1 1 10; mkEntry 1 2 20; mkEntry 3 3 30]%N.
Definition sample_follower : list (LogEntry N) := [mkEntry 1 1 10; mkEntry 1 2 20; mkEntry 2 3 25]%N.

Lemma sample_repr : repr (from_entries sample_leader) sample_leader ∧
  repr (from_entries sample_follower) sample_follower.
Proof. split; apply from_entries_repr; done. Qed.

Lemma append_entries_refines_witness :
  (append_entries (from_entries sample_follower) 2 1 [mkEntry 3 3 30]%N).1 = true ∧
  repr (append_entries (from_entries sample_follower) 2 1 [mkEntry 3 3 30]%N).2 sample_leader.
Proof.
  pose proof (append_entries_refines (from_entries sample_follower) sample_follower 2 1
    [mkEntry 3 3 30]%N (proj2 sample_repr) (contiguousb_true 3 [mkEntry 3 3 30]%N eq_refl) ltac:(done)) as H.
  split; [reflexivity|]. exact (proj1 (proj2 H)).
Defined.

Lemma sample_matching : log_matching sample_follower sample_leader.
Proof.
  intros k e1 e2 H1 H2 Ht. destruct k as [|[|[|k]]]; simplify_eq/=; done.
Qed.

Lemma replication_agreement_witness :
  ∃ F', repr (append_entries (from_entries sample_follower) 2 1 [mkEntry 3 3 30]%N).2 F' ∧
    take 3 F' = sample_leader ∧ log_matching F' sample_leader.
Proof.
  apply (replication_agreement (from_entries sample_leader) (from_entries sample_follower)
    (append_entries (from_entries sample_follower) 2 1 [mkEntry 3 3 30]%N).2
    sample_leader sample_follower 3 (proj1 sample_repr) (proj2 sample_repr) sample_matching);
    [done| |reflexivity].
  vm_compute. done.
Defined.

Lemma compaction_preserves_log_witness :
  let l' := compact_to (from_entries sample_leader) 2 in
  length (entries l') = 1 ∧ repr l' sample_leader ∧ last_index l' = 3%N ∧ last_term l' = 3%N.
Proof.
  pose proof (compaction_preserves_log _ _ 2 (proj1 sample_repr)) as (H1 & H2 & H3 & _).
  split; [reflexivity|]. split; [exact H1|]. split; [exact H2|exact H3].
Defined.

Lemma append_entries_duplicate_witness :
  append_entries (from_entries sample_leader) 1 1 [mkEntry 1 2 20]%N
    = (true, from_entries sample_leader).
Proof. exact (append_entries_duplicate _ _ 1 1 1 (proj1 sample_repr) eq_refl). Defined.

End RaftLog.
