(* ===== verification/RaftElection.v ===== *)
(** Elections: [src/pirc-server/src/raft/election.rs].

    Vote counting, the log up-to-date test and the deterministic election
    timeout, with the facts on majorities that the cluster proofs use. *)

From Stdlib Require Import ZArith.
From Stdlib Require Uint63.
From Corelib Require PrimFloat FloatOps SpecFloat.
From S2P Require Import Prelude.
From S2P Require Import RaftTypes.

(** ** Vote counting *)

Record ElectionTracker : Type := mkTracker {
  votes : gset NodeId;
  cluster_size : N;
}.

Module ElectionTracker.

Definition new (cluster_size : N) : ElectionTracker := mkTracker ∅ cluster_size.

(** Required number of votes for a majority. *)
Definition quorum_size (t : ElectionTracker) : N := cluster_size t / 2 + 1.

Definition vote_count (t : ElectionTracker) : N := N.of_nat (size (votes t)).

Definition has_quorum (t : ElectionTracker) : bool :=
  bool_decide (quorum_size t ≤ vote_count t)%N.

(** Returns whether the quorum is now reached, with the updated tracker. *)
Definition record_vote (t : ElectionTracker) (from : NodeId) : bool * ElectionTracker :=
  let t' := mkTracker ({[from]} ∪ votes t) (cluster_size t) in (has_quorum t', t').

Definition reset (t : ElectionTracker) : ElectionTracker := mkTracker ∅ (cluster_size t).

Definition voters (t : ElectionTracker) : gset NodeId := votes t.

End ElectionTracker.

(** ** Log comparison *)

Definition is_log_up_to_date (candidate_last_term : Term) (candidate_last_index : LogIndex)
    (our_last_term : Term) (our_last_index : LogIndex) : bool :=
  bool_decide (our_last_term < candidate_last_term ∨
    (candidate_last_term = our_last_term ∧ our_last_index ≤ candidate_last_index))%N.

(** ** Election timeout

    The scaling is done in binary64, as in the source: [f64_of_N] is the [as
    f64] cast of a 64-bit integer (one of [2^63] or more is halved, keeping the
    lost bit for the rounding, and doubled again), [as_secs_f64] and
    [from_secs_f64] are the conversions of [std::time::Duration] (the latter
    rounds to the nearest nanosecond, ties to even). *)

Definition f64_of_uint63 (n : N) : PrimFloat.float := PrimFloat.of_uint63 (Uint63.of_Z (Z.of_N n)).

Definition f64_of_N (n : N) : PrimFloat.float :=
  if decide (n < 2 ^ 63)%N then f64_of_uint63 n
  else PrimFloat.mul (f64_of_uint63 2) (f64_of_uint63 (N.lor (n / 2) (n mod 2))).

Definition nanos_per_sec : N := 1000000000.

(** A [Duration] has a 64-bit number of seconds: the first number of nanoseconds
    that does not fit. *)
Definition duration_limit : N := 2 ^ 64 * nanos_per_sec.

Definition checked_duration (nanos : N) : option Duration :=
  if decide (nanos < duration_limit)%N then Some nanos else None.

Definition as_secs_f64 (d : Duration) : PrimFloat.float :=
  PrimFloat.add (f64_of_N (d / nanos_per_sec))
    (PrimFloat.div (f64_of_N (d mod nanos_per_sec)) (f64_of_N nanos_per_sec)).

(** [num / den] rounded to the nearest integer, ties to even. *)
Definition div_round_even (num den : N) : N :=
  let q := (num / den)%N in
  let r := (num mod den)%N in
  if decide (2 * r < den)%N then q
  else if decide (den < 2 * r)%N then (q + 1)%N
  else if N.even q then q else (q + 1)%N.

(** [None] where [Duration::from_secs_f64] panics: the value is negative, not
    finite or too large. *)
Definition from_secs_f64 (x : PrimFloat.float) : option Duration :=
  match FloatOps.Prim2SF x with
  | SpecFloat.S754_zero _ => Some 0%N
  | SpecFloat.S754_finite false m e =>
      let m' := (N.pos m * nanos_per_sec)%N in
      checked_duration (if decide (0 ≤ e)%Z then (m' * 2 ^ Z.to_N e)%N
                        else div_round_even m' (2 ^ Z.to_N (- e))%N)
  | _ => None
  end.

(** How many peers have a lower id than this node. *)
Definition election_position (config : RaftConfig) : N :=
  foldl (λ position peer, if decide (peer < node_id config)%N then (position + 1)%N else position)
    0%N (config_peers config).

(** [None] where the source panics: in [from_secs_f64], or because the sum of two
    durations overflows. *)
Definition compute_election_timeout (config : RaftConfig) : option Duration :=
  let range := saturating_sub (election_timeout_max config) (election_timeout_min config) in
  let position := election_position config in
  let total := (N.of_nat (length (config_peers config)) + 1)%N in
  if decide (total ≤ 1)%N then Some (election_timeout_min config) else
  let fraction := PrimFloat.div (f64_of_N position) (f64_of_N (total - 1)) in
  off ← from_secs_f64 (PrimFloat.mul (as_secs_f64 range) fraction);
  checked_duration (election_timeout_min config + off).

(** The default configuration with an id and peers. *)
Definition config_of (i : NodeId) (peers : list NodeId) : RaftConfig :=
  {| election_timeout_min := election_timeout_min RaftConfig_default;
     election_timeout_max := election_timeout_max RaftConfig_default;
     heartbeat_interval := heartbeat_interval RaftConfig_default;
     node_id := i;
     config_peers := peers;
     snapshot_threshold := default_snapshot_threshold;
     snapshot_chunk_size := default_snapshot_chunk_size |}.

(** Node [i] of the cluster [1 .. n]. *)
Definition cluster_ids (n : nat) : list NodeId := N.of_nat <$> seq 1 n.

Definition cluster_config (n : nat) (i : NodeId) : RaftConfig :=
  config_of i (filter (λ p, p ≠ i) (cluster_ids n)).

(** [c] is the configuration of one of the [ids] of a cluster: its peers are the
    other ids, in any order, and its timeouts are the default ones. *)
Record member_config (ids : list NodeId) (c : RaftConfig) : Prop := mk_member_config {
  member_config_nodup : NoDup ids;
  member_config_self : node_id c ∈ ids;
  member_config_peers : config_peers c ≡ₚ filter (λ p, p ≠ node_id c) ids;
  member_config_min : election_timeout_min c = election_timeout_min RaftConfig_default;
  member_config_max : election_timeout_max c = election_timeout_max RaftConfig_default;
}.

(** The default timeout of the node with [position] lower ids among [total]. *)
Definition default_timeout (total position : N) : option Duration :=
  let lo := election_timeout_min RaftConfig_default in
  let range := saturating_sub (election_timeout_max RaftConfig_default) lo in
  off ← from_secs_f64 (PrimFloat.mul (as_secs_f64 range)
          (PrimFloat.div (f64_of_N position) (f64_of_N (total - 1))));
  checked_duration (lo + off).

(** The timeouts of the positions of a cluster of [total] nodes increase, the
    first being at least 150 ms and the last at most 300 ms. *)
Fixpoint increasing (lo hi : N) (l : list (option Duration)) : bool :=
  match l with
  | [] => true
  | Some t :: l' => bool_decide (lo ≤ t)%N && bool_decide (t ≤ hi)%N && increasing (t + 1) hi l'
  | None :: _ => false
  end.

Definition default_timeouts (total : nat) : list (option Duration) :=
  (λ p, default_timeout (N.of_nat total) (N.of_nat p)) <$> seq 0 total.

(** ** Facts *)

(** Two majorities of the same set of members share a member. *)
Lemma majority_intersect (members q1 q2 : gset NodeId) :
  q1 ⊆ members → q2 ⊆ members →
  (N.of_nat (size members) / 2 + 1 ≤ N.of_nat (size q1))%N →
  (N.of_nat (size members) / 2 + 1 ≤ N.of_nat (size q2))%N →
  ∃ m, m ∈ q1 ∧ m ∈ q2.
Proof.
  intros H1 H2 S1 S2. destruct (decide (q1 ∩ q2 = ∅)) as [E|E].
  - exfalso. assert (q1 ## q2) as Hd by set_solver.
    pose proof (size_union q1 q2 Hd).
    pose proof (subseteq_size (q1 ∪ q2) members ltac:(set_solver)).
    pose proof (N.mul_succ_div_gt (N.of_nat (size members)) 2 ltac:(done)). lia.
  - apply set_choose_L in E as [m Hm]. exists m. set_solver.
Qed.

Lemma has_quorum_spec (t : ElectionTracker) :
  ElectionTracker.has_quorum t = true ↔
  (cluster_size t / 2 + 1 ≤ N.of_nat (size (votes t)))%N.
Proof. unfold ElectionTracker.has_quorum. by rewrite bool_decide_eq_true. Qed.

Lemma record_vote_votes (t : ElectionTracker) (from : NodeId) :
  votes (ElectionTracker.record_vote t from).2 = {[from]} ∪ votes t ∧
  cluster_size (ElectionTracker.record_vote t from).2 = cluster_size t.
Proof. done. Qed.

Lemma default_timeouts_increasing :
  forallb (λ n, increasing (from_millis 150) (from_millis 300) (default_timeouts n)) (seq 2 63) = true.
Proof. vm_compute. reflexivity. Qed.

Lemma increasing_lookup (l : list (option Duration)) (lo hi : N) (p : nat) (o : option Duration) :
  increasing lo hi l = true → l !! p = Some o → ∃ t, o = Some t ∧ (lo ≤ t ≤ hi)%N.
Proof.
  revert lo p. induction l as [|[t|] l IH]; intros lo p H Hp; [done| |done].
  cbn [increasing] in H. rewrite !andb_true_iff, !bool_decide_eq_true in H. destruct H as [[H1 H2] H3].
  destruct p as [|p]; simpl in Hp; [simplify_eq; eauto|].
  destruct (IH _ _ H3 Hp) as (t' & -> & Ht). exists t'. split; [done|lia].
Qed.

Lemma increasing_lt (l : list (option Duration)) (lo hi : N) (p q : nat) (tp tq : Duration) :
  increasing lo hi l = true → p < q → l !! p = Some (Some tp) → l !! q = Some (Some tq) → (tp < tq)%N.
Proof.
  revert lo p q. induction l as [|[t|] l IH]; intros lo p q H Hlt Hp Hq; [done| |done].
  cbn [increasing] in H. rewrite !andb_true_iff in H. destruct H as [_ H].
  destruct q as [|q]; [lia|]. simpl in Hq. destruct p as [|p]; simpl in Hp; simplify_eq.
  - destruct (increasing_lookup _ _ _ _ _ H Hq) as (t' & [= <-] & Ht). lia.
  - apply (IH (t + 1)%N p q H); [lia|done..].
Qed.

(** The loop counts the peers with a lower id, whatever their order. *)
Lemma election_position_count (c : RaftConfig) :
  election_position c = N.of_nat (length (filter (λ p, p < node_id c)%N (config_peers c))).
Proof.
  unfold election_position.
  enough (∀ l k, foldl (λ position peer, if decide (peer < node_id c)%N then (position + 1)%N else position) k l
    = (k + N.of_nat (length (filter (λ p, p < node_id c)%N l)))%N) as H by (rewrite H; lia).
  induction l as [|p l IH]; intros k; [simpl; lia|]. cbn [foldl]. rewrite IH, filter_cons.
  repeat case_decide; try done; simpl; lia.
Qed.

Lemma filter_keeps_all {A} (P : A → Prop) `{∀ x, Decision (P x)} (l : list A) :
  (∀ x, x ∈ l → P x) → length (filter P l) = length l.
Proof.
  intros HP. induction l as [|x l IH]; [done|]. rewrite filter_cons_True by (apply HP; by left).
  simpl. f_equal. apply IH. intros y Hy. apply HP. by right.
Qed.

Section MemberConfig.
Context (ids : list NodeId).

(** The position of an id among the ids of the cluster. *)
Definition rank (i : NodeId) : nat := length (filter (λ p, p < i)%N ids).

Lemma member_config_position (c : RaftConfig) :
  member_config ids c → election_position c = N.of_nat (rank (node_id c)).
Proof.
  intros [_ _ Hp _ _]. rewrite election_position_count. unfold rank. f_equal.
  rewrite (Permutation_length (filter_Permutation _ _ _ Hp)), list_filter_filter. f_equal.
  apply list_filter_iff. intros x. simpl. lia.
Qed.

Lemma member_config_total (c : RaftConfig) :
  member_config ids c → S (length (config_peers c)) = length ids.
Proof.
  intros [Hn Hs Hp _ _]. rewrite Hp. clear Hp. induction ids as [|x l IH]; [set_solver|].
  apply NoDup_cons in Hn as [Hx Hn]. rewrite filter_cons. case_decide as Hd; simpl.
  - f_equal. apply IH; [done|]. apply elem_of_cons in Hs as [<-|Hs]; done.
  - assert (x = node_id c) as -> by (destruct (decide (x = node_id c)); tauto). f_equal.
    apply filter_keeps_all. intros y Hy ->. done.
Qed.

Lemma rank_lt_length (i : NodeId) : i ∈ ids → rank i < length ids.
Proof. intros Hi. apply (length_filter_lt _ _ i Hi). lia. Qed.

Lemma rank_lt (i j : NodeId) : i ∈ ids → (i < j)%N → rank i < rank j.
Proof.
  intros Hi Hij. unfold rank. clear -Hi Hij. induction ids as [|x l IH]; [set_solver|].
  assert (∀ k k' : NodeId, (k ≤ k')%N →
    length (filter (λ p, p < k)%N l) ≤ length (filter (λ p, p < k')%N l)) as Hmono.
  { intros k k' Hk. apply sublist_length. clear -Hk. induction l as [|y l IH]; [done|].
    rewrite !filter_cons. repeat case_decide; [by constructor|lia|by constructor|done]. }
  specialize (Hmono i j ltac:(lia)). rewrite !filter_cons.
  apply elem_of_cons in Hi as [->|Hi]; [|specialize (IH Hi)]; repeat case_decide; simpl; lia.
Qed.

Lemma member_config_timeout (c : RaftConfig) :
  member_config ids c → 2 ≤ length ids →
  default_timeouts (length ids) !! rank (node_id c) = Some (compute_election_timeout c).
Proof.
  intros Hc Hl. pose proof (member_config_total c Hc) as Ht. pose proof (member_config_position c Hc) as Hp.
  destruct Hc as [_ Hs _ Hmin Hmax]. pose proof (rank_lt_length _ Hs).
  unfold default_timeouts. rewrite list_lookup_fmap, lookup_seq_lt by done. simpl. f_equal.
  unfold compute_election_timeout, default_timeout. rewrite Hp, Hmin, Hmax.
  replace (N.of_nat (length (config_peers c)) + 1)%N with (N.of_nat (length ids)) by lia.
  by rewrite decide_False by lia.
Qed.

End MemberConfig.

(** C21. Pre-planned succession: in every cluster of 2 to 64 nodes with distinct
    ids, whatever the ids and whatever the order in which each node lists its
    peers, with the default timeouts the binary64 computation gives each node a
    timeout inside [[150 ms, 300 ms]], and a node with a lower id a strictly
    shorter one, so no two nodes have the same timeout. *)
Theorem succession_order (ids : list NodeId) (ci cj : RaftConfig) :
  length ids ≤ 64 → member_config ids ci → member_config ids cj → (node_id ci < node_id cj)%N →
  ∃ ti tj, compute_election_timeout ci = Some ti ∧ compute_election_timeout cj = Some tj ∧
    (from_millis 150 ≤ ti < tj)%N ∧ (tj ≤ from_millis 300)%N.
Proof.
  intros Hn Hi Hj Hlt. pose proof (rank_lt ids _ _ (member_config_self _ _ Hi) Hlt) as Hr.
  pose proof (rank_lt_length ids _ (member_config_self _ _ Hj)).
  pose proof (member_config_timeout ids ci Hi ltac:(lia)) as Ei.
  pose proof (member_config_timeout ids cj Hj ltac:(lia)) as Ej.
  pose proof default_timeouts_increasing as H'. rewrite forallb_forall in H'.
  specialize (H' (length ids) ltac:(apply in_seq; lia)).
  destruct (increasing_lookup _ _ _ _ _ H' Ei) as (ti & Eti & Hti).
  destruct (increasing_lookup _ _ _ _ _ H' Ej) as (tj & Etj & Htj).
  rewrite Eti in Ei. rewrite Etj in Ej. pose proof (increasing_lt _ _ _ _ _ _ _ H' Hr Ei Ej).
  exists ti, tj. repeat split; lia || done.
Qed.

(** Three nodes with scattered ids that list their peers in different orders. *)
Lemma succession_order_witness :
  ∃ t7 t40, compute_election_timeout (config_of 7 [40; 3]%N) = Some t7 ∧
    compute_election_timeout (config_of 40 [3; 7]%N) = Some t40 ∧
    (from_millis 150 ≤ t7 < t40)%N ∧ (t40 ≤ from_millis 300)%N.
Proof.
  apply (succession_order [3; 7; 40]%N); [simpl; lia|..|done].
  - split; [by apply (bool_decide_unpack _); vm_compute..| |done|done].
    change (([40; 3]%N : list NodeId) ≡ₚ [3; 40]%N). apply perm_swap.
  - split; [by apply (bool_decide_unpack _); vm_compute..| |done|done]. reflexivity.
Defined.
