(* ===== verification/RaftMembership.v ===== *)
(** Cluster membership: [src/pirc-server/src/raft/membership.rs].

    The set of voting members with at most one uncommitted change, which takes
    effect when it is appended and is undone when leadership is lost. *)

From S2P Require Import Prelude.
From S2P Require Import RaftTypes.
From S2P Require Import RaftElection.

Inductive MembershipChange : Type :=
| AddServer (id : NodeId) (addr : SocketAddr)
| RemoveServer (id : NodeId).

#[export] Instance MembershipChange_eq_dec : EqDecision MembershipChange.
Proof. solve_decision. Defined.

Record PendingChange : Type := mkPending {
  pending_index : LogIndex;
  pending_op : MembershipChange;
}.

Inductive MembershipError : Type :=
| NotLeader
| ChangePending (i : LogIndex)
| NoCurrentTermCommit
| AlreadyMember (id : NodeId)
| NotMember (id : NodeId)
| CannotRemoveLastMember.

#[export] Instance MembershipError_eq_dec : EqDecision MembershipError.
Proof. solve_decision. Defined.

Record ClusterMembership : Type := mkMembership {
  members : gset NodeId;
  generation : N;
  pending_change : option PendingChange;
}.

Module ClusterMembership.

Definition new (self_id : NodeId) (peers : list NodeId) : ClusterMembership :=
  mkMembership (foldl (λ s p, {[p]} ∪ s) {[self_id]} peers) 0 None.

Definition member_count (m : ClusterMembership) : N := N.of_nat (size (members m)).

Definition quorum_size (m : ClusterMembership) : N := member_count m / 2 + 1.

Definition has_pending_change (m : ClusterMembership) : bool :=
  bool_decide (is_Some (pending_change m)).

Definition is_member (m : ClusterMembership) (id : NodeId) : bool := bool_decide (id ∈ members m).

(** The new configuration takes effect when the entry is appended. *)
Definition begin_change (m : ClusterMembership) (index : LogIndex) (change : MembershipChange)
    : ClusterMembership :=
  let members' :=
    match change with
    | AddServer id _ => {[id]} ∪ members m
    | RemoveServer id => members m ∖ {[id]}
    end in
  mkMembership members' (generation m) (Some (mkPending index change)).

Definition commit_change (m : ClusterMembership) : ClusterMembership :=
  match pending_change m with
  | Some _ => mkMembership (members m) (generation m +! 1) None
  | None => m
  end.

Definition rollback_change (m : ClusterMembership) : ClusterMembership :=
  match pending_change m with
  | Some p =>
      let members' :=
        match pending_op p with
        | AddServer id _ => members m ∖ {[id]}
        | RemoveServer id => {[id]} ∪ members m
        end in
      mkMembership members' (generation m) None
  | None => m
  end.

(** All members except [self_id], in the iteration order of the set. *)
Definition peers (m : ClusterMembership) (self_id : NodeId) : list NodeId :=
  filter (λ id, id ≠ self_id) (elements (members m)).

End ClusterMembership.

(** The validation [match] of [propose_membership_change]. *)
Definition validate_change (m : ClusterMembership) (change : MembershipChange)
    : result MembershipError unit :=
  match change with
  | AddServer id _ =>
      if ClusterMembership.is_member m id then Err (AlreadyMember id) else Ok tt
  | RemoveServer id =>
      if negb (ClusterMembership.is_member m id) then Err (NotMember id)
      else if decide (ClusterMembership.member_count m ≤ 1)%N then Err CannotRemoveLastMember
      else Ok tt
  end.

(** What the validation accepts. *)
Definition change_valid (m : ClusterMembership) (c : MembershipChange) : Prop :=
  match c with
  | AddServer id _ => id ∉ members m
  | RemoveServer id => id ∈ members m ∧ (1 < ClusterMembership.member_count m)%N
  end.

(** ** Facts *)

Lemma elem_of_membership_new (self_id p : NodeId) (ps : list NodeId) :
  p ∈ members (ClusterMembership.new self_id ps) ↔ p = self_id ∨ p ∈ ps.
Proof.
  unfold ClusterMembership.new; simpl.
  enough (∀ s : gset NodeId, p ∈ foldl (λ s p, {[p]} ∪ s) s ps ↔ p ∈ s ∨ p ∈ ps) as H
    by (rewrite H; set_solver).
  induction ps as [|q ps IH]; intros s; simpl; [set_solver|]. rewrite IH. set_solver.
Qed.

Lemma elem_of_peers (m : ClusterMembership) (self_id p : NodeId) :
  p ∈ ClusterMembership.peers m self_id ↔ p ∈ members m ∧ p ≠ self_id.
Proof. unfold ClusterMembership.peers. rewrite list_elem_of_filter, elem_of_elements. naive_solver. Qed.

Lemma validate_change_ok (m : ClusterMembership) (c : MembershipChange) :
  validate_change m c = Ok tt ↔ change_valid m c.
Proof.
  unfold validate_change, change_valid, ClusterMembership.is_member. destruct c as [id addr|id].
  - case_bool_decide; naive_solver.
  - case_bool_decide; simpl; [|naive_solver]. case_decide; split; naive_solver lia.
Qed.

(** C22. Losing leadership undoes the uncommitted change: after a change that
    passed the validation is begun and rolled back, the members and the generation
    are the ones from before and nothing is pending. *)
Theorem rollback_undoes_begin (m : ClusterMembership) (i : LogIndex) (c : MembershipChange) :
  pending_change m = None → validate_change m c = Ok tt →
  ClusterMembership.rollback_change (ClusterMembership.begin_change m i c) = m.
Proof.
  intros Hp Hv%validate_change_ok. destruct m as [ms g p]. simpl in Hp. subst p.
  unfold ClusterMembership.rollback_change; simpl. f_equal.
  destruct c as [id addr|id]; simpl in Hv.
  - apply set_eq. set_solver.
  - destruct Hv as [Hv _]. apply set_eq. intros x. destruct (decide (x = id)); set_solver.
Qed.

(** C14. Single-server changes are safe to apply before they commit: any majority
    of the members before a change that passed the validation and any majority
    of the members after it share a server, so two leaders elected under the two configurations
    would need a common voter. *)
Theorem single_server_change_overlap (m : ClusterMembership) (i : LogIndex) (c : MembershipChange)
    (q q' : gset NodeId) :
  validate_change m c = Ok tt →
  q ⊆ members m → (ClusterMembership.quorum_size m ≤ N.of_nat (size q))%N →
  let m' := ClusterMembership.begin_change m i c in
  q' ⊆ members m' → (ClusterMembership.quorum_size m' ≤ N.of_nat (size q'))%N →
  ∃ s, s ∈ q ∧ s ∈ q'.
Proof.
  intros Hv%validate_change_ok Hq Sq m' Hq' Sq'.
  destruct (decide (q ∩ q' = ∅)) as [E|E]; [|apply set_choose_L in E as [s ?]; exists s; set_solver].
  exfalso. assert (q ## q') as Hd by set_solver.
  pose proof (size_union q q' Hd) as HU.
  assert (size (q ∪ q') ≤ size (members m ∪ members m')) as Hle by (apply subseteq_size; set_solver).
  unfold ClusterMembership.quorum_size, ClusterMembership.member_count in *.
  pose proof (N.mul_succ_div_gt (N.of_nat (size (members m))) 2 ltac:(done)).
  pose proof (N.mul_succ_div_gt (N.of_nat (size (members m'))) 2 ltac:(done)).
  destruct c as [id addr|id]; simpl in Hv.
  - assert (members m ∪ members m' = members m') as Hm by (apply set_eq; set_solver).
    rewrite Hm in Hle. assert (size (members m') = S (size (members m))) as Hs.
    { unfold m'; simpl. rewrite size_union by set_solver. by rewrite size_singleton. }
    lia.
  - destruct Hv as [Hin Hc].
    assert (members m ∪ members m' = members m) as Hm by (apply set_eq; set_solver).
    rewrite Hm in Hle. assert (size (members m) = S (size (members m'))) as Hs.
    { assert (members m = {[id]} ∪ members m') as ->.
      { apply set_eq. intros x. unfold m'; simpl. destruct (decide (x = id)); set_solver. }
      rewrite size_union by (unfold m'; simpl; set_solver). by rewrite size_singleton. }
    lia.
Qed.

Lemma rollback_undoes_begin_witness :
  let m := ClusterMembership.new 1 [2; 3]%N in
  ClusterMembership.rollback_change (ClusterMembership.begin_change m 7 (RemoveServer 3)) = m.
Proof.
  apply (rollback_undoes_begin (ClusterMembership.new 1 [2; 3]%N) 7 (RemoveServer 3)); [done|by vm_compute].
Defined.

(** Two of three before adding server 4, three of four after it. *)
Lemma single_server_change_overlap_witness :
  ∃ s : NodeId, s ∈ ({[1; 2]}%N : gset NodeId) ∧ s ∈ ({[2; 3; 4]}%N : gset NodeId).
Proof.
  apply (single_server_change_overlap (ClusterMembership.new 1 [2; 3]%N) 7 (AddServer 4 (V4 0 0)));
    [by vm_compute|..]; by apply (bool_decide_unpack _); vm_compute.
Defined.
