(* ===== verification/RaftHealth.v ===== *)
(** Peer failure detection: [src/pirc-server/src/raft/health.rs].

    [Instant::now()] is an argument, in nanoseconds since the process started;
    the events sent on the monitor's channel are the list [events]. *)

From S2P Require Import Prelude.
From S2P Require Import RaftTypes.

Inductive PeerStatus : Type := Online | Suspected | Down.

#[export] Instance PeerStatus_eq_dec : EqDecision PeerStatus.
Proof. solve_decision. Defined.

Inductive HealthEvent : Type :=
| NodeSuspected (id : NodeId)
| NodeDown (id : NodeId)
| NodeUp (id : NodeId).

Record HealthConfig : Type := mkHealthConfig {
  suspect_threshold : Duration;
  failure_threshold : Duration;
}.

Definition from_heartbeat_interval (heartbeat : Duration) : HealthConfig :=
  mkHealthConfig (heartbeat * 3) (heartbeat * 6).

Record PeerState : Type := mkPeerState {
  status : PeerStatus;
  last_seen : N;
}.

Record NodeHealthMonitor : Type := mkMonitor {
  health_cfg : HealthConfig;
  monitored : gmap NodeId PeerState;
  events : list HealthEvent;
  dirty : bool;
}.

Module NodeHealthMonitor.

Definition new (peer_ids : list NodeId) (cfg : HealthConfig) (now : N) : NodeHealthMonitor :=
  mkMonitor cfg (list_to_map ((λ id, (id, mkPeerState Online now)) <$> peer_ids)) [] false.

Definition record_response (peer : NodeId) (now : N) (m : NodeHealthMonitor) : NodeHealthMonitor :=
  match monitored m !! peer with
  | None => m
  | Some p =>
      let ps := <[peer := mkPeerState Online now]> (monitored m) in
      if decide (status p = Online) then mkMonitor (health_cfg m) ps (events m) (dirty m)
      else mkMonitor (health_cfg m) ps (events m ++ [NodeUp peer]) true
  end.

(** The status the thresholds give after [elapsed]. *)
Definition status_after (cfg : HealthConfig) (elapsed : Duration) : PeerStatus :=
  if decide (failure_threshold cfg ≤ elapsed)%N then Down
  else if decide (suspect_threshold cfg ≤ elapsed)%N then Suspected else Online.

Definition event_of (peer : NodeId) (s : PeerStatus) : HealthEvent :=
  match s with Down => NodeDown peer | Suspected => NodeSuspected peer | Online => NodeUp peer end.

(** One iteration of the loop of [evaluate]; [duration_since] saturates. *)
Definition evaluate_peer (now : N) (m : NodeHealthMonitor) (kv : NodeId * PeerState)
    : NodeHealthMonitor :=
  let '(peer, p) := kv in
  let new_status := status_after (health_cfg m) (now - last_seen p) in
  if decide (new_status = status p) then m
  else mkMonitor (health_cfg m) (<[peer := mkPeerState new_status (last_seen p)]> (monitored m))
         (events m ++ [event_of peer new_status]) true.

Definition evaluate (now : N) (m : NodeHealthMonitor) : NodeHealthMonitor :=
  foldl (evaluate_peer now) m (map_to_list (monitored m)).

Definition clear_dirty (m : NodeHealthMonitor) : NodeHealthMonitor :=
  mkMonitor (health_cfg m) (monitored m) (events m) false.

Definition peer_statuses (m : NodeHealthMonitor) : gmap NodeId PeerStatus :=
  status <$> monitored m.

Definition peer_status (m : NodeHealthMonitor) (peer : NodeId) : option PeerStatus :=
  status <$> monitored m !! peer.

Definition add_peer (peer : NodeId) (now : N) (m : NodeHealthMonitor) : NodeHealthMonitor :=
  match monitored m !! peer with
  | Some _ => m
  | None => mkMonitor (health_cfg m) (<[peer := mkPeerState Online now]> (monitored m))
              (events m) (dirty m)
  end.

Definition remove_peer (peer : NodeId) (m : NodeHealthMonitor) : NodeHealthMonitor :=
  mkMonitor (health_cfg m) (delete peer (monitored m)) (events m) (dirty m).

Definition down_peers (m : NodeHealthMonitor) : list NodeId :=
  (map_to_list (filter (λ kv, status kv.2 = Down) (monitored m))).*1.

End NodeHealthMonitor.

(** ** Facts *)

Import NodeHealthMonitor.

(** Folding over a list of peers with distinct ids, all still as monitored. *)
Lemma evaluate_fold (now : N) (l : list (NodeId * PeerState)) (m : NodeHealthMonitor) :
  NoDup l.*1 → (∀ k p, (k, p) ∈ l → monitored m !! k = Some p) →
  let m' := foldl (evaluate_peer now) m l in
  health_cfg m' = health_cfg m ∧
  (∀ k, monitored m' !! k =
     if decide (k ∈ l.*1)
     then (λ p, mkPeerState (status_after (health_cfg m) (now - last_seen p)) (last_seen p))
            <$> monitored m !! k
     else monitored m !! k) ∧
  events m' = events m ++ omap (λ kv,
     let s := status_after (health_cfg m) (now - last_seen kv.2) in
     if decide (s = status kv.2) then None else Some (event_of kv.1 s)) l ∧
  dirty m' = dirty m || existsb (λ kv,
     bool_decide (status_after (health_cfg m) (now - last_seen kv.2) ≠ status kv.2)) l.
Proof.
  revert m. induction l as [|[k p] l IH]; intros m Hnd Hin; cbn [foldl fmap list_fmap].
  { split; [done|]. split; [done|]. split; [by rewrite app_nil_r|by rewrite orb_false_r]. }
  apply NoDup_cons in Hnd as [Hk Hnd].
  assert (monitored m !! k = Some p) as Hkp by (apply Hin; left).
  set (m1 := evaluate_peer now m (k, p)).
  assert (health_cfg m1 = health_cfg m) as Hc
    by (unfold m1, evaluate_peer; by case_decide).
  assert (∀ j q, (j, q) ∈ l → monitored m1 !! j = Some q) as Hin1.
  { intros j q Hj. assert (j ≠ k) as Hne.
    { intros ->. apply Hk. apply list_elem_of_fmap. by exists (k, q). }
    unfold m1, evaluate_peer. case_decide; simpl; [|rewrite lookup_insert_ne by done];
      apply Hin; by right. }
  destruct (IH m1 Hnd Hin1) as (H1 & H2 & H3 & H4). rewrite Hc in H1, H2, H3, H4.
  split; [done|]. split; [|split].
  - intros j. rewrite H2. destruct (decide (j = k)) as [->|Hne].
    + rewrite decide_False by done. rewrite decide_True by left. rewrite Hkp. simpl.
      unfold m1, evaluate_peer. case_decide as Hs; simpl.
      * rewrite Hkp. destruct p; simpl in *; by rewrite Hs.
      * by rewrite lookup_insert_eq.
    + assert (monitored m1 !! j = monitored m !! j) as ->.
      { unfold m1, evaluate_peer. case_decide; simpl; [done|]. by rewrite lookup_insert_ne. }
      destruct (decide (j ∈ l.*1)).
      * rewrite decide_True; [done|]. by right.
      * rewrite decide_False; [done|]. by rewrite not_elem_of_cons.
  - rewrite H3. cbn [omap list_omap]. unfold m1, evaluate_peer; simpl.
    case_decide; simpl; [done|]. by rewrite <- app_assoc.
  - rewrite H4. cbn [existsb]. unfold m1, evaluate_peer; simpl. case_decide as Hs; simpl.
    + by rewrite bool_decide_eq_false_2 by auto.
    + rewrite bool_decide_eq_true_2 by done. by rewrite !orb_true_r.
Qed.

(** When a peer silent for [elapsed] has to have the status [s]. *)
Definition due (cfg : HealthConfig) (elapsed : Duration) (s : PeerStatus) : Prop :=
  match s with
  | Down => (failure_threshold cfg ≤ elapsed)%N
  | Suspected => (suspect_threshold cfg ≤ elapsed < failure_threshold cfg)%N
  | Online => (elapsed < suspect_threshold cfg)%N ∧ (elapsed < failure_threshold cfg)%N
  end.

Lemma status_after_due (cfg : HealthConfig) (elapsed : Duration) :
  due cfg elapsed (status_after cfg elapsed).
Proof. unfold status_after. repeat case_decide; simpl; lia. Qed.

Lemma event_of_inj (k k' : NodeId) (s s' : PeerStatus) : event_of k s = event_of k' s' → k = k'.
Proof. destruct s, s'; simpl; congruence. Qed.

(** One event per entry of a list with distinct keys. *)
Lemma omap_events_NoDup (g : PeerState → option PeerStatus) (l : list (NodeId * PeerState)) :
  NoDup l.*1 → NoDup (omap (λ kv, event_of kv.1 <$> g kv.2) l).
Proof.
  induction l as [|[k p] l IH]; intros Hnd; [constructor|].
  cbn [fmap list_fmap fst] in Hnd. apply NoDup_cons in Hnd as [Hk Hnd]. cbn [omap list_omap fst snd].
  destruct (g p) as [s|]; simpl; [|by apply IH]. apply NoDup_cons. split; [|by apply IH].
  rewrite list_elem_of_omap. intros ([k' p'] & Hin & He). simpl in He.
  destruct (g p') as [s'|]; simplify_eq/=. apply event_of_inj in He as ->.
  apply Hk. apply list_elem_of_fmap. by exists (k, p').
Qed.

Lemma existsb_omap_nil {A B} (c : A → bool) (g : A → option B) (l : list A) :
  (∀ x, c x = bool_decide (g x ≠ None)) → existsb c l = bool_decide (omap g l ≠ []).
Proof.
  intros H. induction l as [|x l IH]; [done|]. cbn [existsb omap list_omap]. rewrite H, IH.
  by destruct (g x).
Qed.

(** What [evaluate] does to the record of a peer. *)
Lemma evaluate_lookup (now : N) (m : NodeHealthMonitor) (k : NodeId) :
  monitored (evaluate now m) !! k =
    (λ p, mkPeerState (status_after (health_cfg m) (now - last_seen p)) (last_seen p))
      <$> monitored m !! k.
Proof.
  destruct (evaluate_fold now (map_to_list (monitored m)) m) as (_ & H2 & _).
  { apply NoDup_fst_map_to_list. }
  { intros j p. by rewrite elem_of_map_to_list. }
  fold (evaluate now m) in H2. rewrite H2. case_decide as Hk; [done|].
  destruct (monitored m !! k) as [p|] eqn:E; [|done]. exfalso. apply Hk.
  apply list_elem_of_fmap. exists (k, p). by rewrite elem_of_map_to_list.
Qed.

(** The new status of a peer where it differs from the one it had. *)
Definition new_status_of (cfg : HealthConfig) (now : N) (p : PeerState) : option PeerStatus :=
  let s := status_after cfg (now - last_seen p) in if decide (s = status p) then None else Some s.

Lemma evaluate_events (now : N) (m : NodeHealthMonitor) :
  let new := omap (λ kv, event_of kv.1 <$> new_status_of (health_cfg m) now kv.2)
               (map_to_list (monitored m)) in
  events (evaluate now m) = events m ++ new ∧
  dirty (evaluate now m) = dirty m || bool_decide (new ≠ []).
Proof.
  destruct (evaluate_fold now (map_to_list (monitored m)) m) as (_ & _ & H3 & H4).
  { apply NoDup_fst_map_to_list. }
  { intros k p. by rewrite elem_of_map_to_list. }
  fold (evaluate now m) in H3, H4. cbv zeta. rewrite H3, H4. split.
  - f_equal. apply list_omap_ext, Forall_Forall2_diag, Forall_true. intros [k p]. simpl. unfold new_status_of. by case_decide.
  - f_equal. apply existsb_omap_nil. intros [k p]. unfold new_status_of. simpl.
    case_decide as Hs; apply bool_decide_ext; simpl; naive_solver.
Qed.

(** C20. Failure detection: after [evaluate] at time [now] every monitored peer
    has exactly the status its silence gives it (down from the failure
    threshold on, suspected from the suspect threshold on, online before) and
    the time it was last seen is kept; no peer appears or disappears; the events
    sent are exactly one for each peer whose status changed, naming the peer and
    its new status, none twice and none for another peer; and the dirty flag is
    raised exactly when there is such a peer. *)
Theorem evaluate_status (now : N) (m : NodeHealthMonitor) :
  (∀ k p, monitored m !! k = Some p → ∃ s,
     monitored (evaluate now m) !! k = Some (mkPeerState s (last_seen p)) ∧
     due (health_cfg m) (now - last_seen p) s) ∧
  dom (monitored (evaluate now m)) = dom (monitored m) ∧
  ∃ new, events (evaluate now m) = events m ++ new ∧ NoDup new ∧
    (∀ e, e ∈ new ↔ ∃ k s s', peer_status m k = Some s ∧ peer_status (evaluate now m) k = Some s' ∧
       s' ≠ s ∧ e = match s' with Down => NodeDown k | Suspected => NodeSuspected k | Online => NodeUp k end) ∧
    dirty (evaluate now m) = dirty m || bool_decide (new ≠ []).
Proof.
  destruct (evaluate_events now m) as [He Hd]. split; [|split].
  - intros k p Hk. rewrite evaluate_lookup, Hk. eexists. split; [done|]. apply status_after_due.
  - apply set_eq. intros k. rewrite !elem_of_dom, evaluate_lookup. by rewrite fmap_is_Some.
  - eexists. split; [exact He|]. split; [apply omap_events_NoDup, NoDup_fst_map_to_list|]. split; [|done].
    intros e. rewrite list_elem_of_omap. unfold peer_status. setoid_rewrite evaluate_lookup. split.
    + intros ([k p] & Hin & Hs). apply elem_of_map_to_list in Hin. simpl in Hs.
      unfold new_status_of in Hs. case_decide; simplify_eq/=. exists k. rewrite Hin. simpl. do 2 eexists. by repeat split.
    + intros (k & s & s' & Hk & Hk' & Hs & ->). destruct (monitored m !! k) as [p|] eqn:E; simplify_eq/=.
      exists (k, p). rewrite elem_of_map_to_list. split; [done|]. unfold new_status_of.
      by rewrite decide_False.
Qed.
