(* ===== verification/RaftStorage.v ===== *)
(** Persistent storage: the trait of [src/pirc-server/src/raft/storage.rs] as a
    type class, the durability its documentation promises as laws, and the
    in-memory backend of [test_utils.rs] as an instance. *)

From S2P Require Import Prelude.
From S2P Require Import RaftTypes.

Inductive StorageError : Type :=
| Io
| Serialization (msg : str)
| Deserialization (msg : str)
| Corrupted (msg : str).

(** Saving returns the store after the attempt; loading does not change it. *)
Class RaftStorage (T S : Type) : Type := {
  save_term : Term → S → result StorageError unit * S;
  load_term : S → result StorageError Term;
  save_voted_for : option NodeId → S → result StorageError unit * S;
  load_voted_for : S → result StorageError (option NodeId);
  storage_append_entries : list (LogEntry T) → S → result StorageError unit * S;
  load_log : S → result StorageError (list (LogEntry T));
  truncate_log_from : LogIndex → S → result StorageError unit * S;
  save_snapshot : list u8 → LogIndex → Term → S → result StorageError unit * S;
  load_snapshot : S → result StorageError (option (list u8 * LogIndex * Term));
}.

(** Once a save returns [Ok] the value is what a later load returns, and saving
    one piece of state does not change the others. *)
Class RaftStorageLaws (T S : Type) {st : RaftStorage T S} : Prop := {
  save_term_ok : ∀ t s s', save_term t s = (Ok tt, s') →
    load_term s' = Ok t ∧ load_voted_for s' = load_voted_for s ∧
    load_log s' = load_log s ∧ load_snapshot s' = load_snapshot s;
  save_voted_for_ok : ∀ v s s', save_voted_for v s = (Ok tt, s') →
    load_voted_for s' = Ok v ∧ load_term s' = load_term s ∧
    load_log s' = load_log s ∧ load_snapshot s' = load_snapshot s;
  save_snapshot_ok : ∀ d i t s s', save_snapshot d i t s = (Ok tt, s') →
    load_snapshot s' = Ok (Some (d, i, t)) ∧ load_term s' = load_term s ∧
    load_voted_for s' = load_voted_for s ∧ load_log s' = load_log s;
}.

(** A storage whose writes succeed.  This is more than the trait promises (a write
    may return an error, which the driver logs); theorems that need it say so. *)
Class RaftStorageReliable (T S : Type) {st : RaftStorage T S} : Prop := {
  reliable_laws :: RaftStorageLaws T S;
  save_term_total : ∀ t s, ∃ s', save_term t s = (Ok tt, s');
  save_voted_for_total : ∀ v s, ∃ s', save_voted_for v s = (Ok tt, s');
  save_snapshot_total : ∀ d i t s, ∃ s', save_snapshot d i t s = (Ok tt, s');
}.

(** ** The in-memory backend *)

Record MemStorage (T : Type) : Type := mkMem {
  mem_term : Term;
  mem_voted_for : option NodeId;
  mem_log : list (LogEntry T);
  mem_snapshot : option (list u8 * LogIndex * Term);
}.
Arguments mkMem {T} _ _ _ _.
Arguments mem_term {T} _.
Arguments mem_voted_for {T} _.
Arguments mem_log {T} _.
Arguments mem_snapshot {T} _.

Definition MemStorage_new {T} : MemStorage T := mkMem 0 None [] None.

Definition mem_truncate_log_from {T} (index : LogIndex) (s : MemStorage T) : MemStorage T :=
  let i := N.to_nat index in
  if decide (0 < i ∧ i ≤ length (mem_log s))
  then mkMem (mem_term s) (mem_voted_for s) (take (i - 1) (mem_log s)) (mem_snapshot s)
  else s.

#[export] Instance MemStorage_storage {T} : RaftStorage T (MemStorage T) := {|
  save_term t s := (Ok tt, mkMem t (mem_voted_for s) (mem_log s) (mem_snapshot s));
  load_term s := Ok (mem_term s);
  save_voted_for v s := (Ok tt, mkMem (mem_term s) v (mem_log s) (mem_snapshot s));
  load_voted_for s := Ok (mem_voted_for s);
  storage_append_entries es s :=
    (Ok tt, mkMem (mem_term s) (mem_voted_for s) (mem_log s ++ es) (mem_snapshot s));
  load_log s := Ok (mem_log s);
  truncate_log_from i s := (Ok tt, mem_truncate_log_from i s);
  save_snapshot d i t s :=
    (Ok tt, mkMem (mem_term s) (mem_voted_for s) (mem_log s) (Some (d, i, t)));
  load_snapshot s := Ok (mem_snapshot s);
|}.

#[export] Instance MemStorage_laws {T} : RaftStorageLaws T (MemStorage T).
Proof. split; intros; simplify_eq/=; done. Qed.

#[export] Instance MemStorage_reliable {T} : RaftStorageReliable T (MemStorage T).
Proof. split; [apply _|eauto..]. Qed.
