(* ===== verification/RaftNode.v ===== *)
(** The consensus node: [src/pirc-server/src/raft/node.rs] and the methods
    [replication.rs] adds to it.

    A method with [&mut self] is a function on [RaftNode]; one that can fail is
    in the state-and-error monad of the prelude.  The unbounded channel
    [outbound] is the list of messages sent so far; a send to a closed channel
    is ignored by the source and has no counterpart. *)

From S2P Require Import Prelude.
From S2P Require Import RaftTypes.
From S2P Require Import RaftLog.
From S2P Require Import RaftElection.
From S2P Require Import RaftMembership.
From S2P Require Import RaftStorage.

(** ** The state machine trait ([snapshot.rs]) *)

Inductive SnapshotError : Type :=
| InvalidData (msg : str)
| StorageFailure (e : StorageError).

Class StateMachine (T M : Type) : Type := {
  sm_apply : T → M → M;
  sm_snapshot : M → list u8;
  sm_restore : list u8 → M → result SnapshotError unit * M;
}.

(** [NullStateMachine]. *)
Definition NullStateMachine : Type := unit.

#[export] Instance NullStateMachine_sm {T} : StateMachine T NullStateMachine := {|
  sm_apply _ m := m;
  sm_snapshot _ := [];
  sm_restore _ m := (Ok tt, m);
|}.

(** ** The node *)

Record RaftNode (T S : Type) : Type := mkNode {
  config : RaftConfig;
  state : RaftState;
  current_term : Term;
  voted_for : option NodeId;
  log : RaftLog.t T;
  volatile : VolatileState;
  leader_state : option LeaderState;
  current_leader : option NodeId;
  election_tracker : ElectionTracker;
  storage : S;
  outbound : list (NodeId * RaftMessage T);
  last_snapshot : option Snapshot;
  pending_snapshot : option (list u8);
  membership : ClusterMembership;
  cached_election_timeout : option Duration;
}.
Arguments mkNode {T S} _ _ _ _ _ _ _ _ _ _ _ _ _ _ _.
Arguments config {T S} _.
Arguments state {T S} _.
Arguments current_term {T S} _.
Arguments voted_for {T S} _.
Arguments log {T S} _.
Arguments volatile {T S} _.
Arguments leader_state {T S} _.
Arguments current_leader {T S} _.
Arguments election_tracker {T S} _.
Arguments storage {T S} _.
Arguments outbound {T S} _.
Arguments last_snapshot {T S} _.
Arguments pending_snapshot {T S} _.
Arguments membership {T S} _.
Arguments cached_election_timeout {T S} _.

Section Setters.
Context {T S : Type}.
Implicit Types n : RaftNode T S.

Definition set_state v n : RaftNode T S :=
  mkNode (config n) v (current_term n) (voted_for n) (log n) (volatile n) (leader_state n)
    (current_leader n) (election_tracker n) (storage n) (outbound n) (last_snapshot n)
    (pending_snapshot n) (membership n) (cached_election_timeout n).
Definition set_term v n : RaftNode T S :=
  mkNode (config n) (state n) v (voted_for n) (log n) (volatile n) (leader_state n)
    (current_leader n) (election_tracker n) (storage n) (outbound n) (last_snapshot n)
    (pending_snapshot n) (membership n) (cached_election_timeout n).
Definition set_voted_for v n : RaftNode T S :=
  mkNode (config n) (state n) (current_term n) v (log n) (volatile n) (leader_state n)
    (current_leader n) (election_tracker n) (storage n) (outbound n) (last_snapshot n)
    (pending_snapshot n) (membership n) (cached_election_timeout n).
Definition set_log v n : RaftNode T S :=
  mkNode (config n) (state n) (current_term n) (voted_for n) v (volatile n) (leader_state n)
    (current_leader n) (election_tracker n) (storage n) (outbound n) (last_snapshot n)
    (pending_snapshot n) (membership n) (cached_election_timeout n).
Definition set_volatile v n : RaftNode T S :=
  mkNode (config n) (state n) (current_term n) (voted_for n) (log n) v (leader_state n)
    (current_leader n) (election_tracker n) (storage n) (outbound n) (last_snapshot n)
    (pending_snapshot n) (membership n) (cached_election_timeout n).
Definition set_leader_state v n : RaftNode T S :=
  mkNode (config n) (state n) (current_term n) (voted_for n) (log n) (volatile n) v
    (current_leader n) (election_tracker n) (storage n) (outbound n) (last_snapshot n)
    (pending_snapshot n) (membership n) (cached_election_timeout n).
Definition set_current_leader v n : RaftNode T S :=
  mkNode (config n) (state n) (current_term n) (voted_for n) (log n) (volatile n)
    (leader_state n) v (election_tracker n) (storage n) (outbound n) (last_snapshot n)
    (pending_snapshot n) (membership n) (cached_election_timeout n).
Definition set_tracker v n : RaftNode T S :=
  mkNode (config n) (state n) (current_term n) (voted_for n) (log n) (volatile n)
    (leader_state n) (current_leader n) v (storage n) (outbound n) (last_snapshot n)
    (pending_snapshot n) (membership n) (cached_election_timeout n).
Definition set_storage v n : RaftNode T S :=
  mkNode (config n) (state n) (current_term n) (voted_for n) (log n) (volatile n)
    (leader_state n) (current_leader n) (election_tracker n) v (outbound n) (last_snapshot n)
    (pending_snapshot n) (membership n) (cached_election_timeout n).
Definition set_outbound v n : RaftNode T S :=
  mkNode (config n) (state n) (current_term n) (voted_for n) (log n) (volatile n)
    (leader_state n) (current_leader n) (election_tracker n) (storage n) v (last_snapshot n)
    (pending_snapshot n) (membership n) (cached_election_timeout n).
Definition set_last_snapshot v n : RaftNode T S :=
  mkNode (config n) (state n) (current_term n) (voted_for n) (log n) (volatile n)
    (leader_state n) (current_leader n) (election_tracker n) (storage n) (outbound n) v
    (pending_snapshot n) (membership n) (cached_election_timeout n).
Definition set_pending_snapshot v n : RaftNode T S :=
  mkNode (config n) (state n) (current_term n) (voted_for n) (log n) (volatile n)
    (leader_state n) (current_leader n) (election_tracker n) (storage n) (outbound n)
    (last_snapshot n) v (membership n) (cached_election_timeout n).
Definition set_membership v n : RaftNode T S :=
  mkNode (config n) (state n) (current_term n) (voted_for n) (log n) (volatile n)
    (leader_state n) (current_leader n) (election_tracker n) (storage n) (outbound n)
    (last_snapshot n) (pending_snapshot n) v (cached_election_timeout n).
Definition set_timeout v n : RaftNode T S :=
  mkNode (config n) (state n) (current_term n) (voted_for n) (log n) (volatile n)
    (leader_state n) (current_leader n) (election_tracker n) (storage n) (outbound n)
    (last_snapshot n) (pending_snapshot n) (membership n) v.

Definition set_commit_index i n : RaftNode T S :=
  set_volatile (mkVolatile i (last_applied (volatile n))) n.
Definition set_last_applied i n : RaftNode T S :=
  set_volatile (mkVolatile (commit_index (volatile n)) i) n.

End Setters.

(** [f ∘∘ g]: run [f], then [g]. *)
Notation "f >>> g" := (λ n, g (f n)) (at level 50, left associativity) : pirc_scope.

Section Node.
Context {T S : Type} {st : RaftStorage T S}.
Implicit Types n : RaftNode T S.

Definition NodeM (A : Type) : Type := SE (RaftNode T S) StorageError A.

Definition self_id n : NodeId := node_id (config n).

Definition node_quorum_size n : N := ClusterMembership.quorum_size (membership n).

Definition send (dest : NodeId) (m : RaftMessage T) n : RaftNode T S :=
  set_outbound (outbound n ++ [(dest, m)]) n.

Definition recompute_election_timeout n : RaftNode T S :=
  set_timeout (compute_election_timeout (config n)) n.

(** Storage calls of the node. *)
Definition persist_term (t : Term) : NodeM unit :=
  λ n, let '(r, s') := save_term t (storage n) in (r, set_storage s' n).
Definition persist_voted_for (v : option NodeId) : NodeM unit :=
  λ n, let '(r, s') := save_voted_for v (storage n) in (r, set_storage s' n).
Definition persist_snapshot (d : list u8) (i : LogIndex) (t : Term) : NodeM unit :=
  λ n, let '(r, s') := save_snapshot d i t (storage n) in (r, set_storage s' n).

(** *** Construction *)

(** [RaftNode::new], from what the storage holds. *)
Definition new (cfg : RaftConfig) (s : S) : result StorageError (RaftNode T S) :=
  term <-? load_term s;
  voted <-? load_voted_for s;
  es <-? load_log s;
  snap <-? load_snapshot s;
  let log0 := RaftLog.from_entries es in
  let '(log1, last_snap) :=
    match snap with
    | Some (data, last_included_index, last_included_term) =>
        let log1 := RaftLog.compact_to log0 last_included_index in
        let log2 :=
          if decide (RaftLog.offset log1 < last_included_index)%N
          then RaftLog.reset_to_snapshot log1 last_included_index last_included_term
          else log1 in
        (log2, Some (mkSnapshot last_included_index last_included_term data))
    | None => (log0, None)
    end in
  let m := ClusterMembership.new (node_id cfg) (config_peers cfg) in
  Ok (mkNode cfg Follower term voted log1 VolatileState_default None None
        (ElectionTracker.new (ClusterMembership.member_count m)) s [] last_snap None m
        (compute_election_timeout cfg)).

(** *** Term management *)

(** The in-memory half of stepping down to a higher term. *)
Definition step_down (received_term : Term) : RaftNode T S → RaftNode T S :=
  set_term received_term >>> set_voted_for None >>> set_state Follower >>>
  set_leader_state None >>>
  (λ n, set_tracker (ElectionTracker.reset (election_tracker n)) n) >>>
  (λ n, set_membership (ClusterMembership.rollback_change (membership n)) n).

Definition handle_term_update (received_term : Term) : NodeM bool :=
  cur <-- se_get current_term;
  if decide (cur < received_term)%N then
    se_modify (step_down received_term) ;;;
    persist_term received_term ;;;
    persist_voted_for None ;;;
    se_ret true
  else se_ret false.

(** *** Replication to the peers (replication.rs) *)

(** How the loop that sends a snapshot stops: its condition is false, the model
    has no fuel left, or slicing the data panics. *)
Inductive LoopEnd : Type := LoopDone | OutOfFuel | SlicePanic.

(** The loop that sends a snapshot in chunks.  An addition that wraps around
    gives an [end_] below the offset, and the slice panics. *)
Fixpoint snapshot_chunks (fuel : nat) (term : Term) (leader_id : NodeId) (snap : Snapshot)
    (chunk_size off : N) : list InstallSnapshot * LoopEnd :=
  let total := N.of_nat (length (snap_data snap)) in
  if decide (off < total)%N then
    match fuel with
    | O => ([], OutOfFuel)
    | Datatypes.S fuel' =>
        let end_ := N.min (off +! chunk_size) total in
        let done := bool_decide (total ≤ end_)%N in
        if decide (end_ < off)%N then ([], SlicePanic) else
        let chunk := drop (N.to_nat off) (take (N.to_nat end_) (snap_data snap)) in
        let msg := mkInstallSnapshot term leader_id (last_included_index snap)
                     (last_included_term snap) off chunk done in
        let '(rest, finished) := snapshot_chunks fuel' term leader_id snap chunk_size end_ in
        (msg :: rest, finished)
    end
  else ([], LoopDone).

(** One iteration per byte is enough whenever a chunk is not empty.  The messages
    sent before a panic are part of the result. *)
Definition snapshot_messages (term : Term) (leader_id : NodeId) (snap : Snapshot) (chunk_size : N)
    : list InstallSnapshot :=
  if decide (length (snap_data snap) = 0) then
    [mkInstallSnapshot term leader_id (last_included_index snap) (last_included_term snap) 0 [] true]
  else (snapshot_chunks (length (snap_data snap)) term leader_id snap chunk_size 0).1.

Definition send_snapshot_to_peer (peer : NodeId) n : RaftNode T S :=
  match last_snapshot n with
  | None => n
  | Some snap =>
      foldl (λ n m, send peer (MInstallSnapshot m) n) n
        (snapshot_messages (current_term n) (self_id n) snap (snapshot_chunk_size (config n)))
  end.

(** The [AppendEntries] for a peer whose [next_index] is [next_idx]. *)
Definition append_entries_for (next_idx : LogIndex) n : AppendEntries T :=
  let prev_log_index := if decide (0 < next_idx)%N then (next_idx - 1)%N else 0%N in
  mkAppendEntries (current_term n) (self_id n) prev_log_index
    (RaftLog.prev_term_of (log n) prev_log_index) (RaftLog.entries_from (log n) next_idx)
    (commit_index (volatile n)).

Definition replicate_to_peer (peer : NodeId) n : RaftNode T S :=
  if decide (state n ≠ Leader) then n else
  match leader_state n with
  | None => n
  | Some leader =>
      let next_idx := default 1%N (next_index leader !! peer) in
      if decide (0 < RaftLog.offset (log n) ∧ next_idx ≤ RaftLog.offset (log n))%N
      then send_snapshot_to_peer peer n
      else send peer (MAppendEntries (append_entries_for next_idx n)) n
  end.

Definition send_append_entries_to_all n : RaftNode T S :=
  if decide (state n ≠ Leader) then n else
  foldl (λ n p, replicate_to_peer p n) n (ClusterMembership.peers (membership n) (self_id n)).

Definition send_heartbeats n : RaftNode T S := send_append_entries_to_all n.

(** *** Commit index *)

(** The inner loop: the leader counts as one replica, and the loop stops early
    at the quorum. *)
Fixpoint count_replicas (vals : list LogIndex) (idx : LogIndex) (quorum count : N) : N :=
  match vals with
  | [] => count
  | v :: vals' =>
      if decide (idx ≤ v)%N then
        if decide (quorum ≤ count + 1)%N then (count + 1)%N
        else count_replicas vals' idx quorum (count + 1)
      else count_replicas vals' idx quorum count
  end.

(** The outer loop, from [n] down to [commit_floor + 1]; the fuel
    [n - commit_floor] is the number of iterations left. *)
Fixpoint commit_scan (fuel : nat) (lg : RaftLog.t T) (cur : Term) (vals : list LogIndex)
    (quorum commit_floor i : N) : option LogIndex :=
  match fuel with
  | O => None
  | Datatypes.S fuel' =>
      if decide (commit_floor < i)%N then
        match RaftLog.term_at lg i with
        | Some entry_term =>
            if decide (entry_term = cur) then
              if decide (quorum ≤ count_replicas vals i quorum 1)%N then Some i
              else commit_scan fuel' lg cur vals quorum commit_floor (i - 1)
            else if decide (entry_term < cur)%N then None
            else commit_scan fuel' lg cur vals quorum commit_floor (i - 1)
        | None => commit_scan fuel' lg cur vals quorum commit_floor (i - 1)
        end
      else None
  end.

Definition retain_members (m : ClusterMembership) (g : gmap NodeId LogIndex) : gmap NodeId LogIndex :=
  filter (λ kv, kv.1 ∈ members m) g.

Definition commit_membership_change_if_pending (committed_index : LogIndex) n : bool * RaftNode T S :=
  let '(should_step_down, n1) :=
    match pending_change (membership n) with
    | Some pending =>
        if decide (pending_index pending ≤ committed_index)%N then
          let is_self_removal :=
            match pending_op pending with
            | RemoveServer id => bool_decide (id = self_id n)
            | AddServer _ _ => false
            end in
          let n1 := recompute_election_timeout
                      (set_membership (ClusterMembership.commit_change (membership n)) n) in
          let n2 :=
            match leader_state n1 with
            | Some leader =>
                set_leader_state
                  (Some (mkLeaderState (retain_members (membership n1) (next_index leader))
                                       (retain_members (membership n1) (match_index leader)))) n1
            | None => n1
            end in
          (is_self_removal, n2)
        else (false, n)
    | None => (false, n)
    end in
  (should_step_down,
   if (should_step_down : bool)
   then set_current_leader None (set_leader_state None (set_state Follower n1)) else n1).

Definition advance_commit_index n : RaftNode T S :=
  if decide (state n ≠ Leader) then n else
  match leader_state n with
  | None => n
  | Some leader =>
      let last := RaftLog.last_index (log n) in
      let current_commit := commit_index (volatile n) in
      let quorum := node_quorum_size n in
      match commit_scan (N.to_nat (last - current_commit)) (log n) (current_term n)
              (map_to_list (match_index leader)).*2 quorum current_commit last with
      | Some new_commit =>
          (commit_membership_change_if_pending new_commit (set_commit_index new_commit n)).2
      | None => n
      end
  end.

(** *** Election *)

Definition become_leader : RaftNode T S → RaftNode T S :=
  set_state Leader >>>
  (λ n, set_current_leader (Some (self_id n)) n) >>>
  (λ n, set_leader_state
          (Some (LeaderState_new (ClusterMembership.peers (membership n) (self_id n))
                                 (RaftLog.last_index (log n)))) n) >>>
  send_heartbeats.

Definition request_vote_of n : RequestVote :=
  mkRequestVote (current_term n) (self_id n) (RaftLog.last_index (log n)) (RaftLog.last_term (log n)).

(** The assignments of [start_election] before it persists. *)
Definition become_candidate : RaftNode T S → RaftNode T S :=
  (λ n, set_term (Term_increment (current_term n)) n) >>>
  set_state Candidate >>>
  (λ n, set_voted_for (Some (self_id n)) n) >>>
  set_current_leader None >>>
  set_leader_state None >>>
  (λ n, set_tracker (ElectionTracker.reset (election_tracker n)) n) >>>
  (λ n, set_tracker (ElectionTracker.record_vote (election_tracker n) (self_id n)).2 n).

Definition start_election : NodeM unit :=
  se_modify become_candidate ;;;
  term <-- se_get current_term;
  persist_term term ;;;
  voted <-- se_get voted_for;
  persist_voted_for voted ;;;
  quorum <-- se_get (λ n, ElectionTracker.has_quorum (election_tracker n));
  if (quorum : bool) then se_modify become_leader
  else se_modify (λ n,
    foldl (λ n' peer, send peer (MRequestVote (request_vote_of n)) n') n (config_peers (config n))).

Definition can_vote (voted : option NodeId) (candidate : NodeId) : bool :=
  match voted with None => true | Some id => bool_decide (id = candidate) end.

Definition vote_reply (granted : bool) : NodeM RequestVoteResponse :=
  se_get (λ n, mkRequestVoteResponse (current_term n) granted).

Definition handle_request_vote (req : RequestVote) : NodeM RequestVoteResponse :=
  _b <-- handle_term_update (rv_term req);
  n <-- se_get id;
  if decide (rv_term req < current_term n)%N then vote_reply false else
  if negb (can_vote (voted_for n) (rv_candidate_id req)) then vote_reply false else
  if negb (is_log_up_to_date (rv_last_log_term req) (rv_last_log_index req)
             (RaftLog.last_term (log n)) (RaftLog.last_index (log n)))
  then vote_reply false else
  se_modify (set_voted_for (Some (rv_candidate_id req))) ;;;
  voted <-- se_get voted_for;
  persist_voted_for voted ;;;
  vote_reply true.

Definition handle_request_vote_response (from : NodeId) (resp : RequestVoteResponse) : NodeM unit :=
  _b <-- handle_term_update (rvr_term resp);
  s <-- se_get state;
  if decide (s ≠ Candidate) then se_ret tt else
  if rvr_vote_granted resp then
    se_modify (λ n, set_tracker (ElectionTracker.record_vote (election_tracker n) from).2 n) ;;;
    quorum <-- se_get (λ n, ElectionTracker.has_quorum (election_tracker n));
    if (quorum : bool) then se_modify become_leader else se_ret tt
  else se_ret tt.

(** *** AppendEntries *)

(** "Valid leader: reset election state." *)
Definition follow (leader : NodeId) : RaftNode T S → RaftNode T S :=
  set_state Follower >>> set_current_leader (Some leader) >>> set_leader_state None >>>
  (λ n, set_tracker (ElectionTracker.reset (election_tracker n)) n).

Definition handle_append_entries (req : AppendEntries T) : NodeM AppendEntriesResponse :=
  _b <-- handle_term_update (ae_term req);
  cur <-- se_get current_term;
  if decide (ae_term req < cur)%N then se_ret (mkAppendEntriesResponse cur false 0) else
  se_modify (follow (ae_leader_id req)) ;;;
  lg <-- se_get log;
  let '(success, lg') :=
    RaftLog.append_entries lg (ae_prev_log_index req) (ae_prev_log_term req) (ae_entries req) in
  se_modify (set_log lg') ;;;
  if negb success then se_ret (mkAppendEntriesResponse cur false 0) else
  se_modify (λ n,
    if decide (commit_index (volatile n) < ae_leader_commit req)%N
    then set_commit_index (N.min (ae_leader_commit req) (RaftLog.last_index (log n))) n
    else n) ;;;
  se_get (λ n, mkAppendEntriesResponse (current_term n) true (RaftLog.last_index (log n))).

(** The bookkeeping of a leader for one response. *)
Definition record_append_response (from : NodeId) (resp : AppendEntriesResponse)
    (leader : LeaderState) : LeaderState :=
  if aer_success resp then
    mkLeaderState (<[from := aer_match_index resp +! 1]> (next_index leader))
                  (<[from := aer_match_index resp]> (match_index leader))
  else
    let next := default 1%N (next_index leader !! from) in
    if decide (1 < next)%N
    then mkLeaderState (<[from := (next - 1)%N]> (next_index leader)) (match_index leader)
    else leader.

Definition handle_append_entries_response (from : NodeId) (resp : AppendEntriesResponse)
    : NodeM unit :=
  _b <-- handle_term_update (aer_term resp);
  s <-- se_get state;
  if decide (s ≠ Leader) then se_ret tt else
  se_modify (λ n,
    match leader_state n with
    | Some leader => set_leader_state (Some (record_append_response from resp leader)) n
    | None => n
    end) ;;;
  se_modify advance_commit_index.

(** *** Applying committed entries *)

Fixpoint committed_entries (fuel : nat) (lg : RaftLog.t T) (last commit : N)
    : list (LogEntry T) * N :=
  match fuel with
  | O => ([], last)
  | Datatypes.S fuel' =>
      if decide (last < commit)%N then
        let last' := (last + 1)%N in
        let '(es, final) := committed_entries fuel' lg last' commit in
        (match RaftLog.get lg last' with Some e => e :: es | None => es end, final)
      else ([], last)
  end.

(** [apply_committed_with_entries]: the entries handed to the two callbacks, in
    order, and the node afterwards; [apply_committed] returns their commands. *)
Definition apply_committed_with_entries n : list (LogEntry T) * RaftNode T S :=
  let commit := commit_index (volatile n) in
  let last := last_applied (volatile n) in
  let '(es, final) := committed_entries (N.to_nat (commit - last)) (log n) last commit in
  (es, set_last_applied final n).

Definition apply_committed n : list T * RaftNode T S :=
  let '(es, n') := apply_committed_with_entries n in (e_command <$> es, n').

(** *** Client requests *)

Definition client_request (command : T) n : option LogIndex * RaftNode T S :=
  if decide (state n ≠ Leader) then (None, n) else
  let index := RaftLog.last_index (log n) +! 1 in
  let n1 := set_log (RaftLog.append (log n) (mkEntry (current_term n) index command)) n in
  (Some index, send_append_entries_to_all n1).

(** *** Snapshots *)

Definition handle_install_snapshot_response (from : NodeId) (resp : InstallSnapshotResponse)
    : NodeM unit :=
  _b <-- handle_term_update (isr_term resp);
  s <-- se_get state;
  if decide (s ≠ Leader) then se_ret tt else
  se_modify (λ n,
    match leader_state n, last_snapshot n with
    | Some leader, Some snap =>
        set_leader_state
          (Some (mkLeaderState
             (<[from := last_included_index snap +! 1]> (next_index leader))
             (<[from := last_included_index snap]> (match_index leader)))) n
    | _, _ => n
    end) ;;;
  se_modify advance_commit_index.

Definition should_snapshot n : bool :=
  bool_decide (snapshot_threshold (config n) ≤ N.of_nat (RaftLog.len (log n)))%N.

Definition create_snapshot {M} `{StateMachine T M} (sm : M)
    : SE (RaftNode T S) SnapshotError unit :=
  n <-- se_get id;
  let applied := last_applied (volatile n) in
  if decide (applied = 0%N) then se_ret tt else
  if match last_snapshot n with
     | Some snap => bool_decide (applied ≤ last_included_index snap)%N
     | None => false
     end then se_ret tt else
  let applied_term := default (RaftLog.snapshot_term (log n)) (RaftLog.term_at (log n) applied) in
  let data := sm_snapshot sm in
  se_map_err StorageFailure (persist_snapshot data applied applied_term) ;;;
  se_modify (λ n, set_log (RaftLog.compact_to (log n) applied) n) ;;;
  se_modify (set_last_snapshot (Some (mkSnapshot applied applied_term data))).

(** Run a node operation next to a state machine. *)
Definition on_node {M E A} (m : SE (RaftNode T S) E A) : SE (RaftNode T S * M) E A :=
  λ '(n, sm), let '(r, n') := m n in (r, (n', sm)).
Definition on_machine {M E A} (m : SE M E A) : SE (RaftNode T S * M) E A :=
  λ '(n, sm), let '(r, sm') := m sm in (r, (n, sm')).

(** The chunk buffer after a chunk, or [None] for a chunk to be skipped. *)
Definition buffer_chunk (req : InstallSnapshot) (pending : option (list u8)) : option (list u8) :=
  if decide (is_offset req = 0%N) then Some (is_data req)
  else (λ buf, buf ++ is_data req) <$> pending.

(** The log after a complete snapshot: the suffix is kept when the log has the
    snapshot's last entry. *)
Definition install_log (req : InstallSnapshot) (lg : RaftLog.t T) : RaftLog.t T :=
  if decide (RaftLog.term_at lg (is_last_included_index req) = Some (is_last_included_term req))
  then RaftLog.compact_to lg (is_last_included_index req)
  else RaftLog.reset_to_snapshot lg (is_last_included_index req) (is_last_included_term req).

Definition install_volatile (i : LogIndex) (v : VolatileState) : VolatileState :=
  mkVolatile (if decide (commit_index v < i)%N then i else commit_index v)
             (if decide (last_applied v < i)%N then i else last_applied v).

Definition snapshot_reply {M} : SE (RaftNode T S * M) SnapshotError InstallSnapshotResponse :=
  se_get (λ nm, mkInstallSnapshotResponse (current_term nm.1)).

Definition handle_install_snapshot {M} `{StateMachine T M} (req : InstallSnapshot)
    : SE (RaftNode T S * M) SnapshotError InstallSnapshotResponse :=
  _b <-- on_node (se_map_err StorageFailure (handle_term_update (is_term req)));
  cur <-- on_node (se_get current_term);
  if decide (is_term req < cur)%N then snapshot_reply else
  on_node (se_modify (follow (is_leader_id req))) ;;;
  pending <-- on_node (se_get pending_snapshot);
  match buffer_chunk req pending with
  | None => snapshot_reply
  | Some buf =>
      on_node (se_modify (set_pending_snapshot (Some buf))) ;;;
      if negb (is_done req) then snapshot_reply else
      on_node (se_modify (set_pending_snapshot None)) ;;;
      on_node (se_modify (λ n, set_log (install_log req (log n)) n)) ;;;
      on_machine (sm_restore buf) ;;;
      on_node (se_map_err StorageFailure
        (persist_snapshot buf (is_last_included_index req) (is_last_included_term req))) ;;;
      on_node (se_modify (λ n,
        set_volatile (install_volatile (is_last_included_index req) (volatile n)) n)) ;;;
      on_node (se_modify (set_last_snapshot
        (Some (mkSnapshot (is_last_included_index req) (is_last_included_term req) buf)))) ;;;
      snapshot_reply
  end.

(** *** Membership changes *)

Fixpoint committed_term_scan (fuel : nat) (lg : RaftLog.t T) (cur : Term) (idx : N) : bool :=
  match fuel with
  | O => false
  | Datatypes.S fuel' =>
      if decide (0 < idx)%N then
        match RaftLog.term_at lg idx with
        | Some term =>
            if decide (term = cur) then true
            else if decide (term < cur)%N then false
            else committed_term_scan fuel' lg cur (idx - 1)
        | None => committed_term_scan fuel' lg cur (idx - 1)
        end
      else false
  end.

Definition has_committed_in_current_term n : bool :=
  let commit := commit_index (volatile n) in
  if decide (commit = 0%N) then false
  else committed_term_scan (N.to_nat commit) (log n) (current_term n) commit.

Definition propose_membership_change (change : MembershipChange) (noop_command : T) n
    : result MembershipError LogIndex * RaftNode T S :=
  if decide (state n ≠ Leader) then (Err NotLeader, n) else
  match pending_change (membership n) with
  | Some pending => (Err (ChangePending (pending_index pending)), n)
  | None =>
    if negb (has_committed_in_current_term n) then (Err NoCurrentTermCommit, n) else
    match validate_change (membership n) change with
    | Err e => (Err e, n)
    | Ok _ =>
        let index := RaftLog.last_index (log n) +! 1 in
        let n1 := set_log (RaftLog.append (log n) (mkEntry (current_term n) index noop_command)) n in
        let n2 := recompute_election_timeout
                    (set_membership (ClusterMembership.begin_change (membership n1) index change) n1) in
        let n3 :=
          match change, leader_state n2 with
          | AddServer id _, Some leader =>
              set_leader_state (Some (mkLeaderState
                (<[id := RaftLog.last_index (log n2) +! 1]> (next_index leader))
                (<[id := 0%N]> (match_index leader)))) n2
          | _, _ => n2
          end in
        (Ok index, send_append_entries_to_all n3)
    end
  end.

End Node.
