(* ===== verification/RaftDriver.v ===== *)
(** The event loop around a node: [src/pirc-server/src/raft/driver.rs].

    One iteration of [RaftDriver::run] is [driver_step]: the branch of
    [tokio::select!] that fires, with the guards the branches carry, followed by
    publishing the state, applying committed entries and taking a snapshot.
    Instants are arguments.  Forwarding an outbound message to the transport
    moves it between two channels and changes nothing here; the shutdown branch
    leaves the loop. *)

From S2P Require Import Prelude.
From S2P Require Import RaftTypes.
From S2P Require Import RaftLog.
From S2P Require Import RaftElection.
From S2P Require Import RaftMembership.
From S2P Require Import RaftStorage.
From S2P Require Import RaftNode.
From S2P Require Import RaftHealth.

Record RaftDriver (T S M : Type) : Type := mkDriver {
  node : RaftNode T S;
  state_machine : M;
  commit_tx : list (LogEntry T);
  state_tx : RaftState * Term * option NodeId;
  election_reset : bool;
  health_monitor : option NodeHealthMonitor;
  health_event_fwd : list HealthEvent;
  peer_status_tx : gmap NodeId PeerStatus;
  health_config : HealthConfig;
  membership_replies : list (result MembershipError LogIndex);
  election_deadline : option N;
}.
Arguments mkDriver {T S M} _ _ _ _ _ _ _ _ _ _ _.
Arguments node {T S M} _.
Arguments state_machine {T S M} _.
Arguments commit_tx {T S M} _.
Arguments state_tx {T S M} _.
Arguments election_reset {T S M} _.
Arguments health_monitor {T S M} _.
Arguments health_event_fwd {T S M} _.
Arguments peer_status_tx {T S M} _.
Arguments health_config {T S M} _.
Arguments membership_replies {T S M} _.
Arguments election_deadline {T S M} _.

(** What wakes the loop. *)
Inductive DriverEvent (T : Type) : Type :=
| ElectionTimeout (now : N)
| HeartbeatTick (now : N)
| Inbound (now : N) (from : NodeId) (msg : RaftMessage T)
| Proposal (command : T)
| MembershipProposal (change : MembershipChange) (noop_command : T).
Arguments ElectionTimeout {T} now.
Arguments HeartbeatTick {T} now.
Arguments Inbound {T} now from msg.
Arguments Proposal {T} command.
Arguments MembershipProposal {T} change noop_command.

Section Driver.
Context {T S M : Type} {st : RaftStorage T S} {sm : StateMachine T M}.
Implicit Types d : RaftDriver T S M.

Definition set_node n d : RaftDriver T S M :=
  mkDriver n (state_machine d) (commit_tx d) (state_tx d) (election_reset d) (health_monitor d)
    (health_event_fwd d) (peer_status_tx d) (health_config d) (membership_replies d)
    (election_deadline d).
Definition set_machine m d : RaftDriver T S M :=
  mkDriver (node d) m (commit_tx d) (state_tx d) (election_reset d) (health_monitor d)
    (health_event_fwd d) (peer_status_tx d) (health_config d) (membership_replies d)
    (election_deadline d).
Definition set_commit_tx v d : RaftDriver T S M :=
  mkDriver (node d) (state_machine d) v (state_tx d) (election_reset d) (health_monitor d)
    (health_event_fwd d) (peer_status_tx d) (health_config d) (membership_replies d)
    (election_deadline d).
Definition set_state_tx v d : RaftDriver T S M :=
  mkDriver (node d) (state_machine d) (commit_tx d) v (election_reset d) (health_monitor d)
    (health_event_fwd d) (peer_status_tx d) (health_config d) (membership_replies d)
    (election_deadline d).
Definition set_election_reset v d : RaftDriver T S M :=
  mkDriver (node d) (state_machine d) (commit_tx d) (state_tx d) v (health_monitor d)
    (health_event_fwd d) (peer_status_tx d) (health_config d) (membership_replies d)
    (election_deadline d).
Definition set_health v ev ps d : RaftDriver T S M :=
  mkDriver (node d) (state_machine d) (commit_tx d) (state_tx d) (election_reset d) v ev ps
    (health_config d) (membership_replies d) (election_deadline d).
Definition add_reply v d : RaftDriver T S M :=
  mkDriver (node d) (state_machine d) (commit_tx d) (state_tx d) (election_reset d)
    (health_monitor d) (health_event_fwd d) (peer_status_tx d) (health_config d)
    (membership_replies d ++ [v]) (election_deadline d).
Definition set_deadline v d : RaftDriver T S M :=
  mkDriver (node d) (state_machine d) (commit_tx d) (state_tx d) (election_reset d)
    (health_monitor d) (health_event_fwd d) (peer_status_tx d) (health_config d)
    (membership_replies d) v.

(** [RaftBuilder::build]: a driver for a freshly constructed node. *)
Definition build (cfg : RaftConfig) (s : S) (m : M) (now : N) : result StorageError (RaftDriver T S M) :=
  n <-? RaftNode.new cfg s;
  Ok (mkDriver n m [] (state n, current_term n, current_leader n) false None [] ∅
        (from_heartbeat_interval (heartbeat_interval cfg)) []
        ((λ t, now + t)%N <$> cached_election_timeout n)).

Definition reset_deadline (now : N) d : RaftDriver T S M :=
  set_deadline ((λ t, now + t)%N <$> cached_election_timeout (node d)) d.

(** Errors of the node are logged and dropped; the node keeps what it did. *)
Definition handle_election_timeout d : RaftDriver T S M :=
  set_node (start_election (node d)).2 d.

(** The events of the monitor are forwarded by a task of their own, in order. *)
Definition with_monitor (f : NodeHealthMonitor → NodeHealthMonitor) d : RaftDriver T S M :=
  match health_monitor d with
  | None => d
  | Some m =>
      let m' := f m in
      set_health (Some m')
        (health_event_fwd d ++ drop (length (events m)) (events m')) (peer_status_tx d) d
  end.

(** Publish the statuses when one changed. *)
Definition publish_peer_statuses d : RaftDriver T S M :=
  match health_monitor d with
  | Some m =>
      if dirty m
      then set_health (Some (NodeHealthMonitor.clear_dirty m)) (health_event_fwd d)
             (NodeHealthMonitor.peer_statuses m) d
      else d
  | None => d
  end.

Definition handle_heartbeat_tick (now : N) d : RaftDriver T S M :=
  publish_peer_statuses
    (with_monitor (NodeHealthMonitor.evaluate now) (set_node (send_heartbeats (node d)) d)).

Definition reply_to (from : NodeId) (m : RaftMessage T) d : RaftDriver T S M :=
  set_node (send from m (node d)) d.

Definition driver_install_snapshot (from : NodeId) (req : InstallSnapshot) d : RaftDriver T S M :=
  let '(r, (n', m')) := handle_install_snapshot req (node d, state_machine d) in
  let d1 := set_machine m' (set_node n' d) in
  match r with
  | Ok resp =>
      let d2 := if decide (current_term n' ≤ is_term req)%N then set_election_reset true d1 else d1 in
      reply_to from (MInstallSnapshotResponse resp) d2
  | Err _ => d1
  end.

Definition handle_inbound_message (now : N) (from : NodeId) (msg : RaftMessage T) d
    : RaftDriver T S M :=
  match msg with
  | MRequestVote req =>
      let '(r, n') := handle_request_vote req (node d) in
      let d1 := set_node n' d in
      match r with
      | Ok resp =>
          let d2 := if rvr_vote_granted resp then set_election_reset true d1 else d1 in
          reply_to from (MRequestVoteResponse resp) d2
      | Err _ => d1
      end
  | MRequestVoteResponse resp => set_node (handle_request_vote_response from resp (node d)).2 d
  | MAppendEntries req =>
      let '(r, n') := handle_append_entries req (node d) in
      let d1 := set_node n' d in
      match r with
      | Ok resp =>
          let d2 := if decide (current_term n' ≤ ae_term req)%N then set_election_reset true d1 else d1 in
          reply_to from (MAppendEntriesResponse resp) d2
      | Err _ => d1
      end
  | MAppendEntriesResponse resp =>
      with_monitor (NodeHealthMonitor.record_response from now)
        (set_node (handle_append_entries_response from resp (node d)).2 d)
  | MInstallSnapshot req => driver_install_snapshot from req d
  | MInstallSnapshotResponse resp =>
      with_monitor (NodeHealthMonitor.record_response from now)
        (set_node (handle_install_snapshot_response from resp (node d)).2 d)
  end.

Definition start_health_monitor (now : N) d : RaftDriver T S M :=
  set_health
    (Some (NodeHealthMonitor.new
             (ClusterMembership.peers (membership (node d)) (self_id (node d))) (health_config d) now))
    (health_event_fwd d) (peer_status_tx d) d.

Definition stop_health_monitor d : RaftDriver T S M :=
  match health_monitor d with
  | Some _ => set_health None (health_event_fwd d) ∅ d
  | None => d
  end.

(** The inbound branch of the loop: the handler, the deadline, and the health
    monitor following leadership. *)
Definition on_inbound (now : N) (from : NodeId) (msg : RaftMessage T) d : RaftDriver T S M :=
  let was_leader := bool_decide (state (node d) = Leader) in
  let d1 := handle_inbound_message now from msg d in
  let d2 := if election_reset d1 then set_election_reset false (reset_deadline now d1) else d1 in
  let is_leader := bool_decide (state (node d2) = Leader) in
  let d3 := if negb was_leader && is_leader then start_health_monitor now d2 else d2 in
  if was_leader && negb is_leader then stop_health_monitor d3 else d3.

Definition handle_proposal (command : T) d : RaftDriver T S M :=
  if decide (state (node d) ≠ Leader) then d else
  match client_request command (node d) with
  | (Some _, n') => set_node (advance_commit_index n') d
  | (None, n') => set_node n' d
  end.

Definition handle_membership_proposal (change : MembershipChange) (noop_command : T) d
    : RaftDriver T S M :=
  let '(r, n') := propose_membership_change change noop_command (node d) in
  let n'' := if is_ok r then advance_commit_index n' else n' in
  add_reply r (set_node n'' d).

Definition publish_state d : RaftDriver T S M :=
  set_state_tx (state (node d), current_term (node d), current_leader (node d)) d.

Definition apply_committed_entries d : RaftDriver T S M :=
  let v := volatile (node d) in
  if decide (commit_index v ≤ last_applied v)%N then d else
  let '(es, n') := apply_committed_with_entries (node d) in
  set_node n'
    (set_machine (foldl (λ m e, sm_apply (e_command e) m) (state_machine d) es)
       (set_commit_tx (commit_tx d ++ es) d)).

Definition maybe_snapshot d : RaftDriver T S M :=
  if should_snapshot (node d)
  then set_node (create_snapshot (state_machine d) (node d)).2 d else d.

(** The branch of [select!] for an event; [None] when its guard is off. *)
Definition driver_branch (ev : DriverEvent T) d : option (RaftDriver T S M) :=
  match ev with
  | ElectionTimeout now =>
      if decide (state (node d) = Leader) then None else
      deadline ← election_deadline d;
      if decide (deadline ≤ now)%N then Some (reset_deadline now (handle_election_timeout d))
      else None
  | HeartbeatTick now =>
      if decide (state (node d) = Leader) then Some (handle_heartbeat_tick now d) else None
  | Inbound now from msg => Some (on_inbound now from msg d)
  | Proposal command => Some (handle_proposal command d)
  | MembershipProposal change noop => Some (handle_membership_proposal change noop d)
  end.

(** One iteration of [run]. *)
Definition driver_step (ev : DriverEvent T) d : option (RaftDriver T S M) :=
  d1 ← driver_branch ev d;
  Some (maybe_snapshot (apply_committed_entries (publish_state d1))).

(** A run: the events in order; [None] when a branch was not enabled. *)
Definition driver_run (evs : list (DriverEvent T)) d : option (RaftDriver T S M) :=
  foldl (λ od ev, od ≫= driver_step ev) (Some d) evs.

(** [RaftHandle::propose] and [is_leader], on the published state. *)
Inductive HandleError : Type := HNotLeader | HShutdown.

Definition is_leader d : bool := bool_decide ((state_tx d).1.1 = Leader).

Definition propose (command : T) d : result HandleError (DriverEvent T) :=
  if is_leader d then Ok (Proposal command) else Err HNotLeader.

End Driver.
