(* ===== verification/RaftBallot.v ===== *)
(** Voting, seen from outside a node.

    [Ballot] is the part of a node that elections depend on, [react] the
    specification of how it may change on one event and which vote messages the
    node may emit.  The file proves that every iteration of the driver refines
    [react], whatever the storage does, failing writes included, and that the
    ballot stays durable (the storage holds the term and the vote of the node)
    as long as the writes succeed.  The driver logs a failed write and goes on,
    so after one the storage may be behind the node. *)

From S2P Require Import Prelude.
From S2P Require Import RaftTypes.
From S2P Require Import RaftLog.
From S2P Require Import RaftElection.
From S2P Require Import RaftMembership.
From S2P Require Import RaftStorage.
From S2P Require Import RaftNode.
From S2P Require Import RaftHealth.
From S2P Require Import RaftDriver.

(** ** Specification *)

Record Ballot : Type := mkBallot {
  b_term : Term;
  b_voted : option NodeId;
  b_role : RaftState;
  b_votes : gset NodeId;
}.

Definition ballot {T S} (n : RaftNode T S) : Ballot :=
  mkBallot (current_term n) (voted_for n) (state n) (votes (election_tracker n)).

(** A higher term is adopted, with the vote forgotten. *)
Definition bump (t : Term) (b : Ballot) : Ballot :=
  if decide (b_term b < t)%N then mkBallot t None Follower ∅ else b.

Definition is_vote_msg {T} (m : RaftMessage T) : bool :=
  match m with MRequestVote _ | MRequestVoteResponse _ => true | _ => false end.

(** The vote messages among what a node sent. *)
Definition vote_msgs {T} (out : list (NodeId * RaftMessage T)) : list (NodeId * RaftMessage T) :=
  filter (λ m, is_vote_msg m.2 = true) out.

(** What an event can make of the ballot of node [self], [quorum] votes being a
    majority. *)
Inductive react {T} (self : NodeId) (quorum : N) :
  DriverEvent T → Ballot → Ballot → list (NodeId * RaftMessage T) → Prop :=
(** Nothing happens to the ballot, except that the node may become a follower. *)
| react_quiet ev b b' :
    b_term b' = b_term b → b_voted b' = b_voted b →
    (b_role b' = b_role b ∧ b_votes b' = b_votes b) ∨ b_role b' = Follower →
    react self quorum ev b b' []
(** A message with a higher term. *)
| react_down ev b t b' :
    (b_term b < t)%N → b_term b' = t → b_voted b' = None → b_role b' = Follower →
    react self quorum ev b b' []
(** A new term in which the node votes for itself and asks for votes. *)
| react_campaign now b role ms :
    role = Candidate ∨ (role = Leader ∧ (quorum ≤ 1)%N) →
    Forall (λ m, ∃ req, m.2 = MRequestVote req ∧ rv_candidate_id req = self) ms →
    react self quorum (ElectionTimeout now) b
      (mkBallot (Term_increment (b_term b)) (Some self) role {[self]}) ms
(** A vote request is denied. *)
| react_deny now from req b b1 :
    b1 = bump (rv_term req) b →
    react self quorum (Inbound now from (MRequestVote req)) b b1
      [(from, MRequestVoteResponse (mkRequestVoteResponse (b_term b1) false))]
(** A vote request is granted: of the current term, and to the only candidate of
    this term this node votes for. *)
| react_grant now from req b b1 :
    b1 = bump (rv_term req) b → rv_term req = b_term b1 →
    b_voted b1 = None ∨ b_voted b1 = Some (rv_candidate_id req) →
    react self quorum (Inbound now from (MRequestVote req)) b
      (mkBallot (b_term b1) (Some (rv_candidate_id req)) (b_role b1) (b_votes b1))
      [(from, MRequestVoteResponse (mkRequestVoteResponse (b_term b1) true))]
(** A vote is recorded as for a grant, but its write to storage failed and no
    reply is sent. *)
| react_unsent now from req b b1 :
    b1 = bump (rv_term req) b → rv_term req = b_term b1 →
    b_voted b1 = None ∨ b_voted b1 = Some (rv_candidate_id req) →
    react self quorum (Inbound now from (MRequestVote req)) b
      (mkBallot (b_term b1) (Some (rv_candidate_id req)) (b_role b1) (b_votes b1)) []
(** A granted vote is counted by a candidate, which may win. *)
| react_count now from resp b role :
    (rvr_term resp ≤ b_term b)%N → rvr_vote_granted resp = true → b_role b = Candidate →
    (role = Candidate ∨
     (role = Leader ∧ (quorum ≤ N.of_nat (size ({[from]} ∪ b_votes b)))%N)) →
    react self quorum (Inbound now from (MRequestVoteResponse resp)) b
      (mkBallot (b_term b) (b_voted b) role ({[from]} ∪ b_votes b)) [].

(** ** Operations that leave the ballot alone *)

Section Quiet.
Context {T S : Type} {st : RaftStorage T S}.
Implicit Types n : RaftNode T S.

(** The storage holds the node's term and vote. *)
Definition durable n : Prop :=
  load_term (storage n) = Ok (current_term n) ∧ load_voted_for (storage n) = Ok (voted_for n).

Record quiet n n' : Prop := mk_quiet {
  quiet_config : config n' = config n;
  quiet_term : current_term n' = current_term n;
  quiet_voted : voted_for n' = voted_for n;
  quiet_role : (state n' = state n ∧ votes (election_tracker n') = votes (election_tracker n)) ∨
               state n' = Follower;
  quiet_size : cluster_size (election_tracker n') = cluster_size (election_tracker n);
  quiet_durable : RaftStorageReliable T S → durable n → durable n';
  quiet_out : ∃ ms, outbound n' = outbound n ++ ms ∧ vote_msgs ms = [];
}.

#[export] Instance quiet_refl : Reflexive quiet.
Proof. intros n. split; auto. exists []. by rewrite app_nil_r. Qed.

Lemma vote_msgs_app (l1 l2 : list (NodeId * RaftMessage T)) :
  vote_msgs (l1 ++ l2) = vote_msgs l1 ++ vote_msgs l2.
Proof. apply filter_app. Qed.

#[export] Instance quiet_trans : Transitive quiet.
Proof.
  intros n1 n2 n3 [] []. split; try congruence; [|auto|].
  - destruct quiet_role1 as [[-> ->]|]; auto.
  - destruct quiet_out0 as (ms & E1 & V1), quiet_out1 as (ms' & E2 & V2).
    exists (ms ++ ms'). by rewrite E2, E1, app_assoc, vote_msgs_app, V1, V2.
Qed.

(** A step that keeps the ballot, the storage and the messages. *)
Lemma quiet_of_eq n n' :
  config n' = config n → current_term n' = current_term n → voted_for n' = voted_for n →
  (state n' = state n ∨ state n' = Follower) → election_tracker n' = election_tracker n →
  storage n' = storage n → outbound n' = outbound n → quiet n n'.
Proof.
  intros H1 H2 H3 H4 H5 H6 H7. split; try done.
  - rewrite H5. naive_solver.
  - by rewrite H5.
  - unfold durable. by rewrite H2, H3, H6.
  - exists []. by rewrite app_nil_r, H7.
Qed.

(** A quiet step that leaves the role as it is, too. *)
Definition silent n n' : Prop := quiet n n' ∧ ballot n' = ballot n.

#[export] Instance silent_preorder : PreOrder silent.
Proof.
  split.
  - by intros n.
  - intros n1 n2 n3 [H1 E1] [H2 E2]. split; [by etrans|congruence].
Qed.

Lemma silent_send dest m n : is_vote_msg m = false → silent n (send dest m n).
Proof.
  intros Hm. split; [|done]. split; auto. exists [(dest, m)]. split; [done|].
  unfold vote_msgs. rewrite filter_cons_False, filter_nil; [done|]. simpl. by rewrite Hm.
Qed.

Lemma silent_foldl {A} (f : RaftNode T S → A → RaftNode T S) (l : list A) n :
  (∀ x n, silent n (f n x)) → silent n (foldl f n l).
Proof.
  intros Hf. revert n. induction l as [|x l IH]; intros n; simpl; [reflexivity|].
  etrans; [apply Hf|apply IH].
Qed.

Lemma silent_replicate_to_peer p n : silent n (replicate_to_peer p n).
Proof.
  unfold replicate_to_peer. case_decide; [reflexivity|]. case_match; [|reflexivity].
  case_decide; [|by apply silent_send]. unfold send_snapshot_to_peer.
  case_match; [|reflexivity]. apply silent_foldl. intros. by apply silent_send.
Qed.

Lemma silent_send_append_entries_to_all n : silent n (send_append_entries_to_all n).
Proof.
  unfold send_append_entries_to_all. case_decide; [reflexivity|].
  apply silent_foldl. intros. apply silent_replicate_to_peer.
Qed.

Lemma quiet_commit_membership i n : quiet n (commit_membership_change_if_pending i n).2.
Proof.
  unfold commit_membership_change_if_pending.
  repeat (case_match || case_decide); simplify_eq/=; apply quiet_of_eq; simpl; auto.
Qed.

Lemma quiet_advance_commit_index n : quiet n (advance_commit_index n).
Proof.
  unfold advance_commit_index. case_decide; [reflexivity|].
  case_match; [|reflexivity]. case_match; [|reflexivity].
  etrans; [|apply quiet_commit_membership]. by apply quiet_of_eq; simpl; auto.
Qed.

Lemma quiet_client_request c n : quiet n (client_request c n).2.
Proof.
  unfold client_request. case_decide; simpl; [reflexivity|].
  etrans; [|apply silent_send_append_entries_to_all]. apply quiet_of_eq; simpl; auto.
Qed.

Lemma quiet_propose_membership_change c noop n : quiet n (propose_membership_change c noop n).2.
Proof.
  unfold propose_membership_change. repeat (case_match || case_decide); simpl; try reflexivity;
  (etrans; [|apply silent_send_append_entries_to_all]); apply quiet_of_eq; simpl; auto.
Qed.

Lemma quiet_follow l n : quiet n (follow l n).
Proof. split; simpl; auto. exists []. by rewrite app_nil_r. Qed.

Lemma silent_apply n : silent n (apply_committed_with_entries n).2.
Proof.
  unfold apply_committed_with_entries. case_match. split; [|done].
  apply quiet_of_eq; simpl; auto.
Qed.

End Quiet.

(** ** The driver refines the specification *)

Section Refines.
Context {T S M : Type} {st : RaftStorage T S} {sm : StateMachine T M}.
Implicit Types (n : RaftNode T S) (d : RaftDriver T S M).

(** The effect of adopting the term [t]. *)
Record bumped (t : Term) n n' : Prop := mk_bumped {
  bumped_config : config n' = config n;
  bumped_ballot : ballot n' = bump t (ballot n);
  bumped_size : cluster_size (election_tracker n') = cluster_size (election_tracker n);
  bumped_durable : RaftStorageReliable T S → durable n → durable n';
  bumped_out : outbound n' = outbound n;
}.

Record refines (ev : DriverEvent T) n n' : Prop := mk_refines {
  refines_config : config n' = config n;
  refines_size : cluster_size (election_tracker n') = cluster_size (election_tracker n);
  refines_durable : RaftStorageReliable T S → durable n → durable n';
  refines_react : ∃ ms, outbound n' = outbound n ++ ms ∧
    react (self_id n) (ElectionTracker.quorum_size (election_tracker n)) ev
      (ballot n) (ballot n') (vote_msgs ms);
}.

(** The storage calls; what they leave in the storage is known when the writes
    succeed. *)
Lemma persist_term_run t n :
  ∃ r s', persist_term t n = (r, set_storage s' n) ∧
    (RaftStorageReliable T S → r = Ok tt ∧ load_term s' = Ok t ∧
       load_voted_for s' = load_voted_for (storage n)).
Proof.
  unfold persist_term. destruct (save_term t (storage n)) as [r s'] eqn:Hs. exists r, s'.
  split; [done|]. intros Hrel. destruct (save_term_total t (storage n)) as [s1 Hs1].
  rewrite Hs in Hs1. simplify_eq. apply save_term_ok in Hs. naive_solver.
Qed.

Lemma persist_voted_for_run v n :
  ∃ r s', persist_voted_for v n = (r, set_storage s' n) ∧
    (RaftStorageReliable T S → r = Ok tt ∧ load_voted_for s' = Ok v ∧
       load_term s' = load_term (storage n)).
Proof.
  unfold persist_voted_for. destruct (save_voted_for v (storage n)) as [r s'] eqn:Hs. exists r, s'.
  split; [done|]. intros Hrel. destruct (save_voted_for_total v (storage n)) as [s1 Hs1].
  rewrite Hs in Hs1. simplify_eq. apply save_voted_for_ok in Hs. naive_solver.
Qed.

Lemma quiet_persist_snapshot data i t n :
  ∃ r n', persist_snapshot data i t n = (r, n') ∧ silent n n'.
Proof.
  unfold persist_snapshot. destruct (save_snapshot data i t (storage n)) as [r s'] eqn:Hs.
  eexists r, _. split; [done|]. split; [|done]. split; simpl; auto.
  - intros Hrel. destruct (save_snapshot_total data i t (storage n)) as [s1 Hs1].
    rewrite Hs in Hs1. simplify_eq. apply save_snapshot_ok in Hs as (_ & H1 & H2 & _).
    unfold durable. simpl. by rewrite H1, H2.
  - exists []. by rewrite app_nil_r.
Qed.

Lemma bumped_step_down t n s' :
  (current_term n < t)%N →
  (RaftStorageReliable T S → load_term s' = Ok t ∧ load_voted_for s' = Ok None) →
  bumped t n (set_storage s' (step_down t n)).
Proof.
  intros Ht Hd. split; simpl; try done.
  - unfold ballot, bump; simpl. by rewrite decide_True.
  - intros Hrel _. exact (Hd Hrel).
Qed.

Lemma handle_term_update_run t n :
  ∃ r n', handle_term_update t n = (r, n') ∧ bumped t n n'.
Proof.
  unfold handle_term_update, se_bind, se_get. case_decide as Ht.
  - unfold se_modify.
    destruct (persist_term_run t (step_down t n)) as (r1 & s1 & -> & H1).
    destruct r1 as [u|e]; [|eexists _, _; split; [done|]; apply bumped_step_down; naive_solver].
    destruct (persist_voted_for_run None (set_storage s1 (step_down t n))) as (r2 & s2 & -> & H2).
    assert (bumped t n (set_storage s2 (step_down t n))) as HB.
    { apply bumped_step_down; [done|]. intros Hrel. destruct (H1 Hrel) as (_ & L1 & _).
      destruct (H2 Hrel) as (_ & V2 & L2). split; [by rewrite L2|done]. }
    destruct r2 as [u2|e]; eexists _, _; (split; [done|exact HB]).
  - eexists _, _. split; [done|]. split; try done.
    unfold bump; simpl. by rewrite decide_False.
Qed.

Lemma bumped_quiet_refines ev t n n1 n' : bumped t n n1 → quiet n1 n' → refines ev n n'.
Proof.
  intros [B1 B2 B3 B4 B5] [Q1 Q2 Q3 Q4 Q5 Q6 (ms & Q7 & Q8)].
  split; try congruence; auto. exists ms. rewrite Q7, B5, Q8. split; [done|].
  unfold bump in B2. case_decide as Ht.
  - assert (state n1 = Follower ∧ current_term n1 = t ∧ voted_for n1 = None) as (E1 & E2 & E3)
      by (unfold ballot in B2; by simplify_eq).
    eapply (react_down _ _ _ _ t); simpl; try congruence; [done|].
    by destruct Q4 as [[-> _]| ->].
  - unfold ballot in B2. injection B2 as E1 E2 E3 E4.
    apply react_quiet; simpl; congruence.
Qed.

Lemma bumped_refl n : bumped 0 n n.
Proof. split; try done. unfold bump. by rewrite decide_False by lia. Qed.

Lemma quiet_refines ev n n' : quiet n n' → refines ev n n'.
Proof. apply (bumped_quiet_refines ev 0). apply bumped_refl. Qed.

Lemma refines_silent ev n n1 n' : refines ev n n1 → silent n1 n' → refines ev n n'.
Proof.
  intros [R1 R2 R3 (ms & R4 & R5)] [[Q1 _ _ _ Q5 Q6 (ms' & Q7 & Q8)] Qb].
  split; try congruence; auto. exists (ms ++ ms').
  by rewrite Q7, R4, app_assoc, vote_msgs_app, Q8, app_nil_r, Qb.
Qed.

Lemma refines_reply ev n n1 dest m :
  is_vote_msg m = false → refines ev n n1 → refines ev n (send dest m n1).
Proof.
  intros Hm HR. eapply refines_silent; [done|]. by apply silent_send.
Qed.

(** *** The handlers *)

(** Winning: the node is leader, and it sends no vote message. *)
Lemma become_leader_ballot n :
  let n' := become_leader n in
  config n' = config n ∧ cluster_size (election_tracker n') = cluster_size (election_tracker n) ∧
  (RaftStorageReliable T S → durable n → durable n') ∧
  (∃ ms, outbound n' = outbound n ++ ms ∧ vote_msgs ms = []) ∧
  ballot n' = mkBallot (current_term n) (voted_for n) Leader (votes (election_tracker n)).
Proof.
  unfold become_leader, send_heartbeats. cbv zeta. set (n1 := set_leader_state _ _).
  destruct (silent_send_append_entries_to_all n1) as [Hq Hb]. rewrite Hb. destruct Hq. auto.
Qed.

Lemma broadcast_fold (req : RequestVote) (l : list NodeId) n :
  let n' := foldl (λ n' peer, send peer (MRequestVote req) n') n l in
  config n' = config n ∧ election_tracker n' = election_tracker n ∧ (durable n → durable n') ∧
  ballot n' = ballot n ∧ outbound n' = outbound n ++ ((λ p, (p, MRequestVote req)) <$> l).
Proof.
  revert n. induction l as [|p l IH]; intros n; simpl; [by rewrite app_nil_r|].
  destruct (IH (send p (MRequestVote req) n)) as (-> & -> & H3 & -> & ->).
  split; [done|]. split; [done|]. split; [done|]. split; [done|].
  simpl. by rewrite <- app_assoc.
Qed.

Lemma vote_msgs_requests (req : RequestVote) (l : list NodeId) :
  vote_msgs ((λ p, (p, @MRequestVote T req)) <$> l) = ((λ p, (p, MRequestVote req)) <$> l).
Proof.
  induction l as [|p l IH]; [done|]. cbn [fmap list_fmap]. unfold vote_msgs in *.
  rewrite filter_cons_True by done. by rewrite IH.
Qed.

(** A campaign that has sent no message, because a write failed or because there
    is nobody to ask. *)
Lemma silent_campaign_refines now n s' :
  (RaftStorageReliable T S → durable (set_storage s' (become_candidate n))) →
  refines (ElectionTimeout now) n (set_storage s' (become_candidate n)).
Proof.
  intros Hd. split; [done|done|auto|]. exists []. split; [by rewrite app_nil_r|].
  unfold ballot at 2. replace (votes _) with ({[self_id n]} : gset NodeId)
    by (simpl; unfold self_id; apply set_eq; set_solver).
  apply (react_campaign _ _ now (ballot n) Candidate []); [by left|done].
Qed.

Lemma start_election_refines now n :
  ∃ r n', start_election n = (r, n') ∧ refines (ElectionTimeout now) n n'.
Proof.
  unfold start_election, se_bind, se_modify, se_get.
  set (n0 := become_candidate n).
  destruct (persist_term_run (current_term n0) n0) as (r1 & s1 & -> & H1).
  destruct r1 as [u|e]; [|eexists _, _; split; [done|]; apply silent_campaign_refines; naive_solver].
  set (n1 := set_storage s1 n0).
  destruct (persist_voted_for_run (voted_for n1) n1) as (r2 & s2 & -> & H2).
  destruct r2 as [u2|e]; [|eexists _, _; split; [done|]; apply silent_campaign_refines; naive_solver].
  set (n2 := set_storage s2 n1).
  assert (RaftStorageReliable T S → durable n2) as Hd.
  { intros Hrel. destruct (H1 Hrel) as (_ & L1 & _), (H2 Hrel) as (_ & V2 & L2).
    split; [simpl; rewrite L2; exact L1|exact V2]. }
  assert (votes (election_tracker n2) = {[self_id n]}) as Hv.
  { simpl. unfold self_id. apply set_eq. set_solver. }
  case_match eqn:Hq.
  - eexists _, _. split; [done|].
    destruct (become_leader_ballot n2) as (C1 & C2 & C3 & (ms & C4 & C5) & C6).
    split; [done|done|auto|]. exists ms. split; [done|].
    rewrite C5, C6, Hv. apply (react_campaign _ _ now (ballot n) Leader []); [|done].
    right. split; [done|]. apply has_quorum_spec in Hq. rewrite Hv, size_singleton in Hq.
    exact Hq.
  - eexists _, _. split; [done|].
    set (req := request_vote_of n2).
    destruct (broadcast_fold req (config_peers (config n2)) n2) as (C1 & C2 & C3 & C4 & C5).
    split; [by rewrite C1|by rewrite C2|auto|].
    eexists. split; [exact C5|]. rewrite C4, vote_msgs_requests.
    unfold ballot at 2. rewrite Hv. apply react_campaign; [by left|].
    apply Forall_forall. intros m Hm. apply list_elem_of_fmap in Hm as (p & -> & _).
    by exists req.
Qed.

(** The outcomes of a vote request: an error while the term is adopted, a denial,
    a grant, or a vote whose write failed. *)
Lemma handle_request_vote_run req n :
  let b1 := bump (rv_term req) (ballot n) in
  ∃ r n', handle_request_vote req n = (r, n') ∧
    config n' = config n ∧ cluster_size (election_tracker n') = cluster_size (election_tracker n) ∧
    (RaftStorageReliable T S → durable n → durable n') ∧ outbound n' = outbound n ∧
    match r with
    | Err _ => ballot n' = b1 ∨
        (rv_term req = b_term b1 ∧ (b_voted b1 = None ∨ b_voted b1 = Some (rv_candidate_id req)) ∧
         ballot n' = mkBallot (b_term b1) (Some (rv_candidate_id req)) (b_role b1) (b_votes b1))
    | Ok r =>
        (r = mkRequestVoteResponse (b_term b1) false ∧ ballot n' = b1) ∨
        (r = mkRequestVoteResponse (b_term b1) true ∧ rv_term req = b_term b1 ∧
         (b_voted b1 = None ∨ b_voted b1 = Some (rv_candidate_id req)) ∧
         ballot n' = mkBallot (b_term b1) (Some (rv_candidate_id req)) (b_role b1) (b_votes b1))
    end.
Proof.
  cbv zeta. unfold handle_request_vote, vote_reply. unfold se_bind at 1.
  destruct (handle_term_update_run (rv_term req) n) as (b & n1 & -> & [B1 B2 B3 B4 B5]).
  destruct b as [b|e]; [|eexists _, n1; split; [done|]; naive_solver].
  unfold se_bind at 1, se_get at 1. cbn [id].
  assert (b_term (bump (rv_term req) (ballot n)) = current_term n1 ∧
          b_voted (bump (rv_term req) (ballot n)) = voted_for n1 ∧
          (rv_term req ≤ current_term n1)%N) as (E1 & E2 & E3).
  { rewrite <- B2. split; [done|]. split; [done|].
    assert (current_term n1 = b_term (bump (rv_term req) (ballot n))) as -> by by rewrite <- B2.
    unfold bump; simpl. case_decide; simpl; lia. }
  rewrite E1.
  case_decide as Ht; [eexists _, n1; split; [done|]; naive_solver|].
  case_match eqn:Hv; [eexists _, n1; split; [done|]; naive_solver|].
  case_match eqn:Hl; [eexists _, n1; split; [done|]; naive_solver|].
  unfold se_bind, se_modify, se_get.
  set (n2 := set_voted_for (Some (rv_candidate_id req)) n1).
  destruct (persist_voted_for_run (voted_for n2) n2) as (r & s' & -> & HV).
  assert (rv_term req = current_term n1 ∧
    (b_voted (bump (rv_term req) (ballot n)) = None ∨
     b_voted (bump (rv_term req) (ballot n)) = Some (rv_candidate_id req)) ∧
    ballot (set_storage s' n2) = mkBallot (current_term n1) (Some (rv_candidate_id req))
      (b_role (bump (rv_term req) (ballot n))) (b_votes (bump (rv_term req) (ballot n)))) as HG.
  { split; [simpl in *; lia|]. split; [|by rewrite <- B2].
    rewrite E2. apply negb_false_iff in Hv. unfold can_vote in Hv.
    destruct (voted_for n1) as [c|]; [|by left]. apply bool_decide_eq_true in Hv as ->. by right. }
  assert (RaftStorageReliable T S → durable n → durable (set_storage s' n2)) as Hdur.
  { intros Hrel Hd. destruct (HV Hrel) as (_ & V & L). destruct (B4 Hrel Hd) as [D1 _].
    split; simpl; [by rewrite L|done]. }
  destruct r as [u|e]; eexists _, (set_storage s' n2); do 4 (split; [done|]); split; try done; right.
  - split; [done|]. exact HG.
  - exact HG.
Qed.

Lemma handle_request_vote_response_refines now from resp n :
  ∃ r n', handle_request_vote_response from resp n = (r, n') ∧
    refines (Inbound now from (MRequestVoteResponse resp)) n n'.
Proof.
  unfold handle_request_vote_response. unfold se_bind at 1.
  destruct (handle_term_update_run (rvr_term resp) n) as (b & n1 & -> & HB).
  assert (refines (Inbound now from (MRequestVoteResponse resp)) n n1) as Hsame
    by by eapply bumped_quiet_refines.
  destruct b as [b|e]; [|by eexists _, _].
  unfold se_bind at 1, se_get at 1.
  case_decide as Hs; [by eexists _, _|].
  case_match eqn:Hg; [|by eexists _, _].
  unfold se_bind, se_modify, se_get.
  set (n2 := set_tracker _ n1).
  assert (ballot n1 = ballot n ∧ (rvr_term resp ≤ current_term n)%N) as [Hb Hle].
  { destruct HB as [_ B2 _ _ _]. unfold bump in B2. simpl in B2. case_decide.
    - unfold ballot in B2. simplify_eq. congruence.
    - split; [done|lia]. }
  destruct HB as [B1 _ B3 B4 B5].
  unfold ballot in Hb. injection Hb as E1 E2 E3 E4.
  assert (∀ role n3, 
    config n3 = config n2 → cluster_size (election_tracker n3) = cluster_size (election_tracker n2) →
    (RaftStorageReliable T S → durable n2 → durable n3) → (∃ ms, outbound n3 = outbound n2 ++ ms ∧ vote_msgs ms = []) →
    ballot n3 = mkBallot (current_term n2) (voted_for n2) role (votes (election_tracker n2)) →
    (role = Candidate ∨ (role = Leader ∧ ElectionTracker.has_quorum (election_tracker n2) = true)) →
    refines (Inbound now from (MRequestVoteResponse resp)) n n3) as Hcount.
  { intros role n3 C1 C2 C3 (ms & C4 & C5) C6 Hrole. split.
    - by rewrite C1.
    - by rewrite C2.
    - auto.
    - exists ms. rewrite C4, C5, C6. split; [by rewrite <- B5|]. simpl. rewrite E1, E2, E4.
      apply (react_count _ _ now from resp (ballot n)); try done.
      + simpl. congruence.
      + destruct Hrole as [->|[-> Hq]]; [by left|]. right. split; [done|].
        apply has_quorum_spec in Hq. simpl in Hq. rewrite E4, B3 in Hq. exact Hq. }
  case_match eqn:Hq.
  - eexists _, _. split; [done|]. destruct (become_leader_ballot n2) as (C1 & C2 & C3 & C4 & C5).
    apply (Hcount Leader); auto.
  - eexists _, _. split; [done|]. apply (Hcount Candidate); auto.
    + exists []. by rewrite app_nil_r.
    + rewrite <- Hs. done.
Qed.

Lemma handle_append_entries_quiet req n :
  ∃ r n1 n', handle_append_entries req n = (r, n') ∧ bumped (ae_term req) n n1 ∧ quiet n1 n'.
Proof.
  unfold handle_append_entries. unfold se_bind at 1.
  destruct (handle_term_update_run (ae_term req) n) as (b & n1 & -> & HB).
  destruct b as [b|e]; [|by eexists _, n1, n1].
  unfold se_bind, se_modify, se_get, se_ret.
  case_decide; [by eexists _, n1, n1|].
  destruct (RaftLog.append_entries (log (follow (ae_leader_id req) n1)) (ae_prev_log_index req)
    (ae_prev_log_term req) (ae_entries req)) as [ok lg'].
  assert (quiet n1 (set_log lg' (follow (ae_leader_id req) n1))) as Hq.
  { etrans; [apply (quiet_follow (ae_leader_id req))|]. apply quiet_of_eq; simpl; auto. }
  case_match; [by eexists _, n1, _|].
  eexists _, n1, _. split; [done|]. split; [done|].
  case_decide; [|done]. etrans; [exact Hq|]. apply quiet_of_eq; simpl; auto.
Qed.

Lemma handle_append_entries_response_quiet from resp n :
  ∃ r n1 n', handle_append_entries_response from resp n = (r, n') ∧
    bumped (aer_term resp) n n1 ∧ quiet n1 n'.
Proof.
  unfold handle_append_entries_response. unfold se_bind at 1.
  destruct (handle_term_update_run (aer_term resp) n) as (b & n1 & -> & HB).
  destruct b as [b|e]; [|by eexists _, n1, n1].
  unfold se_bind, se_modify, se_get, se_ret.
  case_decide; [by eexists _, n1, n1|].
  eexists _, n1, _. split; [done|]. split; [done|].
  etrans; [|apply quiet_advance_commit_index]. case_match; [|done].
  apply quiet_of_eq; simpl; auto.
Qed.

Lemma handle_install_snapshot_response_quiet from resp n :
  ∃ r n1 n', handle_install_snapshot_response from resp n = (r, n') ∧
    bumped (isr_term resp) n n1 ∧ quiet n1 n'.
Proof.
  unfold handle_install_snapshot_response. unfold se_bind at 1.
  destruct (handle_term_update_run (isr_term resp) n) as (b & n1 & -> & HB).
  destruct b as [b|e]; [|by eexists _, n1, n1].
  unfold se_bind, se_modify, se_get, se_ret.
  case_decide; [by eexists _, n1, n1|].
  eexists _, n1, _. split; [done|]. split; [done|].
  etrans; [|apply quiet_advance_commit_index]. repeat case_match; try done;
  apply quiet_of_eq; simpl; auto.
Qed.

Lemma create_snapshot_silent (m : M) n : silent n (create_snapshot m n).2.
Proof.
  unfold create_snapshot, se_bind, se_get, se_map_err, se_modify, se_ret. cbn [id].
  case_decide; [reflexivity|]. case_match; [reflexivity|].
  destruct (quiet_persist_snapshot (sm_snapshot m) (last_applied (volatile n))
    (default (RaftLog.snapshot_term (log n)) (RaftLog.term_at (log n) (last_applied (volatile n)))) n)
    as (r & n1 & -> & Hs).
  destruct r as [u|e]; [|exact Hs].
  simpl. etrans; [exact Hs|]. split; [|done]. apply quiet_of_eq; simpl; auto.
Qed.

Lemma handle_install_snapshot_quiet req n m :
  ∃ r n1 n' m', handle_install_snapshot req (n, m) = (r, (n', m')) ∧
    bumped (is_term req) n n1 ∧ quiet n1 n'.
Proof.
  unfold handle_install_snapshot, snapshot_reply. unfold se_bind at 1, on_node at 1, se_map_err at 1.
  destruct (handle_term_update_run (is_term req) n) as (b & n1 & -> & HB).
  destruct b as [b|e]; cbn [map_err]; [|by eexists _, n1, n1, m].
  unfold se_bind, on_node, on_machine, se_modify, se_get, se_map_err.
  case_decide; [by eexists _, n1, n1, m|].
  case_match eqn:Hbuf.
  2:{ eexists _, n1, _, m. split; [done|]. split; [done|]. apply quiet_follow. }
  assert (∀ v, quiet n1 (set_pending_snapshot v (follow (is_leader_id req) n1))) as Hq.
  { intros v. etrans; [apply (quiet_follow (is_leader_id req))|]. apply quiet_of_eq; simpl; auto. }
  case_match; [by eexists _, n1, _, m|].
  set (n2 := set_log _ _).
  assert (quiet n1 n2) as Hq2.
  { etrans; [apply (Hq None)|]. apply quiet_of_eq; simpl; auto. }
  destruct (sm_restore l m) as [[u|e] m']; [|by eexists _, n1, _, m'].
  destruct (quiet_persist_snapshot l (is_last_included_index req) (is_last_included_term req) n2)
    as (r & n3 & -> & [Hq3 _]).
  destruct r as [u3|e]; cbn [map_err]; [|eexists _, n1, _, m'; split; [done|]; split; [done|]; by etrans].
  eexists _, n1, _, m'. split; [done|]. split; [done|].
  etrans; [exact Hq2|]. etrans; [exact Hq3|]. apply quiet_of_eq; simpl; auto.
Qed.

(** *** The driver *)

Lemma node_with_monitor f d : node (with_monitor f d) = node d.
Proof. unfold with_monitor. by case_match. Qed.

Lemma node_publish_peer_statuses d : node (publish_peer_statuses d) = node d.
Proof. unfold publish_peer_statuses. repeat case_match; done. Qed.

Lemma refines_vote_reply now from req n :
  ∃ r n', handle_request_vote req n = (r, n') ∧
    refines (Inbound now from (MRequestVote req)) n
      (match r with Ok resp => send from (MRequestVoteResponse resp) n' | Err _ => n' end).
Proof.
  destruct (handle_request_vote_run req n) as (r & n' & -> & E1 & E2 & E3 & E4 & E5).
  exists r, n'. split; [done|]. destruct r as [r|e].
  - split; [done|done|exact E3|].
    exists [(from, MRequestVoteResponse r)]. split; [simpl; by rewrite E4|].
    change (ballot (send from (MRequestVoteResponse r) n')) with (ballot n').
    change (vote_msgs [(from, MRequestVoteResponse r)]) with [(from, @MRequestVoteResponse T r)].
    destruct E5 as [[-> ->]|(-> & H1 & H2 & ->)].
    + by apply react_deny.
    + by apply react_grant.
  - split; [done|done|exact E3|]. exists []. split; [by rewrite E4, app_nil_r|].
    destruct E5 as [E5|(H1 & H2 & ->)]; [|by apply react_unsent].
    rewrite E5. unfold bump. case_decide as Ht; [by eapply react_down|by apply react_quiet; auto].
Qed.

Lemma handle_inbound_refines now from msg d :
  refines (Inbound now from msg) (node d) (node (handle_inbound_message now from msg d)).
Proof.
  destruct msg as [req|resp|req|resp|req|resp]; cbn [handle_inbound_message].
  - destruct (refines_vote_reply now from req (node d)) as (r & n' & -> & HR).
    destruct r as [r|e]; [|done]. by destruct (rvr_vote_granted r).
  - destruct (handle_request_vote_response_refines now from resp (node d)) as (r & n' & -> & HR). done.
  - destruct (handle_append_entries_quiet req (node d)) as (r & n1 & n' & -> & HB & HQ).
    destruct r as [r|e]; [|by eapply bumped_quiet_refines].
    assert (refines (Inbound now from (MAppendEntries req)) (node d)
      (send from (MAppendEntriesResponse r) n')) as HR
      by (apply refines_reply; [done|]; by eapply bumped_quiet_refines).
    by case_decide.
  - rewrite node_with_monitor.
    destruct (handle_append_entries_response_quiet from resp (node d)) as (r & n1 & n' & -> & HB & HQ).
    by eapply bumped_quiet_refines.
  - unfold driver_install_snapshot.
    destruct (handle_install_snapshot_quiet req (node d) (state_machine d))
      as (r & n1 & n' & m' & -> & HB & HQ).
    destruct r as [resp|e]; [|by eapply bumped_quiet_refines].
    assert (refines (Inbound now from (MInstallSnapshot req)) (node d)
      (send from (MInstallSnapshotResponse resp) n')) as HR
      by (apply refines_reply; [done|]; by eapply bumped_quiet_refines).
    by case_decide.
  - rewrite node_with_monitor.
    destruct (handle_install_snapshot_response_quiet from resp (node d)) as (r & n1 & n' & -> & HB & HQ).
    by eapply bumped_quiet_refines.
Qed.

Lemma node_on_inbound now from msg d :
  node (on_inbound now from msg d) = node (handle_inbound_message now from msg d).
Proof.
  unfold on_inbound. set (d1 := handle_inbound_message now from msg d).
  destruct (election_reset d1); simpl; repeat case_match; simpl; try done;
  unfold stop_health_monitor; by case_match.
Qed.

Lemma driver_branch_refines ev d d' :
  driver_branch ev d = Some d' → refines ev (node d) (node d').
Proof.
  destruct ev as [now|now|now from msg|c|c noop]; cbn [driver_branch]; intros H.
  - case_decide; [done|]. apply bind_Some in H as (dl & _ & H). case_decide; simplify_eq.
    destruct (start_election_refines now (node d)) as (r & n' & E & HR).
    unfold reset_deadline, handle_election_timeout. cbn [node set_deadline set_node]. by rewrite E.
  - case_decide; simplify_eq. unfold handle_heartbeat_tick.
    rewrite node_publish_peer_statuses, node_with_monitor. cbn [node set_node].
    apply quiet_refines. apply silent_send_append_entries_to_all.
  - simplify_eq. rewrite node_on_inbound. apply handle_inbound_refines.
  - simplify_eq. unfold handle_proposal. case_decide; [by apply quiet_refines|].
    apply quiet_refines. pose proof (quiet_client_request c (node d)) as Hq.
    destruct (client_request c (node d)) as [[i|] n'] eqn:E; cbn [node set_node]; [|exact Hq].
    etrans; [exact Hq|]. apply quiet_advance_commit_index.
  - simplify_eq. unfold handle_membership_proposal.
    pose proof (quiet_propose_membership_change c noop (node d)) as Hq.
    destruct (propose_membership_change c noop (node d)) as [r n'] eqn:E. cbn [node set_node add_reply].
    apply quiet_refines. etrans; [exact Hq|]. case_match; [|done]. apply quiet_advance_commit_index.
Qed.

Lemma silent_after_branch d :
  silent (node d) (node (maybe_snapshot (apply_committed_entries (publish_state d)))).
Proof.
  etrans.
  { instantiate (1 := node (apply_committed_entries (publish_state d))).
    unfold apply_committed_entries. case_decide; [reflexivity|].
    pose proof (silent_apply (node (publish_state d))) as Hs.
    by destruct (apply_committed_with_entries (node (publish_state d))). }
  unfold maybe_snapshot. case_match; [|reflexivity]. apply create_snapshot_silent.
Qed.

Lemma driver_step_react ev d d' :
  driver_step ev d = Some d' → refines ev (node d) (node d').
Proof.
  unfold driver_step. intros H. apply bind_Some in H as (d1 & Hb & H). simplify_eq.
  eapply refines_silent; [by apply driver_branch_refines|]. apply silent_after_branch.
Qed.

(** A node built on the storage of a node that crashed has its term and its
    vote, and is a follower that has counted nothing. *)
Lemma build_ballot cfg s m now d t v :
  build cfg s m now = Ok d → load_term s = Ok t → load_voted_for s = Ok v →
  ballot (node d) = mkBallot t v Follower ∅ ∧ durable (node d) ∧
  config (node d) = cfg ∧ outbound (node d) = [] ∧
  cluster_size (election_tracker (node d))
    = ClusterMembership.member_count (ClusterMembership.new (node_id cfg) (config_peers cfg)).
Proof.
  unfold build, new. intros H Ht Hv. rewrite Ht, Hv in H. cbn [result_bind] in H.
  destruct (load_log s) as [lg|]; [|done]. cbn [result_bind] in H.
  destruct (load_snapshot s) as [[[[? ?] ?]|]|]; cbn [result_bind] in H; simplify_eq/=;
  done.
Qed.

End Refines.

(** ** One vote per term *)

(** [b'] is later than [b]: a higher term, or the same term with the vote, once
    cast, kept. *)
Definition ballot_le (b b' : Ballot) : Prop :=
  (b_term b < b_term b')%N ∨
  (b_term b = b_term b' ∧ (b_voted b = None ∨ b_voted b' = b_voted b)).

#[export] Instance ballot_le_preorder : PreOrder ballot_le.
Proof.
  split.
  - intros b. right. auto.
  - intros b1 b2 b3 [H1|[H1 H1']] [H2|[H2 H2']]; [left; lia..|]. right. split; [congruence|].
    destruct H1' as [H1'|H1']; [by left|]. destruct H2' as [H2'|H2'].
    + left. congruence.
    + right. congruence.
Qed.

Lemma ballot_le_vote b b' c : 
  ballot_le b b' → b_term b = b_term b' → b_voted b = Some c → b_voted b' = Some c.
Proof. intros [H|[_ [H|H]]] E Hc; [lia|congruence..]. Qed.

Lemma bump_le t b : ballot_le b (bump t b).
Proof. unfold bump. case_decide; [by left|reflexivity]. Qed.

(** The term counter does not wrap around at this event. *)
Definition no_wrap {T} (ev : DriverEvent T) (t : Term) : bool :=
  match ev with ElectionTimeout _ => bool_decide (t < u64_max)%N | _ => true end.

Lemma react_le {T} self quorum (ev : DriverEvent T) b b' ms :
  react self quorum ev b b' ms → no_wrap ev (b_term b) = true → ballot_le b b'.
Proof.
  intros HR Hw. destruct HR as [ev b b' H1 H2 H3|ev b t b' H1 H2 H3|now b role ms|
    now from req b b1 ->|now from req b b1 -> H1 H2|now from req b b1 -> H1 H2|now from resp b role].
  - right. rewrite H1, H2. auto.
  - left. lia.
  - simpl in Hw. apply bool_decide_eq_true in Hw. left. simpl. unfold Term_increment.
    rewrite u64_add_small by lia. lia.
  - apply bump_le.
  - etrans; [apply (bump_le (rv_term req))|]. right. simpl. split; [done|]. naive_solver.
  - etrans; [apply (bump_le (rv_term req))|]. right. simpl. split; [done|]. naive_solver.
  - right. simpl. auto.
Qed.

(** A node that was built is durable. *)
Lemma build_durable {T S M} {st : RaftStorage T S} cfg (s : S) (m : M) now (d : RaftDriver T S M) :
  build cfg s m now = Ok d → durable (node d).
Proof.
  intros Hb. destruct (load_term s) as [t|e] eqn:Ht; [|unfold build, new in Hb; by rewrite Ht in Hb].
  destruct (load_voted_for s) as [v|e] eqn:Hv; [|unfold build, new in Hb; by rewrite Ht, Hv in Hb].
  by destruct (build_ballot _ _ _ _ _ _ _ Hb Ht Hv) as (_ & Hd & _).
Qed.

Section Single.
Context {T S M : Type} {st : RaftStorage T S} {sm : StateMachine T M}.
Implicit Types d : RaftDriver T S M.

(** Where the server may crash. *)
Context (may_crash : RaftDriver T S M → Prop).

(** The life of one server: iterations of the loop, and crashes between them
    after which it is rebuilt from what its storage holds. *)
Inductive node_step d d' : Prop :=
| node_event ev :
    driver_step ev d = Some d' → no_wrap ev (current_term (node d)) = true → node_step d d'
| node_crash m now :
    may_crash d → build (config (node d)) (storage (node d)) m now = Ok d' → node_step d d'.

(** A restart finds the node's term and vote: because no write fails, or because
    the server crashes only where its storage is up to date. *)
Definition restarts_current : Prop :=
  RaftStorageReliable T S ∨ ∀ d, may_crash d → durable (node d).

Lemma node_step_le d d' :
  restarts_current → (RaftStorageReliable T S → durable (node d)) → node_step d d' →
  (RaftStorageReliable T S → durable (node d')) ∧ ballot_le (ballot (node d)) (ballot (node d')).
Proof.
  intros Hrc Hrel [ev Hs Hw|m now Hc Hb].
  - destruct (driver_step_react _ _ _ Hs) as [_ _ R3 (ms & _ & R5)].
    split; [auto|]. by eapply react_le.
  - assert (durable (node d)) as [D1 D2] by (destruct Hrc; auto).
    destruct (build_ballot _ _ _ _ _ _ _ Hb D1 D2) as (B1 & B2 & _).
    split; [done|]. rewrite B1. right. auto.
Qed.

Lemma node_steps_le d d' :
  restarts_current → (RaftStorageReliable T S → durable (node d)) → rtc node_step d d' →
  (RaftStorageReliable T S → durable (node d')) ∧ ballot_le (ballot (node d)) (ballot (node d')).
Proof.
  intros Hrc Hd Hr. induction Hr as [d|d1 d2 d3 H12 _ IH]; [split; [done|reflexivity]|].
  destruct (node_step_le _ _ Hrc Hd H12) as [Hd2 H1]. destruct (IH Hd2) as [Hd3 H2].
  split; [done|]. by etrans.
Qed.

(** C3. The event loop refines the voting specification, for any storage and also
    when its writes fail: whatever branch of the loop fires, the node's term,
    vote, role and counted votes change as one rule of [react] allows, and the
    vote messages it emits are the ones of that rule.  When the writes of the
    storage succeed and it held the node's term and vote before, it does
    afterwards. *)
Theorem driver_refines_react ev d d' :
  driver_step ev d = Some d' →
  (RaftStorageReliable T S → durable (node d) → durable (node d')) ∧
  ∃ ms, outbound (node d') = outbound (node d) ++ ms ∧
    react (self_id (node d)) (ElectionTracker.quorum_size (election_tracker (node d))) ev
      (ballot (node d)) (ballot (node d')) (vote_msgs ms).
Proof. intros Hs. by destruct (driver_step_react _ _ _ Hs) as [_ _ ? ?]. Qed.

(** C4. At most one vote per term, across crashes: from the construction of a
    server on, over any sequence of loop iterations and of restarts from storage
    between them, the term never goes down, and a vote cast in a term is not
    changed in that term.  This needs that a restart finds the term and the vote
    of the node in its storage, because the writes succeed or because the server
    crashes only where the storage is up to date; and that the term is below
    [2^64 - 1] when an election starts, since the counter wraps there. *)
Theorem one_vote_per_term cfg (s : S) (m : M) now d0 d d' :
  restarts_current → build cfg s m now = Ok d0 → rtc node_step d0 d → rtc node_step d d' →
  (current_term (node d) ≤ current_term (node d'))%N ∧
  (current_term (node d') = current_term (node d) →
     ∀ c, voted_for (node d) = Some c → voted_for (node d') = Some c).
Proof.
  intros Hrc Hb H0 H1. pose proof (build_durable _ _ _ _ _ Hb) as Hd.
  destruct (node_steps_le _ _ Hrc (λ _, Hd) H0) as [Hd' _].
  destruct (node_steps_le _ _ Hrc Hd' H1) as [_ Hle].
  split; [destruct Hle as [|[]]; simpl in *; lia|].
  intros E c Hc. eapply (ballot_le_vote _ _ _ Hle); [by symmetry|done].
Qed.

End Single.

(** *** Instances *)

(** Node 2 of three, which has been asked for its vote by node 1 in term 1. *)
Definition voter : option (RaftDriver unit (MemStorage unit) NullStateMachine) :=
  match build (cluster_config 3 2) MemStorage_new tt 0 with Ok d => Some d | Err _ => None end.

Definition voted : option (RaftDriver unit (MemStorage unit) NullStateMachine) :=
  d ← voter; driver_step (Inbound 5 1 (MRequestVote (mkRequestVote 1 1 0 0))) d.

(** Asked again in the same term, by node 3. *)
Definition voted_again : option (RaftDriver unit (MemStorage unit) NullStateMachine) :=
  d ← voted; driver_step (Inbound 6 3 (MRequestVote (mkRequestVote 1 3 0 0))) d.

Lemma driver_refines_react_witness : ∃ d d', voter = Some d ∧ voted = Some d' ∧
  react (T := unit) 2 2 (Inbound 5 1 (MRequestVote (mkRequestVote 1 1 0 0))) (ballot (node d))
    (ballot (node d')) [(1%N, MRequestVoteResponse (mkRequestVoteResponse 1 true))].
Proof.
  destruct voter as [d|] eqn:E; [|by vm_compute in E].
  destruct voted as [d'|] eqn:E'; [|by vm_compute in E'].
  exists d, d'. split; [done|]. split; [done|].
  assert (driver_step (Inbound 5 1 (MRequestVote (mkRequestVote 1 1 0 0))) d = Some d') as Hs.
  { unfold voted in E'. by rewrite E in E'. }
  destruct (driver_refines_react _ _ _ Hs) as (_ & ms & Hms & HR).
  vm_compute in E, E'. injection E as <-. injection E' as <-.
  cbn in Hms. subst ms. exact HR.
Defined.

(** The server crashes and is asked once more by node 3. *)
Definition rebuilt : option (RaftDriver unit (MemStorage unit) NullStateMachine) :=
  d ← voted_again;
  match build (config (node d)) (storage (node d)) tt 7 with Ok d' => Some d' | Err _ => None end.

Definition asked_after : option (RaftDriver unit (MemStorage unit) NullStateMachine) :=
  d ← rebuilt; driver_step (Inbound 8 3 (MRequestVote (mkRequestVote 1 3 0 0))) d.

(** The run from the construction to the last request, with its crash. *)
Definition life : RaftDriver unit (MemStorage unit) NullStateMachine →
    RaftDriver unit (MemStorage unit) NullStateMachine → Prop := rtc (node_step (λ _, True)).

(** Term and vote after the first request, and at the end. *)
Lemma voted_view :
  (λ d, (current_term (node d), voted_for (node d))) <$> voted = Some (1%N, Some 1%N).
Proof. by vm_compute. Qed.

Lemma asked_after_view :
  (λ d, (current_term (node d), voted_for (node d))) <$> asked_after = Some (1%N, Some 1%N).
Proof. by vm_compute. Qed.

Lemma built {T S M} `{RaftStorage T S} cfg s m now (d : RaftDriver T S M) :
  match build cfg s m now with Ok d' => Some d' | Err _ => None end = Some d →
  build cfg s m now = Ok d.
Proof. destruct (build cfg s m now); [by intros [= ->]|done]. Qed.

Lemma voted_life d1 : voted = Some d1 →
  ∃ d0, build (cluster_config 3 2) MemStorage_new (tt : NullStateMachine) 0 = Ok d0 ∧ life d0 d1.
Proof.
  unfold voted. intros (d0 & E0 & S1)%bind_Some. exists d0. apply built in E0. split; [exact E0|].
  apply rtc_once. exact (node_event _ _ _ _ S1 eq_refl).
Qed.

Lemma voted_again_life d2 : voted_again = Some d2 → ∃ d1, voted = Some d1 ∧ life d1 d2.
Proof.
  unfold voted_again. intros (d1 & E1 & S2)%bind_Some. exists d1. split; [exact E1|].
  apply rtc_once. exact (node_event _ _ _ _ S2 eq_refl).
Qed.

Lemma rebuilt_life d3 : rebuilt = Some d3 → ∃ d2, voted_again = Some d2 ∧ life d2 d3.
Proof.
  unfold rebuilt. intros (d2 & E2 & E3)%bind_Some. exists d2. apply built in E3. split; [exact E2|].
  apply rtc_once. exact (node_crash _ _ _ _ _ I E3).
Qed.

Lemma asked_after_life d4 : asked_after = Some d4 → ∃ d1, voted = Some d1 ∧ life d1 d4.
Proof.
  unfold asked_after. intros (d3 & E3 & S4)%bind_Some.
  destruct (rebuilt_life d3 E3) as (d2 & E2 & R23), (voted_again_life d2 E2) as (d1 & E1 & R12).
  exists d1. split; [exact E1|]. etrans; [exact R12|]. etrans; [exact R23|].
  apply rtc_once. exact (node_event _ _ _ _ S4 eq_refl).
Qed.

Lemma one_vote_per_term_witness : ∃ d1 d4,
  voted = Some d1 ∧ asked_after = Some d4 ∧ voted_for (node d1) = Some 1%N ∧
  current_term (node d4) = 1%N ∧ voted_for (node d4) = Some 1%N.
Proof.
  pose proof voted_view as W1. pose proof asked_after_view as W4.
  destruct asked_after as [d4|] eqn:E4; [|discriminate W4].
  destruct (asked_after_life d4 E4) as (d1 & E1 & R14), (voted_life d1 E1) as (d0 & B0 & R01).
  rewrite E1 in W1. injection W1 as T1 V1. injection W4 as T4 _.
  exists d1, d4. split; [exact E1|]. split; [done|]. split; [exact V1|]. split; [exact T4|].
  destruct (one_vote_per_term (M := NullStateMachine) (λ _, True) (cluster_config 3 2) MemStorage_new tt 0
    d0 d1 d4 (or_introl MemStorage_reliable) B0 R01 R14) as [_ H].
  apply H; [by rewrite T4, T1|exact V1].
Defined.
