(* ===== verification/RaftCluster.v ===== *)
(** A cluster of drivers and the messages between them.

    The network keeps every message ever sent and may deliver any of them, any
    number of times and in any order: loss, duplication and reordering are
    schedules of [act].  A node may crash between two iterations of its loop and
    be rebuilt from its storage; a crash inside an iteration, between two writes
    of it, is not modelled, and [act] starts no election at the last term, where
    the counter would wrap.  The file proves election safety (two nodes that ever
    are leader of the same term are the same node) for schedules without stale
    vote replies in which a restart finds the node's term and vote in its
    storage, and shows with a schedule each that both conditions are needed. *)

From S2P Require Import Prelude.
From S2P Require Import RaftTypes.
From S2P Require Import RaftLog.
From S2P Require Import RaftElection.
From S2P Require Import RaftMembership.
From S2P Require Import RaftStorage.
From S2P Require Import RaftNode.
From S2P Require Import RaftHealth.
From S2P Require Import RaftDriver.
From S2P Require Import RaftBallot.

(** A message on the network: sender, destination, contents. *)
Definition packet (T : Type) : Type := NodeId * NodeId * RaftMessage T.

Record Cluster (T S M : Type) : Type := mkCluster {
  nodes : gmap NodeId (RaftDriver T S M);
  net : list (packet T);
  history : list (NodeId * Ballot);
}.
Arguments mkCluster {T S M} _ _ _.
Arguments nodes {T S M} _.
Arguments net {T S M} _.
Arguments history {T S M} _.

(** What can happen next. *)
Inductive action (T M : Type) : Type :=
| Local (i : NodeId) (ev : DriverEvent T)
| Deliver (k : nat) (now : N)
| Restart (i : NodeId) (m : M) (now : N).
Arguments Local {T M} i ev.
Arguments Deliver {T M} k now.
Arguments Restart {T M} i m now.

Definition is_inbound {T} (ev : DriverEvent T) : bool :=
  match ev with Inbound _ _ _ => true | _ => false end.

Section Cluster.
Context {T S M : Type} {st : RaftStorage T S} {sm : StateMachine T M}.
Implicit Types (c : Cluster T S M) (d : RaftDriver T S M).

(** What a schedule may do: which messages are delivered to a node of which
    term, and where a node may crash and be restarted. *)
Record Policy : Type := mkPolicy {
  accept : RaftMessage T → Term → bool;
  may_crash : RaftDriver T S M → bool;
}.

(** A message that is not a vote reply of an earlier term than the receiver's. *)
Definition current_vote (m : RaftMessage T) (t : Term) : bool :=
  match m with
  | MRequestVoteResponse resp => bool_decide (t ≤ rvr_term resp)%N
  | _ => true
  end.

Definition anything : Policy := mkPolicy (λ _ _, true) (λ _, true).

Definition no_stale_votes : Policy := mkPolicy current_vote (λ _, true).

(** What node [i] sent between [d] and [d']. *)
Definition sent (i : NodeId) d d' : list (packet T) :=
  (λ m, (i, m.1, m.2)) <$> drop (length (outbound (node d))) (outbound (node d')).

(** Node [i] is now [d'], having sent [ms]. *)
Definition update (i : NodeId) d' (ms : list (packet T)) c : Cluster T S M :=
  mkCluster (<[i := d']> (nodes c)) (net c ++ ms) ((i, ballot (node d')) :: history c).

Definition act (p : Policy) (a : action T M) c : option (Cluster T S M) :=
  match a with
  | Local i ev =>
      d ← nodes c !! i;
      if is_inbound ev || negb (no_wrap ev (current_term (node d))) then None else
      d' ← driver_step ev d;
      Some (update i d' (sent i d d') c)
  | Deliver k now =>
      msg ← net c !! k;
      let '(from, to, m) := msg in
      d ← nodes c !! to;
      if accept p m (current_term (node d)) then
        d' ← driver_step (Inbound now from m) d;
        Some (update to d' (sent to d d') c)
      else None
  | Restart i m now =>
      d ← nodes c !! i;
      if negb (may_crash p d) then None else
      match build (config (node d)) (storage (node d)) m now with
      | Ok d' => Some (update i d' [] c)
      | Err _ => None
      end
  end.

Definition run (p : Policy) (acts : list (action T M)) c : option (Cluster T S M) :=
  foldl (λ oc a, oc ≫= act p a) (Some c) acts.

Definition step (p : Policy) c c' : Prop := ∃ a, act p a c = Some c'.

(** Node [i] is leader of term [t]. *)
Definition leads c (i : NodeId) (t : Term) : Prop :=
  ∃ d, nodes c !! i = Some d ∧ state (node d) = Leader ∧ current_term (node d) = t.

Definition leaders_of c (t : Term) : list NodeId :=
  (filter (λ p, state (node p.2) = Leader ∧ current_term (node p.2) = t)
    (map_to_list (nodes c))).*1.

End Cluster.
Arguments Policy : clear implicits.
Arguments mkPolicy {T S M} _ _.
Arguments accept {T S M} _ _ _.
Arguments may_crash {T S M} _ _.

(** ** Election safety *)

Section Safety.
Context {T S M : Type} {st : RaftStorage T S} {sm : StateMachine T M}.
Implicit Types (c : Cluster T S M) (d : RaftDriver T S M).

(** The configurations: every node knows the same members. *)
Context (cfgs : NodeId → RaftConfig) (group : gset NodeId).

Definition configured : Prop :=
  ∀ i, i ∈ group →
    node_id (cfgs i) = i ∧ members (ClusterMembership.new i (config_peers (cfgs i))) = group.

(** Every node has just been built on some storage. *)
Definition initial c : Prop :=
  dom (nodes c) = group ∧ net c = [] ∧
  history c = (λ p, (p.1, ballot (node p.2))) <$> map_to_list (nodes c) ∧
  ∀ i d, nodes c !! i = Some d → ∃ s m now, build (cfgs i) s m now = Ok d.

Hypothesis Hconf : configured.

(** The schedules: no vote reply of an earlier term is delivered, and a restart
    finds the node's term and vote in its storage, because no write fails or
    because nodes crash only where their storage is up to date. *)
Context (p : Policy T S M).
Hypothesis Haccept : ∀ m t, accept p m t = true → current_vote m t = true.
Hypothesis Hrestart : restarts_current (λ d, may_crash p d = true).

(** [v] voted for [i] in term [t]. *)
Definition cast (hist : list (NodeId * Ballot)) (v i : NodeId) (t : Term) : Prop :=
  ∃ b, (v, b) ∈ hist ∧ b_term b = t ∧ b_voted b = Some i.

Record inv c : Prop := mk_inv {
  inv_node i d : nodes c !! i = Some d →
    i ∈ group ∧ config (node d) = cfgs i ∧ (RaftStorageReliable T S → durable (node d)) ∧
    cluster_size (election_tracker (node d)) = N.of_nat (size group) ∧
    (i, ballot (node d)) ∈ history c;
  inv_past v b : (v, b) ∈ history c → ∃ d, nodes c !! v = Some d ∧ ballot_le b (ballot (node d));
  inv_once v i j t : cast (history c) v i t → cast (history c) v j t → i = j;
  inv_votes i b : (i, b) ∈ history c → b_role b ≠ Follower →
    b_voted b = Some i ∧ b_votes b ⊆ group ∧ ∀ v, v ∈ b_votes b → cast (history c) v i (b_term b);
  inv_leader i b : (i, b) ∈ history c → b_role b = Leader →
    (N.of_nat (size group) / 2 + 1 ≤ N.of_nat (size (b_votes b)))%N;
  inv_grant v i resp : (v, i, MRequestVoteResponse resp) ∈ net c → rvr_vote_granted resp = true →
    cast (history c) v i (rvr_term resp);
  inv_request i j req : (i, j, MRequestVote req) ∈ net c → rv_candidate_id req = i;
}.

(** What a step of node [i] from ballot [b] to [b'] with messages [ms] has to
    respect. *)
Record honest (hist : list (NodeId * Ballot)) (i : NodeId) (b b' : Ballot)
    (ms : list (NodeId * RaftMessage T)) : Prop := mk_honest {
  honest_le : ballot_le b b';
  honest_votes : b_role b' ≠ Follower →
    b_voted b' = Some i ∧ b_votes b' ⊆ group ∧
    ∀ v, v ∈ b_votes b' → v = i ∨ cast hist v i (b_term b');
  honest_leader : b_role b' = Leader →
    (N.of_nat (size group) / 2 + 1 ≤ N.of_nat (size (b_votes b')))%N;
  honest_grant j resp : (j, MRequestVoteResponse resp) ∈ ms → rvr_vote_granted resp = true →
    b_voted b' = Some j ∧ rvr_term resp = b_term b';
  honest_request j req : (j, MRequestVote req) ∈ ms → rv_candidate_id req = i;
}.

Lemma cast_mono hist v i t q : cast hist v i t → cast (q :: hist) v i t.
Proof. intros (b & Hb & ?). exists b. split; [by right|done]. Qed.

Lemma inv_update c i d d' (ms : list (NodeId * RaftMessage T)) :
  inv c → nodes c !! i = Some d →
  config (node d') = config (node d) → (RaftStorageReliable T S → durable (node d')) →
  cluster_size (election_tracker (node d')) = cluster_size (election_tracker (node d)) →
  honest (history c) i (ballot (node d)) (ballot (node d')) ms →
  inv (update i d' ((λ m, (i, m.1, m.2)) <$> ms) c).
Proof.
  intros [I1 I2 I3 I4 I5 I6 I7] Hd Hcfg Hdur Hsz [H1 H2 H3 H4 H5].
  destruct (I1 i d Hd) as (Hi & Hc & _ & Hs & Hcur).
  assert (∀ v b, (v, b) ∈ history c → v = i → ballot_le b (ballot (node d'))) as Hle.
  { intros v b Hb ->. destruct (I2 i b Hb) as (d0 & E & Hb0). simplify_eq. by etrans. }
  split; simpl.
  - intros j dj. destruct (decide (j = i)) as [->|Hne].
    + rewrite lookup_insert_eq. intros [= <-]. refine (conj Hi (conj _ (conj Hdur (conj _ _)))); [congruence..|by left].
    + rewrite lookup_insert_ne by done. intros Hj. destruct (I1 j dj Hj) as (V1 & V2 & V3 & V4 & V5).
      refine (conj V1 (conj V2 (conj V3 (conj V4 _)))). by right.
  - intros v b. rewrite elem_of_cons. intros [[= -> ->]|Hb].
    + exists d'. by rewrite lookup_insert_eq.
    + destruct (decide (v = i)) as [->|Hne].
      * exists d'. rewrite lookup_insert_eq. eauto.
      * rewrite lookup_insert_ne by done. eauto.
  - assert (∀ v i' j' t, v = i → b_term (ballot (node d')) = t →
      b_voted (ballot (node d')) = Some i' → cast (history c) v j' t → i' = j') as Hnew.
    { intros v i' j' t -> <- Hv (b & Hb & Ht & Hj).
      pose proof (ballot_le_vote _ _ _ (Hle _ _ Hb eq_refl) Ht Hj). congruence. }
    intros v i' j' t (b & Hb & Ht & Hv) (b2 & Hb2 & Ht2 & Hv2).
    apply elem_of_cons in Hb, Hb2. destruct Hb as [E|Hb], Hb2 as [E2|Hb2]; simplify_eq/=.
    + congruence.
    + eapply Hnew; eauto. by exists b2.
    + symmetry. eapply Hnew; eauto. by exists b.
    + eapply I3; [by exists b|by exists b2].
  - intros j b. rewrite elem_of_cons. intros [[= -> ->]|Hb] Hr.
    + destruct (H2 Hr) as (V1 & V2 & V3). split; [done|]. split; [done|].
      intros v Hv. destruct (V3 v Hv) as [->|Hcast]; [|by apply cast_mono].
      exists (ballot (node d')). split; [by left|done].
    + destruct (I4 j b Hb Hr) as (V1 & V2 & V3). eauto using cast_mono.
  - intros j b. rewrite elem_of_cons. intros [[= -> ->]|Hb] Hr; eauto.
  - intros v j resp. rewrite elem_of_app, list_elem_of_fmap. intros [Hm|([j' m] & E & Hm)] Hg.
    + apply cast_mono. eauto.
    + simpl in E. simplify_eq. destruct (H4 j' resp Hm Hg) as [V1 V2].
      exists (ballot (node d')). split; [by left|done].
  - intros v j req. rewrite elem_of_app, list_elem_of_fmap. intros [Hm|([j' m] & E & Hm)]; [eauto|].
    simpl in E. simplify_eq. eauto.
Qed.

(** A reaction is honest: this is where [current_vote] is needed. *)
Lemma react_honest c i d ev b' ms :
  inv c → nodes c !! i = Some d →
  react i (N.of_nat (size group) / 2 + 1) ev (ballot (node d)) b' ms →
  no_wrap ev (current_term (node d)) = true →
  match ev with
  | Inbound _ from m => (from, i, m) ∈ net c ∧ current_vote m (current_term (node d)) = true
  | _ => True
  end →
  honest (history c) i (ballot (node d)) b' ms.
Proof.
  intros [I1 I2 I3 I4 I5 I6 I7] Hd HR Hw Hev. pose proof (react_le _ _ _ _ _ _ HR Hw) as Hle.
  destruct (I1 i d Hd) as (Hi & _ & _ & _ & Hcur).
  pose proof (I4 i _ Hcur) as HV. pose proof (I5 i _ Hcur) as HL.
  set (b := ballot (node d)) in *.
  inversion HR as [ev' b0 b1 H1 H2 H3|ev' b0 t b1 H1 H2 H3 H4|now b0 role ms' H1 H2|
    now from req b0 b1 Hb1|now from req b0 b1 Hb1 H1 H2|now from req b0 b1 Hb1 H1 H2|
    now from resp b0 role H1 H2 H3 H4];
    subst; (split; [done|..]); try (intros j resp' Hm; by apply elem_of_nil in Hm).
  - intros Hr. destruct H3 as [[E1 E2]|?]; [|done]. rewrite E1 in Hr. rewrite E2, H1, H2.
    destruct (HV Hr) as (?&?&?). eauto.
  - intros Hr. destruct H3 as [[E1 E2]|E]; [|congruence]. rewrite E2. apply HL. congruence.
  - intros Hr. congruence.
  - intros Hr. congruence.
  - simpl. intros _. split; [done|]. split; set_solver.
  - cbn [b_role b_votes]. intros ->. destruct H1 as [?|[_ Hq]]; [done|]. by rewrite size_singleton.
  - simpl. intros j resp Hm. rewrite Forall_forall in H2. destruct (H2 _ Hm) as (req & E & _).
    simpl in E. congruence.
  - simpl. intros j req Hm. rewrite Forall_forall in H2. destruct (H2 _ Hm) as (req' & E & E').
    simpl in E. simplify_eq. done.
  - intros Hr. unfold bump in *. case_decide; [done|]. destruct (HV Hr) as (?&?&?). eauto.
  - intros Hr. unfold bump in *. case_decide; [done|]. auto.
  - intros j resp Hm Hg. apply list_elem_of_singleton in Hm. by simplify_eq/=.
  - intros j req' Hm. apply list_elem_of_singleton in Hm. by simplify_eq/=.
  - simpl. intros Hr. unfold bump in *. case_decide; [done|]. simpl in *.
    destruct (HV Hr) as (V1 & V2 & V3). destruct H2 as [E|E]; [congruence|].
    split; [congruence|]. eauto.
  - simpl. intros Hr. unfold bump in *. case_decide; [done|]. auto.
  - intros j resp Hm Hg. apply list_elem_of_singleton in Hm. simplify_eq/=.
    destruct Hev as [Hm _]. by rewrite (I7 _ _ _ Hm).
  - intros j req' Hm. apply list_elem_of_singleton in Hm. by simplify_eq/=.
  - simpl. intros Hr. unfold bump in *. case_decide; [done|]. simpl in *.
    destruct (HV Hr) as (V1 & V2 & V3). destruct H2 as [E|E]; [congruence|].
    split; [congruence|]. eauto.
  - simpl. intros Hr. unfold bump in *. case_decide; [done|]. auto.
  - simpl. intros _. destruct Hev as [Hm Hf]. simpl in Hf. apply bool_decide_eq_true in Hf.
    assert (rvr_term resp = b_term b) as E by (simpl in *; lia).
    destruct (HV ltac:(congruence)) as (V1 & V2 & V3).
    assert (cast (history c) from i (b_term b)) as Hc by (rewrite <- E; eauto).
    split; [done|]. split; [|set_solver].
    destruct Hc as (b2 & Hb2 & _). destruct (I2 _ _ Hb2) as (d2 & Hd2 & _).
    destruct (I1 _ _ Hd2) as (? & _). set_solver.
  - cbn [b_role b_votes]. intros ->. by destruct H4 as [?|[_ Hq]].
Qed.

Lemma react_vote_only i quorum (ev : DriverEvent T) b b' ms :
  react i quorum ev b b' (vote_msgs ms) →
  ∀ hist, honest hist i b b' (vote_msgs ms) → honest hist i b b' ms.
Proof.
  intros _ hist [H1 H2 H3 H4 H5]. split; auto.
  - intros j resp Hm. apply H4. apply list_elem_of_filter. auto.
  - intros j req Hm. apply (H5 j). apply list_elem_of_filter. auto.
Qed.

Lemma inv_step c c' : inv c → step p c c' → inv c'.
Proof.
  intros HI [a Ha].
  assert (∀ i d ev d', nodes c !! i = Some d → driver_step ev d = Some d' →
    no_wrap ev (current_term (node d)) = true →
    match ev with
    | Inbound _ from m => (from, i, m) ∈ net c ∧ current_vote m (current_term (node d)) = true
    | _ => True
    end → inv (update i d' (sent i d d') c)) as Hdrive.
  { intros i d ev d' Hd Hs Hw Hev. destruct (driver_step_react _ _ _ Hs) as [R1 R2 R3 (ms & R4 & R5)].
    destruct (inv_node _ HI i d Hd) as (Hi & Hc & Hdur & Hsz & _).
    unfold sent. rewrite R4, drop_app_length. apply inv_update with d; auto.
    unfold ElectionTracker.quorum_size in R5. rewrite Hsz in R5.
    unfold self_id in R5. rewrite Hc, (proj1 (Hconf i Hi)) in R5.
    eapply react_vote_only; [done|]. by eapply react_honest. }
  destruct a as [i ev|k now|i m now]; cbn [act] in Ha.
  - apply bind_Some in Ha as (d & Hd & Ha). case_match eqn:Hg; [done|].
    apply orb_false_iff in Hg as [Hg1 Hg2]. apply negb_false_iff in Hg2.
    apply bind_Some in Ha as (d' & Hs & Ha). simplify_eq. eapply Hdrive; eauto. by destruct ev.
  - apply bind_Some in Ha as ([[from to] m] & Hm & Ha). apply bind_Some in Ha as (d & Hd & Ha).
    case_match eqn:Hg; [|done]. apply bind_Some in Ha as (d' & Hs & Ha). simplify_eq.
    eapply Hdrive; eauto. split; [|by apply Haccept]. by eapply list_elem_of_lookup_2.
  - apply bind_Some in Ha as (d & Hd & Ha).
    destruct (may_crash p d) eqn:Hcr; cbn [negb] in Ha; [|done]. case_match eqn:Hb; simplify_eq.
    destruct (inv_node _ HI i d Hd) as (Hi & Hc & Hrel & Hsz & _).
    assert (durable (node d)) as [D1 D2] by (destruct Hrestart; auto).
    destruct (build_ballot _ _ _ _ _ _ _ Hb D1 D2) as (B1 & B2 & B3 & B4 & B5).
    apply (inv_update c i d _ []); auto.
    + rewrite B5, Hsz, Hc. destruct (Hconf i Hi) as [-> Hm].
      unfold ClusterMembership.member_count. by rewrite Hm.
    + rewrite B1. split; simpl; try done; [right; auto|..];
      intros j resp' Hm; by apply elem_of_nil in Hm.
Qed.

Lemma inv_initial c : initial c → inv c.
Proof.
  intros (Hdom & Hnet & Hhist & Hb).
  assert (∀ v b, (v, b) ∈ history c → ∃ d, nodes c !! v = Some d ∧ b = ballot (node d)) as HH.
  { intros v b. rewrite Hhist, list_elem_of_fmap. intros ([v' d] & E & Hin). simplify_eq/=.
    apply elem_of_map_to_list in Hin. eauto. }
  assert (∀ i d, nodes c !! i = Some d → ∃ t v, ballot (node d) = mkBallot t v Follower ∅ ∧
    durable (node d) ∧ config (node d) = cfgs i ∧
    cluster_size (election_tracker (node d)) = N.of_nat (size group)) as HB.
  { intros i d Hd. destruct (Hb i d Hd) as (s & m & now & E).
    assert (i ∈ group) as Hi by (rewrite <- Hdom; by eapply elem_of_dom_2).
    destruct (load_term s) as [t|e] eqn:Ht.
    2:{ unfold build, new in E. by rewrite Ht in E. }
    destruct (load_voted_for s) as [v|e] eqn:Hv.
    2:{ unfold build, new in E. by rewrite Ht, Hv in E. }
    destruct (build_ballot _ _ _ _ _ _ _ E Ht Hv) as (B1 & B2 & B3 & B4 & B5).
    exists t, v. refine (conj B1 (conj B2 (conj B3 _))).
    rewrite B5. destruct (Hconf i Hi) as [-> Hm]. unfold ClusterMembership.member_count. by rewrite Hm. }
  split.
  - intros i d Hd. destruct (HB i d Hd) as (t & v & B1 & B2 & B3 & B4).
    refine (conj _ (conj B3 (conj (λ _, B2) (conj B4 _)))).
    + rewrite <- Hdom. by eapply elem_of_dom_2.
    + rewrite Hhist, list_elem_of_fmap. exists (i, d). split; [done|]. by apply elem_of_map_to_list.
  - intros v b Hv. destruct (HH v b Hv) as (d & Hd & ->). exists d. split; [done|]. reflexivity.
  - intros v i j t (b & Hv & ? & ?) (b' & Hv' & ? & ?).
    destruct (HH v b Hv) as (d & Hd & ->), (HH v b' Hv') as (d' & Hd' & ->). congruence.
  - intros i b Hv Hr. destruct (HH i b Hv) as (d & Hd & ->).
    destruct (HB i d Hd) as (t & v & E & _). by rewrite E in Hr.
  - intros i b Hv Hr. destruct (HH i b Hv) as (d & Hd & ->).
    destruct (HB i d Hd) as (t & v & E & _). by rewrite E in Hr.
  - intros v i resp. rewrite Hnet. set_solver.
  - intros i j req. rewrite Hnet. set_solver.
Qed.

Lemma inv_reachable c0 c : initial c0 → rtc (step p) c0 c → inv c.
Proof.
  intros H0 Hr. apply inv_initial in H0. induction Hr; eauto using inv_step.
Qed.

Lemma history_mono c c' q : rtc (step p) c c' → q ∈ history c → q ∈ history c'.
Proof.
  induction 1 as [|c c1 c' [a Ha] _ IH]; [done|]. intros Hp. apply IH.
  destruct a; cbn [act] in Ha;
    repeat (apply bind_Some in Ha as (? & _ & Ha) || case_match); simplify_eq; by right.
Qed.

(** Two leaders of one term are one node. *)
Lemma leader_unique c i j b b' :
  inv c → (i, b) ∈ history c → (j, b') ∈ history c →
  b_role b = Leader → b_role b' = Leader → b_term b = b_term b' → i = j.
Proof.
  intros [I1 I2 I3 I4 I5 I6 I7] Hi Hj Li Lj Ht.
  destruct (I4 _ _ Hi ltac:(congruence)) as (_ & Si & Vi).
  destruct (I4 _ _ Hj ltac:(congruence)) as (_ & Sj & Vj).
  destruct (majority_intersect group (b_votes b) (b_votes b')) as (v & Hv & Hv'); eauto.
  apply (I3 v i j (b_term b)); [auto|]. rewrite Ht. auto.
Qed.

(** C1. Election safety: in a cluster whose nodes are configured with the same
    members, over any schedule of timeouts, proposals, deliveries (with loss,
    duplication and reordering), crashes between loop iterations and restarts, a
    node that is leader of a term and a node that is leader of that term then or
    at any later point are the same.  The schedules are those in which no vote
    reply of an earlier term is delivered, a restart finds the node's term and
    vote in its storage (because all writes succeed, or because nodes crash only
    where their storage is up to date), and no election starts at term
    [2^64 - 1].  [stale_vote_two_leaders] and [failed_write_two_leaders] show that
    the first two conditions are needed. *)
Theorem election_safety c0 c1 c2 i j t :
  initial c0 → rtc (step p) c0 c1 → rtc (step p) c1 c2 →
  leads c1 i t → leads c2 j t → i = j.
Proof.
  intros H0 H01 H12 (d & Hd & Ls & Lt) (d' & Hd' & Ls' & Lt').
  pose proof (inv_reachable _ _ H0 H01) as I1.
  assert (inv c2) as I2 by (apply (inv_reachable c0); [done|]; by etrans).
  apply (leader_unique c2 i j (ballot (node d)) (ballot (node d'))); simpl; auto; try congruence.
  - apply (history_mono c1); [done|]. by apply inv_node.
  - by apply inv_node.
Qed.

End Safety.

(** ** Schedules *)

(** Three nodes on empty in-memory storage, with unit commands. *)
Definition boot (i : NodeId) : option (RaftDriver unit (MemStorage unit) NullStateMachine) :=
  match build (cluster_config 3 i) MemStorage_new tt 0 with Ok d => Some d | Err _ => None end.

Definition trio : Cluster unit (MemStorage unit) NullStateMachine :=
  let ns := omap (λ i, (λ d, (i, d)) <$> boot i) (cluster_ids 3) in
  mkCluster (list_to_map ns) [] ((λ p, (p.1, ballot (node p.2))) <$> map_to_list
    (list_to_map ns : gmap NodeId (RaftDriver unit (MemStorage unit) NullStateMachine))).

Definition trio_members : gset NodeId := {[1; 2; 3]}%N.

(** An instant after every election timeout. *)
Definition later (k : N) : N := (k * from_millis 1000)%N.

(** Node 1 asks for votes and wins with the vote of node 2. *)
Definition schedule_win : list (action unit NullStateMachine) :=
  [Local 1 (ElectionTimeout (later 1)); Deliver 0 (later 1); Deliver 2 (later 1)].

Lemma elem_of_trio i : i ∈ trio_members → i = 1%N ∨ i = 2%N ∨ i = 3%N.
Proof. unfold trio_members. set_solver. Qed.

Lemma trio_configured : configured (cluster_config 3) trio_members.
Proof.
  intros i [->|[->| ->]]%elem_of_trio; split; vm_compute; reflexivity.
Qed.

Lemma trio_initial : initial (cluster_config 3) trio_members trio.
Proof.
  split; [by vm_compute|]. split; [done|]. split; [by vm_compute|].
  intros i d Hd. exists MemStorage_new, tt, 0%N.
  assert (i ∈ trio_members) as Hi.
  { replace trio_members with (dom (nodes trio)) by by vm_compute. by eapply elem_of_dom_2. }
  apply elem_of_trio in Hi as [->|[->| ->]];
    vm_compute in Hd; injection Hd as <-; by vm_compute.
Qed.

Lemma run_steps {T S M} `{RaftStorage T S, StateMachine T M} p acts (c c' : Cluster T S M) :
  run p acts c = Some c' → rtc (step p) c c'.
Proof.
  unfold run. revert c. induction acts as [|a acts IH]; intros c E; simpl in E.
  { simplify_eq. constructor. }
  destruct (act p a c) as [c1|] eqn:E1.
  - econstructor; [by exists a|]. by apply IH.
  - exfalso. clear -E. induction acts as [|a' acts IH]; simpl in E; [done|auto].
Qed.

Lemma run_default {T S M} `{RaftStorage T S, StateMachine T M} p acts (c : Cluster T S M) :
  (match run p acts c with Some _ => true | None => false end) = true →
  rtc (step p) c (default c (run p acts c)).
Proof.
  destruct (run p acts c) eqn:E; [|done]. intros _. by eapply run_steps.
Qed.

Lemma elem_of_leaders_of {T S M} (c : Cluster T S M) i t : i ∈ leaders_of c t → leads c i t.
Proof.
  unfold leaders_of. rewrite list_elem_of_fmap. intros ([i' d] & -> & Hin).
  apply list_elem_of_filter in Hin as [[H1 H2] Hin]. apply elem_of_map_to_list in Hin.
  by exists d.
Qed.

Definition trio_won : Cluster unit (MemStorage unit) NullStateMachine :=
  default trio (run no_stale_votes schedule_win trio).
(** Both other nodes hear from the leader, and the voter is restarted. *)
Definition trio_later : Cluster unit (MemStorage unit) NullStateMachine :=
  default trio_won
    (run no_stale_votes [Deliver 3 (later 1); Deliver 4 (later 1); Restart 2 tt (later 2)] trio_won).

Lemma election_safety_witness : leaders_of trio_won 1 = [1%N] ∧ leaders_of trio_later 1 = [1%N] ∧
  (∀ j, j ∈ leaders_of trio_later 1 → 1%N = j).
Proof.
  split; [by vm_compute|]. split; [by vm_compute|]. intros j Hj.
  apply (election_safety (cluster_config 3) trio_members trio_configured no_stale_votes
    (λ _ _ H, H) (or_introl MemStorage_reliable) trio trio_won trio_later 1 j 1).
  - apply trio_initial.
  - apply run_default. by vm_compute.
  - apply run_default. by vm_compute.
  - apply elem_of_leaders_of. by vm_compute; left.
  - by apply elem_of_leaders_of.
Defined.

(** The reply of node 2 to the request of node 1 in term 1 arrives when node 1
    is a candidate of term 2, while node 2 votes for node 3 in term 2. *)
Definition schedule_stale : list (action unit NullStateMachine) :=
  [Local 1 (ElectionTimeout (later 1)); Deliver 0 (later 1); Local 1 (ElectionTimeout (later 2));
   Local 3 (ElectionTimeout (later 3)); Local 3 (ElectionTimeout (later 4)); Deliver 8 (later 4);
   Deliver 2 (later 4); Deliver 9 (later 4)].

(** C35. Without the restriction on deliveries election safety fails: the handler of
    vote replies does not compare the reply's term with the node's, so a vote
    granted in term 1 is counted in term 2 and two nodes lead term 2. *)
Theorem stale_vote_two_leaders :
  ∃ c, rtc (step anything) trio c ∧ leads c 1 2 ∧ leads c 3 2.
Proof.
  exists (default trio (run anything schedule_stale trio)). split; [apply run_default; by vm_compute|].
  split; apply elem_of_leaders_of; vm_compute; set_solver.
Qed.

(** ** A failed write

    The in-memory storage with a term write that fails once: it returns an error
    and stores nothing. *)

Record FlakyStorage (T : Type) : Type := mkFlaky {
  flaky_mem : MemStorage T;
  fails_next : bool;
}.
Arguments mkFlaky {T} _ _.
Arguments flaky_mem {T} _.
Arguments fails_next {T} _.

Definition on_mem {T A} (f : MemStorage T → A * MemStorage T) (s : FlakyStorage T) : A * FlakyStorage T :=
  let '(r, m) := f (flaky_mem s) in (r, mkFlaky m (fails_next s)).

#[export] Instance FlakyStorage_storage {T} : RaftStorage T (FlakyStorage T) := {|
  save_term t s := if fails_next s then (Err Io, mkFlaky (flaky_mem s) false) else on_mem (save_term t) s;
  load_term s := load_term (flaky_mem s);
  save_voted_for v := on_mem (save_voted_for v);
  load_voted_for s := load_voted_for (flaky_mem s);
  storage_append_entries es := on_mem (storage_append_entries es);
  load_log s := load_log (flaky_mem s);
  truncate_log_from i := on_mem (truncate_log_from i);
  save_snapshot d i t := on_mem (save_snapshot d i t);
  load_snapshot s := load_snapshot (flaky_mem s);
|}.

(** A write that returned [Ok] is durable: the storage keeps its contract. *)
#[export] Instance FlakyStorage_laws {T} : RaftStorageLaws T (FlakyStorage T).
Proof.
  split; intros; simpl in *; repeat case_match; unfold on_mem in *; simplify_eq/=; done.
Qed.

(** Node [i] of three; the first term write of node 2 fails. *)
Definition boot_flaky (i : NodeId) : option (RaftDriver unit (FlakyStorage unit) NullStateMachine) :=
  match build (cluster_config 3 i) (mkFlaky MemStorage_new (bool_decide (i = 2%N))) tt 0 with
  | Ok d => Some d
  | Err _ => None
  end.

Definition flaky_trio : Cluster unit (FlakyStorage unit) NullStateMachine :=
  let ns := omap (λ i, (λ d, (i, d)) <$> boot_flaky i) (cluster_ids 3) in
  mkCluster (list_to_map ns) [] ((λ p, (p.1, ballot (node p.2))) <$> map_to_list
    (list_to_map ns : gmap NodeId (RaftDriver unit (FlakyStorage unit) NullStateMachine))).

(** Node 1 asks for votes in term 1.  Node 2 adopts the term in memory, the write
    fails, and the handler returns the error, which the driver logs.  The request
    is delivered again and node 2 grants its vote in the term its storage does not
    have; node 1 leads term 1.  Node 2 restarts in term 0, is asked by node 3 in
    term 1 and votes again; node 3 leads term 1, too. *)
Definition schedule_flaky : list (action unit NullStateMachine) :=
  [Local 1 (ElectionTimeout (later 1)); Deliver 0 (later 1); Deliver 0 (later 1); Deliver 2 (later 1);
   Restart 2 tt (later 2);
   Local 3 (ElectionTimeout (later 3)); Deliver 6 (later 3); Deliver 7 (later 3)].

Lemma flaky_trio_initial : initial (cluster_config 3) trio_members flaky_trio.
Proof.
  split; [by vm_compute|]. split; [done|]. split; [by vm_compute|].
  intros i d Hd. exists (mkFlaky MemStorage_new (bool_decide (i = 2%N))), tt, 0%N.
  assert (i ∈ trio_members) as Hi.
  { replace trio_members with (dom (nodes flaky_trio)) by by vm_compute. by eapply elem_of_dom_2. }
  apply elem_of_trio in Hi as [->|[->| ->]];
    vm_compute in Hd; injection Hd as <-; by vm_compute.
Qed.

(** C11. A failed write breaks election safety: with a storage that keeps the
    documented contract (what a write that returned [Ok] stored is loaded later)
    but fails one term write, a schedule without stale vote replies leads to two
    leaders of term 1.  The node changes its term before it writes it, the driver
    logs the error and goes on, and the node then votes in a term its storage has
    never seen. *)
Theorem failed_write_two_leaders :
  RaftStorageLaws unit (FlakyStorage unit) ∧ initial (cluster_config 3) trio_members flaky_trio ∧
  ∃ c, rtc (step no_stale_votes) flaky_trio c ∧ leads c 1 1 ∧ leads c 3 1.
Proof.
  split; [apply _|]. split; [apply flaky_trio_initial|].
  exists (default flaky_trio (run no_stale_votes schedule_flaky flaky_trio)).
  split; [apply run_default; by vm_compute|].
  split; apply elem_of_leaders_of; vm_compute; set_solver.
Qed.
