(* ===== verification/RaftReplication.v ===== *)
(** What replication guarantees: the commit rule of the leader, the delivery of
    committed entries to the state machine, and the chunked transfer of
    snapshots, for the definitions of [RaftNode] and [RaftDriver]. *)

From S2P Require Import Prelude.
From S2P Require Import RaftTypes.
From S2P Require Import RaftLog.
From S2P Require Import RaftElection.
From S2P Require Import RaftMembership.
From S2P Require Import RaftStorage.
From S2P Require Import RaftNode.
From S2P Require Import RaftHealth.
From S2P Require Import RaftDriver.
From S2P Require Import RaftBallot.
From S2P Require Import RaftCluster.

(** ** The commit rule *)

Section Commit.
Context {T S : Type} {st : RaftStorage T S}.
Implicit Types n : RaftNode T S.

(** How many peers are known to hold index [i]. *)
Definition replicas (leader : LeaderState) (i : LogIndex) : nat :=
  size (filter (λ kv : NodeId * LogIndex, (i ≤ kv.2)%N) (match_index leader)).

(** Raft's rule: an entry of the current term that is beyond the commit index
    and stored by a majority, the leader included. *)
Definition committable n (leader : LeaderState) (i : LogIndex) : Prop :=
  (commit_index (volatile n) < i ≤ RaftLog.last_index (log n))%N ∧
  RaftLog.term_at (log n) i = Some (current_term n) ∧
  (node_quorum_size n ≤ 1 + N.of_nat (replicas leader i))%N.

(** Terms do not decrease along the log. *)
Definition terms_sorted (lg : RaftLog.t T) : Prop :=
  ∀ i j ti tj, (i ≤ j)%N → RaftLog.term_at lg i = Some ti → RaftLog.term_at lg j = Some tj →
    (ti ≤ tj)%N.

Lemma count_replicas_spec (vals : list LogIndex) idx quorum count :
  (quorum ≤ count_replicas vals idx quorum count)%N ↔
  (quorum ≤ count + N.of_nat (length (filter (λ v, idx ≤ v)%N vals)))%N.
Proof.
  revert count. induction vals as [|v vals IH]; intros count; cbn [count_replicas].
  - simpl. lia.
  - rewrite filter_cons. repeat case_decide; cbn [length]; try lia; rewrite IH; lia.
Qed.

Lemma replicas_values (leader : LeaderState) i :
  length (filter (λ v, i ≤ v)%N (map_to_list (match_index leader)).*2) = replicas leader i.
Proof.
  unfold replicas. generalize (match_index leader) as m. intros m.
  induction m as [|k v m Hk IH] using map_ind.
  - rewrite map_to_list_empty, map_filter_empty. done.
  - rewrite map_to_list_insert by done. cbn [fmap list_fmap snd]. rewrite filter_cons.
    rewrite map_filter_insert. cbn [snd]. case_decide.
    + rewrite map_size_insert_None; [|by rewrite map_lookup_filter, Hk]. simpl. by rewrite IH.
    + rewrite delete_id by done. exact IH.
Qed.

Lemma commit_scan_spec (lg : RaftLog.t T) cur vals quorum floor (fuel : nat) (i : N) :
  terms_sorted lg → fuel = N.to_nat (i - floor) →
  let ok j := RaftLog.term_at lg j = Some cur ∧ (quorum ≤ count_replicas vals j quorum 1)%N in
  match commit_scan fuel lg cur vals quorum floor i with
  | Some k => (floor < k ≤ i)%N ∧ ok k ∧ ∀ j, (k < j ≤ i)%N → ¬ ok j
  | None => ∀ j, (floor < j ≤ i)%N → ¬ ok j
  end.
Proof.
  intros Hsort. cbv zeta. revert i. induction fuel as [|fuel IH]; intros i Hf; simpl.
  { intros j Hj. lia. }
  rewrite decide_True by lia. specialize (IH (i - 1)%N ltac:(lia)).
  assert (∀ P : N → Prop, ¬ P i → (∀ j, (floor < j ≤ i - 1)%N → ¬ P j) →
    ∀ j, (floor < j ≤ i)%N → ¬ P j) as Hext.
  { intros P Hi Hrec j Hj. destruct (decide (j = i)) as [->|]; [done|]. apply Hrec. lia. }
  assert (∀ b : bool, ¬ (RaftLog.term_at lg i = Some cur ∧
      (quorum ≤ count_replicas vals i quorum 1)%N) →
    match commit_scan fuel lg cur vals quorum floor (i - 1) with
    | Some k => (floor < k ≤ i)%N ∧
        (RaftLog.term_at lg k = Some cur ∧ (quorum ≤ count_replicas vals k quorum 1)%N) ∧
        ∀ j, (k < j ≤ i)%N → ¬ (RaftLog.term_at lg j = Some cur ∧
          (quorum ≤ count_replicas vals j quorum 1)%N)
    | None => ∀ j, (floor < j ≤ i)%N → ¬ (RaftLog.term_at lg j = Some cur ∧
          (quorum ≤ count_replicas vals j quorum 1)%N)
    end) as Hnext.
  { intros _ Hi. destruct (commit_scan fuel lg cur vals quorum floor (i - 1)) as [k|].
    - destruct IH as (H1 & H2 & H3). split; [lia|]. split; [done|]. intros j Hj.
      destruct (decide (j = i)) as [->|]; [done|]. apply H3. lia.
    - by apply Hext. }
  destruct (RaftLog.term_at lg i) as [et|] eqn:Ht; [|apply (Hnext true); naive_solver].
  case_decide as Hc; subst.
  - case_decide as Hq; [|apply (Hnext true); naive_solver].
    split; [lia|]. split; [done|]. intros j Hj. lia.
  - case_decide as Hlt; [|apply (Hnext true); naive_solver].
    intros j Hj [Hj1 _]. pose proof (Hsort j i _ _ ltac:(lia) Hj1 Ht). lia.
Qed.

Lemma commit_membership_volatile i n :
  volatile (commit_membership_change_if_pending i n).2 = volatile n.
Proof.
  unfold commit_membership_change_if_pending.
  repeat (case_match || case_decide); simplify_eq/=; done.
Qed.

(** C6. The commit rule: the backwards scan with its early exits computes
    Raft's definition.  On a leader whose log has sorted terms the new commit
    index is the greatest committable index, and the old one when there is
    none; it never moves back. *)
Theorem advance_commit_index_greatest n (leader : LeaderState) :
  state n = Leader → leader_state n = Some leader → terms_sorted (log n) →
  let k := commit_index (volatile (advance_commit_index n)) in
  (commit_index (volatile n) ≤ k)%N ∧
  (k = commit_index (volatile n) ∨ committable n leader k) ∧
  (∀ i, committable n leader i → (i ≤ k)%N).
Proof.
  intros Hs Hl Hsort. unfold advance_commit_index. rewrite decide_False by (intros []; done).
  rewrite Hl.
  pose proof (commit_scan_spec (log n) (current_term n) (map_to_list (match_index leader)).*2
    (node_quorum_size n) (commit_index (volatile n)) _ (RaftLog.last_index (log n)) Hsort eq_refl) as H.
  assert (∀ j, (node_quorum_size n ≤
      count_replicas (map_to_list (match_index leader)).*2 j (node_quorum_size n) 1)%N ↔
      (node_quorum_size n ≤ 1 + N.of_nat (replicas leader j))%N) as Hr.
  { intros j. by rewrite count_replicas_spec, replicas_values. }
  case_match eqn:E.
  - rewrite commit_membership_volatile. simpl. destruct H as (H1 & [H2 H2'] & H3).
    split; [lia|]. split.
    + right. split; [done|]. split; [done|]. by apply Hr.
    + intros i (I1 & I2 & I3). apply N.nlt_ge. intros Hlt. apply (H3 i); [lia|]. split; [done|]. by apply Hr.
  - split; [lia|]. split; [by left|]. intros i (I1 & I2 & I3). exfalso.
    apply (H i I1). split; [done|]. by apply Hr.
Qed.

End Commit.

(** ** Delivery to the state machine *)

Section Apply.
Context {T S M : Type} {st : RaftStorage T S} {sm : StateMachine T M}.
Implicit Types (n : RaftNode T S) (d : RaftDriver T S M) (full : list (LogEntry T)).

(** The loop takes what the log still has: indices up to the compaction offset
    are passed over. *)
Lemma committed_entries_spec lg full (fuel : nat) (last commit : N) :
  RaftLog.repr lg full → (commit ≤ N.of_nat (length full))%N →
  fuel = N.to_nat (commit - last) →
  let first := N.max last (RaftLog.offset lg) in
  committed_entries fuel lg last commit =
    (take (N.to_nat (commit - first)) (drop (N.to_nat first) full), N.max last commit).
Proof.
  intros Hr. revert last. induction fuel as [|fuel IH]; intros last Hc Hf; cbv zeta; simpl.
  { replace (N.to_nat (commit - N.max last (RaftLog.offset lg))) with 0 by lia. f_equal. lia. }
  rewrite decide_True by lia. rewrite (IH (last + 1)%N) by lia. cbv zeta.
  rewrite (RaftLog.get_repr _ full) by done. unfold RaftLog.spec_get. case_decide as Ho.
  - replace (N.max (last + 1) (RaftLog.offset lg)) with (N.max last (RaftLog.offset lg)) by lia.
    f_equal. lia.
  - replace (N.to_nat (last + 1 - 1)) with (N.to_nat last) by lia.
    destruct (lookup_lt_is_Some_2 full (N.to_nat last)) as [e He]; [lia|]. rewrite He.
    rewrite (N.max_l last) by lia. rewrite (N.max_l (last + 1)) by lia.
    rewrite (drop_S _ _ _ He).
    replace (N.to_nat (commit - last)) with (Datatypes.S (N.to_nat (commit - (last + 1)))) by lia.
    cbn [take]. replace (N.to_nat (last + 1)) with (Datatypes.S (N.to_nat last)) by lia. f_equal. lia.
Qed.

(** The entries of [full] with the indices [last + 1 .. commit]. *)
Definition committed_segment full (last commit : N) : list (LogEntry T) :=
  take (N.to_nat commit - N.to_nat last) (drop (N.to_nat last) full).

(** C7. Exactly-once, in-order delivery: when the node's log stores a history
    [full], the loop hands to the state machine and to the commit channel exactly
    the entries up to [commit_index] that lie beyond [last_applied] and that the
    log has not compacted, in order, and running it again changes nothing.  With
    nothing compacted beyond [last_applied] these are the entries [last_applied +
    1 .. commit_index]; after a restart from a snapshot, where [last_applied]
    starts at 0, they start after the snapshot. *)
Theorem apply_committed_exact d full :
  RaftLog.repr (log (node d)) full →
  (commit_index (volatile (node d)) ≤ N.of_nat (length full))%N →
  let last := last_applied (volatile (node d)) in
  let first := N.max last (RaftLog.offset (log (node d))) in
  let commit := commit_index (volatile (node d)) in
  let d' := apply_committed_entries d in
  commit_tx d' = commit_tx d ++ committed_segment full first commit ∧
  state_machine d' =
    foldl (λ m e, sm_apply (e_command e) m) (state_machine d) (committed_segment full first commit) ∧
  last_applied (volatile (node d')) = N.max last commit ∧
  log (node d') = log (node d) ∧
  apply_committed_entries d' = d'.
Proof.
  intros Hr Hc. cbv zeta. unfold apply_committed_entries, committed_segment. case_decide as Hle.
  - replace (N.to_nat (commit_index (volatile (node d))) - _) with 0 by lia.
    rewrite take_0, app_nil_r. split; [done|]. split; [done|]. split; [lia|].
    split; [done|]. unfold apply_committed_entries. by rewrite decide_True.
  - unfold apply_committed_with_entries.
    rewrite (committed_entries_spec _ full) by (done || lia). cbv zeta. rewrite N2Nat.inj_sub.
    split; [done|]. split; [done|]. split; [done|]. split; [done|].
    unfold apply_committed_entries. rewrite decide_True; [done|]. simpl. lia.
Qed.

End Apply.

(** ** Snapshot transfer *)

Section Chunks.
Context (term : Term) (leader_id : NodeId) (snap : Snapshot).
Implicit Types (chunk_size off : N).

Abbreviation total := (N.of_nat (length (snap_data snap))).

(** The message that carries the bytes [[off, end_)]. *)
Definition chunk_message (off end_ : N) : InstallSnapshot :=
  mkInstallSnapshot term leader_id (last_included_index snap) (last_included_term snap) off
    (drop (N.to_nat off) (take (N.to_nat end_) (snap_data snap))) (bool_decide (total ≤ end_)%N).

Lemma snapshot_chunks_unfold (fuel : nat) chunk_size off :
  (off < total)%N → (off + chunk_size ≤ u64_max)%N →
  snapshot_chunks (Datatypes.S fuel) term leader_id snap chunk_size off =
    (let end_ := N.min (off + chunk_size) total in
     let '(rest, finished) := snapshot_chunks fuel term leader_id snap chunk_size end_ in
     (chunk_message off end_ :: rest, finished)).
Proof.
  intros Ho Hb. cbn [snapshot_chunks]. rewrite decide_True by done.
  rewrite u64_add_small by lia. by rewrite (decide_False (P := (N.min _ _ < off)%N)) by lia.
Qed.

Lemma snapshot_chunks_done (fuel : nat) chunk_size :
  snapshot_chunks fuel term leader_id snap chunk_size total = ([], LoopDone).
Proof. destruct fuel; simpl; by rewrite decide_False by lia. Qed.

(** C38. A loop with a chunk size of zero never ends: for a snapshot that is not
    empty, however many iterations it is given, it has sent a message in each of
    them, always the same empty chunk, and its condition still holds. *)
Theorem snapshot_chunks_zero (fuel : nat) :
  (0 < total)%N →
  snapshot_chunks fuel term leader_id snap 0 0 = (replicate fuel (chunk_message 0 0), OutOfFuel).
Proof.
  intros Hpos. induction fuel as [|fuel IH].
  - simpl. by rewrite decide_True by done.
  - rewrite snapshot_chunks_unfold by lia. cbv zeta.
    replace (N.min (0 + 0) total) with 0%N by lia.
    by rewrite IH.
Qed.

End Chunks.

Section Transfer.
Context {T S M : Type} {st : RaftStorage T S} {rel : RaftStorageReliable T S}
  {sm : StateMachine T M}.
Implicit Types (n : RaftNode T S) (m : M).

(** A receiver takes the messages one after the other; a failed one leaves what
    the handler did until then. *)
Definition receive_all (msgs : list InstallSnapshot) (nm : RaftNode T S * M) : RaftNode T S * M :=
  foldl (λ nm req, (handle_install_snapshot req nm).2) nm msgs.

Lemma handle_term_update_frame t n :
  ∃ b n', handle_term_update t n = (Ok b, n') ∧ current_term n' = N.max (current_term n) t ∧
    log n' = log n ∧ volatile n' = volatile n ∧ pending_snapshot n' = pending_snapshot n ∧
    last_snapshot n' = last_snapshot n.
Proof.
  unfold handle_term_update, se_bind, se_get. case_decide as Ht.
  - unfold se_modify.
    destruct (persist_term_run t (step_down t n)) as (r1 & s1 & -> & H1).
    destruct (H1 rel) as (-> & _).
    destruct (persist_voted_for_run None (set_storage s1 (step_down t n))) as (r2 & s2 & -> & H2).
    destruct (H2 rel) as (-> & _).
    eexists _, _. split; [done|]. repeat split; simpl; lia.
  - eexists _, _. split; [done|]. repeat split. lia.
Qed.

(** A chunk that is not the last one is buffered. *)
Lemma receive_chunk req n m buf :
  (current_term n ≤ is_term req)%N → is_done req = false →
  buffer_chunk req (pending_snapshot n) = Some buf →
  ∃ r n', handle_install_snapshot req (n, m) = (Ok r, (n', m)) ∧
    current_term n' = is_term req ∧ pending_snapshot n' = Some buf ∧ log n' = log n.
Proof.
  intros Ht Hd Hbuf. unfold handle_install_snapshot, snapshot_reply, se_bind, on_node, se_map_err.
  destruct (handle_term_update_frame (is_term req) n) as (b & n1 & -> & E1 & E2 & E3 & E4 & E5).
  cbn [map_err]. unfold se_get, se_modify. rewrite decide_False by lia.
  change (pending_snapshot (follow (is_leader_id req) n1)) with (pending_snapshot n1).
  rewrite E4, Hbuf, Hd. simpl. eexists _, _. split; [done|]. simpl. split; [lia|]. done.
Qed.

(** The last chunk installs the snapshot. *)
Lemma receive_last_chunk req n m m' buf :
  (current_term n ≤ is_term req)%N → is_done req = true →
  buffer_chunk req (pending_snapshot n) = Some buf → sm_restore buf m = (Ok tt, m') →
  ∃ r n', handle_install_snapshot req (n, m) = (Ok r, (n', m')) ∧
    current_term n' = is_term req ∧ pending_snapshot n' = None ∧
    log n' = install_log req (log n) ∧
    last_snapshot n' = Some (mkSnapshot (is_last_included_index req) (is_last_included_term req) buf) ∧
    load_snapshot (storage n') = Ok (Some (buf, is_last_included_index req, is_last_included_term req)) ∧
    (is_last_included_index req ≤ last_applied (volatile n'))%N ∧
    (is_last_included_index req ≤ commit_index (volatile n'))%N.
Proof.
  intros Ht Hd Hbuf Hrest.
  unfold handle_install_snapshot, snapshot_reply, se_bind, on_node, on_machine, se_map_err.
  destruct (handle_term_update_frame (is_term req) n) as (b & n1 & -> & E1 & E2 & E3 & E4 & E5).
  cbn [map_err]. unfold se_get, se_modify. rewrite decide_False by lia.
  change (pending_snapshot (follow (is_leader_id req) n1)) with (pending_snapshot n1).
  rewrite E4, Hbuf, Hd. cbn [negb]. rewrite Hrest.
  set (n2 := set_log _ _).
  destruct (save_snapshot_total buf (is_last_included_index req) (is_last_included_term req) (storage n2))
    as [s' Hs].
  unfold persist_snapshot. rewrite Hs. cbn [map_err].
  apply save_snapshot_ok in Hs as (L & _).
  eexists _, _. split; [done|]. simpl. rewrite E2. split; [lia|].
  repeat split; try done; unfold install_volatile; simpl; case_decide; lia.
Qed.

Context (term : Term) (leader_id : NodeId) (snap : Snapshot) (chunk_size : N).
Abbreviation total := (N.of_nat (length (snap_data snap))).
Hypothesis Hchunk : (0 < chunk_size)%N.
Hypothesis Husize : (chunk_size ≤ u64_max)%N.
Hypothesis Hvec : (total ≤ isize_max)%N.

(** What the receiver has when the bytes below [off] have arrived. *)
Definition received (off : N) (n0 n : RaftNode T S) : Prop :=
  (current_term n ≤ term)%N ∧ log n = log n0 ∧
  ((0 < off)%N → pending_snapshot n = Some (take (N.to_nat off) (snap_data snap))).

(** The snapshot is in place on the receiver. *)
Definition installed (n0 n : RaftNode T S) : Prop :=
  current_term n = term ∧ pending_snapshot n = None ∧ last_snapshot n = Some snap ∧
  load_snapshot (storage n)
    = Ok (Some (snap_data snap, last_included_index snap, last_included_term snap)) ∧
  log n = install_log (chunk_message term leader_id snap 0 total) (log n0) ∧
  (last_included_index snap ≤ last_applied (volatile n))%N ∧
  (last_included_index snap ≤ commit_index (volatile n))%N.

Lemma buffer_chunk_message off end_ n0 n :
  (off ≤ end_)%N → (end_ ≤ total)%N → received off n0 n →
  buffer_chunk (chunk_message term leader_id snap off end_) (pending_snapshot n)
    = Some (take (N.to_nat end_) (snap_data snap)).
Proof.
  intros H1 H2 (_ & _ & Hp). unfold buffer_chunk. cbn [is_offset is_data chunk_message].
  case_decide as E; [by subst|]. rewrite Hp by lia. cbn. f_equal.
  rewrite <- (take_drop (N.to_nat off) (take (N.to_nat end_) _)) at 2.
  f_equal. rewrite take_take. f_equal. lia.
Qed.

Lemma receive_chunks (fuel : nat) off n0 n m m' :
  (off < total)%N → off = 0%N ∨ (off + chunk_size ≤ u64_max)%N → (total ≤ off + N.of_nat fuel)%N → received off n0 n →
  sm_restore (snap_data snap) m = (Ok tt, m') →
  let '(msgs, finished) := snapshot_chunks fuel term leader_id snap chunk_size off in
  finished = LoopDone ∧ ∃ n', receive_all msgs (n, m) = (n', m') ∧ installed n0 n'.
Proof.
  revert off n. induction fuel as [|fuel IH]; intros off n Ho Hw Hf Hrec Hrest; [lia|].
  rewrite snapshot_chunks_unfold by (done || lia). cbv zeta.
  set (end_ := N.min (off + chunk_size) total).
  set (msg := chunk_message term leader_id snap off end_).
  pose proof (buffer_chunk_message off end_ n0 n ltac:(lia) ltac:(lia) Hrec) as Hbuf. fold msg in Hbuf.
  destruct Hrec as (R1 & R2 & R3).
  destruct (decide (end_ = total)) as [E|E].
  - rewrite E, snapshot_chunks_done. split; [done|]. unfold receive_all. cbn [foldl].
    assert (is_done msg = true) as Hdone by (simpl; rewrite bool_decide_eq_true; lia).
    rewrite E, Nat2N.id, firstn_all in Hbuf.
    destruct (receive_last_chunk msg n m m' _ R1 Hdone Hbuf Hrest)
      as (r & n' & Hh & I1 & I2 & I3 & I4 & I5 & I6 & I7).
    rewrite Hh. exists n'. split; [done|].
    unfold installed. rewrite I3, R2. destruct snap. repeat split; done.
  - assert (is_done msg = false) as Hdone by (simpl; rewrite bool_decide_eq_false; lia).
    destruct (receive_chunk msg n m _ R1 Hdone Hbuf) as (r & n' & Hh & I1 & I2 & I3).
    assert (end_ + chunk_size ≤ u64_max)%N by (unfold isize_max, u64_max in *; lia).
    specialize (IH end_ n' ltac:(lia) ltac:(auto) ltac:(lia)).
    destruct (snapshot_chunks fuel term leader_id snap chunk_size end_) as [rest fin].
    unfold receive_all. cbn [foldl]. rewrite Hh. apply IH; [|done].
    split; [simpl in *; lia|]. split; [congruence|done].
Qed.

Lemma snapshot_messages_install n m m' :
  (current_term n ≤ term)%N → sm_restore (snap_data snap) m = (Ok tt, m') →
  (snapshot_chunks (length (snap_data snap)) term leader_id snap chunk_size 0).2 = LoopDone ∧
  ∃ n', receive_all (snapshot_messages term leader_id snap chunk_size) (n, m) = (n', m') ∧
    installed n n'.
Proof.
  intros Ht Hrest. unfold snapshot_messages. case_decide as E.
  - apply nil_length_inv in E as E'. split; [rewrite E; simpl; by rewrite decide_False by lia|].
    set (msg := mkInstallSnapshot _ _ _ _ _ _ _). rewrite E' in Hrest.
    destruct (receive_last_chunk msg n m m' [] Ht eq_refl eq_refl Hrest)
      as (r & n' & Hh & I1 & I2 & I3 & I4 & I5 & I6 & I7).
    exists n'. unfold receive_all. cbn [foldl]. rewrite Hh. split; [done|].
    unfold installed. rewrite I3, I4, I5, E'. repeat split; try done.
    simpl. rewrite <- E'. by destruct snap.
  - assert (received 0 n n) as Hrec by (split; [done|]; split; [done|]; lia).
    pose proof (receive_chunks (length (snap_data snap)) 0 n n m m' ltac:(lia) ltac:(auto) ltac:(lia) Hrec Hrest) as H.
    by destruct (snapshot_chunks _ _ _ _ _ _) as [msgs fin].
Qed.

(** C8. Snapshot transfer.  For a chunk size from 1 to [2^64 - 1] and data of a
    length a [Vec] can have (at most [isize::MAX]) the sender's loop ends without
    a panic.  A receiver of no higher term than the sender's whose storage writes
    succeed and whose state machine accepts the data, and which takes the messages
    in order, ends up with the sender's snapshot installed (the last bytes and no
    earlier ones trigger it), persisted, the state machine restored from exactly
    the snapshot's bytes, the log cut or reset at the snapshot's index, and the
    commit and applied indices at least there. *)
Theorem snapshot_transfer n m m' :
  (current_term n ≤ term)%N → sm_restore (snap_data snap) m = (Ok tt, m') →
  (snapshot_chunks (length (snap_data snap)) term leader_id snap chunk_size 0).2 = LoopDone ∧
  ∃ n', receive_all (snapshot_messages term leader_id snap chunk_size) (n, m) = (n', m') ∧
    installed n n'.
Proof. apply snapshot_messages_install. Qed.

End Transfer.

(** ** Instances *)

(** Node 1 leads term 1 of three with one entry, which node 2 holds. *)
Definition leading_state : LeaderState :=
  mkLeaderState {[2%N := 2%N; 3%N := 1%N]} {[2%N := 1%N; 3%N := 0%N]}.

Definition leading : RaftNode unit (MemStorage unit) :=
  mkNode (cluster_config 3 1) Leader 1 (Some 1%N) (RaftLog.from_entries [mkEntry 1 1 tt])
    VolatileState_default (Some leading_state) (Some 1%N)
    (ElectionTracker.new 3) (mkMem 1 (Some 1%N) [] None) [] None None
    (ClusterMembership.new 1 [2; 3]%N) None.

Lemma terms_sorted_singleton (t : Term) :
  terms_sorted (RaftLog.from_entries [mkEntry t 1 tt]).
Proof.
  assert (∀ i x, RaftLog.term_at (RaftLog.from_entries [mkEntry t 1 tt]) i = Some x → x = t) as H.
  { intros i x. unfold RaftLog.term_at, RaftLog.get, RaftLog.to_internal. simpl.
    repeat case_decide; simpl; try done; try lia.
    destruct (N.to_nat (i - 0) - 1); simpl; naive_solver. }
  intros i j ti tj _ Hi%H Hj%H. by subst.
Qed.

Lemma advance_commit_index_greatest_witness :
  commit_index (volatile (advance_commit_index leading)) = 1%N ∧
  committable leading leading_state 1.
Proof.
  split; [reflexivity|].
  destruct (advance_commit_index_greatest leading leading_state eq_refl eq_refl
    (terms_sorted_singleton 1)) as (_ & [H|H] & _).
  - by vm_compute in H.
  - exact H.
Defined.

(** A driver with two committed entries to apply. *)
Definition two_entries : list (LogEntry unit) := [mkEntry 1 1 tt; mkEntry 1 2 tt].

Definition ready : RaftDriver unit (MemStorage unit) NullStateMachine :=
  mkDriver (set_log (RaftLog.from_entries two_entries) (set_volatile (mkVolatile 2 0) leading)) tt []
    (Leader, 1%N, Some 1%N) false None [] ∅ (from_heartbeat_interval (from_millis 50)) [] None.

(** A node rebuilt from a storage with three entries and a snapshot of the first
    two, which has then learnt that the third is committed. *)
Definition three_entries : list (LogEntry unit) := [mkEntry 1 1 tt; mkEntry 1 2 tt; mkEntry 1 3 tt].

Definition rebooted : RaftDriver unit (MemStorage unit) NullStateMachine :=
  mkDriver (set_log (RaftLog.compact_to (RaftLog.from_entries three_entries) 2)
              (set_volatile (mkVolatile 3 0) leading)) tt []
    (Leader, 1%N, Some 1%N) false None [] ∅ (from_heartbeat_interval (from_millis 50)) [] None.

(** The log and the applied index are the ones [RaftNode::new] gives. *)
Lemma rebooted_log :
  (λ n, (log n, last_applied (volatile n))) <$>
    match RaftNode.new (cluster_config 3 1) (mkMem 1 None three_entries (Some ([7%N], 2%N, 1%N))) with
    | Ok n => Some n
    | Err _ => None
    end = Some (log (node rebooted), last_applied (volatile (node rebooted))).
Proof. by vm_compute. Qed.

Lemma apply_committed_exact_witness :
  commit_tx (apply_committed_entries ready) = two_entries ∧
  apply_committed_entries (apply_committed_entries ready) = apply_committed_entries ready ∧
  commit_tx (apply_committed_entries rebooted) = [mkEntry 1 3 tt].
Proof.
  destruct (apply_committed_exact ready two_entries) as (H1 & _ & _ & _ & H5).
  { by apply RaftLog.from_entries_repr. }
  { by vm_compute. }
  destruct (apply_committed_exact rebooted three_entries) as (H1' & _).
  { apply RaftLog.compact_to_repr. by apply RaftLog.from_entries_repr. }
  { by vm_compute. }
  split; [exact H1|]. split; [exact H5|exact H1'].
Defined.

(** Five bytes in chunks of two. *)
Definition sample_snapshot : Snapshot := mkSnapshot 4 2 [7; 8; 9; 10; 11]%N.

Lemma snapshot_transfer_witness :
  length (snapshot_messages 3 2 sample_snapshot 2) = 3 ∧
  ∃ n', receive_all (snapshot_messages 3 2 sample_snapshot 2) (leading, tt) = (n', tt) ∧
    installed 3 2 sample_snapshot leading n'.
Proof.
  split; [reflexivity|].
  apply (snapshot_transfer (T := unit) (M := NullStateMachine) 3 2 sample_snapshot 2);
    [done|by vm_compute|by vm_compute|by vm_compute|reflexivity].
Defined.

Lemma snapshot_chunks_zero_witness :
  snapshot_chunks 3 3 2 sample_snapshot 0 0
    = (replicate 3 (chunk_message 3 2 sample_snapshot 0 0), OutOfFuel).
Proof. apply (snapshot_chunks_zero 3 2 sample_snapshot 3); by vm_compute. Defined.

(** ** A commit nobody holds

    A follower answers an accepted [AppendEntries] with its own last index, not
    with the last index the message covers. *)

(** Node 1 leads term 1 and appends an entry that reaches no one; node 3 becomes
    leader of term 2 with the vote of node 2; node 1 accepts the empty
    heartbeat and reports its stale entry as matching; the next proposal on
    node 3 is committed at once. *)
Definition schedule_phantom : list (action unit NullStateMachine) :=
  schedule_win ++
  [Local 1 (Proposal tt);
   Local 3 (ElectionTimeout (later 2)); Local 3 (ElectionTimeout (later 3));
   Deliver 10 (later 3); Deliver 11 (later 3);
   Deliver 13 (later 3); Deliver 14 (later 3);
   Local 3 (Proposal tt)].

Definition phantom : Cluster unit (MemStorage unit) NullStateMachine :=
  default trio (run no_stale_votes schedule_phantom trio).

(** The entry node [i] of a cluster has at index [k], and its commit index. *)
Definition entry_at (c : Cluster unit (MemStorage unit) NullStateMachine) (i k : N) :=
  nodes c !! i ≫= λ d, RaftLog.get (log (node d)) k.
Definition committed_to (c : Cluster unit (MemStorage unit) NullStateMachine) (i : N) :=
  commit_index ∘ volatile ∘ node <$> nodes c !! i.

(** C36. Node 3 has committed an entry that is in no other node's log, though no
    message was lost on the way to the nodes that answered. *)
Theorem phantom_commit :
  rtc (step no_stale_votes) trio phantom ∧ committed_to phantom 3 = Some 1%N ∧
  entry_at phantom 3 1 = Some (mkEntry 2 1 tt) ∧
  entry_at phantom 1 1 = Some (mkEntry 1 1 tt) ∧ entry_at phantom 2 1 = None.
Proof.
  split; [apply run_default; by vm_compute|]. repeat split; by vm_compute.
Qed.

(** ** Entries are not persisted

    The node writes its term, its vote and its snapshots to storage, but no log
    entry: no code path of the node calls the storage's [append_entries]. *)

(** Node 1 leads, and commits an entry held by nodes 1 and 2. *)
Definition schedule_commit : list (action unit NullStateMachine) :=
  schedule_win ++ [Local 1 (Proposal tt); Deliver 5 (later 1); Deliver 7 (later 1)].

Definition committed : Cluster unit (MemStorage unit) NullStateMachine :=
  default trio (run no_stale_votes schedule_commit trio).
Definition restarted : Cluster unit (MemStorage unit) NullStateMachine :=
  default committed (run no_stale_votes [Restart 1 tt (later 2); Restart 2 tt (later 2)] committed).

(** C37. An entry committed by a majority is gone from every node once the majority
    has restarted, each node from its own intact storage. *)
Theorem restart_loses_committed :
  rtc (step no_stale_votes) trio committed ∧ rtc (step no_stale_votes) committed restarted ∧
  committed_to committed 1 = Some 1%N ∧ entry_at committed 1 1 = Some (mkEntry 1 1 tt) ∧
  entry_at restarted 1 1 = None ∧ entry_at restarted 2 1 = None ∧ entry_at restarted 3 1 = None.
Proof.
  split; [apply run_default; by vm_compute|]. split; [apply run_default; by vm_compute|].
  repeat split; by vm_compute.
Qed.
