(* ===== verification/RaftInvariant.v ===== *)
(** The internal consistency of a node, for every storage back end (failing
    writes included): leader bookkeeping exists exactly on leaders, a leader
    names itself, a candidate has voted for itself and counted that vote, and
    the state published by the driver is the node's. *)

From S2P Require Import Prelude.
From S2P Require Import RaftTypes.
From S2P Require Import RaftLog.
From S2P Require Import RaftElection.
From S2P Require Import RaftMembership.
From S2P Require Import RaftStorage.
From S2P Require Import RaftNode.
From S2P Require Import RaftHealth.
From S2P Require Import RaftDriver.

Section Coherent.
Context {T S M : Type} {st : RaftStorage T S} {sm : StateMachine T M}.
Implicit Types (n : RaftNode T S) (d : RaftDriver T S M).

Record coherent n : Prop := mk_coherent {
  coherent_bookkeeping : is_Some (leader_state n) ↔ state n = Leader;
  coherent_leader : state n = Leader → current_leader n = Some (self_id n);
  coherent_candidate : state n = Candidate →
    voted_for n = Some (self_id n) ∧ current_leader n = None ∧
    self_id n ∈ votes (election_tracker n);
}.

(** An operation that leaves the fields of [coherent] alone. *)
Record same_role n n' : Prop := mk_same_role {
  same_config : config n' = config n;
  same_state : state n' = state n;
  same_leader : current_leader n' = current_leader n;
  same_bookkeeping : is_Some (leader_state n') ↔ is_Some (leader_state n);
  same_voted : voted_for n' = voted_for n;
  same_tracker : election_tracker n' = election_tracker n;
}.

#[export] Instance same_role_preorder : PreOrder same_role.
Proof.
  split.
  - intros n. split; done.
  - intros n1 n2 n3 [] []. split; try congruence. by etrans.
Qed.

Lemma coherent_same n n' : same_role n n' → coherent n → coherent n'.
Proof.
  intros [E1 E2 E3 E4 E5 E6] [H1 H2 H3].
  split; unfold self_id; rewrite ?E1, ?E2, ?E3, ?E4, ?E5, ?E6; done.
Qed.

(** A follower without bookkeeping is coherent whatever else it holds. *)
Lemma coherent_follower n : state n = Follower → leader_state n = None → coherent n.
Proof.
  intros Hs Hl. split; by rewrite ?Hs, ?Hl.
Qed.

Lemma same_role_foldl {A} (f : RaftNode T S → A → RaftNode T S) (l : list A) n :
  (∀ x n, same_role n (f n x)) → same_role n (foldl f n l).
Proof.
  intros Hf. revert n. induction l as [|x l IH]; intros n; simpl; [reflexivity|].
  etrans; [apply Hf|apply IH].
Qed.

Lemma same_role_send p m n : same_role n (send p m n).
Proof. by split. Qed.

Lemma same_role_replicate p n : same_role n (replicate_to_peer p n).
Proof.
  unfold replicate_to_peer, send_snapshot_to_peer.
  repeat (case_decide || case_match); try reflexivity;
  (apply same_role_send || (apply same_role_foldl; intros; apply same_role_send)).
Qed.

Lemma same_role_send_all n : same_role n (send_append_entries_to_all n).
Proof.
  unfold send_append_entries_to_all. case_decide; [reflexivity|].
  apply same_role_foldl. intros. apply same_role_replicate.
Qed.

(** Storage calls change the storage only, on both outcomes. *)
Lemma same_role_persist_term t n : same_role n (persist_term t n).2.
Proof. unfold persist_term. case_match. by split. Qed.
Lemma same_role_persist_voted_for v n : same_role n (persist_voted_for v n).2.
Proof. unfold persist_voted_for. case_match. by split. Qed.
Lemma same_role_persist_snapshot s i t n : same_role n (persist_snapshot s i t n).2.
Proof. unfold persist_snapshot. case_match. by split. Qed.

Lemma coherent_commit_membership i n :
  coherent n → coherent (commit_membership_change_if_pending i n).2.
Proof.
  intros H. unfold commit_membership_change_if_pending.
  destruct (pending_change (membership n)) as [p|]; [|done].
  case_decide; [|done].
  set (n2 := match leader_state _ with Some _ => _ | None => _ end).
  assert (same_role n n2) as Hn2.
  { subst n2. case_match eqn:E; split; simpl in *; rewrite ?E; naive_solver. }
  destruct (match pending_op p with AddServer _ _ => _ | RemoveServer _ => _ end); simpl.
  - by apply coherent_follower.
  - by eapply coherent_same.
Qed.

Lemma coherent_advance n : coherent n → coherent (advance_commit_index n).
Proof.
  intros H. unfold advance_commit_index. case_decide; [done|].
  case_match; [|done]. case_match; [|done].
  apply coherent_commit_membership. eapply coherent_same; [|done]. by split.
Qed.

Lemma coherent_become_leader n : coherent (become_leader n).
Proof.
  unfold become_leader, send_heartbeats. eapply coherent_same; [apply same_role_send_all|].
  split; simpl; naive_solver.
Qed.

Lemma coherent_follow l n : coherent (follow l n).
Proof. by apply coherent_follower. Qed.

(** Adopting a term, also when persisting it fails: either the term was not
    higher and nothing changed, or the node is a plain follower. *)
Lemma handle_term_update_cases t n :
  let n' := (handle_term_update t n).2 in
  n' = n ∨ (state n' = Follower ∧ leader_state n' = None).
Proof.
  unfold handle_term_update, se_bind, se_get. case_decide; [|by left]. right. unfold se_modify.
  pose proof (same_role_persist_term t (step_down t n)) as [_ A1 _ A2 _ _].
  unfold persist_term in *. destruct (save_term t (storage (step_down t n))) as [r s].
  assert (∀ n', is_Some (leader_state n') ↔ is_Some (leader_state (step_down t n)) →
    leader_state n' = None) as Hn.
  { intros n' HH. simpl in HH. destruct (leader_state n') eqn:E; [|done].
    destruct HH as [HH _]. by destruct HH. }
  destruct r; [|split; [done|by apply Hn]].
  pose proof (same_role_persist_voted_for None (set_storage s (step_down t n))) as [_ B1 _ B2 _ _].
  unfold persist_voted_for in *.
  destruct (save_voted_for None (storage (set_storage s (step_down t n)))) as [[|] s2];
    (split; [done|]; by apply Hn).
Qed.

Lemma coherent_term_update t n : coherent n → coherent (handle_term_update t n).2.
Proof.
  intros H. destruct (handle_term_update_cases t n) as [->|[? ?]]; [done|].
  by apply coherent_follower.
Qed.

(** The state after a sequence: [m] then [k], where the rule has to hold for
    both outcomes of [m]. *)
Lemma coherent_bind {E A B} (m : SE (RaftNode T S) E A) (k : A → SE (RaftNode T S) E B) n :
  coherent (m n).2 → (∀ a n', m n = (Ok a, n') → coherent n' → coherent (k a n').2) →
  coherent (se_bind m k n).2.
Proof.
  intros Hm Hk. unfold se_bind. destruct (m n) as [[a|e] n'] eqn:Hmn; [|done]. by apply Hk.
Qed.

Lemma coherent_persist_voted_for v n : coherent n → coherent (persist_voted_for v n).2.
Proof. apply coherent_same, same_role_persist_voted_for. Qed.

Lemma coherent_persist_term t n : coherent n → coherent (persist_term t n).2.
Proof. apply coherent_same, same_role_persist_term. Qed.

Lemma coherent_start_election n : coherent (start_election n).2.
Proof.
  assert (coherent (become_candidate n)) as Hc.
  { split; unfold self_id; simpl; try done. intros _. split; [done|]. split; [done|]. set_solver. }
  unfold start_election. apply coherent_bind; [exact Hc|]. intros [] n1 [= <-] _.
  apply coherent_bind; [exact Hc|]. intros t n1 [= <- <-] _.
  apply coherent_bind; [by apply coherent_persist_term|]. intros _ n2 _ H2.
  apply coherent_bind; [done|]. intros v n3 [= <- <-] _.
  apply coherent_bind; [by apply coherent_persist_voted_for|]. intros _ n4 _ H4.
  apply coherent_bind; [done|]. intros q n5 [= <- <-] _.
  case_match; [apply coherent_become_leader|].
  simpl. eapply coherent_same; [|done]. apply same_role_foldl. intros. apply same_role_send.
Qed.

Lemma coherent_request_vote req n : coherent n → coherent (handle_request_vote req n).2.
Proof.
  intros H. unfold handle_request_vote, vote_reply.
  apply coherent_bind; [by apply coherent_term_update|]. intros _ n1 _ H1.
  apply coherent_bind; [done|]. intros n' n2 [= -> <-] _.
  case_decide; [done|]. case_match eqn:Hv; [done|]. case_match; [done|].
  apply negb_false_iff in Hv.
  apply coherent_bind.
  { destruct H1 as [A1 A2 A3]. split; simpl; [done|done|]. intros Hs.
    destruct (A3 Hs) as (V1 & V2 & V3). split; [|done].
    unfold can_vote in Hv. rewrite V1 in Hv. apply bool_decide_eq_true in Hv. f_equal. by symmetry. }
  intros _ n3 _ H3. apply coherent_bind; [done|]. intros v n4 [= <- <-] _.
  apply coherent_bind; [by apply coherent_persist_voted_for|]. intros _ n5 _ H5. done.
Qed.

Lemma coherent_request_vote_response from resp n :
  coherent n → coherent (handle_request_vote_response from resp n).2.
Proof.
  intros H. unfold handle_request_vote_response.
  apply coherent_bind; [by apply coherent_term_update|]. intros _ n1 _ H1.
  apply coherent_bind; [done|]. intros s n2 [= <- <-] _.
  case_decide; [done|]. case_match; [|done].
  apply coherent_bind.
  { destruct H1 as [A1 A2 A3]. split; simpl; [done|done|]. intros Hs.
    destruct (A3 Hs) as (V1 & V2 & V3). split; [done|]. split; [done|].
    unfold self_id in *. simpl. set_solver. }
  intros _ n3 _ H3. apply coherent_bind; [done|]. intros q n4 [= <- <-] _.
  case_match; [apply coherent_become_leader|done].
Qed.

Lemma coherent_append_entries req n : coherent n → coherent (handle_append_entries req n).2.
Proof.
  intros H. unfold handle_append_entries.
  apply coherent_bind; [by apply coherent_term_update|]. intros _ n1 _ H1.
  apply coherent_bind; [done|]. intros c n2 [= <- <-] _. case_decide; [done|].
  apply coherent_bind; [apply coherent_follow|]. intros [] n3 [= <-] _.
  apply coherent_bind; [apply coherent_follow|]. intros lg n4 [= <- <-] _.
  destruct (RaftLog.append_entries _ _ _ _) as [ok lg'].
  apply coherent_bind; [by apply coherent_follower|]. intros [] n5 [= <-] _.
  case_match; [by apply coherent_follower|].
  apply coherent_bind; [|by intros]. simpl. case_decide; by apply coherent_follower.
Qed.

Lemma coherent_append_entries_response from resp n :
  coherent n → coherent (handle_append_entries_response from resp n).2.
Proof.
  intros H. unfold handle_append_entries_response.
  apply coherent_bind; [by apply coherent_term_update|]. intros _ n1 _ H1.
  apply coherent_bind; [done|]. intros s n2 [= <- <-] _. case_decide; [done|].
  apply coherent_bind; [|intros _ n3 _ H3; by apply coherent_advance].
  simpl. case_match eqn:E; [|done]. eapply coherent_same; [|done].
  split; simpl; rewrite ?E; naive_solver.
Qed.

Lemma coherent_install_snapshot_response from resp n :
  coherent n → coherent (handle_install_snapshot_response from resp n).2.
Proof.
  intros H. unfold handle_install_snapshot_response.
  apply coherent_bind; [by apply coherent_term_update|]. intros _ n1 _ H1.
  apply coherent_bind; [done|]. intros s n2 [= <- <-] _. case_decide; [done|].
  apply coherent_bind; [|intros _ n3 _ H3; by apply coherent_advance].
  simpl. repeat case_match; try done. eapply coherent_same; [|done].
  split; simpl; naive_solver.
Qed.

Lemma coherent_client_request c n : coherent n → coherent (client_request c n).2.
Proof.
  intros H. unfold client_request. case_decide; [done|]. simpl.
  eapply coherent_same; [apply same_role_send_all|]. eapply coherent_same; [|done]. by split.
Qed.

Lemma coherent_propose_membership c noop n :
  coherent n → coherent (propose_membership_change c noop n).2.
Proof.
  intros H. unfold propose_membership_change. case_decide; [done|]. case_match; [done|].
  case_match; [done|]. case_match; [|done]. simpl.
  eapply coherent_same; [apply same_role_send_all|]. eapply coherent_same; [|done].
  repeat case_match; split; simpl; naive_solver.
Qed.

Lemma coherent_create_snapshot (m : M) n : coherent n → coherent (create_snapshot m n).2.
Proof.
  intros H. unfold create_snapshot. apply coherent_bind; [done|]. intros n0 n' [= <- <-] _.
  case_decide; [done|]. case_match; [done|].
  apply coherent_bind.
  { unfold se_map_err. pose proof (same_role_persist_snapshot (sm_snapshot m)
      (last_applied (volatile n)) (default (RaftLog.snapshot_term (log n))
        (RaftLog.term_at (log n) (last_applied (volatile n)))) n) as Hs.
    destruct (persist_snapshot _ _ _ n) as [r n2]. by eapply coherent_same. }
  intros _ n2 _ H2. simpl. eapply coherent_same; [|done]. by split.
Qed.

Lemma coherent_install_snapshot req n (m : M) :
  coherent n → coherent (handle_install_snapshot req (n, m)).2.1.
Proof.
  intros H. unfold handle_install_snapshot, snapshot_reply. unfold se_bind at 1, on_node at 1, se_map_err at 1.
  pose proof (coherent_term_update (is_term req) n H) as H1.
  destruct (handle_term_update (is_term req) n) as [[b|e] n1]; [|done]. simpl in H1. cbn [map_err].
  unfold se_bind, on_node, on_machine, se_modify, se_get, se_map_err.
  case_decide; [done|]. case_match eqn:Hbuf; [|apply coherent_follow].
  case_match eqn:Hdone; [by apply coherent_follower|].
  set (n2 := set_log _ _). assert (coherent n2) as Hn2 by by apply coherent_follower.
  destruct (sm_restore l m) as [[u|e] m']; [|done].
  pose proof (same_role_persist_snapshot l (is_last_included_index req) (is_last_included_term req) n2)
    as Hs.
  destruct (persist_snapshot _ _ _ n2) as [[r|e] n3]; cbn [map_err];
    (eapply coherent_same; [|exact Hn2]); [|exact Hs]. etrans; [exact Hs|]. by split.
Qed.

(** *** The driver *)

Record driver_wf d : Prop := mk_driver_wf {
  wf_node : coherent (node d);
  wf_published : state_tx d = (state (node d), current_term (node d), current_leader (node d));
  wf_reset : election_reset d = false;
}.

Lemma coherent_inbound now from msg d :
  coherent (node d) → coherent (node (handle_inbound_message now from msg d)).
Proof.
  intros H. assert (∀ f d', node (with_monitor f d') = node d') as Hm.
  { intros f d'. unfold with_monitor. by case_match. }
  destruct msg as [req|resp|req|resp|req|resp]; cbn [handle_inbound_message]; rewrite ?Hm.
  - pose proof (coherent_request_vote req _ H) as H1.
    destruct (handle_request_vote req (node d)) as [[r|e] n']; [|done].
    case_match; (eapply coherent_same; [apply same_role_send|done]).
  - by apply coherent_request_vote_response.
  - pose proof (coherent_append_entries req _ H) as H1.
    destruct (handle_append_entries req (node d)) as [[r|e] n']; [|done].
    case_decide; (eapply coherent_same; [apply same_role_send|done]).
  - by apply coherent_append_entries_response.
  - unfold driver_install_snapshot.
    pose proof (coherent_install_snapshot req (node d) (state_machine d) H) as H1.
    destruct (handle_install_snapshot req (node d, state_machine d)) as [[r|e] [n' m']]; [|done].
    case_decide; (eapply coherent_same; [apply same_role_send|done]).
  - by apply coherent_install_snapshot_response.
Qed.

Lemma coherent_branch ev d d' :
  driver_branch ev d = Some d' → coherent (node d) → coherent (node d').
Proof.
  destruct ev as [now|now|now from msg|c|c noop]; cbn [driver_branch]; intros Hb H.
  - case_decide; [done|]. apply bind_Some in Hb as (dl & _ & Hb). case_decide; simplify_eq.
    apply coherent_start_election.
  - case_decide; simplify_eq. unfold handle_heartbeat_tick, publish_peer_statuses, with_monitor.
    assert (coherent (send_heartbeats (node d))) as Hs
      by (eapply coherent_same; [apply same_role_send_all|done]).
    repeat case_match; exact Hs.
  - simplify_eq. pose proof (coherent_inbound now from msg d H) as H1. unfold on_inbound.
    destruct (election_reset _); repeat case_match; try exact H1; simpl;
    unfold stop_health_monitor; case_match; exact H1.
  - simplify_eq. unfold handle_proposal. case_decide; [done|].
    pose proof (coherent_client_request c _ H) as H1.
    destruct (client_request c (node d)) as [[i|] n']; [by apply coherent_advance|done].
  - simplify_eq. unfold handle_membership_proposal.
    pose proof (coherent_propose_membership c noop _ H) as H1.
    destruct (propose_membership_change c noop (node d)) as [r n']. simpl.
    case_match; [by apply coherent_advance|done].
Qed.

(** Which branches can leave the reset flag set: none. *)
Lemma reset_branch ev d d' :
  driver_branch ev d = Some d' → election_reset d = false → election_reset d' = false.
Proof.
  destruct ev as [now|now|now from msg|c|c noop]; cbn [driver_branch]; intros Hb H.
  - case_decide; [done|]. apply bind_Some in Hb as (dl & _ & Hb). case_decide; by simplify_eq.
  - case_decide; simplify_eq. unfold handle_heartbeat_tick, publish_peer_statuses, with_monitor.
    repeat case_match; exact H.
  - simplify_eq. unfold on_inbound. set (d1 := handle_inbound_message now from msg d).
    destruct (election_reset d1) eqn:E; repeat case_match; try done; simpl;
    unfold stop_health_monitor; case_match; done.
  - simplify_eq. unfold handle_proposal. case_decide; [done|]. by repeat case_match.
  - simplify_eq. unfold handle_membership_proposal. by case_match.
Qed.

(** What the iteration does after the branch leaves the role alone. *)
Lemma same_role_after d :
  let d' := maybe_snapshot (apply_committed_entries (publish_state d)) in
  state_tx d' = (state (node d), current_term (node d), current_leader (node d)) ∧
  election_reset d' = election_reset d ∧
  current_term (node d') = current_term (node d) ∧ same_role (node d) (node d').
Proof.
  cbv zeta. set (d1 := apply_committed_entries (publish_state d)).
  assert (state_tx d1 = (state (node d), current_term (node d), current_leader (node d)) ∧
    election_reset d1 = election_reset d ∧
    current_term (node d1) = current_term (node d) ∧ same_role (node d) (node d1)) as (A1 & A2 & A3 & A4).
  { subst d1. unfold apply_committed_entries. case_decide; [done|].
    unfold apply_committed_with_entries. repeat case_match; by simplify_eq/=. }
  unfold maybe_snapshot. case_match; [|done]. simpl.
  split; [done|]. split; [done|].
  unfold create_snapshot, se_bind, se_get, se_modify, se_map_err, persist_snapshot. cbn [id].
  case_decide; [done|]. case_match; [done|].
  destruct (save_snapshot _ _ _ _) as [[r|e] s]; simpl; (split; [done|]); destruct A4; by split.
Qed.

(** C13. The driver's invariant, for any storage, whether its writes succeed or
    fail: after every iteration of the loop leader bookkeeping exists exactly on
    a leader, a leader names itself as leader, a candidate has voted for itself,
    knows no leader and has counted its own vote, the published state is the
    node's, and no election-timer reset is left pending. *)
Theorem driver_step_wf ev d d' : driver_wf d → driver_step ev d = Some d' → driver_wf d'.
Proof.
  intros [W1 W2 W3] Hs. unfold driver_step in Hs.
  apply bind_Some in Hs as (d1 & Hb & Hs). simplify_eq.
  pose proof (coherent_branch _ _ _ Hb W1) as H1.
  destruct (same_role_after d1) as (A1 & A2 & A3 & A4). split.
  - by eapply coherent_same.
  - rewrite A1. destruct A4 as [_ E1 E2 _ _ _]. by rewrite E1, E2, A3.
  - rewrite A2. by eapply reset_branch.
Qed.

Lemma build_wf cfg s m now d : build cfg s m now = Ok d → driver_wf d.
Proof.
  unfold build, new. intros H.
  destruct (load_term s); [|done]. destruct (load_voted_for s); [|done].
  destruct (load_log s); [|done]. destruct (load_snapshot s) as [o|]; [|done]. cbn [result_bind] in H.
  destruct o as [[[data i] t]|]; simplify_eq/=; split; try done; by apply coherent_follower.
Qed.

End Coherent.

(** A storage on which every write fails. *)
Definition broken : Type := unit.

#[local] Instance broken_storage : RaftStorage unit broken := {|
  save_term _ s := (Err Io, s);
  load_term _ := Ok 4%N;
  save_voted_for _ s := (Err Io, s);
  load_voted_for _ := Ok None;
  storage_append_entries _ s := (Err Io, s);
  load_log _ := Ok [];
  truncate_log_from _ s := (Err Io, s);
  save_snapshot _ _ _ s := (Err Io, s);
  load_snapshot _ := Ok None;
|}.

Definition ailing : option (RaftDriver unit broken NullStateMachine) :=
  match build (cluster_config 3 1) (tt : broken) tt 0 with Ok d => Some d | Err _ => None end.

(** The election timer fires on a node whose storage fails. *)
Definition ailing_candidate : option (RaftDriver unit broken NullStateMachine) :=
  d ← ailing; driver_step (ElectionTimeout (from_millis 1000)) d.

Lemma driver_step_wf_witness : ∃ d d', ailing = Some d ∧ ailing_candidate = Some d' ∧
  state (node d') = Candidate ∧ driver_wf d'.
Proof.
  destruct ailing as [d|] eqn:E; [|by vm_compute in E].
  destruct ailing_candidate as [d'|] eqn:E'; [|by vm_compute in E'].
  exists d, d'. split; [done|]. split; [done|]. split.
  - vm_compute in E'. by injection E' as <-.
  - unfold ailing_candidate in E'. rewrite E in E'.
    refine (driver_step_wf _ _ _ _ E'). unfold ailing in E.
    destruct (build (cluster_config 3 1) (tt : broken) tt 0) as [d0|] eqn:Hb; simplify_eq.
    exact (build_wf _ _ _ _ _ Hb).
Defined.
