(* ===== verification/IrcTypes.v ===== *)
(** Strings and the validated names of [src/pirc-common/src/types]:
    [nickname.rs] and [channel.rs].

    A [str] is the list of its chars; its length in Rust is the length of its
    UTF-8 encoding, [str_len]. *)

From Stdlib Require Import Ascii.
From S2P Require Import Prelude.

(** ** Strings *)

(** A string literal of the source (all of them are ASCII). *)
Fixpoint lit (s : string) : str :=
  match s with
  | EmptyString => []
  | String a s' => N_of_ascii a :: lit s'
  end.

Arguments lit : simpl never.

(** The UTF-8 encoding of a char. *)
Definition utf8 (c : char) : list N :=
  if decide (c < 0x80)%N then [c]
  else if decide (c < 0x800)%N then [0xC0 + c / 64; 0x80 + c mod 64]%N
  else if decide (c < 0x10000)%N then [0xE0 + c / 4096; 0x80 + c / 64 mod 64; 0x80 + c mod 64]%N
  else [0xF0 + c / 262144; 0x80 + c / 4096 mod 64; 0x80 + c / 64 mod 64; 0x80 + c mod 64]%N.

Definition as_bytes (s : str) : list N := s ≫= utf8.

(** [str::len]. *)
Definition str_len (s : str) : nat := length (as_bytes s).

Definition is_ascii_uppercase (c : char) : bool := bool_decide (65 ≤ c ∧ c ≤ 90)%N.
Definition is_ascii_lowercase (c : char) : bool := bool_decide (97 ≤ c ∧ c ≤ 122)%N.
Definition is_ascii_alphabetic (c : char) : bool := is_ascii_uppercase c || is_ascii_lowercase c.
Definition is_ascii_digit (c : char) : bool := bool_decide (48 ≤ c ∧ c ≤ 57)%N.

(** [char::is_control]: the Unicode category Cc. *)
Definition is_control (c : char) : bool := bool_decide (c < 32 ∨ (127 ≤ c ∧ c ≤ 159))%N.

Definition char_to_ascii_lowercase (c : char) : char :=
  if is_ascii_uppercase c then (c + 32)%N else c.

Definition to_ascii_lowercase (s : str) : str := char_to_ascii_lowercase <$> s.

(** [str::eq_ignore_ascii_case]: equal lengths, and equal bytes up to ASCII
    case. *)
Fixpoint eq_ignore_ascii_case (a b : str) : bool :=
  match a, b with
  | [], [] => true
  | x :: a', y :: b' =>
      bool_decide (char_to_ascii_lowercase x = char_to_ascii_lowercase y) && eq_ignore_ascii_case a' b'
  | _, _ => false
  end.

(** [str::split_once] for a char. *)
Fixpoint split_once (c : char) (s : str) : option (str * str) :=
  match s with
  | [] => None
  | x :: s' =>
      if decide (x = c) then Some ([], s')
      else '(a, b) ← split_once c s'; Some (x :: a, b)
  end.

(** A number in decimal ([Display] of the unsigned integers). *)
Fixpoint dec_aux (fuel : nat) (n : N) (acc : str) : str :=
  match fuel with
  | O => acc
  | S fuel' =>
      let acc' := (48 + n mod 10)%N :: acc in
      if decide (n < 10)%N then acc' else dec_aux fuel' (n / 10) acc'
  end.

(** 20 digits are enough for a [u64]. *)
Definition dec (n : N) : str := dec_aux 20 n [].

(** ** nickname.rs *)

Inductive NicknameError : Type :=
| NickEmpty
| NickTooLong (n : nat)
| InvalidFirstChar (c : char)
| NickInvalidChar (c : char) (i : nat).

(** [Display] of the error. *)
Definition NicknameError_to_string (e : NicknameError) : str :=
  match e with
  | NickEmpty => lit "nickname must not be empty"
  | NickTooLong n => lit "nickname must not exceed 30 characters (got " ++ dec (N.of_nat n) ++ lit ")"
  | InvalidFirstChar c =>
      lit "nickname must start with a letter or one of: _ \ ` [ ] { } ^ | (got '" ++ [c] ++ lit "')"
  | NickInvalidChar c i =>
      lit "nickname contains invalid character '" ++ [c] ++ lit "' at position " ++ dec (N.of_nat i)
  end.

(** A validated nickname: the string as given. *)
Record Nickname : Type := mkNickname { nick_str : str }.

#[export] Instance Nickname_eq_dec : EqDecision Nickname.
Proof. solve_decision. Defined.

Module Nickname.

Definition is_valid_first_char (c : char) : bool :=
  is_ascii_alphabetic c || bool_decide (c ∈ lit "_\`[]{}^|").

Definition is_valid_subsequent_char (c : char) : bool :=
  is_valid_first_char c || is_ascii_digit c || bool_decide (c ∈ lit "-").

(** The loop over the chars after the first; [i] is the position. *)
Fixpoint validate_rest (i : nat) (cs : str) : result NicknameError unit :=
  match cs with
  | [] => Ok tt
  | c :: cs' =>
      if is_valid_subsequent_char c then validate_rest (S i) cs' else Err (NickInvalidChar c i)
  end.

Definition validate (s : str) : result NicknameError unit :=
  match s with
  | [] => Err NickEmpty
  | first :: rest =>
      if decide (30 < str_len s) then Err (NickTooLong (str_len s))
      else if negb (is_valid_first_char first) then Err (InvalidFirstChar first)
      else validate_rest 1 rest
  end.

Definition new (s : str) : result NicknameError Nickname :=
  _u <-? validate s; Ok (mkNickname s).

(** [PartialEq] and the key [Hash] feeds to the hasher. *)
Definition eq (a b : Nickname) : bool := eq_ignore_ascii_case (nick_str a) (nick_str b).
Definition hash_key (a : Nickname) : str := to_ascii_lowercase (nick_str a).

End Nickname.

(** ** channel.rs *)

Inductive ChannelNameError : Type :=
| ChanEmpty
| MissingPrefix (c : char)
| TooShort
| ChanTooLong (n : nat)
| ChanInvalidChar (c : char) (i : nat).

Record ChannelName : Type := mkChannelName { chan_str : str }.

Module ChannelName.

Fixpoint validate_rest (i : nat) (cs : str) : result ChannelNameError unit :=
  match cs with
  | [] => Ok tt
  | c :: cs' =>
      if bool_decide (c ∈ lit " ,") || is_control c then Err (ChanInvalidChar c i)
      else validate_rest (S i) cs'
  end.

Definition validate (s : str) : result ChannelNameError unit :=
  match s with
  | [] => Err ChanEmpty
  | first :: rest =>
      if decide (lit "#" ≠ [first]) then Err (MissingPrefix first)
      else if decide (str_len s < 2) then Err TooShort
      else if decide (50 < str_len s) then Err (ChanTooLong (str_len s))
      else validate_rest 1 rest
  end.

Definition new (s : str) : result ChannelNameError ChannelName :=
  _u <-? validate s; Ok (mkChannelName s).

(** [&self.0[1..]]: the first char of a validated name is the one-byte [#]. *)
Definition name_without_prefix (c : ChannelName) : str := drop 1 (chan_str c).

Definition eq (a b : ChannelName) : bool := eq_ignore_ascii_case (chan_str a) (chan_str b).
Definition hash_key (a : ChannelName) : str := to_ascii_lowercase (chan_str a).

End ChannelName.

(** ** Facts *)

Lemma as_bytes_app (a b : str) : as_bytes (a ++ b) = as_bytes a ++ as_bytes b.
Proof. apply bind_app. Qed.

Lemma str_len_app (a b : str) : str_len (a ++ b) = str_len a + str_len b.
Proof. unfold str_len. by rewrite as_bytes_app, length_app. Qed.

Lemma str_len_cons (c : char) (s : str) : str_len (c :: s) = length (utf8 c) + str_len s.
Proof. unfold str_len, as_bytes. simpl. by rewrite length_app. Qed.

Lemma utf8_length (c : char) : 1 ≤ length (utf8 c) ≤ 4.
Proof. unfold utf8. repeat case_decide; simpl; lia. Qed.

Lemma length_le_str_len (s : str) : length s ≤ str_len s.
Proof.
  induction s as [|c s IH]; [done|]. rewrite str_len_cons. pose proof (utf8_length c). simpl. lia.
Qed.

Lemma as_bytes_ascii (s : str) : Forall (λ b, b < 128)%N (as_bytes s) → as_bytes s = s.
Proof.
  induction s as [|c s IH]; [done|]. change (as_bytes (c :: s)) with (utf8 c ++ as_bytes s).
  rewrite Forall_app. intros [H1 H2]. rewrite IH by done.
  unfold utf8 in *. case_decide; [done|]. exfalso.
  repeat case_decide; inversion H1 as [|x l Hx Hl]; subst; clear -Hx; revert Hx;
    generalize (c / 64)%N (c / 4096)%N (c / 262144)%N; lia.
Qed.

Lemma split_once_app (c : char) (a b : str) : c ∉ a → split_once c (a ++ c :: b) = Some (a, b).
Proof.
  induction a as [|x a IH]; intros Hc; simpl; [by rewrite decide_True|].
  apply not_elem_of_cons in Hc as [Hx Hc]. rewrite decide_False by done. by rewrite IH.
Qed.

Lemma split_once_None (c : char) (s : str) : c ∉ s → split_once c s = None.
Proof.
  induction s as [|x s IH]; intros Hc; simpl; [done|].
  apply not_elem_of_cons in Hc as [Hx Hc]. rewrite decide_False by done. by rewrite IH.
Qed.

Lemma split_once_Some (c : char) (s a b : str) :
  split_once c s = Some (a, b) → s = a ++ c :: b ∧ c ∉ a.
Proof.
  revert a. induction s as [|x s IH]; intros a; simpl; [done|]. case_decide as E.
  - intros [= <- <-]. subst. split; [done|]. apply not_elem_of_nil.
  - intros ([a' b'] & H & [= <- <-])%bind_Some. destruct (IH _ H) as [-> Hn].
    split; [done|]. apply not_elem_of_cons. auto.
Qed.

Lemma split_once_None_inv (c : char) (s : str) : split_once c s = None → c ∉ s.
Proof.
  induction s as [|x s IH]; simpl; intros H; [apply not_elem_of_nil|].
  case_decide; [done|]. apply not_elem_of_cons. split; [done|]. apply IH.
  destruct (split_once c s) as [[]|]; done.
Qed.

(** *** Decimal numbers *)

(** The value of a string of digits, after [acc]. *)
Definition dec_value (acc : N) (s : str) : N := foldl (λ a c, a * 10 + (c - 48))%N acc s.

Lemma dec_aux_value (fuel : nat) (n : N) (acc : str) :
  (n < 10 ^ N.of_nat fuel)%N → dec_value 0 (dec_aux fuel n acc) = dec_value n acc.
Proof.
  revert n acc. induction fuel as [|fuel IH]; intros n acc Hn.
  { simpl in *. replace n with 0%N by lia. done. }
  rewrite Nat2N.inj_succ, N.pow_succ_r' in Hn.
  cbn [dec_aux]. pose proof (N.div_mod n 10 ltac:(done)) as Hdm.
  pose proof (N.mod_lt n 10 ltac:(done)). case_decide as Hlt.
  - unfold dec_value. cbn [foldl]. f_equal. rewrite N.mod_small by done. lia.
  - rewrite IH by (apply N.Div0.div_lt_upper_bound; lia). unfold dec_value. cbn [foldl]. f_equal.
    revert Hdm. generalize (n / 10)%N (n mod 10)%N. lia.
Qed.

Lemma dec_value_dec (n : N) : (n < 10 ^ 20)%N → dec_value 0 (dec n) = n.
Proof. intros H. unfold dec. by rewrite dec_aux_value. Qed.

Lemma dec_value_ge (s : str) (acc : N) : (acc ≤ dec_value acc s)%N.
Proof.
  revert acc. induction s as [|c s IH]; intros acc; unfold dec_value in *; simpl; [lia|].
  etrans; [|apply IH]. lia.
Qed.

Lemma dec_aux_digits (fuel : nat) (n : N) (acc : str) :
  (fuel ≠ 0 ∨ acc ≠ []) → Forall (λ c, is_ascii_digit c = true) acc →
  dec_aux fuel n acc ≠ [] ∧ Forall (λ c, is_ascii_digit c = true) (dec_aux fuel n acc).
Proof.
  revert n acc. induction fuel as [|fuel IH]; intros n acc Hne HF.
  { simpl. split; [|done]. naive_solver. }
  cbn [dec_aux]. pose proof (N.mod_lt n 10 ltac:(done)).
  assert (Forall (λ c, is_ascii_digit c = true) ((48 + n mod 10)%N :: acc)) as HF'.
  { constructor; [|done]. unfold is_ascii_digit. rewrite bool_decide_eq_true.
    revert H. generalize (n mod 10)%N. lia. }
  case_decide; [done|]. apply IH; [by right|done].
Qed.

Lemma dec_digits (n : N) : dec n ≠ [] ∧ Forall (λ c, is_ascii_digit c = true) (dec n).
Proof. apply dec_aux_digits; [by left|constructor]. Qed.

Lemma validate_rest_ok (i : nat) (cs : str) :
  Nickname.validate_rest i cs = Ok tt ↔ Forall (λ c, Nickname.is_valid_subsequent_char c = true) cs.
Proof.
  revert i. induction cs as [|c cs IH]; intros i; simpl; [by split|].
  rewrite Forall_cons. case_match; naive_solver.
Qed.

(** What a valid nickname consists of. *)
Lemma nickname_new_ok (s : str) (n : Nickname) :
  Nickname.new s = Ok n ↔
  nick_str n = s ∧ str_len s ≤ 30 ∧
  ∃ c rest, s = c :: rest ∧ Nickname.is_valid_first_char c = true ∧
    Forall (λ c, Nickname.is_valid_subsequent_char c = true) rest.
Proof.
  unfold Nickname.new, Nickname.validate. destruct s as [|c rest]; cbn [result_bind].
  { split; [done|]. intros (_ & _ & c & rest & ? & _). done. }
  case_decide as Hl; cbn [result_bind]; [split; [done|lia]|].
  destruct (Nickname.is_valid_first_char c) eqn:Hc; cbn [negb result_bind].
  - pose proof (validate_rest_ok 1 rest) as Hr.
    destruct (Nickname.validate_rest 1 rest) as [[]|e]; cbn [result_bind].
    + split.
      * intros [= <-]. split; [done|]. split; [lia|]. exists c, rest. naive_solver.
      * intros (E & _). destruct n. simpl in E. by subst.
    + split; [done|]. intros (_ & _ & c' & rest' & [= <- <-] & _ & HF). by apply Hr in HF.
  - split; [done|]. intros (_ & _ & c' & rest' & [= <- <-] & ? & _). congruence.
Qed.

Lemma valid_subsequent_first (c : char) :
  Nickname.is_valid_first_char c = true → Nickname.is_valid_subsequent_char c = true.
Proof. intros H. unfold Nickname.is_valid_subsequent_char. by rewrite H. Qed.

Lemma nickname_chars (s : str) (n : Nickname) :
  Nickname.new s = Ok n → s ≠ [] ∧ Forall (λ c, Nickname.is_valid_subsequent_char c = true) s.
Proof.
  intros (_ & _ & c & rest & -> & Hc & Hr)%nickname_new_ok. split; [done|].
  constructor; [by apply valid_subsequent_first|done].
Qed.

Lemma eq_ignore_ascii_case_iff (s t : str) :
  eq_ignore_ascii_case s t = true ↔ to_ascii_lowercase s = to_ascii_lowercase t.
Proof.
  revert t. induction s as [|x s IH]; intros [|y t]; simpl; try done.
  rewrite andb_true_iff, bool_decide_eq_true, IH. split; [|naive_solver].
  intros [H1 H2]. unfold to_ascii_lowercase in *. simpl. by f_equal.
Qed.

(** C30. Two names are equal for the code (ASCII case aside) exactly when they
    give the hasher the same key, so that nicknames and channel names can be map
    keys; the spelling is kept. *)
Theorem name_eq_iff_same_hash (a b : Nickname) (c d : ChannelName) :
  (Nickname.eq a b = true ↔ Nickname.hash_key a = Nickname.hash_key b) ∧
  (ChannelName.eq c d = true ↔ ChannelName.hash_key c = ChannelName.hash_key d).
Proof. split; apply eq_ignore_ascii_case_iff. Qed.

(** C29. [Nickname::new] accepts exactly the strings the documentation describes:
    1 to 30 chars, the first an ASCII letter or one of the listed symbols, the
    others also digits or a hyphen (so a nickname is ASCII and its length in
    bytes is its length in chars), and it keeps the string as it is. *)
Theorem nickname_accepts_exactly (s : str) :
  (∃ n, Nickname.new s = Ok n) ↔
  1 ≤ length s ≤ 30 ∧
  (∃ c, head s = Some c ∧ (is_ascii_alphabetic c = true ∨ c ∈ lit "_\`[]{}^|")) ∧
  ∀ c, c ∈ s → is_ascii_alphabetic c = true ∨ is_ascii_digit c = true ∨ c ∈ lit "_\`[]{}^|-".
Proof.
  assert (∀ c, Nickname.is_valid_subsequent_char c = true ↔
    is_ascii_alphabetic c = true ∨ is_ascii_digit c = true ∨ c ∈ lit "_\`[]{}^|-") as Hsub.
  { intros c. unfold Nickname.is_valid_subsequent_char, Nickname.is_valid_first_char.
    rewrite !orb_true_iff, !bool_decide_eq_true.
    change (lit "_\`[]{}^|-") with (lit "_\`[]{}^|" ++ lit "-"). rewrite elem_of_app. tauto. }
  assert (∀ c, Nickname.is_valid_subsequent_char c = true → length (utf8 c) = 1) as Hone.
  { intros c Hc%Hsub. unfold utf8. rewrite decide_True; [done|].
    unfold is_ascii_alphabetic, is_ascii_uppercase, is_ascii_lowercase, is_ascii_digit in Hc.
    rewrite orb_true_iff, !bool_decide_eq_true in Hc. destruct Hc as [Hc|[Hc|Hc]]; [lia|lia|].
    change (lit "_\`[]{}^|-") with [95; 92; 96; 91; 93; 123; 125; 94; 124; 45]%N in Hc.
    set_unfold in Hc. lia. }
  assert (Forall (λ c, Nickname.is_valid_subsequent_char c = true) s → str_len s = length s) as Hlen.
  { intros HF. induction HF as [|c s' Hc HF IH]; [done|]. rewrite str_len_cons, Hone by done. simpl. lia. }
  split.
  - intros [n H]. pose proof (nickname_chars _ _ H) as [Hne HF].
    apply nickname_new_ok in H as (_ & Hl & c & rest & -> & Hc & Hr). rewrite Hlen in Hl by done.
    split; [simpl in *; lia|]. split.
    + exists c. split; [done|]. unfold Nickname.is_valid_first_char in Hc.
      by rewrite orb_true_iff, bool_decide_eq_true in Hc.
    + intros x Hx. apply Hsub. rewrite Forall_forall in HF. auto.
  - intros (Hl & (c & Hh & Hc) & Hall). exists (mkNickname s). apply nickname_new_ok.
    assert (Forall (λ c, Nickname.is_valid_subsequent_char c = true) s) as HF.
    { apply Forall_forall. intros x Hx. by apply Hsub, Hall. }
    split; [done|]. rewrite (Hlen HF). split; [lia|].
    destruct s as [|c' rest]; [done|]. simpl in Hh. injection Hh as ->.
    exists c, rest. split; [done|]. split.
    + unfold Nickname.is_valid_first_char. by rewrite orb_true_iff, bool_decide_eq_true.
    + by inversion HF.
Qed.
