(* ===== verification/Protocol.v ===== *)
(** Wire protocol data: [command.rs], [prefix.rs], [message.rs], [error.rs] and
    [version.rs] of [src/pirc-protocol/src], with their keyword tables and their
    [Display] implementations. *)

From S2P Require Import Prelude.
From S2P Require Import IrcTypes.

(** A Rust [match] on a string with literal patterns: the first that is equal. *)
Fixpoint match_str {A} (s : str) (arms : list (string * A)) : option A :=
  match arms with
  | [] => None
  | (k, a) :: arms' => if decide (s = lit k) then Some a else match_str s arms'
  end.

(** ** command.rs *)

Inductive PircSubcommand : Type :=
| Version | Cap
| KeyExchange | KeyExchangeAck | KeyExchangeComplete | Fingerprint | Encrypted
| ClusterJoin | ClusterWelcome | ClusterSync | ClusterHeartbeat | ClusterMigrate | ClusterRaft
| ClusterStatus | ClusterMembers
| InviteKeyGenerate | InviteKeyList | InviteKeyRevoke
| NetworkInfo
| P2pOffer | P2pAnswer | P2pIce | P2pEstablished | P2pFailed
| GroupCreate | GroupInvite | GroupJoin | GroupLeave | GroupMessage | GroupMembers
| GroupKeyExchange | GroupP2pOffer | GroupP2pAnswer | GroupP2pIce.

#[export] Instance PircSubcommand_eq_dec : EqDecision PircSubcommand.
Proof. solve_decision. Defined.

Module PircSubcommand.

Definition as_str (c : PircSubcommand) : string :=
  match c with
  | Version => "VERSION"
  | Cap => "CAP"
  | KeyExchange => "KEYEXCHANGE"
  | KeyExchangeAck => "KEYEXCHANGE-ACK"
  | KeyExchangeComplete => "KEYEXCHANGE-COMPLETE"
  | Fingerprint => "FINGERPRINT"
  | Encrypted => "ENCRYPTED"
  | ClusterJoin => "CLUSTER JOIN"
  | ClusterWelcome => "CLUSTER WELCOME"
  | ClusterSync => "CLUSTER SYNC"
  | ClusterHeartbeat => "CLUSTER HEARTBEAT"
  | ClusterMigrate => "CLUSTER MIGRATE"
  | ClusterRaft => "CLUSTER RAFT"
  | ClusterStatus => "CLUSTER STATUS"
  | ClusterMembers => "CLUSTER MEMBERS"
  | InviteKeyGenerate => "INVITE-KEY GENERATE"
  | InviteKeyList => "INVITE-KEY LIST"
  | InviteKeyRevoke => "INVITE-KEY REVOKE"
  | NetworkInfo => "NETWORK INFO"
  | P2pOffer => "P2P OFFER"
  | P2pAnswer => "P2P ANSWER"
  | P2pIce => "P2P ICE"
  | P2pEstablished => "P2P ESTABLISHED"
  | P2pFailed => "P2P FAILED"
  | GroupCreate => "GROUP CREATE"
  | GroupInvite => "GROUP INVITE"
  | GroupJoin => "GROUP JOIN"
  | GroupLeave => "GROUP LEAVE"
  | GroupMessage => "GROUP MSG"
  | GroupMembers => "GROUP MEMBERS"
  | GroupKeyExchange => "GROUP KEYEX"
  | GroupP2pOffer => "GROUP P2P-OFFER"
  | GroupP2pAnswer => "GROUP P2P-ANSWER"
  | GroupP2pIce => "GROUP P2P-ICE"
  end.

Definition from_keyword (s : str) : option PircSubcommand :=
  match_str s
    [("VERSION", Version); ("CAP", Cap); ("KEYEXCHANGE", KeyExchange);
     ("KEYEXCHANGE-ACK", KeyExchangeAck); ("KEYEXCHANGE-COMPLETE", KeyExchangeComplete);
     ("FINGERPRINT", Fingerprint); ("ENCRYPTED", Encrypted)].

Definition from_namespace (namespace inner : str) : option PircSubcommand :=
  arms ← match_str namespace
    [("CLUSTER",
        [("JOIN", ClusterJoin); ("WELCOME", ClusterWelcome); ("SYNC", ClusterSync);
         ("HEARTBEAT", ClusterHeartbeat); ("MIGRATE", ClusterMigrate); ("RAFT", ClusterRaft);
         ("STATUS", ClusterStatus); ("MEMBERS", ClusterMembers)]);
     ("INVITE-KEY",
        [("GENERATE", InviteKeyGenerate); ("LIST", InviteKeyList); ("REVOKE", InviteKeyRevoke)]);
     ("NETWORK", [("INFO", NetworkInfo)]);
     ("P2P",
        [("OFFER", P2pOffer); ("ANSWER", P2pAnswer); ("ICE", P2pIce);
         ("ESTABLISHED", P2pEstablished); ("FAILED", P2pFailed)]);
     ("GROUP",
        [("CREATE", GroupCreate); ("INVITE", GroupInvite); ("JOIN", GroupJoin);
         ("LEAVE", GroupLeave); ("MSG", GroupMessage); ("MEMBERS", GroupMembers);
         ("KEYEX", GroupKeyExchange); ("P2P-OFFER", GroupP2pOffer);
         ("P2P-ANSWER", GroupP2pAnswer); ("P2P-ICE", GroupP2pIce)])];
  match_str inner arms.

Definition is_namespaced (c : PircSubcommand) : bool :=
  match c with
  | ClusterJoin | ClusterWelcome | ClusterSync | ClusterHeartbeat | ClusterMigrate | ClusterRaft
  | ClusterStatus | ClusterMembers
  | InviteKeyGenerate | InviteKeyList | InviteKeyRevoke | NetworkInfo
  | P2pOffer | P2pAnswer | P2pIce | P2pEstablished | P2pFailed
  | GroupCreate | GroupInvite | GroupJoin | GroupLeave | GroupMessage | GroupMembers
  | GroupKeyExchange | GroupP2pOffer | GroupP2pAnswer | GroupP2pIce => true
  | _ => false
  end.

End PircSubcommand.

Inductive Command : Type :=
| Nick | User | Join | Part | Privmsg | Notice | Quit | Kick | Ban | Mode | Topic | Whois | List
| Names | Invite | Away | Oper | Kill | Die | Restart | Wallops | Motd | Ping | Pong | CmdError
| Numeric (code : N)
| Pirc (sub : PircSubcommand).

#[export] Instance Command_eq_dec : EqDecision Command.
Proof. solve_decision. Defined.

Module Command.

Definition keyword (c : Command) : option string :=
  match c with
  | Privmsg => Some "PRIVMSG"
  | Ping => Some "PING"
  | Pong => Some "PONG"
  | Notice => Some "NOTICE"
  | Nick => Some "NICK"
  | Join => Some "JOIN"
  | Part => Some "PART"
  | Quit => Some "QUIT"
  | Mode => Some "MODE"
  | User => Some "USER"
  | Topic => Some "TOPIC"
  | Kick => Some "KICK"
  | Ban => Some "BAN"
  | Whois => Some "WHOIS"
  | List => Some "LIST"
  | Names => Some "NAMES"
  | Invite => Some "INVITE"
  | Away => Some "AWAY"
  | Oper => Some "OPER"
  | Kill => Some "KILL"
  | Die => Some "DIE"
  | Restart => Some "RESTART"
  | Wallops => Some "WALLOPS"
  | Motd => Some "MOTD"
  | CmdError => Some "ERROR"
  | Pirc _ => Some "PIRC"
  | Numeric _ => None
  end%string.

(** The format [{code:03}]: at least three digits. *)
Definition pad3 (s : str) : str := replicate (3 - length s) 48%N ++ s.

(** [as_str], and [Display], which writes the same. *)
Definition as_str (c : Command) : str :=
  match keyword c with
  | Some kw => lit kw
  | None => match c with Numeric code => pad3 (dec code) | _ => [] end
  end.

(** The three-byte arm: two keywords, or three digits. *)
Definition from_keyword3 (s : str) : option Command :=
  match match_str s [("BAN", Ban); ("DIE", Die)] with
  | Some c => Some c
  | None =>
      match as_bytes s with
      | [b0; b1; b2] =>
          if is_ascii_digit b0 && is_ascii_digit b1 && is_ascii_digit b2
          then Some (Numeric ((b0 - 48) * 100 + (b1 - 48) * 10 + (b2 - 48))%N)
          else None
      | _ => None
      end
  end.

(** Dispatch on the length in bytes, then on the keyword. *)
Definition from_keyword (s : str) : option Command :=
  match str_len s with
  | 3 => from_keyword3 s
  | 4 => match_str s
      [("PING", Ping); ("PONG", Pong); ("NICK", Nick); ("JOIN", Join); ("PART", Part);
       ("QUIT", Quit); ("MODE", Mode); ("USER", User); ("KICK", Kick); ("KILL", Kill);
       ("LIST", List); ("OPER", Oper); ("AWAY", Away); ("MOTD", Motd)]
  | 5 => match_str s [("TOPIC", Topic); ("WHOIS", Whois); ("NAMES", Names); ("ERROR", CmdError)]
  | 6 => match_str s [("NOTICE", Notice); ("INVITE", Invite)]
  | 7 => match_str s [("PRIVMSG", Privmsg); ("WALLOPS", Wallops); ("RESTART", Restart)]
  | _ => None
  end.

End Command.

(** ** prefix.rs *)

Inductive Prefix : Type :=
| Server (name : str)
| UserPrefix (nick : Nickname) (user host : str).

Definition Prefix_to_string (p : Prefix) : str :=
  match p with
  | Server name => name
  | UserPrefix nick user host => nick_str nick ++ lit "!" ++ user ++ lit "@" ++ host
  end.

(** ** error.rs *)

Inductive ProtocolError : Type :=
| EmptyMessage
| MessageTooLong (length max : nat)
| MissingCommand
| UnknownCommand (s : str)
| InvalidPrefix (s : str)
| InvalidNickname (s : str)
| TooManyParams (count max : nat)
| MissingParameter (command : str) (expected : string)
| InvalidVersion (s : str).

Definition ProtocolError_kind (e : ProtocolError) : string :=
  match e with
  | EmptyMessage => "empty_message"
  | MessageTooLong _ _ => "message_too_long"
  | MissingCommand => "missing_command"
  | UnknownCommand _ => "unknown_command"
  | InvalidPrefix _ => "invalid_prefix"
  | InvalidNickname _ => "invalid_nickname"
  | TooManyParams _ _ => "too_many_params"
  | MissingParameter _ _ => "missing_parameter"
  | InvalidVersion _ => "invalid_version"
  end.

(** ** message.rs *)

Definition MAX_PARAMS : nat := 15.

Record Message : Type := mkMessage {
  prefix : option Prefix;
  command : Command;
  params : list str;
}.

Module Message.

Definition is_numeric (m : Message) : bool :=
  match command m with Numeric _ => true | _ => false end.

Definition numeric_code (m : Message) : option N :=
  match command m with Numeric code => Some code | _ => None end.

Definition trailing (m : Message) : option str := last (params m).

(** What each command needs. *)
Definition min_params (c : Command) : nat * string :=
  match c with
  | Nick | Whois => (1, "nickname")
  | Join | Part | Topic => (1, "channel")
  | Mode => (1, "target")
  | Ping | Pong => (1, "server")
  | Privmsg | Notice => (2, "target and message")
  | Kick | Ban => (2, "channel and target")
  | Invite => (2, "nickname and channel")
  | Oper => (2, "name and password")
  | Kill => (2, "nickname and comment")
  | Wallops => (1, "message")
  | _ => (0, "")
  end%string.

Definition validate (m : Message) : result ProtocolError unit :=
  if decide (MAX_PARAMS < length (params m)) then Err (TooManyParams (length (params m)) MAX_PARAMS)
  else
    let '(min, expected) := min_params (command m) in
    if decide (length (params m) < min)
    then Err (MissingParameter (Command.as_str (command m)) expected)
    else Ok tt.

Definition starts_with (c : char) (s : str) : bool :=
  match s with x :: _ => bool_decide (x = c) | [] => false end.

Definition space : char := 32.
Definition colon : char := 58.

(** Whether the last parameter is written with a colon. *)
Definition needs_colon (last : str) : bool :=
  bool_decide (last = []) || bool_decide (space ∈ last) || starts_with colon last.

Definition format_last (last : str) : str :=
  if needs_colon last then space :: colon :: last else space :: last.

Fixpoint format_params (ps : list str) : str :=
  match ps with
  | [] => []
  | [last] => format_last last
  | p :: ps' => space :: p ++ format_params ps'
  end.

(** [Display]. *)
Definition to_string (m : Message) : str :=
  match prefix m with Some p => colon :: Prefix_to_string p ++ [space] | None => [] end ++
  Command.as_str (command m) ++
  match command m with Pirc sub => space :: lit (PircSubcommand.as_str sub) | _ => [] end ++
  format_params (params m).

End Message.

(** ** version.rs *)

Record ProtocolVersion : Type := mkVersion { major : N; minor : N }.

Module ProtocolVersion.

Definition is_compatible (a b : ProtocolVersion) : bool := bool_decide (major a = major b).

Definition cmp (a b : ProtocolVersion) : comparison :=
  match (major a ?= major b)%N with Eq => (minor a ?= minor b)%N | c => c end.

(** [std::cmp::min]: the first unless the second is smaller. *)
Definition min (a b : ProtocolVersion) : ProtocolVersion :=
  match cmp b a with Lt => b | _ => a end.

Definition negotiate (local remote : ProtocolVersion) : option ProtocolVersion :=
  if negb (is_compatible local remote) then None else Some (min local remote).

Definition to_string (v : ProtocolVersion) : str := dec (major v) ++ lit "." ++ dec (minor v).

(** [str::parse::<u16>]: an optional [+], then at least one digit; [None] is an
    error (no digits, another char, or a value that does not fit). *)
Fixpoint parse_digits (acc : N) (s : str) : option N :=
  match s with
  | [] => Some acc
  | c :: s' =>
      if is_ascii_digit c then
        let acc' := (acc * 10 + (c - 48))%N in
        if decide (acc' ≤ 65535)%N then parse_digits acc' s' else None
      else None
  end.

Definition parse_u16 (s : str) : option N :=
  let digits := match s with c :: s' => if decide ([c] = lit "+") then s' else s | [] => [] end in
  match digits with [] => None | _ => parse_digits 0 digits end.

Definition from_str (s : str) : result ProtocolError ProtocolVersion :=
  halves <-? ok_or (split_once 46 s) (InvalidVersion (lit "missing '.' in version: " ++ s));
  let '(major_str, minor_str) := halves in
  ma <-? ok_or (parse_u16 major_str) (InvalidVersion (lit "invalid major version: " ++ major_str));
  mi <-? ok_or (parse_u16 minor_str) (InvalidVersion (lit "invalid minor version: " ++ minor_str));
  Ok (mkVersion ma mi).

End ProtocolVersion.

(** ** Facts *)

Lemma match_str_Some {A} (s : str) (arms : list (string * A)) (a : A) :
  match_str s arms = Some a → ∃ k, (k, a) ∈ arms ∧ s = lit k.
Proof.
  induction arms as [|[k b] arms IH]; simpl; [done|]. case_decide as E.
  - intros [= ->]. exists k. split; [by left|done].
  - intros H. destruct (IH H) as (k' & Hin & ?). exists k'. split; [by right|done].
Qed.

(** The keyword of a [match] arm, by inspection of the arms. *)
Tactic Notation "arms" hyp(H) :=
  let k := fresh "k" in let K := fresh "K" in let E := fresh "E" in
  destruct (match_str_Some _ _ _ H) as (k & K & E); clear H;
  repeat (apply elem_of_cons in K as [K|K]; [injection K as ??; subst|]);
  [..|by apply elem_of_nil in K].

Definition digits : list N := [48; 49; 50; 51; 52; 53; 54; 55; 56; 57]%N.

Lemma numeric_tables :
  forallb (λ n, bool_decide (Command.from_keyword (Command.as_str (Numeric (N.of_nat n)))
    = Some (Numeric (N.of_nat n)))) (seq 0 1000) = true ∧
  forallb (λ b0, forallb (λ b1, forallb (λ b2,
    bool_decide (Command.as_str (Numeric ((b0 - 48) * 100 + (b1 - 48) * 10 + (b2 - 48))%N) = [b0; b1; b2]))
    digits) digits) digits = true.
Proof. split; vm_compute; reflexivity. Qed.

Lemma is_ascii_digit_In (b : N) : is_ascii_digit b = true → In b digits.
Proof.
  unfold is_ascii_digit. rewrite bool_decide_eq_true. intros H. unfold digits. simpl.
  assert (b = 48 ∨ b = 49 ∨ b = 50 ∨ b = 51 ∨ b = 52 ∨ b = 53 ∨ b = 54 ∨ b = 55 ∨ b = 56 ∨ b = 57)%N by lia.
  naive_solver.
Qed.

Lemma numeric_print (n : N) :
  (n ≤ 999)%N → Command.from_keyword (Command.as_str (Numeric n)) = Some (Numeric n).
Proof.
  intros H. destruct numeric_tables as [Ht _]. rewrite forallb_forall in Ht.
  specialize (Ht (N.to_nat n) ltac:(apply in_seq; lia)).
  apply bool_decide_eq_true in Ht. by rewrite N2Nat.id in Ht.
Qed.

Lemma numeric_parse (b0 b1 b2 : N) :
  is_ascii_digit b0 = true → is_ascii_digit b1 = true → is_ascii_digit b2 = true →
  Command.as_str (Numeric ((b0 - 48) * 100 + (b1 - 48) * 10 + (b2 - 48))%N) = [b0; b1; b2].
Proof.
  intros H0%is_ascii_digit_In H1%is_ascii_digit_In H2%is_ascii_digit_In.
  destruct numeric_tables as [_ Ht]. rewrite forallb_forall in Ht. specialize (Ht b0 H0).
  rewrite forallb_forall in Ht. specialize (Ht b1 H1).
  rewrite forallb_forall in Ht. specialize (Ht b2 H2). by apply bool_decide_eq_true in Ht.
Qed.

(** Commands the wire format can carry. *)
Definition wire_command (c : Command) : Prop :=
  match c with Numeric code => (code ≤ 999)%N | _ => True end.

Lemma command_print_parse (c : Command) :
  wire_command c → match c with Pirc _ => True | _ => Command.from_keyword (Command.as_str c) = Some c end.
Proof. destruct c; intros H; try done. by apply numeric_print. Qed.

Lemma command_parse_print (s : str) (c : Command) :
  Command.from_keyword s = Some c →
  Command.as_str c = s ∧ wire_command c ∧ match c with Pirc _ => False | _ => True end.
Proof.
  unfold Command.from_keyword. intros H.
  destruct (str_len s) as [|[|[|[|[|[|[|[|k]]]]]]]]; try done.
  2-5: by arms H.
  unfold Command.from_keyword3 in H. destruct (match_str s [("BAN"%string, Ban); ("DIE"%string, Die)]) as [c'|] eqn:Hm.
  { injection H as <-. by arms Hm. }
  destruct (as_bytes s) as [|b0 [|b1 [|b2 [|]]]] eqn:Hb; simplify_eq/=. case_match eqn:Hd; simplify_eq.
  apply andb_true_iff in Hd as [[H0 H1]%andb_true_iff H2].
  split; [|split; [|done]].
  - rewrite (numeric_parse _ _ _ H0 H1 H2), <- Hb. apply as_bytes_ascii. rewrite Hb.
    unfold is_ascii_digit in *. rewrite bool_decide_eq_true in *. repeat constructor; lia.
  - simpl. unfold is_ascii_digit in *. rewrite bool_decide_eq_true in *. lia.
Qed.

Lemma sub_keyword_inv (s : str) (sub : PircSubcommand) :
  PircSubcommand.from_keyword s = Some sub →
  s = lit (PircSubcommand.as_str sub) ∧ PircSubcommand.is_namespaced sub = false.
Proof. intros H. unfold PircSubcommand.from_keyword in H. by arms H. Qed.

Lemma sub_namespace_inv (ns inner : str) (sub : PircSubcommand) :
  PircSubcommand.from_namespace ns inner = Some sub →
  lit (PircSubcommand.as_str sub) = ns ++ lit " " ++ inner ∧ PircSubcommand.is_namespaced sub = true.
Proof.
  intros H. unfold PircSubcommand.from_namespace in H. apply bind_Some in H as (l & H1 & H2).
  arms H1; by arms H2.
Qed.

(** C28. The keyword tables are inverse to each other: parsing what is printed
    for a command gives the command back (numerics up to 999), a string that
    parses is exactly what is printed for the result, and the same for the flat
    and for the namespaced subcommands of [PIRC]. *)
Theorem keywords_inverse :
  (∀ c, wire_command c → (∀ sub, c ≠ Pirc sub) →
     Command.from_keyword (Command.as_str c) = Some c) ∧
  (∀ s c, Command.from_keyword s = Some c → Command.as_str c = s) ∧
  (∀ sub, PircSubcommand.is_namespaced sub = false →
     PircSubcommand.from_keyword (lit (PircSubcommand.as_str sub)) = Some sub) ∧
  (∀ s sub, PircSubcommand.from_keyword s = Some sub →
     lit (PircSubcommand.as_str sub) = s ∧ PircSubcommand.is_namespaced sub = false) ∧
  (∀ sub, PircSubcommand.is_namespaced sub = true →
     ∃ ns inner, lit (PircSubcommand.as_str sub) = ns ++ lit " " ++ inner ∧
       PircSubcommand.from_namespace ns inner = Some sub) ∧
  (∀ ns inner sub, PircSubcommand.from_namespace ns inner = Some sub →
     lit (PircSubcommand.as_str sub) = ns ++ lit " " ++ inner ∧
     PircSubcommand.is_namespaced sub = true).
Proof.
  split.
  { intros c Hw Hp. pose proof (command_print_parse c Hw) as H. destruct c; try done. by destruct (Hp sub). }
  split; [intros s c H; by apply command_parse_print in H as [? _]|].
  split; [by intros []|].
  split; [intros s sub [-> ?]%sub_keyword_inv; done|].
  split; [|apply sub_namespace_inv].
  intros sub H.
  destruct (split_once 32 (lit (PircSubcommand.as_str sub))) as [[ns inner]|] eqn:E;
    [|by destruct sub; vm_compute in E].
  exists ns, inner. split; [by apply split_once_Some in E as [-> _]|].
  destruct sub; try done; vm_compute in E; simplify_eq; reflexivity.
Qed.

(** *** Versions *)

Lemma parse_digits_val (s : str) (acc : N) :
  Forall (λ c, is_ascii_digit c = true) s → (dec_value acc s ≤ 65535)%N →
  ProtocolVersion.parse_digits acc s = Some (dec_value acc s).
Proof.
  intros HF. revert acc. induction HF as [|c s Hc HF IH]; intros acc Hv; simpl in *; [done|].
  rewrite Hc. pose proof (dec_value_ge s (acc * 10 + (c - 48))%N) as Hge.
  rewrite decide_True by (unfold dec_value in *; simpl in *; lia). by apply IH.
Qed.

Lemma parse_u16_dec (n : N) : (n ≤ 65535)%N → ProtocolVersion.parse_u16 (dec n) = Some n.
Proof.
  intros Hn. destruct (dec_digits n) as [Hne HF]. unfold ProtocolVersion.parse_u16.
  destruct (dec n) as [|c s] eqn:E; [done|].
  rewrite decide_False.
  - rewrite <- E. rewrite <- E in HF. rewrite parse_digits_val; rewrite ?dec_value_dec by lia; done.
  - intros [= ->]. inversion HF as [|? ? Hc]. by vm_compute in Hc.
Qed.

(** C31. Versions survive printing and parsing, for all components of a [u16]. *)
Theorem version_roundtrip (v : ProtocolVersion) :
  (major v ≤ 65535)%N → (minor v ≤ 65535)%N →
  ProtocolVersion.from_str (ProtocolVersion.to_string v) = Ok v.
Proof.
  intros Ha Hb. unfold ProtocolVersion.from_str, ProtocolVersion.to_string.
  change (lit "." ++ dec (minor v)) with (46%N :: dec (minor v)).
  rewrite (split_once_app 46 (dec (major v)) (dec (minor v))).
  - cbn [ok_or result_bind]. rewrite !parse_u16_dec by done. by destruct v.
  - destruct (dec_digits (major v)) as [_ HF]. rewrite Forall_forall in HF.
    intros Hin%HF. by vm_compute in Hin.
Qed.

(** C32. Negotiation is symmetric, fails exactly for different major versions,
    and otherwise picks the lower of the two versions. *)
Theorem negotiate_min (a b : ProtocolVersion) :
  ProtocolVersion.negotiate a b = ProtocolVersion.negotiate b a ∧
  (ProtocolVersion.negotiate a b = None ↔ major a ≠ major b) ∧
  (major a = major b →
   ProtocolVersion.negotiate a b = Some (mkVersion (major a) (N.min (minor a) (minor b)))).
Proof.
  unfold ProtocolVersion.negotiate, ProtocolVersion.is_compatible, ProtocolVersion.min, ProtocolVersion.cmp.
  destruct a as [a1 a2], b as [b1 b2]; simpl.
  destruct (decide (a1 = b1)) as [->|Hne].
  - rewrite !bool_decide_eq_true_2 by done. simpl. rewrite !N.compare_refl.
    destruct (N.compare_spec b2 a2); destruct (N.compare_spec a2 b2);
      (split; [f_equal; f_equal; lia|]; split; [done|]; intros _; f_equal; f_equal; lia).
  - by rewrite !bool_decide_eq_false_2 by done.
Qed.

Lemma version_roundtrip_witness :
  ProtocolVersion.from_str (ProtocolVersion.to_string (mkVersion 1 65535)) = Ok (mkVersion 1 65535).
Proof. apply (version_roundtrip (mkVersion 1 65535)); done. Defined.
