(* ===== verification/ProtocolParser.v ===== *)
(** The message parser, [src/pirc-protocol/src/parser.rs], and its agreement with
    the printer.

    A byte search for an ASCII byte finds a char, since UTF-8 encodes every other
    char in bytes above 127; [find_byte] followed by the two slices around the
    position is [split_once]. *)

From S2P Require Import Prelude.
From S2P Require Import IrcTypes.
From S2P Require Import Protocol.
Import Message.

Definition MAX_MESSAGE_LEN : nat := 512.

Definition cr : char := 13.
Definition lf : char := 10.
Definition crlf : str := [cr; lf].

(** The line without a trailing [\r\n] or [\n]. *)
Definition strip_eol (s : str) : str :=
  if decide (suffix crlf s) then take (length s - 2) s
  else if decide (suffix [lf] s) then take (length s - 1) s
  else s.

Definition is_blank (line : str) : bool :=
  forallb (λ c, bool_decide (c = space) || bool_decide (c = 9%N)) line.

Fixpoint skip_spaces (s : str) : str :=
  match s with
  | [] => []
  | c :: s' => if decide (c = space) then skip_spaces s' else s
  end.

(** The next token and what follows the space after it. *)
Definition split_token (s : str) : str * str := default (s, []) (split_once space s).

Definition is_pirc_namespace (s : str) : bool :=
  match match_str s [("CLUSTER", tt); ("P2P", tt); ("INVITE-KEY", tt); ("NETWORK", tt); ("GROUP", tt)] with
  | Some _ => true
  | None => false
  end.

Definition parse_prefix (s : str) : result ProtocolError Prefix :=
  if decide (s = []) then Err (InvalidPrefix (lit "empty prefix")) else
  match split_once 33 s with
  | Some (nick_str, after_bang) =>
      halves <-? ok_or (split_once 64 after_bang)
        (InvalidPrefix (lit "missing '@' in user prefix: " ++ s));
      let '(user, host) := halves in
      if decide (user = []) then Err (InvalidPrefix (lit "empty user in prefix: " ++ s)) else
      if decide (host = []) then Err (InvalidPrefix (lit "empty host in prefix: " ++ s)) else
      nick <-? map_err (λ e, InvalidNickname (NicknameError_to_string e)) (Nickname.new nick_str);
      Ok (UserPrefix nick user host)
  | None => Ok (Server s)
  end.

(** The loop over the parameters.  Every iteration that continues consumes a
    char, so the length of the input is enough fuel. *)
Fixpoint params_loop (fuel : nat) (rest : str) (ps : list str) : list str :=
  match fuel, rest with
  | S fuel', c :: after =>
      if decide (c = colon) then ps ++ [after] else
      let '(param, remainder) := split_token rest in
      let ps' := if decide (param = []) then ps else ps ++ [param] in
      if decide (length ps' = MAX_PARAMS - 1 ∧ remainder ≠ []) then ps' ++ [remainder]
      else params_loop fuel' remainder ps'
  | _, _ => ps
  end.

Definition parse_params (input : str) : result ProtocolError (list str) :=
  if decide (input = []) then Ok [] else
  let ps := params_loop (length input) input [] in
  if decide (MAX_PARAMS < length ps) then Err (TooManyParams (length ps) MAX_PARAMS) else Ok ps.

Definition parse_pirc_command (pre : option Prefix) (remainder0 : str) : result ProtocolError Message :=
  let remainder := skip_spaces remainder0 in
  if decide (remainder = []) then Err (UnknownCommand (lit "PIRC (missing subcommand)")) else
  let '(sub_str, after_sub0) := split_token remainder in
  if is_pirc_namespace sub_str then
    let after_sub := skip_spaces after_sub0 in
    if decide (after_sub = [])
    then Err (UnknownCommand (lit "PIRC " ++ sub_str ++ lit " (missing subcommand)")) else
    let '(inner_str, params_str) := split_token after_sub in
    sub <-? ok_or (PircSubcommand.from_namespace sub_str inner_str)
      (UnknownCommand (lit "PIRC " ++ sub_str ++ lit " " ++ inner_str));
    ps <-? parse_params params_str;
    Ok (mkMessage pre (Pirc sub) ps)
  else
    sub <-? ok_or (PircSubcommand.from_keyword sub_str) (UnknownCommand (lit "PIRC " ++ sub_str));
    ps <-? parse_params after_sub0;
    Ok (mkMessage pre (Pirc sub) ps).

(** The optional prefix and what follows it. *)
Definition take_prefix (line : str) : result ProtocolError (option Prefix * str) :=
  match line with
  | c :: rest =>
      if decide (c = colon) then
        halves <-? ok_or (split_once space rest) MissingCommand;
        let '(prefix_str, rest') := halves in
        p <-? parse_prefix prefix_str;
        Ok (Some p, rest')
      else Ok (None, line)
  | [] => Ok (None, line)
  end.

Definition parse (input : str) : result ProtocolError Message :=
  if decide (MAX_MESSAGE_LEN < str_len input)
  then Err (MessageTooLong (str_len input) MAX_MESSAGE_LEN) else
  let line := strip_eol input in
  if is_blank line then Err EmptyMessage else
  pr <-? take_prefix line;
  let '(pre, rest0) := pr in
  let rest := skip_spaces rest0 in
  if decide (rest = []) then Err MissingCommand else
  let '(cmd_str, remainder) := split_token rest in
  if decide (cmd_str = lit "PIRC") then parse_pirc_command pre remainder else
  cmd <-? ok_or (Command.from_keyword cmd_str) (UnknownCommand cmd_str);
  ps <-? parse_params remainder;
  Ok (mkMessage pre cmd ps).

(** ** What can be printed *)

Definition wf_prefix (p : Prefix) : Prop :=
  match p with
  | Server name => name ≠ [] ∧ (space ∉ name) ∧ (33%N ∉ name)
  | UserPrefix nick user host =>
      Nickname.new (nick_str nick) = Ok nick ∧
      user ≠ [] ∧ (space ∉ user) ∧ (64%N ∉ user) ∧ host ≠ [] ∧ (space ∉ host)
  end.

(** At most 15 parameters; all but the last are plain tokens. *)
Definition wf_params (ps : list str) : Prop :=
  length ps ≤ MAX_PARAMS ∧
  ∀ i p, ps !! i = Some p → S i < length ps → needs_colon p = false.

Record wf_message (m : Message) : Prop := mk_wf_message {
  wf_message_prefix : ∀ p, prefix m = Some p → wf_prefix p;
  wf_message_command : wire_command (command m);
  wf_message_params : wf_params (params m);
}.

(** A 15th parameter has to be a plain token, too. *)
Definition printable (m : Message) : Prop :=
  wf_message m ∧ ∀ p, params m !! (MAX_PARAMS - 1) = Some p → needs_colon p = false.

(** ** Parsing parameters *)

Lemma needs_colon_false (p : str) :
  needs_colon p = false ↔ p ≠ [] ∧ (space ∉ p) ∧ starts_with colon p = false.
Proof.
  unfold needs_colon. rewrite !orb_false_iff, !bool_decide_eq_false. tauto.
Qed.

Lemma split_token_space (a b : str) : space ∉ a → split_token (a ++ space :: b) = (a, b).
Proof. intros H. unfold split_token. by rewrite split_once_app. Qed.

Lemma split_token_end (a : str) : space ∉ a → split_token a = (a, []).
Proof. intros H. unfold split_token. by rewrite split_once_None. Qed.

(** What a token split yields. *)
Lemma split_token_inv (s a b : str) :
  split_token s = (a, b) → (space ∉ a) ∧ (s = a ++ space :: b ∨ (s = a ∧ b = [])).
Proof.
  unfold split_token. destruct (split_once space s) as [[a' b']|] eqn:E; simpl; intros [= <- <-].
  - apply split_once_Some in E as [-> ?]. auto.
  - apply split_once_None_inv in E. auto.
Qed.

Lemma split_token_shorter (s a b : str) : split_token s = (a, b) → s ≠ [] → length b < length s.
Proof.
  intros [_ [->|[-> ->]]]%split_token_inv Hne.
  - rewrite length_app. simpl. lia.
  - destruct a; simpl; [done|lia].
Qed.

(** [format_params] without the leading space. *)
Definition join_params (ps : list str) : str := drop 1 (format_params ps).

Lemma format_params_join (ps : list str) :
  ps ≠ [] → format_params ps = space :: join_params ps.
Proof.
  destruct ps as [|p [|q ps]]; intros H; [done| |done].
  unfold join_params. simpl. unfold format_last. by case_match.
Qed.

Lemma join_params_single (p : str) :
  join_params [p] = if needs_colon p then colon :: p else p.
Proof. unfold join_params. simpl. unfold format_last. by case_match. Qed.

Lemma join_params_cons (p q : str) (ps : list str) :
  join_params (p :: q :: ps) = p ++ space :: join_params (q :: ps).
Proof.
  unfold join_params at 1. cbn [format_params drop]. f_equal.
  by rewrite <- format_params_join.
Qed.

Lemma join_params_nonempty (ps : list str) : ps ≠ [] → join_params ps ≠ [].
Proof.
  destruct ps as [|p [|q ps]]; intros H; [done| |].
  - rewrite join_params_single. destruct (needs_colon p) eqn:E; [done|].
    by apply needs_colon_false in E as [? _].
  - rewrite join_params_cons. by destruct p.
Qed.

(** The first char of a plain token is neither a space nor a colon. *)
Lemma plain_head (p : str) :
  needs_colon p = false → ∃ c r, p = c :: r ∧ c ≠ colon ∧ c ≠ space.
Proof.
  intros (Hne & Hsp & Hc)%needs_colon_false. destruct p as [|c r]; [done|].
  exists c, r. split; [done|]. simpl in Hc. apply bool_decide_eq_false in Hc. set_solver.
Qed.

(** One iteration on a plain token. *)
Lemma params_loop_token (fuel : nat) (p tail rest : str) acc :
  needs_colon p = false → rest = p ∧ tail = [] ∨ rest = p ++ space :: tail →
  params_loop (S fuel) rest acc =
    if decide (length (acc ++ [p]) = MAX_PARAMS - 1 ∧ tail ≠ []) then (acc ++ [p]) ++ [tail]
    else params_loop fuel tail (acc ++ [p]).
Proof.
  intros Hp Hrest. destruct (plain_head p Hp) as (c & r & -> & Hc & Hs).
  pose proof Hp as (Hne & Hsp & _)%needs_colon_false.
  assert (split_token rest = (c :: r, tail) ∧ ∃ r', rest = c :: r') as [Hsplit [r' Hr]].
  { destruct Hrest as [[-> ->]| ->].
    - split; [by apply split_token_end|eauto].
    - split; [by apply split_token_space|eauto]. }
  rewrite Hr. cbn [params_loop]. rewrite decide_False by done. rewrite <- Hr, Hsplit.
  by rewrite (decide_False (P := c :: r = [])) by done.
Qed.

Lemma params_loop_nil (fuel : nat) acc : params_loop fuel [] acc = acc.
Proof. by destruct fuel. Qed.

(** What the parser makes of printed parameters that follow [n] others: a 15th
    one is taken as it is printed, every other one comes back. *)
Fixpoint reparsed (n : nat) (ps : list str) : list str :=
  match ps with
  | [] => []
  | [p] => [if decide (n = MAX_PARAMS - 1) then join_params [p] else p]
  | p :: ps' => p :: reparsed (S n) ps'
  end.

Lemma reparsed_length (n : nat) (ps : list str) : length (reparsed n ps) = length ps.
Proof.
  revert n. induction ps as [|p [|q ps] IH]; intros n; [done..|].
  cbn [reparsed length] in *. by rewrite IH.
Qed.

Lemma reparsed_plain (n : nat) (ps : list str) :
  (∀ i p, ps !! i = Some p → n + i = MAX_PARAMS - 1 → needs_colon p = false) → reparsed n ps = ps.
Proof.
  revert n. induction ps as [|p [|q ps] IH]; intros n Hp; [done| |].
  - cbn [reparsed]. case_decide; [|done]. rewrite join_params_single.
    by rewrite (Hp 0 p eq_refl) by lia.
  - cbn [reparsed] in *. f_equal. apply IH. intros i x Hx Hi. apply (Hp (S i) x Hx). lia.
Qed.

Lemma reparsed_snoc (n : nat) (ps : list str) (p : str) :
  n + length ps = MAX_PARAMS - 1 → reparsed n (ps ++ [p]) = ps ++ [join_params [p]].
Proof.
  revert n. induction ps as [|x ps IH]; intros n Hn.
  - simpl app. cbn [reparsed]. rewrite decide_True; [done|]. cbn [length] in Hn. lia.
  - specialize (IH (S n) ltac:(cbn [length] in Hn; lia)).
    destruct ps as [|y ps]; cbn [app reparsed] in *; by rewrite IH.
Qed.

Lemma params_loop_join (ps : list str) (fuel : nat) acc :
  ps ≠ [] → length (join_params ps) ≤ fuel → length acc + length ps ≤ MAX_PARAMS →
  length acc < MAX_PARAMS - 1 →
  (∀ i p, ps !! i = Some p → S i < length ps → needs_colon p = false) →
  params_loop fuel (join_params ps) acc = acc ++ reparsed (length acc) ps.
Proof.
  revert fuel acc. induction ps as [|p ps IH]; intros fuel acc Hne Hf Hl Ha Hp; [done|].
  pose proof (join_params_nonempty (p :: ps) Hne) as Hnn.
  destruct fuel as [|fuel]; [destruct (join_params (p :: ps)); [done|simpl in *; lia]|].
  destruct ps as [|q ps].
  - cbn [reparsed]. rewrite decide_False by lia.
    rewrite join_params_single in *. destruct (needs_colon p) eqn:E.
    + cbn [params_loop]. by rewrite decide_True.
    + rewrite (params_loop_token _ p []) by auto. rewrite decide_False by naive_solver.
      by rewrite params_loop_nil.
  - pose proof (Hp 0 p eq_refl ltac:(simpl; lia)) as Hpp.
    rewrite join_params_cons in *. rewrite (params_loop_token _ p (join_params (q :: ps))) by auto.
    assert (∀ tl, (acc ++ [p]) ++ tl = acc ++ p :: tl) as Happ by (intros tl; by rewrite <- app_assoc).
    change (reparsed (length acc) (p :: q :: ps)) with (p :: reparsed (S (length acc)) (q :: ps)).
    case_decide as Hd.
    + destruct Hd as [Hd _]. rewrite length_app in Hd. simpl in Hd, Hl.
      assert (ps = []) as -> by (destruct ps; [done|]; unfold MAX_PARAMS in *; simpl in *; lia).
      cbn [reparsed]. rewrite decide_True by (unfold MAX_PARAMS in *; lia). apply Happ.
    + rewrite <- (Happ (reparsed _ _)). replace (S (length acc)) with (length (acc ++ [p])) by (rewrite length_app; simpl; lia).
      apply IH; [done|..].
      * rewrite length_app in Hf. simpl in Hf. lia.
      * rewrite length_app. simpl in *. lia.
      * rewrite length_app in *. simpl. destruct (decide (length acc + 1 = MAX_PARAMS - 1)); [|unfold MAX_PARAMS in *; lia].
        exfalso. apply Hd. split; [done|]. by apply join_params_nonempty.
      * intros i x Hx Hi. apply (Hp (S i) x Hx). simpl in *. lia.
Qed.

Lemma parse_params_join (ps : list str) :
  wf_params ps → parse_params (join_params ps) = Ok (reparsed 0 ps).
Proof.
  intros [Hl Hp]. unfold parse_params. destruct ps as [|p ps]; [done|].
  rewrite decide_False by by apply join_params_nonempty.
  rewrite (params_loop_join (p :: ps) _ []); try done.
  - rewrite app_nil_l, reparsed_length. by rewrite decide_False by (simpl in *; lia).
  - unfold MAX_PARAMS. simpl. lia.
Qed.

(** ** Parsing what is printed *)

Lemma skip_spaces_head (c : char) (r : str) : c ≠ space → skip_spaces (c :: r) = c :: r.
Proof. intros H. simpl. by rewrite decide_False. Qed.

(** A printed token followed by printed parameters. *)
Lemma split_token_params (a : str) (ps : list str) :
  space ∉ a → split_token (a ++ format_params ps) = (a, join_params ps).
Proof.
  intros H. destruct ps as [|p ps].
  - unfold join_params. simpl. rewrite app_nil_r. by apply split_token_end.
  - rewrite format_params_join by done. by apply split_token_space.
Qed.

(** A word of the wire format: no space in it, and a first char that is no
    colon and no blank. *)
Definition is_word (s : str) : bool :=
  match s with
  | x :: _ => bool_decide (x ≠ colon) && bool_decide (x ≠ 9%N) && bool_decide (space ∉ s)
  | [] => false
  end.

Lemma is_word_spec (s : str) :
  is_word s = true → (space ∉ s) ∧ ∃ x r, s = x :: r ∧ x ≠ space ∧ x ≠ colon ∧ x ≠ 9%N.
Proof.
  destruct s as [|x r]; [done|]. unfold is_word.
  rewrite !andb_true_iff, !bool_decide_eq_true. intros [[H1 H2] H3]. split; [done|].
  exists x, r. split; [done|]. apply not_elem_of_cons in H3 as [H3 _]. auto.
Qed.

Lemma digits_word (s : str) : s ≠ [] → Forall (λ c, is_ascii_digit c = true) s → is_word s = true.
Proof.
  intros Hne HF. destruct s as [|x r]; [done|]. unfold is_word.
  rewrite Forall_forall in HF. assert (is_ascii_digit x = true) as Hx by (apply HF; by left).
  unfold is_ascii_digit in Hx. rewrite bool_decide_eq_true in Hx.
  rewrite !andb_true_iff, !bool_decide_eq_true. unfold space, colon.
  split; [split; lia|]. intros Hin%HF. by vm_compute in Hin.
Qed.

Lemma command_word (c : Command) : is_word (Command.as_str c) = true.
Proof.
  destruct c; lazymatch goal with
    | |- context [Numeric _] => idtac
    | _ => vm_compute; reflexivity
    end.
  destruct (dec_digits code) as [Hne HF]. unfold Command.as_str, Command.pad3. simpl.
  apply digits_word.
  - by destruct (dec code), (replicate _ _).
  - apply Forall_app. split; [by apply Forall_replicate|done].
Qed.

(** A namespaced subcommand is printed as two words that parse back; a flat one
    as one word. *)
Definition sub_words_ok (sub : PircSubcommand) : bool :=
  if PircSubcommand.is_namespaced sub then
    match split_once space (lit (PircSubcommand.as_str sub)) with
    | Some (ns, inner) =>
        is_word ns && is_word inner && is_pirc_namespace ns &&
        bool_decide (PircSubcommand.from_namespace ns inner = Some sub)
    | None => false
    end
  else
    is_word (lit (PircSubcommand.as_str sub)) &&
    negb (is_pirc_namespace (lit (PircSubcommand.as_str sub))) &&
    bool_decide (PircSubcommand.from_keyword (lit (PircSubcommand.as_str sub)) = Some sub).

Lemma sub_words (sub : PircSubcommand) : sub_words_ok sub = true.
Proof. destruct sub; vm_compute; reflexivity. Qed.

(** Skipping spaces in front of a word, and cutting it off. *)
Lemma take_word (w tail : str) :
  is_word w = true →
  skip_spaces (w ++ tail) = w ++ tail ∧ w ++ tail ≠ [] ∧
  split_token (w ++ space :: tail) = (w, tail) ∧
  (∀ ps, split_token (w ++ format_params ps) = (w, join_params ps)).
Proof.
  intros (Hs & x & r & E & Hx & _)%is_word_spec. split.
  { rewrite E. cbn [app]. by rewrite skip_spaces_head. }
  split; [by rewrite E|]. split; [by apply split_token_space|]. intros ps. by apply split_token_params.
Qed.

Lemma parse_pirc_printed (pre : option Prefix) (sub : PircSubcommand) (ps ps' : list str) :
  parse_params (join_params ps) = Ok ps' →
  parse_pirc_command pre (lit (PircSubcommand.as_str sub) ++ format_params ps)
    = Ok (mkMessage pre (Pirc sub) ps').
Proof.
  intros Hps. unfold parse_pirc_command. pose proof (sub_words sub) as H. unfold sub_words_ok in H.
  destruct (PircSubcommand.is_namespaced sub).
  - destruct (split_once space _) as [[ns inner]|] eqn:E; [|done].
    apply split_once_Some in E as [-> _]. rewrite !andb_true_iff, bool_decide_eq_true in H.
    destruct H as [[[W1 W2] Hns] Hfrom]. rewrite <- app_assoc. cbn [app].
    destruct (take_word ns (space :: inner ++ format_params ps) W1) as (-> & Hne & _).
    rewrite decide_False by done.
    destruct (take_word ns (inner ++ format_params ps) W1) as (_ & _ & -> & _).
    rewrite Hns. destruct (take_word inner (format_params ps) W2) as (-> & Hne' & _ & Ht).
    rewrite decide_False by done. rewrite Ht, Hfrom. cbn [ok_or result_bind]. by rewrite Hps.
  - rewrite !andb_true_iff, negb_true_iff, bool_decide_eq_true in H. destruct H as [[W Hns] Hfrom].
    destruct (take_word _ (format_params ps) W) as (-> & Hne & _ & Ht).
    rewrite decide_False by done. rewrite Ht, Hns, Hfrom. cbn [ok_or result_bind]. by rewrite Hps.
Qed.

(** The prefix comes back. *)
Lemma parse_prefix_printed (p : Prefix) :
  wf_prefix p → parse_prefix (Prefix_to_string p) = Ok p ∧ (space ∉ Prefix_to_string p) ∧
    Prefix_to_string p ≠ [].
Proof.
  destruct p as [name|nick user host]; simpl.
  - intros (Hne & Hs & Hb). split; [|done]. unfold parse_prefix. rewrite decide_False by done.
    by rewrite split_once_None.
  - intros (Hn & Hu & Hus & Hua & Hh & Hhs). destruct (nickname_chars _ _ Hn) as [Hnn HF].
    rewrite Forall_forall in HF.
    assert (33%N ∉ nick_str nick) as Hb by (intros Hin%HF; by vm_compute in Hin).
    assert (space ∉ nick_str nick) as Hsp by (intros Hin%HF; by vm_compute in Hin).
    change (nick_str nick ++ lit "!" ++ user ++ lit "@" ++ host)
      with (nick_str nick ++ 33%N :: (user ++ 64%N :: host)).
    split.
    + unfold parse_prefix. rewrite decide_False by by destruct (nick_str nick).
      rewrite split_once_app, split_once_app by done. cbn [ok_or result_bind].
      rewrite !decide_False by done. rewrite Hn. done.
    + split; [|by destruct (nick_str nick)].
      rewrite !elem_of_app, !elem_of_cons, elem_of_app, elem_of_cons. unfold space in *. naive_solver.
Qed.

(** The whole line, without its end. *)
Definition parse_line (line : str) : result ProtocolError Message :=
  if is_blank line then Err EmptyMessage else
  pr <-? take_prefix line;
  let '(pre, rest0) := pr in
  let rest := skip_spaces rest0 in
  if decide (rest = []) then Err MissingCommand else
  let '(cmd_str, remainder) := split_token rest in
  if decide (cmd_str = lit "PIRC") then parse_pirc_command pre remainder else
  cmd <-? ok_or (Command.from_keyword cmd_str) (UnknownCommand cmd_str);
  ps <-? parse_params remainder;
  Ok (mkMessage pre cmd ps).

Lemma parse_unfold (input : str) :
  parse input = if decide (MAX_MESSAGE_LEN < str_len input)
    then Err (MessageTooLong (str_len input) MAX_MESSAGE_LEN) else parse_line (strip_eol input).
Proof. done. Qed.

(** The part of a printed message after the prefix. *)
Definition body (m : Message) : str :=
  Command.as_str (command m) ++
  match command m with Pirc sub => space :: lit (PircSubcommand.as_str sub) | _ => [] end ++
  format_params (params m).

Lemma is_blank_false (line : str) (x : char) :
  x ∈ line → x ≠ space → x ≠ 9%N → is_blank line = false.
Proof.
  intros Hin H1 H2. apply not_true_is_false. unfold is_blank. rewrite forallb_forall.
  intros H. apply list_elem_of_In, H in Hin. by rewrite orb_true_iff, !bool_decide_eq_true in Hin; naive_solver.
Qed.

Lemma parse_line_body (pre : option Prefix) (line : str) (m : Message) (ps : list str) :
  take_prefix line = Ok (pre, body m) → is_blank line = false → prefix m = pre →
  wire_command (command m) → parse_params (join_params (params m)) = Ok ps →
  parse_line line = Ok (mkMessage pre (command m) ps).
Proof.
  intros Ht Hb Hpre Hc Hps. unfold parse_line. rewrite Hb, Ht. cbn [result_bind]. unfold body.
  pose proof (command_word (command m)) as W.
  destruct (take_word _ (match command m with Pirc sub => space :: lit (PircSubcommand.as_str sub) | _ => [] end
    ++ format_params (params m)) W) as (-> & Hne & _).
  rewrite decide_False by done. pose proof (command_print_parse _ Hc) as Hfrom.
  destruct m as [mp mc mps]. simpl in *. subst mp.
  assert ((∃ sub, mc = Pirc sub) ∨ ∀ sub, mc ≠ Pirc sub) as [[sub ->]|Hnp]
    by (destruct mc; naive_solver).
  - cbn [app]. destruct (take_word _ (lit (PircSubcommand.as_str sub) ++ format_params mps) W)
      as (_ & _ & -> & _).
    rewrite decide_True by done. by apply parse_pirc_printed.
  - assert (Command.from_keyword (Command.as_str mc) = Some mc) as Hf by (destruct mc; naive_solver).
    replace (match mc with Pirc sub => space :: lit (PircSubcommand.as_str sub) | _ => [] end)
      with (@nil N) by (destruct mc; naive_solver).
    cbn [app]. destruct (take_word _ [] W) as (_ & _ & _ & ->).
    rewrite decide_False by (intros E; rewrite E in Hf; by vm_compute in Hf).
    rewrite Hf. cbn [ok_or result_bind]. by rewrite Hps.
Qed.

Lemma parse_line_to_string (m : Message) :
  wf_message m →
  parse_line (to_string m) = Ok (mkMessage (prefix m) (command m) (reparsed 0 (params m))).
Proof.
  intros [Hp Hc Hps]. pose proof (parse_params_join _ Hps) as Hpar.
  destruct (is_word_spec _ (command_word (command m))) as (_ & x & r & Ex & Hx1 & Hx2 & Hx3).
  destruct (prefix m) as [p|] eqn:Hpre.
  - destruct (parse_prefix_printed p (Hp p eq_refl)) as (Hpp & Hsp & Hne).
    assert (to_string m = colon :: Prefix_to_string p ++ space :: body m) as E.
    { unfold to_string. rewrite Hpre. cbn [app]. by rewrite <- app_assoc. }
    rewrite E. apply parse_line_body; try done.
    unfold take_prefix. rewrite decide_True by done. rewrite split_once_app by done.
    cbn [ok_or result_bind]. by rewrite Hpp.
  - assert (to_string m = body m) as E by (unfold to_string; by rewrite Hpre).
    rewrite E. apply parse_line_body; try done.
    + unfold body. rewrite Ex. cbn [app take_prefix]. by rewrite decide_False.
    + apply (is_blank_false _ x); [|done|done]. unfold body. rewrite Ex. by left.
Qed.

Lemma parse_line_printed (m : Message) : printable m → parse_line (to_string m) = Ok m.
Proof.
  intros [Hm H15]. rewrite parse_line_to_string by done. rewrite reparsed_plain; [by destruct m|].
  intros i p Hp Hi. apply H15. change (0 + i) with i in Hi. by rewrite <- Hi.
Qed.

Lemma strip_eol_crlf (s : str) : strip_eol (s ++ crlf) = s.
Proof.
  unfold strip_eol. rewrite decide_True by by exists s.
  rewrite length_app. replace (length s + length crlf - 2) with (length s) by (simpl; lia).
  apply take_app_length.
Qed.

Lemma strip_eol_none (s : str) : last s ≠ Some lf → strip_eol s = s.
Proof.
  intros H. unfold strip_eol. rewrite !decide_False; [done|..].
  - intros [k ->]. by rewrite last_snoc in H.
  - intros [k ->]. unfold crlf in H. by rewrite last_app in H.
Qed.

(** C9. Printing then parsing is the identity: every message with a well-formed
    prefix, a command the wire can carry, at most 15 parameters of which all but
    the last (and the 15th) are plain tokens, and a total length within 512
    bytes, is parsed back exactly; with the line terminator whatever its last
    parameter ends in, and without it unless that is a line feed. *)
Theorem parse_print_roundtrip (m : Message) :
  printable m →
  (str_len (to_string m ++ crlf) ≤ MAX_MESSAGE_LEN → parse (to_string m ++ crlf) = Ok m) ∧
  (str_len (to_string m) ≤ MAX_MESSAGE_LEN → last (to_string m) ≠ Some lf →
   parse (to_string m) = Ok m).
Proof.
  intros Hm. split.
  - intros Hl. rewrite parse_unfold, decide_False by lia. rewrite strip_eol_crlf.
    by apply parse_line_printed.
  - intros Hl Hlf. rewrite parse_unfold, decide_False by lia. rewrite strip_eol_none by done.
    by apply parse_line_printed.
Qed.

(** ** What the parser produces *)

Lemma wf_params_plain (acc : list str) :
  Forall (λ p, needs_colon p = false) acc → length acc ≤ MAX_PARAMS → wf_params acc.
Proof.
  intros HF Hl. split; [done|]. intros i p Hp _. rewrite Forall_forall in HF.
  apply HF. by eapply list_elem_of_lookup_2.
Qed.

Lemma wf_params_snoc (acc : list str) (x : str) :
  Forall (λ p, needs_colon p = false) acc → length acc < MAX_PARAMS → wf_params (acc ++ [x]).
Proof.
  intros HF Hl. split; [rewrite length_app; simpl; lia|]. intros i p Hp Hi.
  rewrite length_app in Hi. simpl in Hi. rewrite lookup_app_l in Hp by lia.
  rewrite Forall_forall in HF. apply HF. by eapply list_elem_of_lookup_2.
Qed.

(** The token cut off by the loop is plain, unless it is empty. *)
Lemma token_plain (c : char) (after param remainder : str) :
  c ≠ colon → split_token (c :: after) = (param, remainder) → param ≠ [] → needs_colon param = false.
Proof.
  intros Hc [Hs H]%split_token_inv Hne. apply needs_colon_false. split; [done|]. split; [done|].
  destruct param as [|x p]; [done|]. simpl. apply bool_decide_eq_false.
  destruct H as [[= <- _]|[[= <- _] _]]; done.
Qed.

Lemma params_loop_wf (fuel : nat) (rest : str) acc :
  Forall (λ p, needs_colon p = false) acc →
  length acc < MAX_PARAMS - 1 ∨ (length acc < MAX_PARAMS ∧ rest = []) →
  wf_params (params_loop fuel rest acc).
Proof.
  revert rest acc. induction fuel as [|fuel IH]; intros rest acc HF Hl; cbn [params_loop].
  { apply wf_params_plain; [done|]. destruct Hl as [|[]]; lia. }
  destruct rest as [|c after]; [apply wf_params_plain; [done|]; destruct Hl as [|[]]; lia|].
  destruct Hl as [Hl|[_ ?]]; [|done]. case_decide as Hc.
  { apply wf_params_snoc; [done|lia]. }
  destruct (split_token (c :: after)) as [param remainder] eqn:E.
  set (ps' := if decide (param = []) then acc else acc ++ [param]).
  assert (Forall (λ p, needs_colon p = false) ps' ∧ length ps' ≤ MAX_PARAMS - 1) as [HF' Hl'].
  { subst ps'. case_decide; [split; [done|lia]|]. split.
    - apply Forall_app. split; [done|]. constructor; [|done]. by eapply token_plain.
    - rewrite length_app. cbn [length]. lia. }
  case_decide as Hd.
  - apply wf_params_snoc; [done|]. unfold MAX_PARAMS in *. lia.
  - apply IH; [done|]. destruct (decide (remainder = [])) as [->|Hr].
    + right. split; [unfold MAX_PARAMS in *; lia|done].
    + left. destruct (decide (length ps' = MAX_PARAMS - 1)); [by destruct Hd|lia].
Qed.

(** The fuel is never used up: more of it does not change the result. *)
Lemma params_loop_fuel (fuel fuel' : nat) (rest : str) acc :
  length rest ≤ fuel → length rest ≤ fuel' → params_loop fuel rest acc = params_loop fuel' rest acc.
Proof.
  revert fuel' rest acc. induction fuel as [|fuel IH]; intros fuel' rest acc H1 H2.
  { destruct rest; simpl in *; [|lia]. by rewrite params_loop_nil. }
  destruct rest as [|c after]; [by rewrite !params_loop_nil|].
  destruct fuel' as [|fuel']; [simpl in *; lia|]. cbn [params_loop]. case_decide; [done|].
  destruct (split_token (c :: after)) as [param remainder] eqn:E. case_decide; [done|].
  apply split_token_shorter in E; [|done]. simpl in *. apply IH; lia.
Qed.

Lemma parse_params_total (s : str) : ∃ ps, parse_params s = Ok ps ∧ wf_params ps.
Proof.
  unfold parse_params. case_decide; [exists []; by split; [|apply wf_params_plain; [done|simpl; lia]]|].
  assert (wf_params (params_loop (length s) s [])) as Hw.
  { apply params_loop_wf; [done|]. left. unfold MAX_PARAMS. simpl. lia. }
  eexists. split; [|exact Hw]. destruct Hw as [Hl _]. by rewrite decide_False by lia.
Qed.

Lemma parse_prefix_wf (s : str) (p : Prefix) : space ∉ s → parse_prefix s = Ok p → wf_prefix p.
Proof.
  intros Hs. unfold parse_prefix. case_decide as Hne; [done|].
  destruct (split_once 33 s) as [[nick after]|] eqn:Eb.
  2:{ intros [= <-]. simpl. by apply split_once_None_inv in Eb. }
  apply split_once_Some in Eb as [-> _].
  destruct (split_once 64 after) as [[user host]|] eqn:Ea; [|done]. cbn [ok_or result_bind].
  apply split_once_Some in Ea as [-> Hat].
  case_decide as Hu; [done|]. case_decide as Hh; [done|].
  destruct (Nickname.new nick) as [n|e] eqn:En; cbn [map_err result_bind]; [|done].
  intros [= <-]. simpl. assert (nick_str n = nick) as -> by (by apply nickname_new_ok in En as [? _]).
  rewrite elem_of_app, elem_of_cons, elem_of_app, elem_of_cons in Hs. naive_solver.
Qed.

Lemma take_prefix_wf (line rest : str) (pre : option Prefix) (p : Prefix) :
  take_prefix line = Ok (pre, rest) → pre = Some p → wf_prefix p.
Proof.
  intros H ->. unfold take_prefix in H. destruct line as [|c line]; [done|]. case_decide; [|done].
  destruct (split_once space line) as [[a b]|] eqn:E; [|done]. cbn [ok_or result_bind] in H.
  apply split_once_Some in E as [_ Hs].
  destruct (parse_prefix a) as [q|] eqn:Ep; [|done]. simplify_eq/=. by eapply parse_prefix_wf.
Qed.

Lemma parse_pirc_result (pre : option Prefix) (s : str) :
  match parse_pirc_command pre s with
  | Ok m => prefix m = pre ∧ wire_command (command m) ∧ wf_params (params m)
  | Err e => ∃ t, e = UnknownCommand t
  end.
Proof.
  unfold parse_pirc_command. case_decide; [eauto|].
  destruct (split_token (skip_spaces s)) as [sub after]. destruct (is_pirc_namespace sub).
  - case_decide; [eauto|]. destruct (split_token (skip_spaces after)) as [inner ps].
    destruct (PircSubcommand.from_namespace sub inner); cbn [ok_or result_bind]; [|eauto].
    destruct (parse_params_total ps) as (l & -> & Hw). cbn [result_bind]. split; [done|by split].
  - destruct (PircSubcommand.from_keyword sub); cbn [ok_or result_bind]; [|eauto].
    destruct (parse_params_total after) as (l & -> & Hw). cbn [result_bind]. split; [done|by split].
Qed.

(** The line has nothing where its command should be: it is a prefix without a
    space after it, or a valid prefix with only spaces after it. *)
Definition no_command (line : str) : Prop :=
  (∃ p, line = colon :: p ∧ space ∉ p) ∨
  (∃ p pre k, line = colon :: p ++ space :: replicate k space ∧ (space ∉ p) ∧ parse_prefix p = Ok pre).

(** The line starts with a prefix that [parse_prefix] rejects with [e]. *)
Definition bad_prefix (line : str) (e : ProtocolError) : Prop :=
  ∃ p rest, line = colon :: p ++ space :: rest ∧ (space ∉ p) ∧ parse_prefix p = Err e.

Definition blank (line : str) : Prop := Forall (λ c, c = space ∨ c = 9%N) line.

Lemma is_blank_spec (line : str) : is_blank line = true ↔ blank line.
Proof.
  unfold is_blank, blank. rewrite forallb_forall, Forall_forall.
  setoid_rewrite orb_true_iff. setoid_rewrite bool_decide_eq_true.
  by setoid_rewrite list_elem_of_In.
Qed.

Lemma skip_spaces_nil (s : str) : skip_spaces s = [] ↔ ∃ k, s = replicate k space.
Proof.
  split.
  - induction s as [|c s IH]; [by exists 0|]. simpl. case_decide as Hc; [|done]. subst c.
    intros [k ->]%IH. by exists (S k).
  - intros [k ->]. induction k as [|k IH]; [done|]. exact IH.
Qed.

Lemma replicate_blank (k : nat) : blank (replicate k space).
Proof. apply Forall_replicate. by left. Qed.

(** What the prefix step does with each kind of line. *)
Lemma take_prefix_cases (line : str) :
  (∃ c rest, line = c :: rest ∧ c ≠ colon ∧ take_prefix line = Ok (None, line)) ∨
  (line = [] ∧ take_prefix line = Ok (None, [])) ∨
  (∃ p, line = colon :: p ∧ (space ∉ p) ∧ take_prefix line = Err MissingCommand) ∨
  (∃ p rest, line = colon :: p ++ space :: rest ∧ (space ∉ p) ∧
     take_prefix line = (pre <-? parse_prefix p; Ok (Some pre, rest))).
Proof.
  destruct line as [|c line]; [by right; left|]. cbn [take_prefix]. case_decide as Hc; [subst c|left; eauto].
  right. right. destruct (split_once space line) as [[a b]|] eqn:E.
  - right. apply split_once_Some in E as [-> Hs]. by exists a, b.
  - left. apply split_once_None_inv in E. by exists line.
Qed.

Lemma parse_prefix_error (p : str) (e : ProtocolError) :
  parse_prefix p = Err e → ∃ t, e = InvalidPrefix t ∨ e = InvalidNickname t.
Proof.
  unfold parse_prefix. case_decide; [intros [= <-]; eauto|].
  destruct (split_once 33 p) as [[nick after]|]; [|done].
  destruct (split_once 64 after) as [[user host]|]; cbn [ok_or result_bind]; [|intros [= <-]; eauto].
  case_decide; [intros [= <-]; eauto|]. case_decide; [intros [= <-]; eauto|].
  destruct (Nickname.new nick); cbn [map_err result_bind]; [done|intros [= <-]; eauto].
Qed.

(** After the prefix and the spaces there is a command, and the only error left
    is that it is unknown. *)
Definition parse_command (pre : option Prefix) (rest : str) : result ProtocolError Message :=
  let '(cmd_str, remainder) := split_token rest in
  if decide (cmd_str = lit "PIRC") then parse_pirc_command pre remainder else
  cmd <-? ok_or (Command.from_keyword cmd_str) (UnknownCommand cmd_str);
  ps <-? parse_params remainder;
  Ok (mkMessage pre cmd ps).

Lemma parse_command_result (pre : option Prefix) (s : str) :
  match parse_command pre s with
  | Ok m => prefix m = pre ∧ wire_command (command m) ∧ wf_params (params m)
  | Err e => ∃ t, e = UnknownCommand t
  end.
Proof.
  unfold parse_command. destruct (split_token s) as [cmd after]. case_decide.
  - apply parse_pirc_result.
  - destruct (Command.from_keyword cmd) as [c|] eqn:Ec; cbn [ok_or result_bind]; [|eauto].
    destruct (parse_params_total after) as (l & -> & Hw). cbn [result_bind].
    by apply command_parse_print in Ec as (_ & Hc & _).
Qed.

(** The outcomes of parsing a line that is not blank. *)
Inductive line_outcome (line : str) : result ProtocolError Message → Prop :=
  | outcome_ok m : wf_message m → ¬ no_command line → (∀ e, ¬ bad_prefix line e) →
      line_outcome line (Ok m)
  | outcome_missing : no_command line → line_outcome line (Err MissingCommand)
  | outcome_prefix e : bad_prefix line e → line_outcome line (Err e)
  | outcome_unknown t : ¬ no_command line → (∀ e, ¬ bad_prefix line e) →
      line_outcome line (Err (UnknownCommand t)).

Lemma split_at_space (p p' r r' : str) :
  space ∉ p → space ∉ p' → p ++ space :: r = p' ++ space :: r' → p = p' ∧ r = r'.
Proof.
  intros Hp Hp' E. pose proof (split_token_space p r Hp) as E1. rewrite E in E1.
  rewrite split_token_space in E1 by done. by simplify_eq.
Qed.

(** The rest of the line after an accepted prefix holds a command. *)
Lemma command_outcome (line : str) (pre : option Prefix) (rest : str) :
  (∀ p, pre = Some p → wf_prefix p) → ¬ no_command line → (∀ e, ¬ bad_prefix line e) →
  line_outcome line (parse_command pre rest).
Proof.
  intros Hw Hn Hb. pose proof (parse_command_result pre rest) as H.
  destruct (parse_command pre rest) as [m|e].
  - destruct H as (<- & H1 & H2). by apply outcome_ok.
  - destruct H as [t ->]. by apply outcome_unknown.
Qed.

Lemma parse_line_outcome (line : str) :
  ¬ blank line → line_outcome line (parse_line line).
Proof.
  intros Hb. assert (is_blank line = false) as E by (apply not_true_is_false; by rewrite is_blank_spec).
  unfold parse_line. rewrite E.
  destruct (take_prefix_cases line) as [(c & r & El & Hc & ->)|[[-> _]|[(p & El & Hp & ->)|(p & r & El & Hp & ->)]]].
  - cbn [result_bind]. case_decide as Hs.
    { apply skip_spaces_nil in Hs as [k Hk]. destruct Hb. rewrite Hk. apply replicate_blank. }
    apply command_outcome; [done|..]; subst line;
      [intros [(?&?&?)|(?&?&?&?&?)]|intros e (?&?&?&?)]; congruence.
  - by destruct Hb.
  - apply outcome_missing. left. eauto.
  - subst line. destruct (parse_prefix p) as [pre|e] eqn:Ep; cbn [result_bind].
    2:{ apply outcome_prefix. exists p, r. auto. }
    case_decide as Hs.
    { apply skip_spaces_nil in Hs as [k ->]. apply outcome_missing. right. eauto 6. }
    apply command_outcome.
    + intros q [= <-]. by eapply parse_prefix_wf.
    + intros [(p' & [= <-] & Hp')|(p' & pre' & k & [= E'] & Hp' & _)].
      * rewrite elem_of_app, elem_of_cons in Hp'. naive_solver.
      * apply split_at_space in E' as [_ ->]; [|done..]. apply Hs. apply skip_spaces_nil. eauto.
    + intros e (p' & r' & [= E'] & Hp' & He). apply split_at_space in E' as [<- _]; congruence.
Qed.

Lemma parse_line_wf (line : str) (m : Message) : parse_line line = Ok m → wf_message m.
Proof.
  intros H. destruct (is_blank line) eqn:E; [unfold parse_line in H; by rewrite E in H|].
  assert (¬ blank line) as Hb by (rewrite <- is_blank_spec; congruence).
  pose proof (parse_line_outcome line Hb) as Ho. rewrite H in Ho. by inversion Ho.
Qed.

Lemma parse_outcome (s : str) :
  (MAX_MESSAGE_LEN < str_len s ∧ parse s = Err (MessageTooLong (str_len s) MAX_MESSAGE_LEN)) ∨
  (str_len s ≤ MAX_MESSAGE_LEN ∧ blank (strip_eol s) ∧ parse s = Err EmptyMessage) ∨
  (str_len s ≤ MAX_MESSAGE_LEN ∧ ¬ blank (strip_eol s) ∧ line_outcome (strip_eol s) (parse s)).
Proof.
  rewrite parse_unfold. case_decide as Hl; [by left|]. right. assert (str_len s ≤ MAX_MESSAGE_LEN) by lia.
  destruct (is_blank (strip_eol s)) eqn:Hb.
  - left. split; [done|]. split; [by apply is_blank_spec|]. unfold parse_line. by rewrite Hb.
  - right. assert (¬ blank (strip_eol s)) by (rewrite <- is_blank_spec; congruence).
    split; [done|]. split; [done|]. by apply parse_line_outcome.
Qed.

(** A line that starts with a colon is not blank. *)
Lemma no_command_not_blank (line : str) : no_command line → ¬ blank line.
Proof.
  intros [(p & -> & _)|(p & pre & k & -> & _)]; unfold blank; rewrite Forall_cons; unfold colon, space; naive_solver lia.
Qed.

Lemma bad_prefix_not_blank (line : str) (e : ProtocolError) : bad_prefix line e → ¬ blank line.
Proof.
  intros (p & r & -> & _). unfold blank. rewrite Forall_cons. unfold colon, space. naive_solver lia.
Qed.

Lemma no_command_not_bad_prefix (line : str) (e : ProtocolError) : no_command line → ¬ bad_prefix line e.
Proof.
  intros [(p & -> & Hp)|(p & pre & k & -> & Hp & Hok)] (p' & r & [= E] & Hp' & He).
  - subst p. rewrite elem_of_app, elem_of_cons in Hp. naive_solver.
  - apply split_at_space in E as [<- _]; congruence.
Qed.

(** C10. The parser is total and each of its errors is returned exactly when its
    cause is there, in this order of precedence: the length error for an input of
    more than 512 bytes, whatever it holds; the empty-message error for a line
    within that length of only spaces and tabs; the missing-command error for a
    line that is only a prefix; an error about the prefix when [parse_prefix]
    returns it.  Every other failure is an unknown command: the parameter-count,
    missing-parameter and version errors do not occur.  A message that is returned has a well-formed prefix, a
    command of the wire format and at most 15 parameters of which all but the
    last are plain tokens. *)
Theorem parse_sound (s : str) :
  (∀ n mx, parse s = Err (MessageTooLong n mx) ↔
     MAX_MESSAGE_LEN < str_len s ∧ n = str_len s ∧ mx = MAX_MESSAGE_LEN) ∧
  (parse s = Err EmptyMessage ↔ str_len s ≤ MAX_MESSAGE_LEN ∧ blank (strip_eol s)) ∧
  (parse s = Err MissingCommand ↔ str_len s ≤ MAX_MESSAGE_LEN ∧ no_command (strip_eol s)) ∧
  (∀ e, (∃ t, e = InvalidPrefix t ∨ e = InvalidNickname t) →
     parse s = Err e ↔ str_len s ≤ MAX_MESSAGE_LEN ∧ bad_prefix (strip_eol s) e) ∧
  (∀ e, parse s = Err e →
     match e with TooManyParams _ _ | MissingParameter _ _ | InvalidVersion _ => False | _ => True end) ∧
  (∀ m, parse s = Ok m → wf_message m).
Proof.
  pose proof (no_command_not_blank (strip_eol s)). pose proof (bad_prefix_not_blank (strip_eol s)).
  pose proof (no_command_not_bad_prefix (strip_eol s)).
  assert (∀ e, bad_prefix (strip_eol s) e → ∃ t, e = InvalidPrefix t ∨ e = InvalidNickname t)
    by (intros e (? & ? & ? & ? & ?); by eapply parse_prefix_error).
  destruct (parse_outcome s) as [[Hl ->]|[(Hl & Hb & ->)|(Hl & Hb & Ho)]].
  - assert (¬ str_len s ≤ MAX_MESSAGE_LEN) by lia. naive_solver.
  - assert (¬ MAX_MESSAGE_LEN < str_len s) by lia. naive_solver.
  - assert (¬ MAX_MESSAGE_LEN < str_len s) by lia.
    destruct Ho as [m Hm Hn Hp|Hn|e Hp|t Hn Hp]; [naive_solver..| |naive_solver].
    assert (∀ e', bad_prefix (strip_eol s) e' → e = e') by
      (destruct Hp as (p & r & -> & Hs & He); intros e' (p' & r' & [= E] & Hs' & He');
       apply split_at_space in E as [<- _]; congruence).
    assert (∃ t, e = InvalidPrefix t ∨ e = InvalidNickname t) as [t [-> | ->]] by auto; naive_solver.
Qed.

(** C19. Reparsing is stable: a message that was parsed and has fewer than 15
    parameters is parsed back from its own printed form, whatever the spacing of
    the original line was. *)
Theorem reparse_stable (s : str) (m : Message) :
  parse s = Ok m → length (params m) < MAX_PARAMS →
  str_len (to_string m ++ crlf) ≤ MAX_MESSAGE_LEN → parse (to_string m ++ crlf) = Ok m.
Proof.
  intros Hp Hl Hlen. rewrite parse_unfold in *. case_decide; [done|]. rewrite decide_False by lia.
  rewrite strip_eol_crlf. apply parse_line_printed.
  split; [by apply (parse_line_wf (strip_eol s))|].
  intros p Hlk. apply lookup_lt_Some in Hlk. lia.
Qed.

(** ** Instances *)

Definition sample_prefix : Prefix := UserPrefix (mkNickname (lit "alice")) (lit "al") (lit "host.example").

(** [:alice!al@host.example PRIVMSG #chan :hello there] *)
Definition sample_message : Message :=
  mkMessage (Some sample_prefix) Privmsg [lit "#chan"; lit "hello there"].

Lemma sample_printable : printable sample_message.
Proof.
  split; [split|].
  - intros p [= <-]. unfold wf_prefix, sample_prefix. split; [reflexivity|].
    repeat split; try done; by apply (bool_decide_unpack _); vm_compute.
  - done.
  - split; [by vm_compute; lia|]. intros [|[|i]] p Hp Hi; simpl in *; try lia. by simplify_eq.
  - by intros p Hp.
Qed.

Lemma parse_print_roundtrip_witness :
  to_string sample_message = lit ":alice!al@host.example PRIVMSG #chan :hello there" ∧
  parse (lit ":alice!al@host.example PRIVMSG #chan :hello there" ++ crlf) = Ok sample_message.
Proof.
  split; [by vm_compute|].
  refine (proj1 (parse_print_roundtrip sample_message sample_printable) _). vm_compute. lia.
Defined.

Lemma reparse_stable_witness :
  parse (lit "  PRIVMSG   #chan   :hello there") = Ok (mkMessage None Privmsg [lit "#chan"; lit "hello there"]) ∧
  parse (lit "PRIVMSG #chan :hello there" ++ crlf)
    = Ok (mkMessage None Privmsg [lit "#chan"; lit "hello there"]).
Proof.
  assert (parse (lit "  PRIVMSG   #chan   :hello there")
    = Ok (mkMessage None Privmsg [lit "#chan"; lit "hello there"])) as E by by vm_compute.
  split; [exact E|]. apply (reparse_stable _ _ E); vm_compute; lia.
Defined.

(** C39. A 15th parameter is taken as it stands, with the colon the printer put in
    front of it: no well-formed message with 15 parameters whose last one has to
    be printed with a colon is parsed back; what comes back has that colon as the
    first char of its last parameter. *)
Theorem fifteenth_param_keeps_colon (m : Message) (ps : list str) (p : str) :
  wf_message m → params m = ps ++ [p] → length ps = MAX_PARAMS - 1 → needs_colon p = true →
  str_len (to_string m ++ crlf) ≤ MAX_MESSAGE_LEN →
  parse (to_string m ++ crlf) = Ok (mkMessage (prefix m) (command m) (ps ++ [colon :: p])) ∧
  parse (to_string m ++ crlf) ≠ Ok m.
Proof.
  intros Hm Hps Hl Hp Hlen.
  assert (parse (to_string m ++ crlf) = Ok (mkMessage (prefix m) (command m) (ps ++ [colon :: p]))) as E.
  { rewrite parse_unfold, decide_False by lia. rewrite strip_eol_crlf, parse_line_to_string by done.
    rewrite Hps, reparsed_snoc by done. by rewrite join_params_single, Hp. }
  split; [done|]. rewrite E. intros [= Em]. apply (f_equal params) in Em. simpl in Em. rewrite Hps in Em.
  apply app_inv_head in Em. injection Em as Em. apply (f_equal length) in Em. simpl in Em. lia.
Qed.

(** Fourteen plain parameters and one with a space. *)
Definition fifteen : Message :=
  mkMessage None Privmsg (replicate 14 (lit "x") ++ [lit "a b"]).

Lemma fifteen_wf : wf_message fifteen.
Proof.
  split; [done..|]. split; [by vm_compute; lia|]. intros i p Hp Hi. change (S i < 15) in Hi.
  simpl in Hp. do 14 (destruct i as [|i]; [by simplify_eq/=|]). lia.
Qed.

Lemma fifteenth_param_keeps_colon_witness :
  to_string fifteen = lit "PRIVMSG x x x x x x x x x x x x x x :a b" ∧
  parse (to_string fifteen ++ crlf)
    = Ok (mkMessage None Privmsg (replicate 14 (lit "x") ++ [lit ":a b"])).
Proof.
  split; [by vm_compute|].
  refine (proj1 (fifteenth_param_keeps_colon fifteen (replicate 14 (lit "x")) (lit "a b")
    fifteen_wf eq_refl eq_refl eq_refl _)). vm_compute. lia.
Defined.
