(* ===== verification/ClusterState.v ===== *)
(** The replicated IRC state: [src/pirc-server/src/raft/cluster_command.rs] and
    [state_machine.rs].

    Users, channels and servers are maps keyed by ASCII-lowercased names (and
    node ids), as in the source.  [serde_json] is not part of the sources: its
    encoder and decoder are parameters of the snapshot functions. *)

From S2P Require Import Prelude.
From S2P Require Import RaftTypes.
From S2P Require Import IrcTypes.
From S2P Require Import RaftNode.

(** ** cluster_command.rs *)

Record TopicInfo : Type := mkTopicInfo { ti_text : str; ti_who : str; ti_timestamp : N }.

Inductive ClusterCommand : Type :=
| UserRegistered (connection_id : N) (nickname username realname hostname : str) (signon_time : N)
    (home_node : option NodeId)
| NickChanged (old_nick new_nick : str)
| UserQuit (nickname : str) (reason : option str)
| UserAway (nickname : str) (message : option str)
| UserModeChanged (nickname : str) (modes_added modes_removed : list str)
| ChannelJoined (nickname channel status : str)
| ChannelParted (nickname channel : str) (reason : option str)
| TopicSet (channel : str) (topic : option TopicInfo)
| ChannelModeChanged (channel : str) (modes_added modes_removed : list str) (key : option str)
    (user_limit : option N) (member_status_changes : list (str * str))
| BanAdded (channel mask who_set : str) (timestamp : N)
| BanRemoved (channel mask : str)
| InviteAdded (channel nickname : str)
| UserKicked (channel nickname who : str) (reason : option str)
| UserKilled (nickname reason : str)
| OperGranted (nickname : str)
| ServerAdded (node_id : NodeId) (addr : SocketAddr)
| ServerRemoved (node_id : NodeId)
| UserMigrated (nickname : str) (from_node to_node : NodeId)
| Noop (description : str).

(** ** state_machine.rs *)

Record ReplicatedUser : Type := mkUser {
  u_nickname : str;
  u_username : str;
  u_realname : str;
  u_hostname : str;
  u_modes : gset str;
  u_away_message : option str;
  u_signon_time : N;
  u_home_node : option NodeId;
  u_is_oper : bool;
}.

Record ReplicatedBanEntry : Type := mkBan { ban_mask : str; ban_who_set : str; ban_timestamp : N }.

Record ReplicatedChannel : Type := mkChannel {
  c_name : str;
  c_topic : option (str * str * N);
  c_modes : gset str;
  c_members : gmap str str;
  c_ban_list : list ReplicatedBanEntry;
  c_invite_list : gset str;
  c_key : option str;
  c_user_limit : option N;
  c_created_at : N;
}.

Record ReplicatedServer : Type := mkServer { s_node_id : NodeId; s_addr : SocketAddr }.

(** [ClusterStateMachine], and [ReplicatedState], its serialized form with the
    same three maps. *)
Record ClusterStateMachine : Type := mkState {
  users : gmap str ReplicatedUser;
  channels : gmap str ReplicatedChannel;
  servers : gmap N ReplicatedServer;
}.

Module ClusterStateMachine.

Definition new : ClusterStateMachine := mkState ∅ ∅ ∅.

Definition get_user (nickname : str) (s : ClusterStateMachine) : option ReplicatedUser :=
  users s !! to_ascii_lowercase nickname.
Definition get_channel (name : str) (s : ClusterStateMachine) : option ReplicatedChannel :=
  channels s !! to_ascii_lowercase name.

Definition set_users v (s : ClusterStateMachine) : ClusterStateMachine :=
  mkState v (channels s) (servers s).
Definition set_channels v (s : ClusterStateMachine) : ClusterStateMachine :=
  mkState (users s) v (servers s).
Definition set_servers v (s : ClusterStateMachine) : ClusterStateMachine :=
  mkState (users s) (channels s) v.

Definition set_members v (c : ReplicatedChannel) : ReplicatedChannel :=
  mkChannel (c_name c) (c_topic c) (c_modes c) v (c_ban_list c) (c_invite_list c) (c_key c)
    (c_user_limit c) (c_created_at c).
Definition set_topic v (c : ReplicatedChannel) : ReplicatedChannel :=
  mkChannel (c_name c) v (c_modes c) (c_members c) (c_ban_list c) (c_invite_list c) (c_key c)
    (c_user_limit c) (c_created_at c).
Definition set_chan_modes v (c : ReplicatedChannel) : ReplicatedChannel :=
  mkChannel (c_name c) (c_topic c) v (c_members c) (c_ban_list c) (c_invite_list c) (c_key c)
    (c_user_limit c) (c_created_at c).
Definition set_ban_list v (c : ReplicatedChannel) : ReplicatedChannel :=
  mkChannel (c_name c) (c_topic c) (c_modes c) (c_members c) v (c_invite_list c) (c_key c)
    (c_user_limit c) (c_created_at c).
Definition set_invite_list v (c : ReplicatedChannel) : ReplicatedChannel :=
  mkChannel (c_name c) (c_topic c) (c_modes c) (c_members c) (c_ban_list c) v (c_key c)
    (c_user_limit c) (c_created_at c).
Definition set_key v (c : ReplicatedChannel) : ReplicatedChannel :=
  mkChannel (c_name c) (c_topic c) (c_modes c) (c_members c) (c_ban_list c) (c_invite_list c) v
    (c_user_limit c) (c_created_at c).
Definition set_user_limit v (c : ReplicatedChannel) : ReplicatedChannel :=
  mkChannel (c_name c) (c_topic c) (c_modes c) (c_members c) (c_ban_list c) (c_invite_list c)
    (c_key c) v (c_created_at c).

Definition set_nickname v (u : ReplicatedUser) : ReplicatedUser :=
  mkUser v (u_username u) (u_realname u) (u_hostname u) (u_modes u) (u_away_message u)
    (u_signon_time u) (u_home_node u) (u_is_oper u).
Definition set_user_modes v (u : ReplicatedUser) : ReplicatedUser :=
  mkUser (u_nickname u) (u_username u) (u_realname u) (u_hostname u) v (u_away_message u)
    (u_signon_time u) (u_home_node u) (u_is_oper u).
Definition set_away_message v (u : ReplicatedUser) : ReplicatedUser :=
  mkUser (u_nickname u) (u_username u) (u_realname u) (u_hostname u) (u_modes u) v
    (u_signon_time u) (u_home_node u) (u_is_oper u).
Definition set_home_node v (u : ReplicatedUser) : ReplicatedUser :=
  mkUser (u_nickname u) (u_username u) (u_realname u) (u_hostname u) (u_modes u) (u_away_message u)
    (u_signon_time u) v (u_is_oper u).
Definition set_is_oper v (u : ReplicatedUser) : ReplicatedUser :=
  mkUser (u_nickname u) (u_username u) (u_realname u) (u_hostname u) (u_modes u) (u_away_message u)
    (u_signon_time u) (u_home_node u) v.

(** A channel with the defaults of [ensure_channel]. *)
Definition default_channel (channel : str) : ReplicatedChannel :=
  mkChannel channel None ∅ ∅ [] ∅ None None 0.

(** [let ch = self.ensure_channel(channel); f(ch)]. *)
Definition with_channel (channel : str) (f : ReplicatedChannel → ReplicatedChannel)
    (s : ClusterStateMachine) : ClusterStateMachine :=
  let key := to_ascii_lowercase channel in
  set_channels (<[key := f (default (default_channel channel) (channels s !! key))]> (channels s)) s.

(** [if let Some(user) = self.users.get_mut(&key) { f(user) }]. *)
Definition with_user (nickname : str) (f : ReplicatedUser → ReplicatedUser)
    (s : ClusterStateMachine) : ClusterStateMachine :=
  set_users (alter f (to_ascii_lowercase nickname) (users s)) s.

Definition remove_user_from_all_channels (nick_key : str) (s : ClusterStateMachine)
    : ClusterStateMachine :=
  set_channels
    (filter (λ kc : str * ReplicatedChannel, c_members kc.2 ≠ ∅)
       ((λ c, set_members (delete nick_key (c_members c)) c) <$> channels s)) s.

Definition remove_member_from_channel (channel nickname : str) (s : ClusterStateMachine)
    : ClusterStateMachine :=
  let chan_key := to_ascii_lowercase channel in
  let nick_key := to_ascii_lowercase nickname in
  match channels s !! chan_key with
  | Some ch =>
      let ch' := set_members (delete nick_key (c_members ch)) ch in
      if decide (c_members ch' = ∅) then set_channels (delete chan_key (channels s)) s
      else set_channels (<[chan_key := ch']> (channels s)) s
  | None => s
  end.

Definition apply_user_registered (nickname username realname hostname : str) (signon_time : N)
    (home_node : option NodeId) (s : ClusterStateMachine) : ClusterStateMachine :=
  set_users
    (<[to_ascii_lowercase nickname :=
        mkUser nickname username realname hostname ∅ None signon_time home_node false]> (users s)) s.

Definition rename_member (old_key new_key : str) (c : ReplicatedChannel) : ReplicatedChannel :=
  match c_members c !! old_key with
  | Some status => set_members (<[new_key := status]> (delete old_key (c_members c))) c
  | None => c
  end.

Definition apply_nick_changed (old_nick new_nick : str) (s : ClusterStateMachine)
    : ClusterStateMachine :=
  let old_key := to_ascii_lowercase old_nick in
  let new_key := to_ascii_lowercase new_nick in
  let s1 :=
    match users s !! old_key with
    | Some user => set_users (<[new_key := set_nickname new_nick user]> (delete old_key (users s))) s
    | None => s
    end in
  set_channels (rename_member old_key new_key <$> channels s1) s1.

(** The two loops over modes. *)
Definition change_modes (added removed : list str) (modes : gset str) : gset str :=
  foldl (λ ms m, ms ∖ {[m]}) (foldl (λ ms m, {[m]} ∪ ms) modes added) removed.

Definition change_statuses (changes : list (str * str)) (members : gmap str str) : gmap str str :=
  foldl (λ ms ns,
    let nick_key := to_ascii_lowercase ns.1 in
    if decide (is_Some (ms !! nick_key)) then <[nick_key := ns.2]> ms else ms) members changes.

Definition apply_channel_mode_changed (channel : str) (modes_added modes_removed : list str)
    (key : option str) (user_limit : option N) (member_status_changes : list (str * str))
    : ClusterStateMachine → ClusterStateMachine :=
  with_channel channel (λ ch,
    let ch1 := set_chan_modes (change_modes modes_added modes_removed (c_modes ch)) ch in
    let ch2 := match key with Some k => set_key (Some k) ch1 | None => ch1 end in
    let ch3 := match user_limit with Some l => set_user_limit (Some l) ch2 | None => ch2 end in
    set_members (change_statuses member_status_changes (c_members ch3)) ch3).

(** [StateMachine::apply]. *)
Definition apply (command : ClusterCommand) (s : ClusterStateMachine) : ClusterStateMachine :=
  match command with
  | UserRegistered _ nickname username realname hostname signon_time home_node =>
      apply_user_registered nickname username realname hostname signon_time home_node s
  | NickChanged old_nick new_nick => apply_nick_changed old_nick new_nick s
  | UserQuit nickname _ | UserKilled nickname _ =>
      let key := to_ascii_lowercase nickname in
      remove_user_from_all_channels key (set_users (delete key (users s)) s)
  | UserAway nickname message => with_user nickname (set_away_message message) s
  | UserModeChanged nickname modes_added modes_removed =>
      with_user nickname (λ u, set_user_modes (change_modes modes_added modes_removed (u_modes u)) u) s
  | ChannelJoined nickname channel status =>
      with_channel channel
        (λ ch, set_members (<[to_ascii_lowercase nickname := status]> (c_members ch)) ch) s
  | ChannelParted nickname channel _ | UserKicked channel nickname _ _ =>
      remove_member_from_channel channel nickname s
  | TopicSet channel topic =>
      with_channel channel
        (set_topic ((λ t, (ti_text t, ti_who t, ti_timestamp t)) <$> topic)) s
  | ChannelModeChanged channel modes_added modes_removed key user_limit changes =>
      apply_channel_mode_changed channel modes_added modes_removed key user_limit changes s
  | BanAdded channel mask who_set timestamp =>
      with_channel channel
        (λ ch, set_ban_list (c_ban_list ch ++ [mkBan mask who_set timestamp]) ch) s
  | BanRemoved channel mask =>
      set_channels
        (alter (λ ch, set_ban_list (filter (λ b, ban_mask b ≠ mask) (c_ban_list ch)) ch)
           (to_ascii_lowercase channel) (channels s)) s
  | InviteAdded channel nickname =>
      with_channel channel
        (λ ch, set_invite_list ({[to_ascii_lowercase nickname]} ∪ c_invite_list ch) ch) s
  | OperGranted nickname => with_user nickname (set_is_oper true) s
  | ServerAdded node_id addr => set_servers (<[node_id := mkServer node_id addr]> (servers s)) s
  | ServerRemoved node_id => set_servers (delete node_id (servers s)) s
  | UserMigrated nickname _ to_node => with_user nickname (set_home_node (Some to_node)) s
  | Noop _ => s
  end.

End ClusterStateMachine.
Import ClusterStateMachine.

(** ** Snapshots

    [encode] is [serde_json::to_vec] on the state, [decode] is
    [serde_json::from_slice], whose error is reported by its message. *)

Section Snapshots.
Context (encode : ClusterStateMachine → list u8) (decode : list u8 → result str ClusterStateMachine).

Definition snapshot (s : ClusterStateMachine) : list u8 := encode s.

Definition restore (data : list u8) (s : ClusterStateMachine)
    : result SnapshotError unit * ClusterStateMachine :=
  if decide (data = []) then (Ok tt, new) else
  match decode data with
  | Ok st => (Ok tt, st)
  | Err e => (Err (InvalidData e), s)
  end.

Definition cluster_machine : StateMachine ClusterCommand ClusterStateMachine := {|
  sm_apply := apply;
  sm_snapshot := snapshot;
  sm_restore := restore;
|}.

End Snapshots.

(** ** The invariant: keys are the lowercased names *)

Definition lower (s : str) : Prop := to_ascii_lowercase s = s.

Record channel_wf (key : str) (c : ReplicatedChannel) : Prop := mk_channel_wf {
  channel_key : key = to_ascii_lowercase (c_name c);
  channel_members_lower : ∀ n, is_Some (c_members c !! n) → lower n;
  channel_invites_lower : ∀ n, n ∈ c_invite_list c → lower n;
}.

Record state_wf (s : ClusterStateMachine) : Prop := mk_state_wf {
  user_keys : ∀ k u, users s !! k = Some u → k = to_ascii_lowercase (u_nickname u);
  channels_wf : ∀ k c, channels s !! k = Some c → channel_wf k c;
  server_keys : ∀ i srv, servers s !! i = Some srv → s_node_id srv = i;
}.

Lemma lower_idem (s : str) : lower (to_ascii_lowercase s).
Proof.
  unfold lower, to_ascii_lowercase. rewrite <- list_fmap_compose. apply list_fmap_ext.
  intros i c _. unfold compose, char_to_ascii_lowercase, is_ascii_uppercase.
  destruct (bool_decide (65 ≤ c ∧ c ≤ 90)%N) eqn:E.
  - apply bool_decide_eq_true in E. rewrite bool_decide_eq_false_2 by lia. done.
  - by rewrite E.
Qed.

(** Updates that keep a well-formed channel well-formed. *)
Definition keeps_wf (f : ReplicatedChannel → ReplicatedChannel) : Prop :=
  ∀ k c, channel_wf k c → channel_wf k (f c).

Lemma default_channel_wf (channel : str) :
  channel_wf (to_ascii_lowercase channel) (default_channel channel).
Proof. split; simpl; [done|intros n [? H]; by rewrite lookup_empty in H|set_solver]. Qed.

Lemma with_channel_wf (channel : str) f s :
  keeps_wf f → state_wf s → state_wf (with_channel channel f s).
Proof.
  intros Hf [H1 H2 H3]. split; simpl; [done| |done]. intros k c.
  destruct (decide (k = to_ascii_lowercase channel)) as [->|Hne].
  - rewrite lookup_insert_eq. intros [= <-]. apply Hf.
    destruct (channels s !! to_ascii_lowercase channel) eqn:E; simpl; [by apply H2|].
    apply default_channel_wf.
  - rewrite lookup_insert_ne by done. apply H2.
Qed.

Lemma with_user_wf (nickname : str) f s :
  (∀ u, u_nickname (f u) = u_nickname u) → state_wf s → state_wf (with_user nickname f s).
Proof.
  intros Hf [H1 H2 H3]. split; simpl; [|done|done]. intros k u.
  rewrite lookup_alter_Some. intros [(<- & u' & Hu & ->)|[_ Hu]].
  - rewrite Hf. by apply H1.
  - by apply H1.
Qed.

Lemma fmap_channels_wf f s :
  keeps_wf f → state_wf s → state_wf (set_channels (f <$> channels s) s).
Proof.
  intros Hf [H1 H2 H3]. split; simpl; [done| |done]. intros k c.
  rewrite lookup_fmap_Some. intros (c' & <- & Hc). by apply Hf, H2.
Qed.

Lemma keeps_wf_members (f : gmap str str → gmap str str) :
  (∀ m n, is_Some (f m !! n) → is_Some (m !! n) ∨ lower n) →
  keeps_wf (λ c, set_members (f (c_members c)) c).
Proof. intros Hf k c [H1 H2 H3]. split; simpl; [done| |done]. intros n [?|?]%Hf; auto. Qed.

Lemma delete_members_wf (n : str) : keeps_wf (λ c, set_members (delete n (c_members c)) c).
Proof.
  apply (keeps_wf_members (delete n)). intros m x Hx. left.
  destruct Hx as [v Hx]. apply lookup_delete_Some in Hx as [_ Hx]. by exists v.
Qed.

Lemma insert_members_wf (n status : str) :
  keeps_wf (λ c, set_members (<[to_ascii_lowercase n := status]> (c_members c)) c).
Proof.
  apply (keeps_wf_members (insert (to_ascii_lowercase n) status)). intros m x [v Hx].
  apply lookup_insert_Some in Hx as [[<- _]|[_ Hx]]; [right; apply lower_idem|left; by exists v].
Qed.

Lemma rename_member_wf (old new : str) :
  keeps_wf (rename_member (to_ascii_lowercase old) (to_ascii_lowercase new)).
Proof.
  intros k c Hc. unfold rename_member.
  destruct (c_members c !! to_ascii_lowercase old) as [status|]; [|done].
  exact (insert_members_wf new status k _ (delete_members_wf (to_ascii_lowercase old) k c Hc)).
Qed.

Lemma change_statuses_dom (changes : list (str * str)) (m : gmap str str) n :
  is_Some (change_statuses changes m !! n) → is_Some (m !! n).
Proof.
  unfold change_statuses. revert m. induction changes as [|[x st] changes IH]; intros m; simpl; [done|].
  intros H%IH. case_decide as Hd; [|done].
  destruct (decide (n = to_ascii_lowercase x)) as [->|]; [done|].
  by rewrite lookup_insert_ne in H.
Qed.

Lemma remove_all_wf (key : str) s :
  state_wf s → state_wf (remove_user_from_all_channels key s).
Proof.
  intros Hs. pose proof (fmap_channels_wf _ _ (delete_members_wf key) Hs) as [H1 H2 H3].
  split; simpl in *; [done| |done]. intros k c. rewrite map_lookup_filter_Some.
  intros [Hc _]. by apply H2.
Qed.

Lemma remove_member_wf (channel nickname : str) s :
  state_wf s → state_wf (remove_member_from_channel channel nickname s).
Proof.
  intros [H1 H2 H3]. unfold remove_member_from_channel.
  destruct (channels s !! to_ascii_lowercase channel) as [ch|] eqn:E; [|done].
  case_decide; split; simpl; try done; intros k c.
  - rewrite lookup_delete_Some. intros [_ Hc]. by apply H2.
  - rewrite lookup_insert_Some. intros [[<- <-]|[_ Hc]]; [|by apply H2].
    by apply delete_members_wf, H2.
Qed.

(** C12. The invariant of the replicated state: after any command users and
    channels are found under the lowercase of their name, members and invitations
    are recorded in lowercase (so the case-insensitive lookups of the getters
    find them), and servers under their own id. *)
Theorem apply_preserves_wf (command : ClusterCommand) (s : ClusterStateMachine) :
  state_wf s → state_wf (apply command s).
Proof.
  intros Hs. destruct command; cbn [apply]; try done;
    try (apply with_user_wf; by intros); try (by apply remove_member_wf).
  - destruct Hs as [H1 H2 H3]. split; simpl; [|done|done]. intros k u.
    rewrite lookup_insert_Some. intros [[<- <-]|[_ Hu]]; [done|by apply H1].
  - unfold apply_nick_changed. apply fmap_channels_wf; [apply rename_member_wf|].
    destruct (users s !! to_ascii_lowercase old_nick) as [u|]; [|done].
    destruct Hs as [H1 H2 H3]. split; simpl; [|done|done]. intros k u'.
    rewrite lookup_insert_Some, lookup_delete_Some. intros [[<- <-]|[_ [_ Hu]]]; [done|by apply H1].
  - apply remove_all_wf. destruct Hs as [H1 H2 H3]. split; simpl; [|done|done].
    intros k u. rewrite lookup_delete_Some. intros [_ Hu]. by apply H1.
  - apply with_channel_wf; [apply insert_members_wf|done].
  - apply with_channel_wf; [|done]. by intros k c [].
  - apply with_channel_wf; [|done]. intros k c [C1 C2 C3].
    split; repeat case_match; simpl; try done; intros nk Hnk; apply C2;
      by eapply change_statuses_dom.
  - apply with_channel_wf; [|done]. by intros k c [].
  - destruct Hs as [H1 H2 H3]. split; simpl; [done| |done]. intros k c.
    rewrite lookup_alter_Some. intros [(<- & c' & Hc & ->)|[_ Hc]]; [|by apply H2].
    destruct (H2 _ _ Hc). by split.
  - apply with_channel_wf; [|done]. intros k c [C1 C2 C3]. split; simpl; [done|done|].
    intros n. rewrite elem_of_union, elem_of_singleton. intros [->|H]; [apply lower_idem|auto].
  - apply remove_all_wf. destruct Hs as [H1 H2 H3]. split; simpl; [|done|done].
    intros k u. rewrite lookup_delete_Some. intros [_ Hu]. by apply H1.
  - destruct Hs as [H1 H2 H3]. split; simpl; [done|done|]. intros i srv.
    rewrite lookup_insert_Some. intros [[<- <-]|[_ H]]; [done|by apply H3].
  - destruct Hs as [H1 H2 H3]. split; simpl; [done|done|]. intros i srv.
    rewrite lookup_delete_Some. intros [_ H]. by apply H3.
Qed.

(** ** Behaviour of the commands *)

(** Membership of [n] in the channel named [ch], with the member's status. *)
Definition status_in (ch n : str) (s : ClusterStateMachine) : option str :=
  c ← get_channel ch s; c_members c !! to_ascii_lowercase n.

(** [c'] is [c] up to its members. *)
Definition same_but_members (c c' : ReplicatedChannel) : Prop := c' = set_members (c_members c') c.

(** C15. A nick change moves the user and changes nothing else: the user is found
    under the new nick with its other fields as they were and no longer under the
    old one (unless only the case changed); every other user and all servers are
    the same; no channel appears or disappears, and of a channel only the members
    change: in a channel the old nick was in, the new nick has the status the old
    one had and the old one is gone (unless only the case changed), every other
    channel is the same, and so is the status of every other member. *)
Theorem nick_change_moves (old new : str) (s : ClusterStateMachine) (u : ReplicatedUser) :
  let old_key := to_ascii_lowercase old in
  let new_key := to_ascii_lowercase new in
  get_user old s = Some u →
  let s' := apply (NickChanged old new) s in
  get_user new s' = Some (set_nickname new u) ∧
  (old_key ≠ new_key → get_user old s' = None) ∧
  (∀ k, k ≠ old_key → k ≠ new_key → users s' !! k = users s !! k) ∧
  servers s' = servers s ∧
  dom (channels s') = dom (channels s) ∧
  (∀ k c c', channels s !! k = Some c → channels s' !! k = Some c' →
     same_but_members c c' ∧
     match c_members c !! old_key with
     | None => c' = c
     | Some status =>
         c_members c' !! new_key = Some status ∧
         (old_key ≠ new_key → c_members c' !! old_key = None) ∧
         (∀ n, n ≠ old_key → n ≠ new_key → c_members c' !! n = c_members c !! n)
     end).
Proof.
  intros old_key new_key Hu s'. subst s'. unfold get_user in *. cbn [apply]. unfold apply_nick_changed.
  fold old_key new_key in Hu |- *. rewrite Hu. simpl. split_and!.
  - by rewrite lookup_insert_eq.
  - intros Hne. by rewrite lookup_insert_ne, lookup_delete_eq.
  - intros n H1 H2. by rewrite lookup_insert_ne, lookup_delete_ne.
  - done.
  - apply dom_fmap_L.
  - intros k c c' Hc. rewrite lookup_fmap, Hc. intros [= <-]. unfold rename_member, same_but_members.
    destruct (c_members c !! old_key) as [status|] eqn:E; simpl; [|split; [by destruct c|done]].
    split; [done|]. split; [by rewrite lookup_insert_eq|]. split.
    + intros Hne. by rewrite lookup_insert_ne, lookup_delete_eq.
    + intros n H1 H2. by rewrite lookup_insert_ne, lookup_delete_ne.
Qed.

(** The channels after the removal of [key] from all of them. *)
Lemma lookup_remove_from_all (key k : str) (s : ClusterStateMachine) (c' : ReplicatedChannel) :
  channels (remove_user_from_all_channels key s) !! k = Some c' ↔
    ∃ c, channels s !! k = Some c ∧ c' = set_members (delete key (c_members c)) c ∧
      delete key (c_members c) ≠ ∅.
Proof.
  unfold remove_user_from_all_channels; simpl. rewrite map_lookup_filter_Some, lookup_fmap_Some.
  naive_solver.
Qed.

(** C16. A quit or a kill, which have the same effect, leaves no trace of the
    user: it is gone and in no channel, every other user and all servers are the
    same, a channel survives exactly when it has another member, and a channel
    that survives has its other members with their statuses and its other fields
    as they were. *)
Theorem quit_leaves_no_trace (nick : str) (reason : option str) (why : str) (s : ClusterStateMachine) :
  let key := to_ascii_lowercase nick in
  let s' := apply (UserQuit nick reason) s in
  apply (UserKilled nick why) s = s' ∧
  get_user nick s' = None ∧
  (∀ k, k ≠ key → users s' !! k = users s !! k) ∧
  servers s' = servers s ∧
  (∀ k, is_Some (channels s' !! k) ↔
     ∃ c n status, channels s !! k = Some c ∧ c_members c !! n = Some status ∧ n ≠ key) ∧
  (∀ k c', channels s' !! k = Some c' → ∃ c, channels s !! k = Some c ∧ same_but_members c c' ∧
     c_members c' !! key = None ∧ ∀ n, n ≠ key → c_members c' !! n = c_members c !! n).
Proof.
  intros key s'.
  assert (∀ k c', channels s' !! k = Some c' ↔
    ∃ c, channels s !! k = Some c ∧ c' = set_members (delete key (c_members c)) c ∧
      delete key (c_members c) ≠ ∅) as HF
    by (intros k c'; apply (lookup_remove_from_all key k (set_users (delete key (users s)) s))).
  split; [done|]. split; [unfold s', get_user; simpl; by rewrite lookup_delete_eq|].
  split; [intros k Hk; unfold s'; simpl; by rewrite lookup_delete_ne|]. split; [done|]. split.
  - intros k. unfold is_Some. setoid_rewrite HF. split.
    + intros (c' & c & Hc & _ & Hd). apply map_choose in Hd as (n & st & Hn).
      apply lookup_delete_Some in Hn as [Hne Hn]. exists c, n, st. auto.
    + intros (c & n & st & Hc & Hn & Hne). do 2 eexists. split; [exact Hc|]. split; [done|].
      intros Hd. rewrite <- (lookup_delete_ne _ key) in Hn by done. by rewrite Hd, lookup_empty in Hn.
  - intros k c' (c & Hc & -> & _)%HF. exists c. split; [exact Hc|].
    split; [done|]. simpl. split; [by rewrite lookup_delete_eq|]. intros n Hn. by rewrite lookup_delete_ne.
Qed.

(** C23. Parting undoes joining: when a user joins a channel it is not in, one
    that has members or does not exist, and parts again, the replicated state is
    what it was; a channel that did not exist is removed again.  (A channel
    without members, as setting the topic of an unknown channel creates it, is
    removed by the part.) *)
Theorem join_part_inverse (nick ch status : str) (reason : option str) (s : ClusterStateMachine) :
  status_in ch nick s = None →
  (∀ c, get_channel ch s = Some c → c_members c ≠ ∅) →
  apply (ChannelParted nick ch reason) (apply (ChannelJoined nick ch status) s) = s.
Proof.
  unfold status_in, get_channel. intros Hst Hne. cbn [apply]. unfold remove_member_from_channel, with_channel.
  simpl. rewrite lookup_insert_eq. simpl.
  destruct (channels s !! to_ascii_lowercase ch) as [c|] eqn:Ec; simpl in *.
  - rewrite delete_insert_id by done. rewrite decide_False by by apply Hne.
    rewrite insert_insert_eq. destruct s as [us cs srv]. unfold set_channels. simpl in *. f_equal.
    apply insert_id. rewrite Ec. f_equal. by destruct c.
  - rewrite delete_insert_id by apply lookup_empty. rewrite decide_True by done.
    rewrite delete_insert_id by done. by destruct s.
Qed.

(** ** Instances *)

(** Alice and Bob, both in [#Rust]. *)
Definition sample_commands : list ClusterCommand :=
  [UserRegistered 1 (lit "Alice") (lit "al") (lit "Alice A") (lit "h1") 100 None;
   UserRegistered 2 (lit "bob") (lit "bob") (lit "Bob B") (lit "h2") 101 (Some 1%N);
   ChannelJoined (lit "Alice") (lit "#Rust") (lit "operator");
   ChannelJoined (lit "bob") (lit "#rust") (lit "normal")].

Definition sample_state : ClusterStateMachine := foldl (λ s c, apply c s) new sample_commands.

Lemma new_wf : state_wf new.
Proof. split; simpl; intros *; by rewrite lookup_empty. Qed.

(** Two registrations, two joins and a nick change. *)
Lemma apply_preserves_wf_witness :
  state_wf (apply (NickChanged (lit "ALICE") (lit "Carol")) sample_state) ∧
  dom (users (apply (NickChanged (lit "ALICE") (lit "Carol")) sample_state)) = {[lit "carol"; lit "bob"]}.
Proof.
  split; [|by apply (bool_decide_unpack _); vm_compute].
  apply (apply_preserves_wf (NickChanged (lit "ALICE") (lit "Carol")) sample_state).
  unfold sample_state, sample_commands. cbn [foldl]. do 4 apply apply_preserves_wf. apply new_wf.
Defined.

Lemma nick_change_moves_witness :
  let s' := apply (NickChanged (lit "ALICE") (lit "Carol")) sample_state in
  u_nickname <$> get_user (lit "carol") s' = Some (lit "Carol") ∧
  get_user (lit "alice") s' = None ∧ servers s' = servers sample_state ∧
  dom (channels s') = {[lit "#rust"]}.
Proof.
  destruct (get_user (lit "ALICE") sample_state) as [u|] eqn:E; [|by vm_compute in E].
  destruct (nick_change_moves (lit "ALICE") (lit "Carol") sample_state u E)
    as (H1 & H2 & _ & H4 & H5 & _).
  split; [change (get_user (lit "carol")) with (get_user (lit "Carol")); by rewrite H1|].
  split; [apply H2; by vm_compute|]. split; [exact H4|]. rewrite H5.
  by apply (bool_decide_unpack _); vm_compute.
Defined.

Lemma join_part_inverse_witness :
  apply (ChannelParted (lit "carol") (lit "#rust") None)
    (apply (ChannelJoined (lit "carol") (lit "#rust") (lit "normal")) sample_state) = sample_state.
Proof.
  apply join_part_inverse; [by vm_compute|].
  intros c Hc. vm_compute in Hc. injection Hc as <-. by intros E; vm_compute in E.
Defined.
