(* ===== verification/MessageQueues.v ===== *)
(** Messages held for absent users: [src/pirc-server/src/failover_queue.rs] (users
    whose server went down) and [offline_store.rs] (users who are offline).

    Instants are natural numbers passed as [now]; [Instant::duration_since]
    saturates at zero.  The concurrent map of the offline store is a map; the
    steps of [queue_message] between which other threads can run (the check of
    the counter before the entry is locked, and the two parts that follow, each
    with one update of the counter) are definitions of their own, and
    [queue_message] is a call that nothing interrupts. *)

From S2P Require Import Prelude.
From S2P Require Import RaftTypes.
From S2P Require Import IrcTypes.
From S2P Require Import Protocol.

(** ** failover_queue.rs *)

Record BufferedMessage : Type := mkBuffered { bm_message : Message; bm_enqueued_at : N }.

Record FailoverMessageQueue : Type := mkFailover {
  fq_queues : gmap str (list BufferedMessage);
  fq_max_per_user : nat;
  fq_ttl : Duration;
}.

Module FailoverMessageQueue.

Definition new (max_per_user : nat) (ttl : Duration) : FailoverMessageQueue :=
  mkFailover ∅ max_per_user ttl.

Definition set_queues v (q : FailoverMessageQueue) : FailoverMessageQueue :=
  mkFailover v (fq_max_per_user q) (fq_ttl q).

(** The queue of a user, empty when there is none. *)
Definition queue_of (nickname : str) (q : FailoverMessageQueue) : list BufferedMessage :=
  default [] (fq_queues q !! to_ascii_lowercase nickname).

(** At capacity the oldest message goes; the result says that none did. *)
Definition enqueue (nickname : str) (message : Message) (now : N) (q : FailoverMessageQueue)
    : bool * FailoverMessageQueue :=
  let key := to_ascii_lowercase nickname in
  let queue := default [] (fq_queues q !! key) in
  let evicted := bool_decide (fq_max_per_user q ≤ length queue) in
  let queue' := if evicted then drop 1 queue else queue in
  (negb evicted, set_queues (<[key := queue' ++ [mkBuffered message now]]> (fq_queues q)) q).

Definition fresh (q : FailoverMessageQueue) (now : N) (bm : BufferedMessage) : Prop :=
  (now - bm_enqueued_at bm < fq_ttl q)%N.

#[export] Instance fresh_dec q now bm : Decision (fresh q now bm).
Proof. unfold fresh. apply _. Defined.

Definition drain (nickname : str) (now : N) (q : FailoverMessageQueue)
    : list Message * FailoverMessageQueue :=
  let key := to_ascii_lowercase nickname in
  match fq_queues q !! key with
  | None => ([], q)
  | Some queue =>
      (bm_message <$> filter (fresh q now) queue, set_queues (delete key (fq_queues q)) q)
  end.

Definition remove (nickname : str) (q : FailoverMessageQueue) : FailoverMessageQueue :=
  set_queues (delete (to_ascii_lowercase nickname) (fq_queues q)) q.

Definition rename (old_nick new_nick : str) (q : FailoverMessageQueue) : FailoverMessageQueue :=
  let old_key := to_ascii_lowercase old_nick in
  let new_key := to_ascii_lowercase new_nick in
  if decide (old_key = new_key) then q else
  match fq_queues q !! old_key with
  | Some old_queue =>
      let rest := delete old_key (fq_queues q) in
      set_queues (<[new_key := default [] (rest !! new_key) ++ old_queue]> rest) q
  | None => q
  end.

Definition expire_all (now : N) (q : FailoverMessageQueue) : FailoverMessageQueue :=
  set_queues
    (filter (λ kq : str * list BufferedMessage, kq.2 ≠ [])
       (filter (fresh q now) <$> fq_queues q)) q.

Definition user_count (q : FailoverMessageQueue) : nat := size (fq_queues q).

Definition message_count (nickname : str) (q : FailoverMessageQueue) : nat :=
  match fq_queues q !! to_ascii_lowercase nickname with Some queue => length queue | None => 0 end.

End FailoverMessageQueue.

(** ** offline_store.rs *)

Record QueuedMessage : Type := mkQueued { qm_message : Message; qm_queued_at : N; qm_size : N }.

Record OfflineMessageStore : Type := mkOffline {
  queues : gmap str (list QueuedMessage);
  max_messages_per_user : nat;
  max_total_bytes : N;
  message_ttl : Duration;
  total_bytes : N;
}.

Module OfflineMessageStore.

Definition new (max_messages_per_user : nat) (max_total_bytes : N) (message_ttl : Duration)
    : OfflineMessageStore :=
  mkOffline ∅ max_messages_per_user max_total_bytes message_ttl 0.

Definition estimate_message_size (msg : Message) : N := N.of_nat (str_len (Message.to_string msg)).

Definition alive (s : OfflineMessageStore) (now : N) (qm : QueuedMessage) : Prop :=
  (now - qm_queued_at qm < message_ttl s)%N.

#[export] Instance alive_dec s now qm : Decision (alive s now qm).
Proof. unfold alive. apply _. Defined.

(** The counter [freed]: the sizes of a list of messages summed in a [usize]. *)
Definition freed_bytes (l : list QueuedMessage) : N := foldl (λ freed qm, freed +! qm_size qm) 0%N l.

(** [AtomicUsize::fetch_sub], which wraps. *)
Definition fetch_sub (a b : N) : N := ((a + u64_modulus - b) mod u64_modulus)%N.

(** The [retain] of [queue_message]: what stays and how much is freed. *)
Definition purge (s : OfflineMessageStore) (now : N) (queue : list QueuedMessage)
    : list QueuedMessage * N :=
  (filter (alive s now) queue, freed_bytes (filter (λ qm, ¬ alive s now qm) queue)).

(** The check of the counter, before the entry is locked. *)
Definition has_room (size : N) (s : OfflineMessageStore) : bool :=
  negb (bool_decide (max_total_bytes s < total_bytes s +! size)%N).

(** With the entry locked: expired messages go, and the counter is lowered. *)
Definition purge_entry (nick : Nickname) (now : N) (s : OfflineMessageStore) : OfflineMessageStore :=
  let key := Nickname.hash_key nick in
  let '(queue, freed) := purge s now (default [] (queues s !! key)) in
  let total := if decide (0 < freed)%N then fetch_sub (total_bytes s) freed else total_bytes s in
  mkOffline (<[key := queue]> (queues s)) (max_messages_per_user s) (max_total_bytes s)
    (message_ttl s) total.

(** Still with the entry locked: the limit of the user, then the counter is
    raised and the message stored. *)
Definition push_entry (nick : Nickname) (message : Message) (size now : N) (s : OfflineMessageStore)
    : bool * OfflineMessageStore :=
  let key := Nickname.hash_key nick in
  let queue := default [] (queues s !! key) in
  if decide (max_messages_per_user s ≤ length queue) then (false, s) else
  (true, mkOffline (<[key := queue ++ [mkQueued message now size]]> (queues s))
           (max_messages_per_user s) (max_total_bytes s) (message_ttl s) (total_bytes s +! size)).

Definition queue_message (nick : Nickname) (message : Message) (now : N) (s : OfflineMessageStore)
    : bool * OfflineMessageStore :=
  let size := estimate_message_size message in
  if has_room size s then push_entry nick message size now (purge_entry nick now s) else (false, s).

Definition take_messages (nick : Nickname) (now : N) (s : OfflineMessageStore)
    : list Message * OfflineMessageStore :=
  let key := Nickname.hash_key nick in
  match queues s !! key with
  | None => ([], s)
  | Some queue =>
      (qm_message <$> filter (alive s now) queue,
       mkOffline (delete key (queues s)) (max_messages_per_user s) (max_total_bytes s) (message_ttl s)
         (fetch_sub (total_bytes s) (freed_bytes queue)))
  end.

Definition default_store : OfflineMessageStore :=
  new 100 (10 * 1024 * 1024) (7 * 24 * 3600 * 1000000000).

End OfflineMessageStore.

(** ** The failover queue keeps the newest messages in order *)

Import FailoverMessageQueue.

(** Messages enqueued one after the other, each with its instant. *)
Definition enqueue_all (nick : str) (msgs : list (Message * N)) (q : FailoverMessageQueue)
    : FailoverMessageQueue :=
  foldl (λ q mn, (enqueue nick mn.1 mn.2 q).2) q msgs.

(** The last [n] elements. *)
Definition last_n {A} (n : nat) (l : list A) : list A := drop (length l - n) l.

Lemma last_n_last_n {A} (n : nat) (l l' : list A) :
  last_n n (last_n n l ++ l') = last_n n (l ++ l').
Proof.
  unfold last_n. rewrite !length_app, length_drop.
  destruct (decide (length l ≤ n)) as [Hl|Hl].
  - replace (length l - n) with 0 by lia. rewrite Nat.sub_0_r. done.
  - rewrite <- (drop_app_le l l' (length l - n)) by lia. rewrite drop_drop. f_equal. lia.
Qed.

(** How many messages a queue holds on to: [max_per_user], but at least one, and
    never fewer than it has (a queue that [rename] made longer stays so). *)
Definition capacity (nick : str) (q : FailoverMessageQueue) : nat :=
  (1 `max` fq_max_per_user q) `max` length (queue_of nick q).

Lemma enqueue_queue (nick : str) (m : Message) (now : N) q :
  let q' := (enqueue nick m now q).2 in
  queue_of nick q' = last_n (capacity nick q) (queue_of nick q ++ [mkBuffered m now]) ∧
  capacity nick q' = capacity nick q ∧ fq_ttl q' = fq_ttl q ∧
  ∀ k, k ≠ to_ascii_lowercase nick → fq_queues q' !! k = fq_queues q !! k.
Proof.
  cbv zeta.
  assert (queue_of nick (enqueue nick m now q).2 =
    (if bool_decide (fq_max_per_user q ≤ length (queue_of nick q)) then drop 1 (queue_of nick q)
     else queue_of nick q) ++ [mkBuffered m now]) as E
    by (unfold queue_of, enqueue; simpl; by rewrite lookup_insert_eq).
  unfold capacity. rewrite E. change (fq_max_per_user (enqueue nick m now q).2) with (fq_max_per_user q).
  clear E. set (l := queue_of nick q). clearbody l. split; [|split; [|split; [done|]]].
  - unfold last_n. rewrite length_app. simpl length. case_bool_decide as Hc.
    + destruct l as [|x l]; cbn [length] in *;
        [by replace (0 + 1 - _) with 0 by lia|by replace (S (length l) + 1 - _) with 1 by lia].
    + by replace (length l + 1 - _) with 0 by lia.
  - rewrite length_app. simpl length. case_bool_decide as Hc; [rewrite length_drop|]; lia.
  - intros k Hk. unfold enqueue; simpl. by rewrite lookup_insert_ne.
Qed.

Lemma enqueue_all_queue (nick : str) (msgs : list (Message * N)) q :
  queue_of nick (enqueue_all nick msgs q) =
    last_n (capacity nick q) (queue_of nick q ++ ((λ mn, mkBuffered mn.1 mn.2) <$> msgs)) ∧
  fq_ttl (enqueue_all nick msgs q) = fq_ttl q ∧
  ∀ k, k ≠ to_ascii_lowercase nick → fq_queues (enqueue_all nick msgs q) !! k = fq_queues q !! k.
Proof.
  revert q. induction msgs as [|[m n] msgs IH]; intros q.
  - cbn [fmap list_fmap]. rewrite app_nil_r. unfold last_n, capacity.
    by replace (length _ - _) with 0 by lia.
  - destruct (enqueue_queue nick m n q) as (E1 & E2 & E3 & E4).
    change (enqueue_all nick ((m, n) :: msgs) q) with (enqueue_all nick msgs (enqueue nick m n q).2).
    destruct (IH (enqueue nick m n q).2) as (I1 & I2 & I3).
    rewrite E1, E2, last_n_last_n, <- app_assoc in I1. split; [exact I1|].
    split; [congruence|]. intros k Hk. by rewrite I3, E4.
Qed.

(** C26. Failover delivery: when messages for a user are enqueued one by one and
    then drained, the user gets the newest of the earlier and the new ones, in
    the order they came and without the expired ones, whatever the spelling of
    the nick; the queue is then empty and the queues of other users are
    untouched.  How many are kept is [capacity]: [max_per_user] when that is
    positive and the queue is within it. *)
Theorem failover_delivers_newest (nick nick' : str) (msgs : list (Message * N)) (now : N) q :
  to_ascii_lowercase nick' = to_ascii_lowercase nick →
  let q1 := enqueue_all nick msgs q in
  let buffered := queue_of nick q ++ ((λ mn, mkBuffered mn.1 mn.2) <$> msgs) in
  (drain nick' now q1).1 =
    bm_message <$> filter (fresh q now) (last_n (capacity nick q) buffered) ∧
  queue_of nick (drain nick' now q1).2 = [] ∧
  ∀ k, k ≠ to_ascii_lowercase nick → fq_queues (drain nick' now q1).2 !! k = fq_queues q !! k.
Proof.
  intros Hn. cbv zeta.
  destruct (enqueue_all_queue nick msgs q) as (H1 & H2 & H3).
  unfold drain. rewrite Hn. unfold queue_of in H1 |- *.
  destruct (fq_queues (enqueue_all nick msgs q) !! to_ascii_lowercase nick) as [l|] eqn:E.
  - cbn [default fst snd] in *. rewrite <- H1. split.
    { f_equal. apply list_filter_iff. intros bm. unfold fresh. by rewrite H2. }
    split; [simpl; by rewrite lookup_delete_eq|]. intros k Hk. simpl. rewrite lookup_delete_ne by done. auto.
  - cbn [default fst snd] in *. rewrite <- H1, E. split; [done|]. split; [done|]. auto.
Qed.

Lemma drain_result (nick : str) (now : N) q :
  (drain nick now q).1 = bm_message <$> filter (fresh q now) (queue_of nick q).
Proof. unfold drain, queue_of. by destruct (_ !! _). Qed.

(** C33. Background expiry is invisible to the users: a drain at any instant not
    before the expiry returns the same messages as without it.  After it every
    queue that is left holds a message that was still alive at the expiry, so
    [user_count] counts only users with something pending. *)
Theorem expiry_invisible (nick : str) (now now' : N) q :
  (now ≤ now')%N →
  (drain nick now' (expire_all now q)).1 = (drain nick now' q).1 ∧
  ∀ k l, fq_queues (expire_all now q) !! k = Some l → l ≠ [] ∧ Forall (fresh q now) l.
Proof.
  intros Hle. split.
  - rewrite !drain_result. f_equal. unfold queue_of, expire_all. cbn [set_queues fq_queues].
    set (key := to_ascii_lowercase nick).
    assert (filter (fresh q now') (default [] (fq_queues q !! key)) =
      filter (fresh q now') (filter (fresh q now) (default [] (fq_queues q !! key)))) as ->.
    { rewrite list_filter_filter_l; [done|]. unfold fresh. intros bm. lia. }
    rewrite map_lookup_filter, lookup_fmap. destruct (fq_queues q !! key) as [l|]; [|done].
    simpl. case_guard as Hg; [done|]. simpl.
    destruct (filter (fresh q now) l); [done|]. discriminate Hg.
  - intros k l [H1 H2]%map_lookup_filter_Some. rewrite lookup_fmap in H1.
    destruct (fq_queues q !! k) as [l0|]; [|done]. simplify_eq/=. split; [done|].
    apply Forall_forall. intros bm [? _]%list_elem_of_filter. done.
Qed.

(** C34. A change of nick moves the buffered messages: the new nick then has its
    own messages followed by those of the old nick, the old nick has none, and
    other users are untouched.  Nothing is evicted, so the merged queue can be
    longer than [max_per_user]. *)
Theorem rename_moves_queue (old_nick new_nick : str) q :
  to_ascii_lowercase old_nick ≠ to_ascii_lowercase new_nick →
  let q' := rename old_nick new_nick q in
  queue_of new_nick q' = queue_of new_nick q ++ queue_of old_nick q ∧
  message_count old_nick q' = 0 ∧
  message_count new_nick q' = message_count new_nick q + message_count old_nick q ∧
  ∀ k, k ≠ to_ascii_lowercase old_nick → k ≠ to_ascii_lowercase new_nick →
    fq_queues q' !! k = fq_queues q !! k.
Proof.
  intros Hne. unfold rename, queue_of, message_count. rewrite decide_False by done.
  set (o := to_ascii_lowercase old_nick) in *. set (n := to_ascii_lowercase new_nick) in *.
  destruct (fq_queues q !! o) as [l|] eqn:E; cbv zeta.
  - cbn [set_queues fq_queues].
    rewrite lookup_insert_eq, lookup_insert_ne, lookup_delete_eq, lookup_delete_ne by done.
    simpl. rewrite length_app. split; [done|]. split; [done|].
    split; [by destruct (fq_queues q !! n)|]. intros k Hk1 Hk2.
    by rewrite lookup_insert_ne, lookup_delete_ne.
  - rewrite E. simpl. rewrite app_nil_r. split; [done|]. split; [done|]. split; [lia|done].
Qed.

(** ** The accounting of the offline store *)

Import OfflineMessageStore.

(** The sizes of a list of messages together, and of all queues. *)
Definition bytes_of (l : list QueuedMessage) : N := foldr (λ qm acc, (qm_size qm + acc)%N) 0%N l.

Definition stored_bytes (m : gmap str (list QueuedMessage)) : N :=
  map_fold (λ _ l acc, (bytes_of l + acc)%N) 0%N m.

Record store_wf (s : OfflineMessageStore) : Prop := mk_store_wf {
  store_total : total_bytes s = stored_bytes (queues s);
  store_cap : (total_bytes s ≤ max_total_bytes s)%N;
  store_count : ∀ k l, queues s !! k = Some l → length l ≤ max_messages_per_user s;
}.

Lemma freed_bytes_exact l : (bytes_of l ≤ u64_max)%N → freed_bytes l = bytes_of l.
Proof.
  unfold freed_bytes. assert (∀ acc, (acc + bytes_of l ≤ u64_max)%N →
    foldl (λ freed qm, freed +! qm_size qm) acc l = (acc + bytes_of l)%N) as H; [|apply (H 0%N)].
  induction l as [|x l IH]; intros acc Ha; cbn [bytes_of foldr foldl] in *; [lia|].
  fold (bytes_of l) in *. rewrite u64_add_small by lia. rewrite IH; lia.
Qed.

Lemma fetch_sub_exact a b : (b ≤ a ≤ u64_max)%N → fetch_sub a b = (a - b)%N.
Proof.
  intros H. unfold fetch_sub. replace (a + u64_modulus - b)%N with (a - b + 1 * u64_modulus)%N by lia.
  rewrite N.Div0.mod_add. apply N.mod_small. u64_lia.
Qed.

Lemma bytes_of_app l1 l2 : bytes_of (l1 ++ l2) = (bytes_of l1 + bytes_of l2)%N.
Proof. induction l1 as [|x l1 IH]; simpl; [done|]. rewrite IH. lia. Qed.

Lemma bytes_of_split s now l :
  bytes_of l = (bytes_of (filter (alive s now) l) + bytes_of (filter (λ qm, ¬ alive s now qm) l))%N.
Proof.
  induction l as [|x l IH]; [done|]. rewrite !filter_cons. cbn [bytes_of foldr] in *.
  fold (bytes_of l). rewrite IH. repeat case_decide; try done; cbn [bytes_of foldr];
  unfold bytes_of; lia.
Qed.

Lemma stored_bytes_insert m k l :
  m !! k = None → stored_bytes (<[k := l]> m) = (bytes_of l + stored_bytes m)%N.
Proof.
  intros H. unfold stored_bytes. rewrite map_fold_insert_L; [done| |done].
  intros. lia.
Qed.

Lemma stored_bytes_delete m k :
  stored_bytes m = (bytes_of (default [] (m !! k)) + stored_bytes (delete k m))%N.
Proof.
  destruct (m !! k) as [l|] eqn:E; simpl.
  - rewrite <- (insert_delete_id m k l E) at 1. rewrite stored_bytes_insert; [done|].
    apply lookup_delete_eq.
  - by rewrite delete_id.
Qed.

Lemma stored_bytes_set m k l :
  stored_bytes (<[k := l]> m) = (bytes_of l + stored_bytes (delete k m))%N.
Proof.
  rewrite (stored_bytes_delete (<[k := l]> m) k), lookup_insert_eq. cbn [default].
  by rewrite delete_insert_eq.
Qed.

Section Accounting.
Context (nick : Nickname) (now : N).
Abbreviation key := (Nickname.hash_key nick).
Implicit Types s : OfflineMessageStore.

(** The queue of the user stays within the limit, and so do the others. *)
Lemma store_count_insert s q k l :
  store_wf s → length q ≤ max_messages_per_user s → <[key := q]> (queues s) !! k = Some l →
  length l ≤ max_messages_per_user s.
Proof. intros [_ _ W3] Hq [[<- <-]|[_ ?]]%lookup_insert_Some; eauto. Qed.

Lemma purge_entry_wf s :
  store_wf s → (max_total_bytes s ≤ u64_max)%N →
  store_wf (purge_entry nick now s) ∧ (total_bytes (purge_entry nick now s) ≤ total_bytes s)%N.
Proof.
  intros W Hb. pose proof W as [W1 W2 W3].
  pose proof (stored_bytes_delete (queues s) key) as Hd.
  pose proof (bytes_of_split s now (default [] (queues s !! key))) as Hs.
  unfold purge_entry, purge. rewrite freed_bytes_exact by lia.
  set (live := filter (alive s now) _) in *. set (dead := bytes_of (filter _ _)) in *.
  rewrite (fetch_sub_exact _ dead) by lia.
  assert ((if decide (0 < dead)%N then (total_bytes s - dead)%N else total_bytes s)
    = bytes_of live + stored_bytes (delete key (queues s)))%N as -> by (case_decide; lia).
  split; [split|]; cbn [total_bytes queues max_total_bytes max_messages_per_user].
  - by rewrite stored_bytes_set.
  - lia.
  - intros k l. apply store_count_insert; [done|].
    etrans; [apply length_filter|]. destruct (queues s !! key) eqn:E; simpl; [eauto|lia].
  - lia.
Qed.

Lemma push_entry_wf s (m : Message) (size : N) :
  store_wf s → (max_total_bytes s ≤ u64_max)%N → (total_bytes s + size ≤ max_total_bytes s)%N →
  store_wf (push_entry nick m size now s).2.
Proof.
  intros W Hb Hr. pose proof W as [W1 W2 W3].
  pose proof (stored_bytes_delete (queues s) key) as Hd.
  unfold push_entry. case_decide as Hc; [done|].
  split; cbn [snd total_bytes queues max_total_bytes max_messages_per_user].
  - rewrite stored_bytes_set, bytes_of_app, u64_add_small by lia.
    unfold bytes_of at 2. cbn [foldr qm_size]. lia.
  - rewrite u64_add_small by lia. lia.
  - intros k l. apply store_count_insert; [done|]. rewrite length_app. simpl. lia.
Qed.

Lemma take_messages_wf s :
  store_wf s → (max_total_bytes s ≤ u64_max)%N → store_wf (take_messages nick now s).2.
Proof.
  intros [W1 W2 W3] Hb. pose proof (stored_bytes_delete (queues s) key) as Hd.
  unfold take_messages. destruct (queues s !! key) as [l|] eqn:E; [|by split].
  change (default [] (Some l)) with l in *. rewrite freed_bytes_exact, fetch_sub_exact by lia.
  split; simpl; [lia|lia|]. intros k l' [_ H]%lookup_delete_Some. eauto.
Qed.

End Accounting.

(** C27. Called one after the other, the calls of the offline store keep it within
    its limits and its byte counter exact: queueing and taking messages keep the
    counter equal to the sum of the stored sizes and at most [max_total_bytes],
    and every queue at most [max_messages_per_user] long.  A message is refused
    exactly when it would exceed the byte limit or the user has that many live
    messages; a message that is accepted is the last of the user's queue, after
    the live ones.  The limits have to be such that the sum of the cap and a
    message size fits in 64 bits.  (Calls that overlap do not respect the cap:
    [overlapping_calls_exceed_cap].) *)
Theorem offline_store_accounting (nick : Nickname) (m : Message) (now : N) s :
  store_wf s → (max_total_bytes s + estimate_message_size m ≤ u64_max)%N →
  let live := filter (alive s now) (default [] (queues s !! Nickname.hash_key nick)) in
  let s' := (queue_message nick m now s).2 in
  store_wf s' ∧ store_wf (take_messages nick now s).2 ∧
  ((queue_message nick m now s).1 = false ↔
    (max_total_bytes s < total_bytes s + estimate_message_size m)%N ∨
    max_messages_per_user s ≤ length live) ∧
  ((queue_message nick m now s).1 = true →
    queues s' !! Nickname.hash_key nick = Some (live ++ [mkQueued m now (estimate_message_size m)])).
Proof.
  intros W Hb. cbv zeta. pose proof W as [W1 W2 W3].
  destruct (purge_entry_wf nick now s W ltac:(lia)) as [Wp Hp].
  split; [|split; [apply take_messages_wf; [done|lia]|]].
  - unfold queue_message, has_room. rewrite u64_add_small by lia. case_bool_decide; simpl; [done|].
    apply push_entry_wf; [done|simpl; lia|simpl in *; lia].
  - unfold queue_message, has_room. rewrite u64_add_small by lia. case_bool_decide; simpl; [naive_solver|].
    unfold push_entry, purge_entry, purge. simpl. rewrite lookup_insert_eq. simpl.
    case_decide; simpl; [naive_solver|]. rewrite lookup_insert_eq. naive_solver.
Qed.

(** A message for a user without a queue. *)
Lemma purge_then_push_new (nick : Nickname) (m : Message) (size now : N) s :
  queues s !! Nickname.hash_key nick = None → 0 < max_messages_per_user s →
  push_entry nick m size now (purge_entry nick now s) =
    (true, mkOffline (<[Nickname.hash_key nick := [mkQueued m now size]]>
                        (<[Nickname.hash_key nick := []]> (queues s)))
             (max_messages_per_user s) (max_total_bytes s) (message_ttl s) (total_bytes s +! size)).
Proof.
  intros Hk Hm. unfold push_entry, purge_entry, purge. rewrite Hk. simpl. rewrite lookup_insert_eq. simpl.
  by rewrite decide_False by lia.
Qed.

(** The counter is read before the entry is locked and raised later, so two calls
    for different users can both pass the check: two messages that fit on their own
    but not together are both stored, and the counter is above the cap. *)
Lemma overlapping_calls_exceed_cap (n1 n2 : Nickname) (m1 m2 : Message) (now : N) s :
  let size1 := estimate_message_size m1 in
  let size2 := estimate_message_size m2 in
  queues s = ∅ → 0 < max_messages_per_user s → Nickname.hash_key n1 ≠ Nickname.hash_key n2 →
  has_room size1 s = true → has_room size2 s = true →
  (max_total_bytes s < total_bytes s + size1 + size2 ≤ u64_max)%N →
  ∃ s1 s2, push_entry n1 m1 size1 now (purge_entry n1 now s) = (true, s1) ∧
    push_entry n2 m2 size2 now (purge_entry n2 now s1) = (true, s2) ∧
    total_bytes s2 = (total_bytes s + size1 + size2)%N ∧ (max_total_bytes s2 < total_bytes s2)%N.
Proof.
  cbv zeta. intros Hq Hm Hne _ _ Hb.
  rewrite (purge_then_push_new n1) by (done || by rewrite Hq, lookup_empty).
  eexists _, _. split; [done|]. rewrite (purge_then_push_new n2).
  - split; [done|]. cbn. rewrite !u64_add_small by (rewrite ?u64_add_small; lia). lia.
  - simpl. by rewrite Hq, !lookup_insert_ne, lookup_empty by done.
  - done.
Qed.

(** ** Witnesses *)

Definition ping : Message := mkMessage None Ping [lit "a"].

Definition pong : Message := mkMessage None Pong [lit "b"].

Definition two_users : FailoverMessageQueue :=
  (enqueue (lit "bob") pong 3 (enqueue (lit "Alice") ping 1 (FailoverMessageQueue.new 1 10)).2).2.

Lemma failover_delivers_newest_witness :
  (drain (lit "ALICE") 5 (enqueue_all (lit "alice") [(ping, 2%N); (pong, 3%N)] two_users)).1 = [pong].
Proof.
  rewrite (proj1 (failover_delivers_newest (lit "alice") (lit "ALICE") [(ping, 2%N); (pong, 3%N)] 5
    two_users ltac:(vm_compute; reflexivity))).
  vm_compute. reflexivity.
Defined.

Lemma expiry_invisible_witness :
  (drain (lit "bob") 12 (expire_all 11 two_users)).1 = [pong].
Proof.
  rewrite (proj1 (expiry_invisible (lit "bob") 11 12 two_users ltac:(lia))).
  vm_compute. reflexivity.
Defined.

(** The merged queue exceeds the capacity of one. *)
Lemma rename_moves_queue_witness :
  message_count (lit "Alice") (rename (lit "Bob") (lit "Alice") two_users) = 2 ∧
  fq_max_per_user two_users = 1.
Proof.
  split; [|reflexivity].
  rewrite (proj1 (proj2 (proj2 (rename_moves_queue (lit "Bob") (lit "Alice") two_users
    ltac:(vm_compute; discriminate))))).
  vm_compute. reflexivity.
Defined.

Lemma default_store_wf : store_wf default_store.
Proof.
  split; [reflexivity|simpl; lia|]. intros k l H.
  change (queues default_store) with (∅ : gmap str (list QueuedMessage)) in H.
  by rewrite lookup_empty in H.
Qed.

Definition bob_nick : Nickname := mkNickname (lit "Bob").

Lemma offline_store_accounting_witness :
  store_wf (queue_message bob_nick ping 5 default_store).2 ∧
  queues (queue_message bob_nick ping 5 default_store).2 !! lit "bob"
    = Some [mkQueued ping 5 (estimate_message_size ping)].
Proof.
  destruct (offline_store_accounting bob_nick ping 5 default_store default_store_wf
    ltac:(vm_compute; discriminate)) as (H1 & _ & _ & H4).
  split; [exact H1|]. apply H4. vm_compute. reflexivity.
Defined.
