(* ===== verification/UserRegistry.v ===== *)
(** The registry of connected users: [src/pirc-server/src/registry.rs] and the
    session record of [user.rs].

    The registry hands out [Arc<RwLock<UserSession>>]: handles to shared
    sessions that other parts of the server keep and write through.  The model
    has the sessions in a store, [sessions], and a handle is the key of a session
    there; [by_nick] maps nicks to handles, under the key that [Nickname]'s [Eq]
    and [Hash] use.  Each method of [DashMap] is atomic under the lock of a
    shard; [change_nick] is composed of several of them, which are definitions
    of their own so that other threads can run in between. *)

From S2P Require Import Prelude.
From S2P Require Import IrcTypes.

(** ** user.rs, with the modes of mode.rs *)

Inductive UserMode : Type := Normal | Voiced | Operator | Admin.

(** [sender] is the identity of the channel to the connection's writer. *)
Record UserSession : Type := mkSession {
  connection_id : N;
  nickname : Nickname;
  username : str;
  realname : str;
  hostname : str;
  modes : list UserMode;
  away_message : option str;
  connected_at : N;
  signon_time : N;
  last_active : N;
  registered : bool;
  sender : N;
}.

Definition set_nickname (n : Nickname) (s : UserSession) : UserSession :=
  mkSession (connection_id s) n (username s) (realname s) (hostname s) (modes s) (away_message s)
    (connected_at s) (signon_time s) (last_active s) (registered s) (sender s).

(** The errors of [pirc-common/src/error.rs] that the registry returns. *)
Inductive UserError : Type :=
| NickInUse (nick : str)
| InvalidNick (nick reason : str)
| NotOperator
| NotFound (nick : str).

(** ** registry.rs *)

(** A handle to a shared session. *)
Definition handle : Type := N.

Record UserRegistry : Type := mkRegistry {
  sessions : gmap handle UserSession;
  next_handle : handle;
  by_nick : gmap str handle;
  by_connection : gmap N Nickname;
  connection_count : N;
}.

Module UserRegistry.

Definition new : UserRegistry := mkRegistry ∅ 0%N ∅ ∅ 0%N.

Definition get_by_nick (nick : Nickname) (r : UserRegistry) : option handle :=
  by_nick r !! Nickname.hash_key nick.

Definition get_by_connection (connection_id : N) (r : UserRegistry) : option handle :=
  nick ← by_connection r !! connection_id; by_nick r !! Nickname.hash_key nick.

Definition nick_in_use (nick : Nickname) (r : UserRegistry) : bool :=
  bool_decide (is_Some (by_nick r !! Nickname.hash_key nick)).

(** [Arc::new] makes the handle. *)
Definition register (session : UserSession) (r : UserRegistry)
    : result UserError unit * UserRegistry :=
  let nick := nickname session in
  let conn_id := connection_id session in
  match by_nick r !! Nickname.hash_key nick with
  | Some _ => (Err (NickInUse (nick_str nick)), r)
  | None =>
      let h := next_handle r in
      (Ok tt, mkRegistry (<[h := session]> (sessions r)) (h + 1)%N
                (<[Nickname.hash_key nick := h]> (by_nick r))
                (<[conn_id := nick]> (by_connection r)) (connection_count r +! 1))
  end.

(** [AtomicUsize::fetch_sub(1)], which wraps. *)
Definition decrement (n : N) : N := ((n + u64_max) mod u64_modulus)%N.

Definition remove_by_connection (connection_id : N) (r : UserRegistry)
    : option handle * UserRegistry :=
  match by_connection r !! connection_id with
  | None => (None, r)
  | Some nick =>
      let conns := delete connection_id (by_connection r) in
      match by_nick r !! Nickname.hash_key nick with
      | None => (None, mkRegistry (sessions r) (next_handle r) (by_nick r) conns (connection_count r))
      | Some h =>
          (Some h, mkRegistry (sessions r) (next_handle r)
                     (delete (Nickname.hash_key nick) (by_nick r)) conns
                     (decrement (connection_count r)))
      end
  end.

(** The atomic parts of [change_nick] after the check that the new nick is free:
    [by_nick.remove(old)]; the update of the session, with the reverse lookup,
    under its lock; [by_nick.insert(new, session)]. *)
Definition take_nick (old : Nickname) (r : UserRegistry) : option (handle * UserRegistry) :=
  h ← by_nick r !! Nickname.hash_key old;
  Some (h, mkRegistry (sessions r) (next_handle r) (delete (Nickname.hash_key old) (by_nick r))
             (by_connection r) (connection_count r)).

Definition rename_session (new : Nickname) (h : handle) (r : UserRegistry) : UserRegistry :=
  match sessions r !! h with
  | None => r
  | Some s =>
      mkRegistry (<[h := set_nickname new s]> (sessions r)) (next_handle r) (by_nick r)
        (<[connection_id s := new]> (by_connection r)) (connection_count r)
  end.

Definition insert_nick (new : Nickname) (h : handle) (r : UserRegistry) : UserRegistry :=
  mkRegistry (sessions r) (next_handle r) (<[Nickname.hash_key new := h]> (by_nick r))
    (by_connection r) (connection_count r).

Definition change_nick (old new : Nickname) (r : UserRegistry)
    : result UserError unit * UserRegistry :=
  if Nickname.eq old new then
    match get_by_nick old r with
    | Some h => (Ok tt, mkRegistry (alter (set_nickname new) h (sessions r)) (next_handle r)
                          (by_nick r) (by_connection r) (connection_count r))
    | None => (Ok tt, r)
    end
  else if nick_in_use new r then (Err (NickInUse (nick_str new)), r)
  else match take_nick old r with
  | None => (Err (NotFound (nick_str old)), r)
  | Some (h, r1) => (Ok tt, insert_nick new h (rename_session new h r1))
  end.

(** [iter_sessions], as the handles it yields (their order is unspecified). *)
Definition iter_sessions (r : UserRegistry) : list handle := (map_to_list (by_nick r)).*2.

End UserRegistry.

(** ** The registry invariant *)

Import UserRegistry.

(** [r] maps [nick], up to case, to the handle [h] of a session [s] that has that
    nick and whose connection is mapped back to it. *)
Definition linked (r : UserRegistry) (k : str) (h : handle) (s : UserSession) (n : Nickname) : Prop :=
  by_nick r !! k = Some h ∧ sessions r !! h = Some s ∧ Nickname.hash_key (nickname s) = k ∧
  by_connection r !! connection_id s = Some n ∧ Nickname.hash_key n = k.

Record registry_wf (r : UserRegistry) : Prop := mk_registry_wf {
  wf_nick : ∀ k h, by_nick r !! k = Some h → ∃ s n, linked r k h s n;
  wf_connection : ∀ c n, by_connection r !! c = Some n →
    ∃ h s, linked r (Nickname.hash_key n) h s n ∧ connection_id s = c;
  wf_handles : ∀ h, is_Some (sessions r !! h) → (h < next_handle r)%N;
  wf_count : connection_count r = N.of_nat (size (by_nick r));
  wf_sizes : size (by_nick r) = size (by_connection r);
  wf_bound : (connection_count r ≤ u64_max)%N;
}.

Lemma registry_new_wf : registry_wf new.
Proof. split; [..|done|done|done]; intros *; cbn; rewrite lookup_empty; [done|done|by intros []]. Qed.

Lemma nickname_eq_key (a b : Nickname) :
  Nickname.eq a b = true ↔ Nickname.hash_key a = Nickname.hash_key b.
Proof. apply eq_ignore_ascii_case_iff. Qed.

(** A nick determines its handle and a handle its nick; so do connections. *)
Lemma linked_inj r k k' h s s' n n' :
  linked r k h s n → linked r k' h s' n' → k = k' ∧ s = s'.
Proof. intros (A1 & A2 & <- & A4 & A5) (B1 & B2 & <- & B4 & B5). by simplify_eq. Qed.

Lemma linked_connection_inj r k k' h h' s s' n n' :
  linked r k h s n → linked r k' h' s' n' → connection_id s = connection_id s' → k = k'.
Proof. intros (A1 & A2 & A3 & A4 & <-) (B1 & B2 & B3 & B4 & <-) E. by rewrite E in *; simplify_eq. Qed.

Lemma decrement_S n : (N.of_nat (S n) ≤ u64_max)%N → decrement (N.of_nat (S n)) = N.of_nat n.
Proof.
  intros H. unfold decrement. replace (N.of_nat (S n) + u64_max)%N with (N.of_nat n + 1 * u64_modulus)%N
    by u64_lia.
  rewrite N.Div0.mod_add. apply N.mod_small. u64_lia.
Qed.

Lemma register_wf (s : UserSession) r :
  registry_wf r → by_connection r !! connection_id s = None →
  (N.of_nat (size (by_nick r)) < u64_max)%N → registry_wf (register s r).2.
Proof.
  intros [W1 W2 W3 W4 W5 W6] Hc Hb. unfold register.
  destruct (by_nick r !! Nickname.hash_key (nickname s)) eqn:E; [done|]. cbn [snd].
  assert (sessions r !! next_handle r = None) as Hf.
  { destruct (sessions r !! next_handle r) eqn:E'; [|done].
    specialize (W3 _ (mk_is_Some _ _ E')). lia. }
  set (r' := mkRegistry _ _ _ _ _).
  assert (∀ k h s0 n, linked r k h s0 n → linked r' k h s0 n) as Hl.
  { intros k h s0 n (A1 & A2 & A3 & A4 & A5).
    unfold linked; cbn. rewrite !lookup_insert_ne by congruence. done. }
  assert (linked r' (Nickname.hash_key (nickname s)) (next_handle r) s (nickname s)) as Hn.
  { unfold linked; cbn. by rewrite !lookup_insert_eq. }
  split; unfold r' in *; cbn [by_nick by_connection sessions next_handle connection_count] in *.
  - intros k h [[<- <-]|[? H]]%lookup_insert_Some; [eauto|].
    destruct (W1 _ _ H) as (s0 & n & L). eauto.
  - intros c n [[<- <-]|[? H]]%lookup_insert_Some; [eauto|].
    destruct (W2 _ _ H) as (h & s0 & L & <-). eauto.
  - intros h [x [[<- <-]|[? H]]%lookup_insert_Some]; [lia|].
    specialize (W3 h ltac:(eauto)). lia.
  - rewrite map_size_insert_None, W4, u64_add_small by (done || lia). lia.
  - by rewrite !map_size_insert_None, W5.
  - apply u64_add_bound.
Qed.

Lemma remove_wf (c : N) r :
  registry_wf r → registry_wf (remove_by_connection c r).2.
Proof.
  intros W. unfold remove_by_connection.
  destruct (by_connection r !! c) as [n|] eqn:E; [|done].
  destruct (wf_connection r W c n E) as (h & s & L & Hs). pose proof L as (A1 & A2 & A3 & A4 & A5).
  rewrite A1. cbn [snd]. destruct W as [W1 W2 W3 W4 W5 W6].
  assert (size (by_nick r) ≠ 0) as Hz.
  { intros H%map_size_empty_inv. by rewrite H in A1. }
  split; cbn [by_nick by_connection sessions next_handle connection_count].
  - intros k h' [Hk H]%lookup_delete_Some. destruct (W1 _ _ H) as (s' & n' & L').
    exists s', n'. pose proof L' as (B1 & B2 & B3 & B4 & B5).
    unfold linked; cbn [by_nick sessions by_connection]. rewrite !lookup_delete_ne; [done| |done].
    intros ->. apply Hk. eapply linked_connection_inj; eauto.
  - intros c' n' [Hk H]%lookup_delete_Some. destruct (W2 _ _ H) as (h' & s' & L' & Hs').
    exists h', s'. split; [|done]. pose proof L' as (B1 & B2 & B3 & B4 & B5).
    unfold linked; cbn [by_nick sessions by_connection]. rewrite !lookup_delete_ne; [done|congruence|].
    intros Hh. rewrite <- Hh in B1. assert (h = h') as <- by congruence.
    destruct (linked_inj _ _ _ _ _ _ _ _ L L') as [_ ->]. congruence.
  - done.
  - rewrite map_size_delete_Some by eauto. rewrite W4.
    rewrite W4 in W6.
    destruct (size (by_nick r)); [done|]. by apply decrement_S.
  - rewrite !map_size_delete_Some by eauto. by rewrite W5.
  - unfold decrement. pose proof (N.mod_upper_bound (connection_count r + u64_max) u64_modulus). u64_lia.
Qed.

(** The spelling of a nick does not matter to the links. *)
Lemma recase_wf (k : str) (h : handle) (n : Nickname) r :
  registry_wf r → by_nick r !! k = Some h → Nickname.hash_key n = k →
  registry_wf (mkRegistry (alter (set_nickname n) h (sessions r)) (next_handle r) (by_nick r)
                 (by_connection r) (connection_count r)).
Proof.
  intros W Hk Hn. set (r' := mkRegistry _ _ _ _ _).
  assert (∀ k' h' s' n', linked r k' h' s' n' →
    ∃ s'', linked r' k' h' s'' n' ∧ connection_id s'' = connection_id s') as Hl.
  { intros k' h' s' n' L. pose proof L as (B1 & B2 & B3 & B4 & B5). unfold linked; cbn.
    destruct (decide (h' = h)) as [->|Hne].
    - exists (set_nickname n s'). rewrite lookup_alter_eq, B2. cbn.
      destruct (wf_nick r W _ _ Hk) as (s0 & n0 & L0).
      destruct (linked_inj _ _ _ _ _ _ _ _ L L0) as [-> _]. done.
    - exists s'. by rewrite lookup_alter_ne by done. }
  destruct W as [W1 W2 W3 W4 W5 W6]. split; unfold r' in *; cbn in *.
  - intros k' h' H. destruct (W1 _ _ H) as (s & n' & L). destruct (Hl _ _ _ _ L) as (? & ? & ?). eauto.
  - intros c n' H. destruct (W2 _ _ H) as (h' & s & L & <-). destruct (Hl _ _ _ _ L) as (? & ? & ?). eauto.
  - intros h' H. apply W3. by apply lookup_alter_is_Some in H.
  - done.
  - done.
  - done.
Qed.

(** The registry after a change to a free nick that differs from the old one. *)
Definition moved (old new : Nickname) (h : handle) (s : UserSession) (r : UserRegistry) : UserRegistry :=
  mkRegistry (<[h := set_nickname new s]> (sessions r)) (next_handle r)
    (<[Nickname.hash_key new := h]> (delete (Nickname.hash_key old) (by_nick r)))
    (<[connection_id s := new]> (by_connection r)) (connection_count r).

Lemma change_nick_cases (old new : Nickname) r :
  registry_wf r →
  (Nickname.hash_key old = Nickname.hash_key new ∧ change_nick old new r =
     (Ok tt, match get_by_nick old r with
             | Some h => mkRegistry (alter (set_nickname new) h (sessions r)) (next_handle r)
                           (by_nick r) (by_connection r) (connection_count r)
             | None => r end)) ∨
  (Nickname.hash_key old ≠ Nickname.hash_key new ∧ is_Some (get_by_nick new r) ∧
   change_nick old new r = (Err (NickInUse (nick_str new)), r)) ∨
  (Nickname.hash_key old ≠ Nickname.hash_key new ∧ get_by_nick new r = None ∧
   get_by_nick old r = None ∧ change_nick old new r = (Err (NotFound (nick_str old)), r)) ∨
  (Nickname.hash_key old ≠ Nickname.hash_key new ∧ get_by_nick new r = None ∧
   ∃ h s n, linked r (Nickname.hash_key old) h s n ∧ change_nick old new r = (Ok tt, moved old new h s r)).
Proof.
  intros W. unfold change_nick.
  destruct (Nickname.eq old new) eqn:E.
  { left. split; [by apply nickname_eq_key|]. by destruct (get_by_nick old r). }
  assert (Nickname.hash_key old ≠ Nickname.hash_key new) as Hne.
  { intros H%nickname_eq_key. congruence. }
  right. unfold nick_in_use, get_by_nick, take_nick.
  case_bool_decide as Hu; [by left|]. apply eq_None_not_Some in Hu. right.
  destruct (by_nick r !! Nickname.hash_key old) as [h|] eqn:Eo; [|by left]. right.
  destruct (wf_nick r W _ _ Eo) as (s & n & L). split; [done|]. split; [done|]. exists h, s, n.
  split; [done|]. destruct L as (_ & L & _). unfold rename_session. cbn. by rewrite L.
Qed.

Lemma linked_moved (old new : Nickname) h s n r :
  Nickname.hash_key old ≠ Nickname.hash_key new →
  by_nick r !! Nickname.hash_key new = None → linked r (Nickname.hash_key old) h s n →
  linked (moved old new h s r) (Nickname.hash_key new) h (set_nickname new s) new ∧
  ∀ k' h' s' n', linked r k' h' s' n' → k' ≠ Nickname.hash_key old →
    linked (moved old new h s r) k' h' s' n'.
Proof.
  intros Hne Hf L. split; [unfold linked; cbn; by rewrite !lookup_insert_eq|].
  intros k' h' s' n' L' Hk. pose proof L' as (B1 & B2 & B3 & B4 & B5).
  assert (h' ≠ h). { intros ->. destruct (linked_inj _ _ _ _ _ _ _ _ L L'). congruence. }
  assert (connection_id s ≠ connection_id s').
  { intros E. apply Hk. symmetry. by eapply linked_connection_inj. }
  unfold linked; cbn. rewrite !lookup_insert_ne, lookup_delete_ne by congruence. done.
Qed.

Lemma change_nick_wf (old new : Nickname) r : registry_wf r → registry_wf (change_nick old new r).2.
Proof.
  intros W.
  destruct (change_nick_cases old new r W) as [[E ->]|[(_ & _ & ->)|[(_ & _ & _ & ->)|
    (Hne & Hf & h & s & n & L & ->)]]]; cbn [snd]; [|done|done|].
  { destruct (get_by_nick old r) eqn:Eo; [|done]. by eapply recase_wf. }
  destruct (linked_moved old new h s n r Hne Hf L) as [Ln Lo].
  pose proof L as (A1 & A2 & A3 & A4 & A5).
  destruct W as [W1 W2 W3 W4 W5 W6]. split; cbn.
  - intros k h' [[<- <-]|[? [? H]%lookup_delete_Some]]%lookup_insert_Some; [eauto|].
    destruct (W1 _ _ H) as (s' & n' & L'). eauto.
  - intros c n' [[<- <-]|[Hc H]]%lookup_insert_Some; [eauto|].
    destruct (W2 _ _ H) as (h' & s' & L' & <-). exists h', s'. split; [|done].
    apply Lo; [done|]. intros E. rewrite E in L'. pose proof L' as (B1 & B2 & _).
    assert (h' = h) as -> by congruence. congruence.
  - intros h' [x [[<- <-]|[? H]]%lookup_insert_Some]; eauto.
  - rewrite map_size_insert_None, map_size_delete_Some; [|by eauto|by apply lookup_delete_None; auto].
    rewrite W4. pose proof (map_size_empty_inv (by_nick r)). destruct (size (by_nick r)) eqn:Es; [|done].
    rewrite H in A1 by done. done.
  - rewrite map_size_insert_None, map_size_delete_Some, map_size_insert_Some;
      [|by eauto|by eauto|by apply lookup_delete_None; auto].
    rewrite <- W5. pose proof (map_size_empty_inv (by_nick r)). destruct (size (by_nick r)) eqn:Es; [|done].
    rewrite H in A1 by done. done.
  - done.
Qed.

(** ** What the registry promises *)

(** A call from a server in which every connection has an id of its own and
    registers once, and which has fewer than [u64::MAX] users. *)
Inductive registry_step : UserRegistry → UserRegistry → Prop :=
| step_register s r :
    by_connection r !! connection_id s = None → (connection_count r < u64_max)%N →
    registry_step r (register s r).2
| step_remove c r : registry_step r (remove_by_connection c r).2
| step_change_nick old new r : registry_step r (change_nick old new r).2.

Lemma registry_steps_wf r r' : rtc registry_step r r' → registry_wf r → registry_wf r'.
Proof.
  induction 1 as [|r1 r2 r3 Hs _ IH]; [done|]. intros W. apply IH. destruct Hs.
  - apply register_wf; [done|done|]. by rewrite <- (wf_count r W).
  - by apply remove_wf.
  - by apply change_nick_wf.
Qed.

Lemma iter_sessions_NoDup r : registry_wf r → NoDup (iter_sessions r).
Proof.
  intros W. apply NoDup_fmap_2_strong; [|apply NoDup_map_to_list].
  intros [k h] [k' h'] H H' E. simpl in E. subst h'.
  apply elem_of_map_to_list in H, H'.
  destruct (wf_nick r W _ _ H) as (s & n & L), (wf_nick r W _ _ H') as (s' & n' & L').
  by destruct (linked_inj _ _ _ _ _ _ _ _ L L') as [-> _].
Qed.

(** C24. In every state that registrations, disconnects and nick changes reach
    from the empty registry, as whole calls one after the other, by connections
    that register at most once while they are connected and with fewer than
    [2^64 - 1] users, the two lookups agree: the
    session found by a nick has that nick up to case and is found by its own
    connection; the session found by a connection has that connection and is
    found by its own nick; [iter_sessions] yields every session once and
    [connection_count] is their number.  (Calls that overlap can break this:
    [change_nick_race].) *)
Theorem registry_consistent r :
  rtc registry_step new r →
  (∀ nick h, get_by_nick nick r = Some h → ∃ s, sessions r !! h = Some s ∧
     Nickname.eq (nickname s) nick = true ∧ get_by_connection (connection_id s) r = Some h) ∧
  (∀ c h, get_by_connection c r = Some h → ∃ s, sessions r !! h = Some s ∧
     connection_id s = c ∧ get_by_nick (nickname s) r = Some h) ∧
  NoDup (iter_sessions r) ∧ connection_count r = N.of_nat (length (iter_sessions r)).
Proof.
  intros H. pose proof (registry_steps_wf _ _ H registry_new_wf) as W. split; [|split; [|split]].
  - intros nick h (s & n & A1 & A2 & A3 & A4 & A5)%(wf_nick r W). exists s.
    split; [done|]. split; [by apply nickname_eq_key|]. unfold get_by_connection. rewrite A4. simpl.
    by rewrite A5.
  - intros c h Hg. unfold get_by_connection in Hg.
    destruct (by_connection r !! c) as [n|] eqn:E; [|done]. simpl in Hg.
    destruct (wf_connection r W _ _ E) as (h' & s & (A1 & A2 & A3 & A4 & A5) & <-).
    exists s. rewrite A1 in Hg. simplify_eq. unfold get_by_nick. by rewrite A3.
  - by apply iter_sessions_NoDup.
  - unfold iter_sessions. rewrite length_fmap, length_map_to_list. apply wf_count, W.
Qed.

(** A move leaves the other connections alone: their nicks are neither the old
    nor the new one. *)
Lemma get_by_connection_moved (old new : Nickname) h s n c r :
  registry_wf r → get_by_nick new r = None → linked r (Nickname.hash_key old) h s n →
  c ≠ connection_id s → get_by_connection c (moved old new h s r) = get_by_connection c r.
Proof.
  intros W Hf L Hc. unfold get_by_connection, get_by_nick in *; cbn. rewrite lookup_insert_ne by done.
  destruct (by_connection r !! c) as [n'|] eqn:E; [|done]. simpl.
  destruct (wf_connection r W _ _ E) as (h' & s' & L' & Hs'). pose proof L' as (B1 & _).
  rewrite lookup_insert_ne, lookup_delete_ne; [done|..].
  - intros Ek. rewrite <- Ek in L'. pose proof L as (A1 & _). pose proof L' as (B1' & _).
    assert (h' = h) as -> by congruence. destruct (linked_inj _ _ _ _ _ _ _ _ L L') as [_ ->]. done.
  - congruence.
Qed.

(** C25. On a consistent registry a change of nick to a free nick that differs from
    the old one beyond case moves the user: the new nick gives the
    same shared session, which now carries the new nick and is otherwise as it
    was, the connection still finds it, the old nick finds nothing, and every
    other nick, every other connection and every other session is untouched.  The call fails exactly when the two
    nicks differ and the new one is taken or, that apart, the old one is unknown,
    and then it changes nothing. *)
Theorem change_nick_moves (old new : Nickname) r :
  registry_wf r → Nickname.eq old new = false →
  match change_nick old new r with
  | (Ok _, r') => get_by_nick new r = None ∧ ∃ h s, get_by_nick old r = Some h ∧
      sessions r !! h = Some s ∧ sessions r' = <[h := set_nickname new s]> (sessions r) ∧
      get_by_nick new r' = Some h ∧ get_by_nick old r' = None ∧
      get_by_connection (connection_id s) r' = Some h ∧
      (∀ nick, Nickname.eq nick old = false → Nickname.eq nick new = false →
         get_by_nick nick r' = get_by_nick nick r) ∧
      (∀ c, c ≠ connection_id s → get_by_connection c r' = get_by_connection c r) ∧
      connection_count r' = connection_count r
  | (Err e, r') => r' = r ∧
      if nick_in_use new r then e = NickInUse (nick_str new)
      else get_by_nick old r = None ∧ e = NotFound (nick_str old)
  end.
Proof.
  intros W Hn.
  assert (∀ a b, Nickname.eq a b = false → Nickname.hash_key b ≠ Nickname.hash_key a) as Hk.
  { intros a b H E. symmetry in E. apply nickname_eq_key in E. congruence. }
  unfold nick_in_use.
  destruct (change_nick_cases old new r W) as [[E ->]|[(_ & Hu & ->)|[(_ & Hu & Ho & ->)|
    (Hne & Hf & h & s & n & L & ->)]]].
  - by destruct (Hk _ _ Hn).
  - by rewrite bool_decide_eq_true_2.
  - unfold get_by_nick in Hu. by rewrite Hu.
  - split; [done|]. exists h, s. pose proof L as (A1 & A2 & _).
    split; [done|]. split; [done|]. split; [done|].
    split; [unfold get_by_nick; cbn; by rewrite lookup_insert_eq|].
    split; [unfold get_by_nick; cbn; by rewrite lookup_insert_ne, lookup_delete_eq by done|].
    split; [unfold get_by_connection; cbn; rewrite lookup_insert_eq; simpl; by rewrite lookup_insert_eq|].
    split; [|split; [|done]].
    + intros nick H1 H2. unfold get_by_nick; cbn. rewrite lookup_insert_ne, lookup_delete_ne; auto.
    + intros c Hc. by eapply get_by_connection_moved.
Qed.

(** C40. [change_nick] is not atomic: between its check that the new nick is free
    and its insertion, another connection can register that nick, and the
    insertion then takes the entry over.  Both connections find the session of
    the first afterwards, and the session just registered is found by neither a
    connection nor a nick. *)
Theorem change_nick_race (old new : Nickname) (s : UserSession) (h : handle) r :
  registry_wf r → get_by_nick old r = Some h → Nickname.eq old new = false →
  nick_in_use new r = false → nickname s = new → by_connection r !! connection_id s = None →
  ∃ r1 r2, register s r = (Ok tt, r1) ∧ take_nick old r1 = Some (h, r2) ∧
    let r3 := insert_nick new h (rename_session new h r2) in
    get_by_connection (connection_id s) r3 = Some h ∧
    (∀ s0, sessions r !! h = Some s0 → get_by_connection (connection_id s0) r3 = Some h) ∧
    sessions r3 !! next_handle r = Some s ∧
    ∀ k, by_nick r3 !! k ≠ Some (next_handle r).
Proof.
  intros W Ho Hn Hu Hs Hc. unfold nick_in_use in Hu. apply bool_decide_eq_false, eq_None_not_Some in Hu.
  assert (Nickname.hash_key new ≠ Nickname.hash_key old) as Hne.
  { intros E. symmetry in E. apply nickname_eq_key in E. congruence. }
  destruct (wf_nick r W _ _ Ho) as (s1 & n & A1 & A2 & A3 & A4 & A5).
  pose proof (wf_handles r W h ltac:(eauto)) as Hh.
  unfold register. rewrite Hs, Hu. eexists _, _. split; [done|]. unfold take_nick. cbn [by_nick].
  rewrite lookup_insert_ne, A1 by done. split; [done|]. unfold rename_session. cbn [sessions].
  rewrite lookup_insert_ne, A2 by lia. unfold get_by_connection; cbn.
  assert (connection_id s1 ≠ connection_id s) by congruence.
  split; [by rewrite lookup_insert_ne, lookup_insert_eq by done; simpl; rewrite lookup_insert_eq|].
  split; [intros s0 [= <-]; rewrite lookup_insert_eq; simpl; by rewrite lookup_insert_eq|].
  split; [rewrite lookup_insert_ne by lia; by rewrite lookup_insert_eq|].
  intros k [[_ E]|[Hk [_ [[E _]|[_ Hr]]%lookup_insert_Some]%lookup_delete_Some]]%lookup_insert_Some.
  - lia.
  - done.
  - destruct (wf_nick r W _ _ Hr) as (s2 & n2 & _ & B2 & _).
    pose proof (wf_handles r W _ (mk_is_Some _ _ B2)). lia.
Qed.

(** ** Witnesses *)

Definition session_of (c : N) (nick : str) : UserSession :=
  mkSession c (mkNickname nick) (lit "user") (lit "User") (lit "localhost") [] None 0 0 0 true c.

Definition alice : Nickname := mkNickname (lit "Alice").
Definition bob : Nickname := mkNickname (lit "bob").

Definition one_user : UserRegistry := (register (session_of 1 (lit "alice")) new).2.

Lemma one_user_reachable : rtc registry_step new one_user.
Proof.
  apply rtc_once, step_register; [vm_compute; reflexivity|]. cbn. u64_lia.
Qed.

Lemma registry_consistent_witness :
  ∃ s, sessions one_user !! 0%N = Some s ∧ Nickname.eq (nickname s) alice = true ∧
    get_by_connection (connection_id s) one_user = Some 0%N.
Proof.
  apply (proj1 (registry_consistent one_user one_user_reachable) alice 0%N).
  vm_compute. reflexivity.
Defined.

Lemma change_nick_moves_witness :
  get_by_nick bob (change_nick alice bob one_user).2 = Some 0%N.
Proof.
  pose proof (change_nick_moves alice bob one_user
    (registry_steps_wf _ _ one_user_reachable registry_new_wf) ltac:(vm_compute; reflexivity)) as H.
  assert (change_nick alice bob one_user = (Ok tt, (change_nick alice bob one_user).2)) as E
    by (vm_compute; reflexivity).
  rewrite E in H. destruct H as (_ & h & s & H1 & _ & _ & H2 & _).
  rewrite H2, <- H1. vm_compute. reflexivity.
Defined.

(** Alice becomes bob while another connection registers bob. *)
Lemma change_nick_race_witness :
  ∃ r1 r2, register (session_of 2 (lit "bob")) one_user = (Ok tt, r1) ∧
    take_nick alice r1 = Some (0%N, r2) ∧
    get_by_connection 2 (insert_nick bob 0%N (rename_session bob 0%N r2)) = Some 0%N.
Proof.
  destruct (change_nick_race alice bob (session_of 2 (lit "bob")) 0%N one_user
    (registry_steps_wf _ _ one_user_reachable registry_new_wf)
    ltac:(vm_compute; reflexivity) ltac:(vm_compute; reflexivity) ltac:(vm_compute; reflexivity)
    ltac:(vm_compute; reflexivity) ltac:(vm_compute; reflexivity)) as (r1 & r2 & H1 & H2 & H3 & _).
  by exists r1, r2.
Defined.
